(** * Charge: the room-to-nurse allocation engine (src/utils/assignment.ts)

    A shallow embedding of the allocation engine and the proofs of the
    properties its specification states: capacity planning, the phase
    sequence with round-robin and scored selection, dense ranks and the
    two result tables. *)

From Stdlib Require Import ZArith QArith Lia List Permutation Sorted Ascii String Bool.
From stdpp Require Import gmap strings list.
Import ListNotations.

Local Open Scope string_scope.
Local Open Scope list_scope.
Local Open Scope Z_scope.

(** ** JavaScript numbers used as real numbers

    Counters, capacities, ranks, indices and epoch milliseconds are
    integral JS numbers far below 2^53, where double arithmetic is exact:
    they are modelled in [Z] (array indices and lengths in [nat]).  The
    workload and load values are genuine doubles.  Their arithmetic is kept
    abstract behind this interface, so every theorem below holds for IEEE
    doubles as well as for the exact instance [QNumber] used to run the
    model. *)
#[projections(primitive)]
Class JSNumber := {
  num : Type;
  (** a numeric literal, or an integral counter used in a real expression *)
  lit : Q -> num;
  nadd : num -> num -> num;
  nsub : num -> num -> num;
  nmul : num -> num -> num;
  ndiv : num -> num -> num;
  npow : num -> num -> num;
  nmax : num -> num -> num;
  (** how [Array.prototype.sort] and [||] read a number: [Eq] for the falsy
      values (+0, -0, NaN), [Lt] for negative and [Gt] for positive ones *)
  nsign : num -> comparison
}.

Definition ofZ `{JSNumber} (z : Z) : num := lit (inject_Z z).

Definition Qpow_int (x e : Q) : Q :=
  Qred (Qpower x (Qnum e / Zpos (Qden e))).

(** Exact rational arithmetic: the instance the examples are run with. *)
#[export] Instance QNumber : JSNumber := {|
  num := Q;
  lit := Qred;
  nadd := fun a b => Qred (Qplus a b);
  nsub := fun a b => Qred (Qminus a b);
  nmul := fun a b => Qred (Qmult a b);
  ndiv := fun a b => Qred (Qdiv a b);
  npow := Qpow_int;
  nmax := fun a b => if Qle_bool a b then b else a;
  nsign := fun a => Qcompare a 0
|}.

(** ** Data model (src/types.ts) *)

(** The type ['Y' | ''] of a tag cell. *)
Inductive Flag := Y | Blank.

Definition isY (f : Flag) : bool :=
  match f with Y => true | Blank => false end.

(** [LabelKey], the keys of [labelColumns] (src/constants.ts). *)
Inductive LabelKey :=
  | k_discharge | k_under_24 | k_over_24 | k_baby_in_scn
  | k_gyn | k_bfi | k_cs | k_vag.

#[export] Instance LabelKey_eq_dec : EqDecision LabelKey.
Proof. solve_decision. Defined.

Definition labelColumns : list LabelKey :=
  [k_discharge; k_under_24; k_over_24; k_baby_in_scn; k_gyn; k_bfi; k_cs; k_vag].

(** [Record<LabelKey, 'Y' | ''>] *)
Record LabelFlags := {
  discharge : Flag;
  under_24 : Flag;
  over_24 : Flag;
  baby_in_scn : Flag;
  gyn : Flag;
  bfi : Flag;
  cs : Flag;
  vag : Flag
}.

(** [row[col.key]] *)
Definition getLabel (k : LabelKey) (l : LabelFlags) : Flag :=
  match k with
  | k_discharge => discharge l
  | k_under_24 => under_24 l
  | k_over_24 => over_24 l
  | k_baby_in_scn => baby_in_scn l
  | k_gyn => gyn l
  | k_bfi => bfi l
  | k_cs => cs l
  | k_vag => vag l
  end.

(** What the engine reads of a luxon [DateTime]: the epoch milliseconds and
    the calendar fields in the value's own zone. *)
Record DateTime := {
  toMillis : Z;
  year : Z;
  month : Z;
  day : Z;
  hour : Z;
  minute : Z
}.

Record AssignmentInputRow := {
  room : string;
  timeParsed : DateTime;
  labels : LabelFlags
}.

Record RoomAssignmentRow := {
  pr_room : string;
  pr_time : DateTime;
  rank_oldest : Z;
  rank_youngest : Z;
  nurse_id : Z;
  pr_labels : LabelFlags
}.

(** [Record<LabelCountKey, number>]: the object built by the [reduce] over
    [labelColumns], in key insertion order. *)
Definition LabelCounts := list (LabelKey * Z).

Record NurseSummaryRow := {
  ns_nurse_id : Z;
  assigned_rooms : string;
  n_rooms : Z;
  oldest_rank_received : option Z;
  youngest_rank_received : option Z;
  label_counts : LabelCounts
}.

Record AssignmentResult := {
  perNurse : list NurseSummaryRow;
  perRoom : list RoomAssignmentRow
}.

Record NurseCapacity := {
  cap_nurseId : Z;
  capacity : Z
}.

(** ** CapacityPlanner *)

(** [Array.from({ length: n }, (_, idx) => f idx)] *)
Definition Array_from {A} (n : nat) (f : nat -> A) : list A :=
  map f (seq 0 n).

Definition computeCapacities (nRooms : Z) (nNurses : nat) : list NurseCapacity :=
  let base := nRooms / Z.of_nat nNurses in
  let remainder := Z.rem nRooms (Z.of_nat nNurses) in
  Array_from nNurses (fun idx =>
    {| cap_nurseId := Z.of_nat idx + 1;
       capacity := if Z.of_nat idx <? remainder then base + 1 else base |}).

Definition sumZ (l : list Z) : Z := fold_left Z.add l 0.

(** ** Library functions of the host language *)

(** [Array.prototype.sort] with a comparator: a stable sort (ECMAScript
    2019), here by insertion from the right.  [cmp a b <= 0] keeps [a]
    before [b]. *)
Fixpoint js_insert {A} (cmp : A -> A -> Z) (x : A) (l : list A) : list A :=
  match l with
  | [] => [x]
  | y :: l' => if cmp x y <=? 0 then x :: y :: l' else y :: js_insert cmp x l'
  end.

Definition js_sort {A} (cmp : A -> A -> Z) (l : list A) : list A :=
  fold_right (js_insert cmp) [] l.

(** [Array.prototype.findIndex]; [None] stands for the result [-1]. *)
Fixpoint findIndex {A} (p : A -> bool) (l : list A) : option nat :=
  match l with
  | [] => None
  | x :: l' => if p x then Some 0%nat else option_map S (findIndex p l')
  end.

(** [Map.prototype.has] *)
Definition Map_has {V} (m : gmap string V) (k : string) : bool :=
  match m !! k with Some _ => true | None => false end.

(** [new Map(entries)]: a later entry overrides an earlier one. *)
Definition Map_of_entries (entries : list (Z * Z)) : gmap Z Z :=
  fold_left (fun m e => <[fst e := snd e]> m) entries ∅.

(** [String.prototype.charCodeAt] on the (ASCII) stamp. *)
Definition charCode (c : ascii) : Z := Z.of_nat (nat_of_ascii c).

Definition digitChar (d : Z) : ascii :=
  ascii_of_nat (48 + Z.to_nat (d mod 10)).

Definition pad2 (n : Z) : string :=
  String (digitChar (n / 10)) (String (digitChar n) EmptyString).

Definition pad4 (n : Z) : string :=
  String (digitChar (n / 1000)) (String (digitChar (n / 100)) (pad2 n)).

(** luxon's [toFormat('yyyy-MM-dd HH:mm')] *)
Definition toFormat_minute (dt : DateTime) : string :=
  pad4 (year dt) +:+ "-" +:+ pad2 (month dt) +:+ "-" +:+ pad2 (day dt)
  +:+ " " +:+ pad2 (hour dt) +:+ ":" +:+ pad2 (minute dt).

(** ** Errors the engine throws *)

Inductive EngineError :=
  | NoFeasibleCandidates   (* pickNurse: 'No feasible nurse candidates: capacities exhausted' *)
  | NoRoundRobinCapacity.  (* assignRoundRobin: 'No available nurse capacity for round-robin assignment.' *)

Inductive Res (A : Type) :=
  | Ok (a : A)
  | Throw (e : EngineError).
Arguments Ok {A} a.
Arguments Throw {A} e.

#[export] Instance Res_bind : MBind Res := fun A B k r =>
  match r with
  | Ok a => k a
  | Throw e => Throw e
  end.

(** [list.forEach(step)] over a threaded state; a throw ends the loop. *)
Fixpoint forEach {A S} (step : A -> S -> Res S) (l : list A) (s : S) : Res S :=
  match l with
  | [] => Ok s
  | x :: l' => s' ← step x s; forEach step l' s'
  end.

Inductive SortDirection := oldest | newest.

Definition PEN_BFI_REPEAT : Q := 50 # 1.
Definition PEN_CS_REPEAT : Q := 75 # 1.

(** ** RoomEnricher: functions that do not touch real numbers *)

Definition roomGroupKey (room : option string) : option string :=
  match room with
  | None => None
  | Some r =>
    if String.eqb r "" then None
    else
      let prefixes := ["8"; "10"; "14"; "16"; "18"; "20"; "32"] in
      match List.find (fun prefix => String.prefix (prefix +:+ "-") r) prefixes with
      | Some prefix => Some prefix
      | None => Some r
      end
  end.

Definition getAgePriority (l : LabelFlags) : Z :=
  if isY (under_24 l) then 0
  else if isY (over_24 l) then 1
  else 2.

Fixpoint hashLoop (stamp : string) (i : Z) (acc : Z) : Z :=
  match stamp with
  | EmptyString => acc
  | String c rest =>
    hashLoop rest (i + 1)
      (acc + Z.rem (charCode c * (Z.rem (i + 1) 97 + 1)) 104729)
  end.

Definition stablePseudoRandomKey (room : string) (timeParsed : DateTime) : Z :=
  let stamp := room +:+ "|" +:+ toFormat_minute timeParsed in
  hashLoop stamp 0 0.

(** The hash key in the specification's words: the sum, over the positions
    [i] (0-based) of the stamp with character code [c], of
    [(c * ((i+1) mod 97 + 1)) mod 104729]. *)
Definition hashKey_spec (room : string) (timeParsed : DateTime) : Z :=
  let stamp := room +:+ "|" +:+ toFormat_minute timeParsed in
  sumZ (map (fun i =>
              match String.get i stamp with
              | Some c => (charCode c * ((Z.of_nat i + 1) mod 97 + 1)) mod 104729
              | None => 0
              end)
            (seq 0 (String.length stamp))).

(** ** The engine *)

Section Engine.
Context `{JSNumber}.
(** [String.prototype.localeCompare] and [formatClock] of src/utils/time.ts
    ([dt.setZone(tz).toFormat('HH:mm')]) belong to the host's
    internationalisation and luxon libraries. *)
Variable localeCompare : string -> string -> Z.
Variable formatClock : DateTime -> string -> string.

Record NurseState := {
  nurseId : Z;
  remaining : Z;
  nAssigned : Z;
  loadSum : num;
  assignedGroups : gset string;
  hasBfi : bool;
  hasCs : bool
}.

(** [interface DerivedRoom extends AssignmentInputRow] *)
Record DerivedRoom := {
  d_row : AssignmentInputRow;
  groupKey : option string;
  workload : num;
  randKey : Z;
  wEffective : num
}.

Definition d_room (r : DerivedRoom) : string := room (d_row r).
Definition d_time (r : DerivedRoom) : DateTime := timeParsed (d_row r).
Definition d_labels (r : DerivedRoom) : LabelFlags := labels (d_row r).

Definition roomWorkload (row : AssignmentInputRow) : num :=
  let l := labels row in
  let weight := lit (1 # 1) in
  let weight := if isY (discharge l) then nsub weight (lit (25 # 100)) else weight in
  let weight := if isY (baby_in_scn l) then nsub weight (lit (25 # 100)) else weight in
  let weight := if isY (gyn l) then nsub weight (lit (15 # 100)) else weight in
  let weight := if isY (bfi l) then nadd weight (lit (4 # 10)) else weight in
  let weight := if isY (cs l) then nadd weight (lit (55 # 100)) else weight in
  let weight := if isY (vag l) then nadd weight (lit (2 # 10)) else weight in
  nmax weight (lit (2 # 10)).

Definition compareByAgeThenTime (direction : SortDirection) (a b : DerivedRoom) : Z :=
  let ageDiff := getAgePriority (d_labels a) - getAgePriority (d_labels b) in
  if negb (ageDiff =? 0) then ageDiff
  else
    let timeDiff := toMillis (d_time a) - toMillis (d_time b) in
    if negb (timeDiff =? 0) then
      match direction with oldest => timeDiff | newest => - timeDiff end
    else localeCompare (d_room a) (d_room b).

Definition sortByAgeThenTime (data : list DerivedRoom) (direction : SortDirection)
  : list DerivedRoom :=
  js_sort (compareByAgeThenTime direction) data.

Definition makeEffectiveLoad (timeParsed : DateTime) (workload : num) : num :=
  let minutes := hour timeParsed * 60 + minute timeParsed in
  nmul (nadd (lit (1 # 1)) (ndiv (ofZ minutes) (ofZ (24 * 60)))) workload.

Definition buildInitialState (capacities : list NurseCapacity) : list NurseState :=
  map (fun c =>
         {| nurseId := cap_nurseId c;
            remaining := capacity c;
            nAssigned := 0;
            loadSum := lit (0 # 1);
            assignedGroups := ∅;
            hasBfi := false;
            hasCs := false |})
      capacities.

Record Scored := {
  s_nurseId : Z;
  score : num
}.

(** [(a, b) => a.score - b.score || a.nurseId - b.nurseId] *)
Definition compareScored (a b : Scored) : Z :=
  match nsign (nsub (score a) (score b)) with
  | Lt => -1
  | Gt => 1
  | Eq => s_nurseId a - s_nurseId b
  end.

Definition scoreNurse (room : DerivedRoom) (state : list NurseState)
    (capacities : list NurseCapacity) (capacityMap : gmap Z Z) (nurse : NurseState)
  : Scored :=
  let totalCapacity := fold_left (fun sum cap => sum + capacity cap) capacities 0 in
  let assignedSoFar := fold_left (fun sum n => sum + nAssigned n) state 0 in
  let totalLoad := fold_left (fun sum n => nadd sum (loadSum n)) state (lit (0 # 1)) in
  let meanLoadTarget :=
    ndiv (nadd totalLoad (wEffective room)) (ofZ (Z.of_nat (length state))) in
  let projN := nAssigned nurse + 1 in
  let projLoad := nadd (loadSum nurse) (wEffective room) in
  let nurseCapacity := default 0 (capacityMap !! nurseId nurse) in
  let capacityShare :=
    if 0 <? nurseCapacity then ndiv (ofZ nurseCapacity) (ofZ totalCapacity)
    else ndiv (lit (1 # 1)) (ofZ (Z.of_nat (length state))) in
  let projTotalAssigned := assignedSoFar + 1 in
  let projectedTarget := nmul capacityShare (ofZ projTotalAssigned) in
  let baseScore :=
    nadd (npow (nsub (ofZ projN) projectedTarget) (lit (2 # 1)))
         (npow (nsub projLoad meanLoadTarget) (lit (2 # 1))) in
  let hasGroup :=
    match groupKey room with
    | Some g => if String.eqb g "" then false else bool_decide (g ∈ assignedGroups nurse)
    | None => false
    end in
  let groupScore := if hasGroup then nsub baseScore (lit (1 # 1000)) else baseScore in
  let repeatPenalty :=
    nadd (if isY (bfi (d_labels room)) && hasBfi nurse then lit PEN_BFI_REPEAT else lit (0 # 1))
         (if isY (cs (d_labels room)) && hasCs nurse then lit PEN_CS_REPEAT else lit (0 # 1)) in
  {| s_nurseId := nurseId nurse; score := nadd groupScore repeatPenalty |}.

Definition pickNurse (room : DerivedRoom) (state : list NurseState)
    (capacities : list NurseCapacity) (capacityMap : gmap Z Z) : Res Z :=
  let candidates := List.filter (fun nurse => 0 <? remaining nurse) state in
  match candidates with
  | [] => Throw NoFeasibleCandidates
  | c0 :: _ =>
    let scored :=
      js_sort compareScored
        (map (scoreNurse room state capacities capacityMap) candidates) in
    (* scored[0]: the sorted array is as long as the non-empty candidates *)
    Ok (s_nurseId (hd (scoreNurse room state capacities capacityMap c0) scored))
  end.

(** The mutation of the nurse object found by [state.find]. *)
Definition recordRoom (room : DerivedRoom) (nurse : NurseState) : NurseState :=
  {| nurseId := nurseId nurse;
     remaining := Z.max 0 (remaining nurse - 1);
     nAssigned := nAssigned nurse + 1;
     loadSum := nadd (loadSum nurse) (wEffective room);
     assignedGroups :=
       match groupKey room with
       | Some g => if String.eqb g "" then assignedGroups nurse
                   else {[ g ]} ∪ assignedGroups nurse
       | None => assignedGroups nurse
       end;
     hasBfi := if isY (bfi (d_labels room)) then true else hasBfi nurse;
     hasCs := if isY (cs (d_labels room)) then true else hasCs nurse |}.

Fixpoint updateNurseState (id : Z) (room : DerivedRoom) (state : list NurseState)
  : list NurseState :=
  match state with
  | [] => []
  | nurse :: rest =>
    if nurseId nurse =? id then recordRoom room nurse :: rest
    else nurse :: updateNurseState id room rest
  end.

(** The variables the closures of [assignRoomsToState] share: the nurse
    array (mutated in place), the assignment map and the rotation pointer. *)
Record EngineState := {
  state : list NurseState;
  assignment : gmap string Z;
  roundRobinIndex : nat
}.

Definition assignWithScoring (capacities : list NurseCapacity) (capacityMap : gmap Z Z)
    (room : DerivedRoom) (es : EngineState) : Res EngineState :=
  if Map_has (assignment es) (d_room room) then Ok es
  else
    chosen ← pickNurse room (state es) capacities capacityMap;
    Ok {| state := updateNurseState chosen room (state es);
          assignment := <[d_room room := chosen]> (assignment es);
          roundRobinIndex := roundRobinIndex es |}.

(** [state[idx]] is always in range here, [idx] being reduced modulo the
    length. *)
Definition getRoundRobinOrder (es : EngineState) : list NurseState :=
  let len := length (state es) in
  omap (fun offset => state es !! ((roundRobinIndex es + offset) mod len)%nat)
       (seq 0 len).

Definition avoidsDuplicate (room : DerivedRoom) (nurse : NurseState) : bool :=
  if isY (bfi (d_labels room)) && hasBfi nurse then false
  else if isY (cs (d_labels room)) && hasCs nurse then false
  else true.

(** [avoidDuplicates[0] ?? candidates[0]], [None] when there is no candidate *)
Definition roundRobinChoice (room : DerivedRoom) (es : EngineState) : option NurseState :=
  let candidates := List.filter (fun nurse => 0 <? remaining nurse) (getRoundRobinOrder es) in
  match candidates with
  | [] => None
  | c0 :: _ => Some (hd c0 (List.filter (avoidsDuplicate room) candidates))
  end.

(** The body of the [forEach] callback of [assignRoundRobin]. *)
Definition roundRobinStep (room : DerivedRoom) (es : EngineState) : Res EngineState :=
  match roundRobinChoice room es with
  | None => Throw NoRoundRobinCapacity
  | Some chosen =>
    let chosenIndex := findIndex (fun n => nurseId n =? nurseId chosen) (state es) in
    Ok {| state := updateNurseState (nurseId chosen) room (state es);
          assignment := <[d_room room := nurseId chosen]> (assignment es);
          roundRobinIndex :=
            match chosenIndex with
            | Some i => ((i + 1) mod length (state es))%nat
            | None => 0%nat  (* (-1 + 1) % state.length *)
            end |}
  end.

Definition notYetAssigned (es : EngineState) (room : DerivedRoom) : bool :=
  negb (Map_has (assignment es) (d_room room)).

Definition assignRoundRobin (data : list DerivedRoom) (direction : SortDirection)
    (es : EngineState) : Res EngineState :=
  let ordered := List.filter (notYetAssigned es) (sortByAgeThenTime data direction) in
  forEach roundRobinStep ordered es.

Definition assignSequence (capacities : list NurseCapacity) (capacityMap : gmap Z Z)
    (data : list DerivedRoom) (direction : SortDirection) (es : EngineState)
  : Res EngineState :=
  forEach (assignWithScoring capacities capacityMap)
          (List.filter (notYetAssigned es) (sortByAgeThenTime data direction)) es.

(** Returns the final shared variables; the source returns [assignment] and
    leaves the mutated [state] array with the caller. *)
Definition assignRoomsToState (rooms : list DerivedRoom) (state0 : list NurseState)
    (capacities : list NurseCapacity) : Res EngineState :=
  let capacityMap :=
    Map_of_entries (map (fun cap => (cap_nurseId cap, capacity cap)) capacities) in
  let es0 := {| state := state0; assignment := ∅; roundRobinIndex := 0 |} in
  let dischargeRooms := List.filter (fun room => isY (discharge (d_labels room))) rooms in
  let youngRooms := List.filter (fun room => isY (under_24 (d_labels room))) rooms in
  let oldRooms := List.filter (fun room => isY (over_24 (d_labels room))) rooms in
  es1 ← assignRoundRobin dischargeRooms oldest es0;
  es2 ← assignRoundRobin youngRooms oldest es1;
  es3 ← assignRoundRobin oldRooms oldest es2;
  let remainingRooms := List.filter (notYetAssigned es3) rooms in
  assignSequence capacities capacityMap remainingRooms oldest es3.

(** ** RankCalculator *)

Definition compareByTime (a b : DerivedRoom) : Z :=
  let timeDiff := toMillis (d_time a) - toMillis (d_time b) in
  if negb (timeDiff =? 0) then timeDiff else localeCompare (d_room a) (d_room b).

Fixpoint rankLoop (ranked : list DerivedRoom) (currentRank : Z) (lastMillis : option Z)
    (ranks : gmap string Z) : gmap string Z :=
  match ranked with
  | [] => ranks
  | room :: rest =>
    let millis := toMillis (d_time room) in
    let fresh :=
      match lastMillis with
      | None => true
      | Some last => negb (millis =? last)
      end in
    let currentRank' := if fresh then currentRank + 1 else currentRank in
    let lastMillis' := if fresh then Some millis else lastMillis in
    rankLoop rest currentRank' lastMillis' (<[d_room room := currentRank']> ranks)
  end.

Definition denseRankOldest (rooms : list DerivedRoom) : gmap string Z :=
  rankLoop (js_sort compareByTime rooms) 0 None ∅.

(** ** ViewBuilder *)

Definition buildRoomLabel (row : RoomAssignmentRow) (tz : string) : string :=
  let l := pr_labels row in
  let parts :=
    ((if isY (over_24 l) then ["over24"] else []) ++
     (if isY (under_24 l) then ["under24"] else []) ++
     (if isY (cs l) then ["cs"] else []) ++
     (if isY (vag l) then ["vag"] else []) ++
     (if isY (bfi l) then ["bfi"] else []) ++
     (if isY (discharge l) then ["dc"] else []) ++
     (if isY (gyn l) then ["gyn"] else []))%list in
  let suffix :=
    match parts with
    | [] => ""
    | _ => " " +:+ String.concat " " parts
    end in
  pr_room row +:+ " (" +:+ formatClock (pr_time row) tz +:+ ")" +:+ suffix.

Definition deriveRoom (row : AssignmentInputRow) : DerivedRoom :=
  let workload := roomWorkload row in
  {| d_row := row;
     groupKey := roomGroupKey (Some (room row));
     workload := workload;
     randKey := stablePseudoRandomKey (room row) (timeParsed row);
     wEffective := makeEffectiveLoad (timeParsed row) workload |}.

Definition comparePerRoom (a b : RoomAssignmentRow) : Z :=
  let d := nurse_id a - nurse_id b in
  if negb (d =? 0) then d else rank_oldest a - rank_oldest b.

Definition buildPerRoom (derived : list DerivedRoom) (assignmentMap : gmap string Z)
    (rankOldest : gmap string Z) (totalRooms : Z) : list RoomAssignmentRow :=
  js_sort comparePerRoom
    (map (fun room =>
            let oldestRank := default 1 (rankOldest !! d_room room) in
            {| pr_room := d_room room;
               pr_time := d_time room;
               rank_oldest := oldestRank;
               rank_youngest := totalRooms - oldestRank + 1;
               (* assignmentMap.get(room.room)!: present, by the filter *)
               nurse_id := default 0 (assignmentMap !! d_room room);
               pr_labels := d_labels room |})
         (List.filter (fun room => Map_has assignmentMap (d_room room)) derived)).

(** [n ? Math.min(...xs) : null] and [n ? Math.max(...xs) : null] for
    [n = xs.length] *)
Definition minOrNull (xs : list Z) : option Z :=
  match xs with
  | [] => None
  | x :: xs' => Some (fold_left Z.min xs' x)
  end.

Definition maxOrNull (xs : list Z) : option Z :=
  match xs with
  | [] => None
  | x :: xs' => Some (fold_left Z.max xs' x)
  end.

Definition buildPerNurse (perRoom : list RoomAssignmentRow) (nNurses : nat) (tz : string)
  : list NurseSummaryRow :=
  Array_from nNurses (fun idx =>
    let nurseId := Z.of_nat idx + 1 in
    let roomsForNurse := List.filter (fun room => nurse_id room =? nurseId) perRoom in
    let nRooms := Z.of_nat (length roomsForNurse) in
    let labelCounts :=
      fold_left (fun acc col =>
                   (acc ++ [(col, Z.of_nat (length
                      (List.filter (fun room => isY (getLabel col (pr_labels room)))
                                   roomsForNurse)))])%list)
                labelColumns [] in
    {| ns_nurse_id := nurseId;
       assigned_rooms :=
         String.concat ", " (map (fun room => buildRoomLabel room tz) roomsForNurse);
       n_rooms := nRooms;
       oldest_rank_received := minOrNull (map rank_oldest roomsForNurse);
       youngest_rank_received := maxOrNull (map rank_youngest roomsForNurse);
       label_counts := labelCounts |}).

Definition assignRooms (rows : list AssignmentInputRow) (nNurses : nat) (tz : string)
  : Res AssignmentResult :=
  match rows with
  | [] => Ok {| perNurse := []; perRoom := [] |}
  | _ =>
    let capacities := computeCapacities (Z.of_nat (length rows)) nNurses in
    let derived := map deriveRoom rows in
    es ← assignRoomsToState derived (buildInitialState capacities) capacities;
    let assignmentMap := assignment es in
    let rankOldest := denseRankOldest derived in
    let totalRooms := Z.of_nat (length derived) in
    let perRoom := buildPerRoom derived assignmentMap rankOldest totalRooms in
    Ok {| perNurse := buildPerNurse perRoom nNurses tz; perRoom := perRoom |}
  end.

(** [row.n_<key>] of a per-nurse row *)
Definition labelCount (k : LabelKey) (row : NurseSummaryRow) : Z :=
  match List.find (fun e => bool_decide (fst e = k)) (label_counts row) with
  | Some e => snd e
  | None => 0
  end.

End Engine.

Arguments NurseState {_}.
Arguments DerivedRoom {_}.
Arguments EngineState {_}.
Arguments Scored {_}.

(** ** Concrete host functions and the scenarios of the test suite *)

Fixpoint compareCodeUnits (a b : string) : Z :=
  match a, b with
  | EmptyString, EmptyString => 0
  | EmptyString, String _ _ => -1
  | String _ _, EmptyString => 1
  | String x a', String y b' =>
    if charCode x <? charCode y then -1
    else if charCode y <? charCode x then 1
    else compareCodeUnits a' b'
  end.

(** The clock of a [DateTime] in its own zone, whatever zone is asked for:
    [formatClock] when [tz] is the zone the rows were parsed in. *)
Definition formatClockOwnZone (dt : DateTime) (tz : string) : string :=
  pad2 (hour dt) +:+ ":" +:+ pad2 (minute dt).

Definition TZ : string := "America/Toronto".

Definition noLabels : LabelFlags :=
  {| discharge := Blank; under_24 := Blank; over_24 := Blank; baby_in_scn := Blank;
     gyn := Blank; bfi := Blank; cs := Blank; vag := Blank |}.

Definition dischargeOnly : LabelFlags :=
  {| discharge := Y; under_24 := Blank; over_24 := Blank; baby_in_scn := Blank;
     gyn := Blank; bfi := Blank; cs := Blank; vag := Blank |}.

Definition dischargeBfi : LabelFlags :=
  {| discharge := Y; under_24 := Blank; over_24 := Blank; baby_in_scn := Blank;
     gyn := Blank; bfi := Y; cs := Blank; vag := Blank |}.

Definition over24Bfi : LabelFlags :=
  {| discharge := Blank; under_24 := Blank; over_24 := Y; baby_in_scn := Blank;
     gyn := Blank; bfi := Y; cs := Blank; vag := Blank |}.

Definition over24Cs : LabelFlags :=
  {| discharge := Blank; under_24 := Blank; over_24 := Y; baby_in_scn := Blank;
     gyn := Blank; bfi := Blank; cs := Y; vag := Blank |}.

(** [makeRow] of the test suite: a clock time on 2025-01-01 in
    America/Toronto (midnight there is 1735707600000 ms after the epoch). *)
Definition makeRow (room : string) (h m : Z) (flags : LabelFlags) : AssignmentInputRow :=
  {| room := room;
     timeParsed := {| toMillis := 1735707600000 + (h * 60 + m) * 60000;
                      year := 2025; month := 1; day := 1; hour := h; minute := m |};
     labels := flags |}.

(** 'distributes discharges evenly before other rooms' *)
Definition dischargeScenario : list AssignmentInputRow :=
  [ makeRow "1" 8 0 dischargeOnly; makeRow "3" 8 30 dischargeOnly;
    makeRow "5" 9 0 dischargeOnly; makeRow "7" 9 30 dischargeOnly;
    makeRow "9" 10 0 dischargeOnly; makeRow "11" 10 30 dischargeOnly;
    makeRow "14-1" 11 0 noLabels; makeRow "14-2" 11 30 noLabels ].

(** 'spreads BFI and C-Section flags across nurses when possible' *)
Definition bfiCsScenario : list AssignmentInputRow :=
  [ makeRow "19" 6 0 over24Bfi; makeRow "21" 7 0 over24Bfi;
    makeRow "23" 8 0 over24Bfi; makeRow "25" 9 0 over24Cs;
    makeRow "27" 10 0 over24Cs; makeRow "32-1" 11 0 over24Cs ].

(** Two bfi rooms, two nurses: the second bfi room comes up when only the
    nurse holding the first one has capacity left. *)
Definition bfiPressureScenario : list AssignmentInputRow :=
  [ makeRow "1" 8 0 dischargeOnly; makeRow "3" 9 0 dischargeBfi;
    makeRow "5" 10 0 dischargeOnly; makeRow "7" 11 0 dischargeBfi ].

(** Two rooms sharing a timestamp, and a later one. *)
Definition tieScenario : list AssignmentInputRow :=
  [ makeRow "3" 8 0 noLabels; makeRow "1" 8 0 noLabels; makeRow "5" 9 0 noLabels ].

(** The engine run on exact rationals with the concrete host functions. *)
Definition runAssignRooms (rows : list AssignmentInputRow) (nNurses : nat)
  : Res AssignmentResult :=
  @assignRooms QNumber compareCodeUnits formatClockOwnZone rows nNurses TZ.

(** ** Vocabulary of the specification *)

Section Vocabulary.
Context `{JSNumber}.

Definition sumRemaining (st : list NurseState) : Z := sumZ (map remaining st).

(** Nurse [n] was planned with capacity [c]: same id, and what is left plus
    what was handed out is the plan. *)
Definition withinPlan (c : NurseCapacity) (n : NurseState) : Prop :=
  nurseId n = cap_nurseId c /\ 0 <= remaining n /\ remaining n + nAssigned n = capacity c.

Definition capacityInvariant (capacities : list NurseCapacity) (st : list NurseState)
  : Prop :=
  Forall2 withinPlan capacities st.

(** One room assignment of a run: a round-robin step, or a scored step on a
    room that is not assigned yet. *)
Inductive engineStep (capacities : list NurseCapacity) (capacityMap : gmap Z Z)
  : EngineState -> EngineState -> Prop :=
  | step_roundRobin room es es' :
      roundRobinStep room es = Ok es' ->
      engineStep capacities capacityMap es es'
  | step_scored room es es' :
      Map_has (assignment es) (d_room room) = false ->
      assignWithScoring capacities capacityMap room es = Ok es' ->
      engineStep capacities capacityMap es es'.

(** No nurse has remaining capacity greater than zero. *)
Definition exhausted (st : list NurseState) : Prop :=
  forall n, In n st -> remaining n <= 0.

(** The effect of assigning [room]: one nurse with capacity left records
    the room, every other nurse is untouched, and the room is entered in the
    assignment map under that nurse's id. *)
Definition assigns (room : DerivedRoom) (es es' : EngineState) : Prop :=
  exists l1 chosen l2,
    state es = l1 ++ chosen :: l2 /\
    0 < remaining chosen /\
    state es' = l1 ++ recordRoom room chosen :: l2 /\
    assignment es' = <[d_room room := nurseId chosen]> (assignment es).

(** What holds of the shared variables between two assignments of a run
    over [rooms] with the nurses [ids]. *)
Record engineInvariant (rooms : list DerivedRoom) (ids : list Z) (es : EngineState)
  : Prop := {
  inv_total :
    sumRemaining (state es) + Z.of_nat (size (assignment es)) = Z.of_nat (length rooms);
  inv_dom : dom (assignment es) ⊆ list_to_set (map d_room rooms);
  inv_ids : map nurseId (state es) = ids;
  inv_nodup : NoDup ids;
  inv_values : forall k v, assignment es !! k = Some v -> In v ids
}.

(** [perRoom.filter((room) => room.nurse_id === nurseId)], the list a
    per-nurse row is built from *)
Definition roomsForNurse (perRoom : list RoomAssignmentRow) (nurseId : Z)
  : list RoomAssignmentRow :=
  List.filter (fun room => nurse_id room =? nurseId) perRoom.

(** The capacities and the initial nurse array of a run of [assignRooms]. *)
Definition plannedCapacities (rows : list AssignmentInputRow) (nNurses : nat)
  : list NurseCapacity :=
  computeCapacities (Z.of_nat (length rows)) nNurses.

(** The order of the age-then-time comparator on its first two keys: the
    age priority, then the timestamp (oldest first). *)
Definition ageThenTimeLe (a b : DerivedRoom) : Prop :=
  getAgePriority (d_labels a) < getAgePriority (d_labels b) \/
  (getAgePriority (d_labels a) = getAgePriority (d_labels b) /\
   toMillis (d_time a) <= toMillis (d_time b)).

(** Counting room objects, for inputs in which a room id may occur more
    than once: the rooms of [l] with id [id], the rooms whose id is not in
    the assignment map yet, and the rooms whose id already is. *)
Definition idCount (id : string) (l : list DerivedRoom) : nat :=
  length (List.filter (fun r => String.eqb (d_room r) id) l).

Definition unassignedCount (l : list DerivedRoom) (m : gmap string Z) : nat :=
  length (List.filter (fun r => negb (Map_has m (d_room r))) l).

Definition assignedCount (l : list DerivedRoom) (m : gmap string Z) : nat :=
  length (List.filter (fun r => Map_has m (d_room r)) l).

(** Enough capacity is left for the rooms still to be handled: those of
    [rooms] whose id is not assigned yet, and those of the current loop's
    remainder [rest] whose id has been assigned meanwhile. *)
Record capacityLeft (rooms : list DerivedRoom) (ids : list Z) (es : EngineState)
    (rest : list DerivedRoom) : Prop := {
  left_sum :
    Z.of_nat (unassignedCount rooms (assignment es))
    + Z.of_nat (assignedCount rest (assignment es)) <= sumRemaining (state es);
  left_ids : map nurseId (state es) = ids;
  left_nodup : NoDup ids;
  left_count : forall id, (idCount id rest <= idCount id rooms)%nat
}.

Definition ascendingByTime (l : list DerivedRoom) : Prop :=
  StronglySorted (fun a b => toMillis (d_time a) <= toMillis (d_time b)) l.

(** Two per-nurse rows that agree on everything but the label text. *)
Definition sameButLabel (a b : NurseSummaryRow) : Prop :=
  ns_nurse_id a = ns_nurse_id b /\
  n_rooms a = n_rooms b /\
  oldest_rank_received a = oldest_rank_received b /\
  youngest_rank_received a = youngest_rank_received b /\
  label_counts a = label_counts b.

(** [buildRoomLabel] with the clock text already formatted. *)
Definition roomLabelWithClock (row : RoomAssignmentRow) (clock : string) : string :=
  buildRoomLabel (fun _ _ => clock) row "".

(** The distinct timestamps of [rooms] that are not later than [t]. *)
Definition timestampsUpTo (rooms : list DerivedRoom) (t : Z) : gset Z :=
  list_to_set (List.filter (fun u => u <=? t) (map (fun r => toMillis (d_time r)) rooms)).

(** The timestamp the rank loop has seen last, as a set. *)
Definition lastSeen (lastMillis : option Z) : gset Z :=
  match lastMillis with
  | Some t => {[ t ]}
  | None => ∅
  end.

(** ** The engine with the hash key taken out

    [deriveRoomKeyed key] is [deriveRoom] with the call of
    [stablePseudoRandomKey] replaced by [key]; [assignRoomsKeyed key] is
    [assignRooms] over it.  With [key := fun _ _ => 0] no hash is computed. *)
Definition deriveRoomKeyed (key : string -> DateTime -> Z) (row : AssignmentInputRow)
  : DerivedRoom :=
  let workload := roomWorkload row in
  {| d_row := row;
     groupKey := roomGroupKey (Some (room row));
     workload := workload;
     randKey := key (room row) (timeParsed row);
     wEffective := makeEffectiveLoad (timeParsed row) workload |}.

Definition rekey (key : string -> DateTime -> Z) (r : DerivedRoom) : DerivedRoom :=
  {| d_row := d_row r;
     groupKey := groupKey r;
     workload := workload r;
     randKey := key (d_room r) (d_time r);
     wEffective := wEffective r |}.

Definition assignRoomsKeyed (localeCompare : string -> string -> Z)
    (formatClock : DateTime -> string -> string) (key : string -> DateTime -> Z)
    (rows : list AssignmentInputRow) (nNurses : nat) (tz : string)
  : Res AssignmentResult :=
  match rows with
  | [] => Ok {| perNurse := []; perRoom := [] |}
  | _ =>
    let capacities := computeCapacities (Z.of_nat (length rows)) nNurses in
    let derived := map (deriveRoomKeyed key) rows in
    es ← assignRoomsToState localeCompare derived (buildInitialState capacities) capacities;
    let assignmentMap := assignment es in
    let rankOldest := denseRankOldest localeCompare derived in
    let totalRooms := Z.of_nat (length derived) in
    let perRoom := buildPerRoom derived assignmentMap rankOldest totalRooms in
    Ok {| perNurse := buildPerNurse formatClock perRoom nNurses tz; perRoom := perRoom |}
  end.

End Vocabulary.

(** The first round-robin step of the discharge scenario, on exact
    rationals. *)
Definition scenarioStart : EngineState :=
  {| state := buildInitialState (plannedCapacities dischargeScenario 3);
     assignment := ∅;
     roundRobinIndex := 0 |}.

Definition scenarioFirstRoom : DerivedRoom :=
  deriveRoom (makeRow "1" 8 0 dischargeOnly).

Definition scenarioAfterFirst : EngineState :=
  match roundRobinStep scenarioFirstRoom scenarioStart with
  | Ok es => es
  | Throw _ => scenarioStart
  end.

(** ** The roster (src/constants.ts) and its checks *)

Definition canonicalRooms : list string :=
  [ "1"; "3"; "5"; "7"; "9"; "11";
    "8-1"; "8-2"; "10-1"; "10-2";
    "14-1"; "14-2"; "16-1"; "16-2"; "18-1"; "18-2"; "20-1"; "20-2";
    "19"; "21"; "23"; "25"; "27";
    "32-1"; "32-2"; "32-3" ].

(** [Array.prototype.includes] on an array of strings *)
Definition includes (l : list string) (s : string) : bool :=
  existsb (String.eqb s) l.

Definition isValidRoom (room : option string) : bool :=
  match room with
  | None => false
  | Some r => if String.eqb r "" then false else includes canonicalRooms r
  end.

Definition formatRoomLabel (room : string) : string :=
  if includes canonicalRooms room then room else room +:+ " (unknown)".

(** The bay numbers [roomGroupKey] knows. *)
Definition bays : list string := ["8"; "10"; "14"; "16"; "18"; "20"; "32"].

(** ** Further vocabulary: orders, turns and agreement of state and map *)

Section MoreVocabulary.
Context `{JSNumber}.

(** The order [sortByAgeThenTime] establishes for a direction, on its
    first two keys: the age priority, then the timestamp, oldest or newest
    first. *)
Definition ageThenTimeOrder (direction : SortDirection) (a b : DerivedRoom) : Prop :=
  getAgePriority (d_labels a) < getAgePriority (d_labels b) \/
  (getAgePriority (d_labels a) = getAgePriority (d_labels b) /\
   match direction with
   | oldest => toMillis (d_time a) <= toMillis (d_time b)
   | newest => toMillis (d_time b) <= toMillis (d_time a)
   end).

(** The order of the per-room table: by nurse, then by oldest rank. *)
Definition perRoomOrder (a b : RoomAssignmentRow) : Prop :=
  nurse_id a < nurse_id b \/
  (nurse_id a = nurse_id b /\ rank_oldest a <= rank_oldest b).

(** The rooms of [rooms] the assignment map gives to nurse [id]. *)
Definition roomsOfNurse (rooms : list DerivedRoom) (m : gmap string Z) (id : Z)
  : list DerivedRoom :=
  List.filter (fun r => bool_decide (m !! d_room r = Some id)) rooms.

(** The nurse array agrees with the assignment map: every nurse has
    recorded as many rooms as the map gives to its id, carries the bfi and
    cs marks exactly when one of those rooms is tagged so, and has collected
    exactly their group keys. *)
Record stateAgrees (rooms : list DerivedRoom) (es : EngineState) : Prop := {
  agree_count : forall n, In n (state es) ->
    nAssigned n = Z.of_nat (length (roomsOfNurse rooms (assignment es) (nurseId n)));
  agree_bfi : forall n, In n (state es) ->
    (hasBfi n = true <->
     exists r, In r (roomsOfNurse rooms (assignment es) (nurseId n)) /\
               isY (bfi (d_labels r)) = true);
  agree_cs : forall n, In n (state es) ->
    (hasCs n = true <->
     exists r, In r (roomsOfNurse rooms (assignment es) (nurseId n)) /\
               isY (cs (d_labels r)) = true)
}.

(** One assignment of a run over [rooms]: a room of [rooms] whose id is
    not in the assignment map yet is assigned. *)
Definition freshStep (rooms : list DerivedRoom) (es es' : EngineState) : Prop :=
  exists room, In room rooms /\ assignment es !! d_room room = None /\
               assigns room es es'.

(** The shared variables after [i] rooms were dealt in turn to the [N]
    nurses planned for [R] rooms, starting with nurse 1: the pointer is at
    [i mod N], and the nurse at index [k] has given [i / N] of its planned
    capacity, and one more when [k < i mod N]. *)
Definition dealtInTurn (R : Z) (N : nat) (i : nat) (es : EngineState) : Prop :=
  map nurseId (state es) = map (fun k : nat => Z.of_nat k + 1) (seq 0 N) /\
  roundRobinIndex es = (i mod N)%nat /\
  map remaining (state es) =
    imap (fun k c => capacity c - Z.of_nat (i / N)
                     - (if (k <? i mod N)%nat then 1 else 0))
         (computeCapacities R N).

(** A room the round-robin phases take: tagged discharge, under_24 or
    over_24. *)
Definition phaseTagged (r : DerivedRoom) : bool :=
  isY (discharge (d_labels r)) || isY (under_24 (d_labels r))
  || isY (over_24 (d_labels r)).

(** No room of the list is tagged bfi or cs. *)
Definition noRepeatTags (l : list DerivedRoom) : Prop :=
  forall r, In r l -> isY (bfi (d_labels r)) = false /\ isY (cs (d_labels r)) = false.

(** [a] is not after [b] for the comparator of the sort of [pickNurse],
    [a.score - b.score || a.nurseId - b.nurseId]: the difference of the
    scores is negative, or it is falsy and [a] has not the higher id. *)
Definition scoredFirst (a b : Scored) : Prop :=
  match nsign (nsub (score a) (score b)) with
  | Lt => True
  | Eq => s_nurseId a <= s_nurseId b
  | Gt => False
  end.

(** Nurse [id] holds a room of [rooms] that carries the tag [tag], by the
    assignment map. *)
Definition holdsTagged (rooms : list DerivedRoom) (m : gmap string Z)
    (tag : LabelFlags -> Flag) (id : Z) : bool :=
  existsb (fun r => isY (tag (d_labels r))) (roomsOfNurse rooms m id).

(** With [room], nurse [id] would hold a second bfi room or a second cs
    room. *)
Definition wouldRepeat (rooms : list DerivedRoom) (m : gmap string Z)
    (room : DerivedRoom) (id : Z) : bool :=
  (isY (bfi (d_labels room)) && holdsTagged rooms m bfi id) ||
  (isY (cs (d_labels room)) && holdsTagged rooms m cs id).

(** [repeatPenalty] of [pickNurse], read off the rooms the nurse holds: 50
    for a second bfi room plus 75 for a second cs room. *)
Definition repeatPenaltyFor (rooms : list DerivedRoom) (m : gmap string Z)
    (room : DerivedRoom) (id : Z) : num :=
  nadd (if isY (bfi (d_labels room)) && holdsTagged rooms m bfi id
        then lit (50 # 1) else lit (0 # 1))
       (if isY (cs (d_labels room)) && holdsTagged rooms m cs id
        then lit (75 # 1) else lit (0 # 1)).

(** [groupScore] of [pickNurse]: the score of a nurse before the repeat
    penalty is added. *)
Definition scoreBeforePenalty (room : DerivedRoom) (state : list NurseState)
    (capacities : list NurseCapacity) (capacityMap : gmap Z Z) (nurse : NurseState)
  : num :=
  let totalCapacity := fold_left (fun sum cap => sum + capacity cap) capacities 0 in
  let assignedSoFar := fold_left (fun sum n => sum + nAssigned n) state 0 in
  let totalLoad := fold_left (fun sum n => nadd sum (loadSum n)) state (lit (0 # 1)) in
  let meanLoadTarget :=
    ndiv (nadd totalLoad (wEffective room)) (ofZ (Z.of_nat (length state))) in
  let projN := nAssigned nurse + 1 in
  let projLoad := nadd (loadSum nurse) (wEffective room) in
  let nurseCapacity := default 0 (capacityMap !! nurseId nurse) in
  let capacityShare :=
    if 0 <? nurseCapacity then ndiv (ofZ nurseCapacity) (ofZ totalCapacity)
    else ndiv (lit (1 # 1)) (ofZ (Z.of_nat (length state))) in
  let projTotalAssigned := assignedSoFar + 1 in
  let projectedTarget := nmul capacityShare (ofZ projTotalAssigned) in
  let baseScore :=
    nadd (npow (nsub (ofZ projN) projectedTarget) (lit (2 # 1)))
         (npow (nsub projLoad meanLoadTarget) (lit (2 # 1))) in
  let hasGroup :=
    match groupKey room with
    | Some g => if String.eqb g "" then false else bool_decide (g ∈ assignedGroups nurse)
    | None => false
    end in
  if hasGroup then nsub baseScore (lit (1 # 1000)) else baseScore.

(** Two nurse records that differ at most in their bfi and cs marks. *)
Definition sameButMarks (a b : NurseState) : Prop :=
  nurseId a = nurseId b /\ remaining a = remaining b /\ nAssigned a = nAssigned b /\
  loadSum a = loadSum b /\ assignedGroups a = assignedGroups b.

(** Every room carries exactly one of the tags bfi and cs. *)
Definition oneOfBfiCs (l : LabelFlags) : bool := xorb (isY (bfi l)) (isY (cs l)).

(** What holds between two round-robin steps when every nurse is planned
    for two rooms and every room carries one of bfi and cs: a nurse has
    counted one room per mark, and the nurses marked bfi (cs) are as many
    as the bfi (cs) rooms handed out. *)
Record spreadInvariant (rooms : list DerivedRoom) (N : nat) (es : EngineState)
  : Prop := {
  spread_nurses : length (state es) = N;
  spread_marks : forall n, In n (state es) ->
    nAssigned n = Z.b2z (hasBfi n) + Z.b2z (hasCs n) /\ remaining n + nAssigned n = 2;
  spread_bfi :
    (length (List.filter hasBfi (state es)) +
     unassignedCount (List.filter (fun r => isY (bfi (d_labels r))) rooms) (assignment es)
     = N)%nat;
  spread_cs :
    (length (List.filter hasCs (state es)) +
     unassignedCount (List.filter (fun r => isY (cs (d_labels r))) rooms) (assignment es)
     = N)%nat
}.

(** The same order on exact rationals: lower score first, lower nurse id on
    equal scores. *)
Definition scoredBefore (a b : @Scored QNumber) : Prop :=
  (score a < score b)%Q \/ ((score a == score b)%Q /\ s_nurseId a <= s_nurseId b).

End MoreVocabulary.

(** ** The assignment snapshot of the application (src/App.tsx)

    The helpers of the application that rebuild the per-nurse table and
    merge a fresh engine result into the snapshot on screen.  A
    [number[]] whose cells may be missing is a list of optional integers:
    [None] is a hole or [undefined], which the code reads with [?? 0].  The
    serve history [Record<string, number[]>] is a plain object, kept here as
    a finite map from room ids: reading [history[k]] for a name every object
    inherits finds the inherited property unless the object has its own, and
    writing [history["__proto__"]] replaces the prototype, so the map is the
    history for room ids that are none of [objectPrototypeNames]. *)

Definition objectPrototypeNames : list string :=
  [ "constructor"; "__proto__"; "hasOwnProperty"; "isPrototypeOf";
    "propertyIsEnumerable"; "toLocaleString"; "toString"; "valueOf";
    "__defineGetter__"; "__defineSetter__"; "__lookupGetter__"; "__lookupSetter__" ].

(** No room of the fresh result is named like an inherited property, and
    the history on record has no entry [__proto__]. *)
Definition plainRoomIds (next : AssignmentResult) (servedHistory : gmap string (list Z))
  : Prop :=
  (forall x, In x (perRoom next) -> includes objectPrototypeNames (pr_room x) = false) /\
  servedHistory !! "__proto__" = None.

Section App.
Variable formatClock : DateTime -> string -> string.

Definition buildNurseSummary (perRoom : list RoomAssignmentRow) (nNurses : nat)
    (tz : string) : list NurseSummaryRow :=
  Array_from nNurses (fun idx =>
    let nurseId := Z.of_nat idx + 1 in
    let roomsForNurse := List.filter (fun room => nurse_id room =? nurseId) perRoom in
    let labelCounts :=
      fold_left (fun acc col =>
                   (acc ++ [(col, Z.of_nat (length
                      (List.filter (fun room => isY (getLabel col (pr_labels room)))
                                   roomsForNurse)))])%list)
                labelColumns [] in
    let assignedRooms :=
      String.concat ", "
        (map (fun room => buildRoomLabel formatClock room tz) roomsForNurse) in
    let oldestRank := minOrNull (map rank_oldest roomsForNurse) in
    let youngestRank := maxOrNull (map rank_youngest roomsForNurse) in
    {| ns_nurse_id := nurseId;
       assigned_rooms := assignedRooms;
       n_rooms := Z.of_nat (length roomsForNurse);
       oldest_rank_received := oldestRank;
       youngest_rank_received := youngestRank;
       label_counts := labelCounts |}).

(** [while (next.length < nNurses) next.push(0)], with the number of
    iterations bounded by [fuel] *)
Fixpoint pushWhileShort (fuel : nat) (nNurses : nat) (next : list (option Z))
  : list (option Z) :=
  match fuel with
  | O => next
  | S fuel' =>
    if (length next <? nNurses)%nat
    then pushWhileShort fuel' nNurses (next ++ [Some 0])%list
    else next
  end.

Definition ensureCountsLength (counts : list (option Z)) (nNurses : nat)
  : list (option Z) :=
  let next := counts in
  if (nNurses <? length next)%nat then firstn nNurses next
  else pushWhileShort nNurses nNurses next.

(** [counts[idx] ?? 0] *)
Definition countAt (counts : list (option Z)) (idx : Z) : Z :=
  if idx <? 0 then 0
  else match counts !! Z.to_nat idx with
       | Some (Some c) => c
       | _ => 0
       end.

(** [array[i] = v] for an index below 2^32 - 1: a write past the end extends
    the array with holes. *)
Definition jsArraySet (l : list (option Z)) (i : nat) (v : Z) : list (option Z) :=
  if (i <? length l)%nat then <[i := Some v]> l
  else (l ++ replicate (i - length l) None ++ [Some v])%list.

(** [Array.from(new Set(ids))]: the first occurrence of each id, in order *)
Definition uniq (ids : list Z) : list Z :=
  fold_left (fun acc x => if existsb (Z.eqb x) acc then acc else (acc ++ [x])%list)
            ids [].

(** [{ ...room, nurse_id: id }] *)
Definition withNurse (room : RoomAssignmentRow) (id : Z) : RoomAssignmentRow :=
  {| pr_room := pr_room room;
     pr_time := pr_time room;
     rank_oldest := rank_oldest room;
     rank_youngest := rank_youngest room;
     nurse_id := id;
     pr_labels := pr_labels room |}.

(** The body of the [forEach] that credits a room to its nurse, on the
    history and the served counts. *)
Definition creditRoom (hc : gmap string (list Z) * list (option Z))
    (room : RoomAssignmentRow) : gmap string (list Z) * list (option Z) :=
  let history := fst hc in
  let counts := snd hc in
  let recorded := default [] (history !! pr_room room) in
  if existsb (Z.eqb (nurse_id room)) recorded then (history, counts)
  else
    let history' := <[pr_room room := (recorded ++ [nurse_id room])%list]> history in
    let idx := nurse_id room - 1 in
    if 0 <=? idx
    then (history', jsArraySet counts (Z.to_nat idx) (countAt counts idx + 1))
    else (history', counts).

(** [Object.keys(history).forEach(room => { if (!activeRooms.has(room))
    delete history[room] })] *)
Definition dropInactive (perRoom : list RoomAssignmentRow)
    (history : gmap string (list Z)) : gmap string (list Z) :=
  filter (fun kv => includes (map pr_room perRoom) (fst kv) = true) history.

(** The comparator of the candidate sort: fewest rooms served so far, then
    fewest rooms held now, then the lower id. *)
Definition compareCandidates (counts : list (option Z)) (nurseCounts : gmap Z Z)
    (a b : Z) : Z :=
  let servedDiff := countAt counts (a - 1) - countAt counts (b - 1) in
  if negb (servedDiff =? 0) then servedDiff
  else
    let activeDiff := default 0 (nurseCounts !! a) - default 0 (nurseCounts !! b) in
    if negb (activeDiff =? 0) then activeDiff
    else a - b.

(** [appended.map(...)], whose callback updates [nurseCounts] *)
Fixpoint assignNewRooms (nNurses : nat) (counts : list (option Z))
    (appended : list RoomAssignmentRow) (nurseCounts : gmap Z Z)
  : list RoomAssignmentRow :=
  match appended with
  | [] => []
  | room :: rest =>
    let candidates :=
      js_sort (compareCandidates counts nurseCounts)
              (Array_from nNurses (fun idx => Z.of_nat idx + 1)) in
    let chosen := hd 1 candidates in
    let nurseCounts' := <[chosen := default 0 (nurseCounts !! chosen) + 1]> nurseCounts in
    withNurse room chosen :: assignNewRooms nNurses counts rest nurseCounts'
  end.

Record MergeResult := {
  result : AssignmentResult;
  updatedServedCounts : list (option Z);
  updatedServedByRoom : gmap string (list Z)
}.

Definition mergeAssignments (previous : option AssignmentResult) (next : AssignmentResult)
    (nNurses : nat) (tz : string) (servedCounts : list (option Z))
    (servedHistory : gmap string (list Z)) : MergeResult :=
  let counts := ensureCountsLength servedCounts nNurses in
  let history := uniq <$> servedHistory in
  match previous with
  | None =>
    let credited := fold_left creditRoom (perRoom next) (history, counts) in
    {| result := next;
       updatedServedCounts := snd credited;
       updatedServedByRoom := dropInactive (perRoom next) (fst credited) |}
  | Some previous =>
    let nextByRoom : gmap string RoomAssignmentRow :=
      fold_left (fun m room => <[pr_room room := room]> m) (perRoom next) ∅ in
    let prevRooms := perRoom previous in
    let preserved :=
      omap (fun room =>
              (* nextByRoom.get(room.room)!: present, by the filter *)
              (fun updated => withNurse updated (nurse_id room))
                <$> nextByRoom !! pr_room room)
           (List.filter (fun room => Map_has nextByRoom (pr_room room)) prevRooms) in
    let appended :=
      List.filter (fun room => negb (includes (map pr_room prevRooms) (pr_room room)))
                  (perRoom next) in
    let nurseCounts :=
      fold_left (fun m room =>
                   <[nurse_id room := default 0 (m !! nurse_id room) + 1]> m)
                preserved (∅ : gmap Z Z) in
    let assignedNewRooms := assignNewRooms nNurses counts appended nurseCounts in
    let perRoom' := (preserved ++ assignedNewRooms)%list in
    let credited := fold_left creditRoom perRoom' (history, counts) in
    {| result := {| perRoom := perRoom';
                    perNurse := buildNurseSummary perRoom' nNurses tz |};
       updatedServedCounts := snd credited;
       updatedServedByRoom := dropInactive perRoom' (fst credited) |}
  end.

End App.

(** The order of the candidate sort of [mergeAssignments]. *)
Definition candidateBefore (counts : list (option Z)) (nurseCounts : gmap Z Z)
    (a b : Z) : Prop :=
  countAt counts (a - 1) < countAt counts (b - 1) \/
  (countAt counts (a - 1) = countAt counts (b - 1) /\
   (default 0 (nurseCounts !! a) < default 0 (nurseCounts !! b) \/
    (default 0 (nurseCounts !! a) = default 0 (nurseCounts !! b) /\ a <= b))).

(** Nurse [id] is on record for having served room [k]. *)
Definition servedBy (history : gmap string (list Z)) (k : string) (id : Z) : Prop :=
  exists ids, history !! k = Some ids /\ In id ids.

(** ** Reading the table (src/utils/time.ts, src/utils/parser.ts)

    [String.prototype.trim] and luxon are left to the host:
    [nowInZone tz] is [DateTime.now().setZone(tz)], [None] when that is not
    valid, with the clock standing still while one table is read, and [atClock anchor hours minutes] is
    [anchor.startOf('day').plus({ hours, minutes }).set({ second: 0,
    millisecond: 0 })]. *)

(** [RoomRow]: the cells of a table row as typed by the user. *)
Record RoomRow := {
  rr_room : string;
  rr_time : string;
  rr_flag : LabelKey -> bool
}.

Record ParsedRoomRow := {
  rowIndex : nat;
  p_room : option string;
  p_time : option string;
  p_labels : LabelFlags;
  roomOk : bool;
  timeOk : bool;
  both24 : bool;
  p_timeParsed : option DateTime
}.

Record ParseResult := {
  rows : list ParsedRoomRow;
  assignmentRows : list AssignmentInputRow;
  duplicateRooms : list string;
  invalidRooms : list string;
  invalidTimes : list string;
  both24Count : nat;
  timezoneValid : bool
}.

Definition createEmptyRow : RoomRow :=
  {| rr_room := ""; rr_time := ""; rr_flag := fun _ => false |}.

(** [text || null] *)
Definition orNull (text : string) : option string :=
  if String.eqb text "" then None else Some text.

(** [flag ? 'Y' : ''] *)
Definition flagOf (b : bool) : Flag := if b then Y else Blank.

(** [arr.filter((value, idx) => p(value, idx))] *)
Definition filterWithIndex {A} (p : A -> nat -> bool) (arr : list A) : list A :=
  map fst (List.filter (fun vi => p (fst vi) (snd vi)) (combine arr (seq 0 (length arr)))).

(** [arr.filter((value, idx, arr) => arr.indexOf(value) === idx)] *)
Definition firstOccurrences (arr : list string) : list string :=
  filterWithIndex
    (fun value idx =>
       match findIndex (String.eqb value) arr with
       | Some i => (i =? idx)%nat
       | None => false
       end)
    arr.

(** [roomCounts.set(k, (roomCounts.get(k) ?? 0) + 1)] on a [Map], whose
    entries stay in the order of their first insertion *)
Definition countRoom (roomCounts : list (string * Z)) (k : string) : list (string * Z) :=
  if existsb (fun e => String.eqb (fst e) k) roomCounts
  then map (fun e => if String.eqb (fst e) k then (fst e, snd e + 1) else e) roomCounts
  else (roomCounts ++ [(k, 1)])%list.

(** [\d] *)
Definition isDigit (c : ascii) : bool :=
  (48 <=? charCode c) && (charCode c <=? 57).

(** [Number(text)] on a text of decimal digits *)
Definition digitsValue (text : list ascii) : Z :=
  fold_left (fun acc c => acc * 10 + (charCode c - 48)) text 0.

(** [/^\d{1,2}:\d{2}$/.test(text)], then [text.split(':')] and [Number] on
    the two parts: the hours and minutes of a text of one or two digits, a
    colon and two digits *)
Definition matchClock (text : string) : option (Z * Z) :=
  match text with
  | String h (String c (String m1 (String m2 EmptyString))) =>
    if isDigit h && Ascii.eqb c ":" && isDigit m1 && isDigit m2
    then Some (digitsValue [h], digitsValue [m1; m2])
    else None
  | String h1 (String h2 (String c (String m1 (String m2 EmptyString)))) =>
    if isDigit h1 && isDigit h2 && Ascii.eqb c ":" && isDigit m1 && isDigit m2
    then Some (digitsValue [h1; h2], digitsValue [m1; m2])
    else None
  | _ => None
  end.

Section Parser.
Variable trim : string -> string.
Variable nowInZone : string -> option DateTime.
Variable atClock : DateTime -> Z -> Z -> DateTime.

Definition isValidTimeZone (tz : string) : bool :=
  if String.eqb (trim tz) "" then false
  else bool_decide (is_Some (nowInZone tz)).

(** The numbers read from digits are finite, so the [Number.isFinite]
    test never fails. *)
Definition parseTimeToday (timeStr tz : string) : option DateTime :=
  let trimmed := trim timeStr in
  if String.eqb trimmed "" then None
  else
    match matchClock trimmed with
    | None => None
    | Some (hours, minutes) =>
      if (hours <? 0) || (23 <? hours) || (minutes <? 0) || (59 <? minutes) then None
      else
        match nowInZone tz with
        | None => None
        | Some anchor => Some (atClock anchor hours minutes)
        end
    end.

Definition sanitiseRow (idx : nat) (row : RoomRow) : ParsedRoomRow :=
  let trimmedRoom := trim (rr_room row) in
  let trimmedTime := trim (rr_time row) in
  {| rowIndex := idx;
     p_room := orNull trimmedRoom;
     p_time := orNull trimmedTime;
     p_labels :=
       {| discharge := flagOf (rr_flag row k_discharge);
          under_24 := flagOf (rr_flag row k_under_24);
          over_24 := flagOf (rr_flag row k_over_24);
          baby_in_scn := flagOf (rr_flag row k_baby_in_scn);
          gyn := flagOf (rr_flag row k_gyn);
          bfi := flagOf (rr_flag row k_bfi);
          cs := flagOf (rr_flag row k_cs);
          vag := flagOf (rr_flag row k_vag) |};
     roomOk := false;
     timeOk := false;
     both24 := false;
     p_timeParsed := None |}.

(** The predicate of the [filter] of [sanitiseRows]. *)
Definition hasContent (row : ParsedRoomRow) : bool :=
  let hasRoom := bool_decide (is_Some (p_room row)) in
  let hasTime := bool_decide (is_Some (p_time row)) in
  let hasTag := existsb (fun col => isY (getLabel col (p_labels row))) labelColumns in
  hasRoom || hasTime || hasTag.

Definition sanitiseRows (table : list RoomRow) : list ParsedRoomRow :=
  List.filter hasContent (imap sanitiseRow table).

(** The callback of [parsedRows.map] without its update of [roomCounts]. *)
Definition enrichRow (tz : string) (tzValid : bool) (row : ParsedRoomRow) : ParsedRoomRow :=
  let roomOk :=
    match p_room row with
    | Some r => includes canonicalRooms r
    | None => false
    end in
  let timeParsed :=
    match p_time row with
    | Some t => if tzValid then parseTimeToday t tz else None
    | None => None
    end in
  {| rowIndex := rowIndex row;
     p_room := p_room row;
     p_time := p_time row;
     p_labels := p_labels row;
     roomOk := roomOk;
     timeOk := bool_decide (is_Some timeParsed);
     both24 := isY (under_24 (p_labels row)) && isY (over_24 (p_labels row));
     p_timeParsed := timeParsed |}.

(** [row.room && row.timeParsed], then the row handed to the engine *)
Definition toAssignmentRow (row : ParsedRoomRow) : option AssignmentInputRow :=
  match p_room row, p_timeParsed row with
  | Some r, Some t => Some {| room := r; timeParsed := t; labels := p_labels row |}
  | _, _ => None
  end.

Definition parseRuntimeTable (table : list RoomRow) (tz : string) : ParseResult :=
  let parsedRows := sanitiseRows table in
  let tzValid := isValidTimeZone tz in
  let roomCounts :=
    fold_left (fun counts row =>
                 match p_room row with
                 | Some r => countRoom counts r
                 | None => counts
                 end)
              parsedRows [] in
  let enrichedRows := map (enrichRow tz tzValid) parsedRows in
  let duplicateRooms := map fst (List.filter (fun e => 1 <? snd e) roomCounts) in
  let invalidRooms :=
    firstOccurrences
      (omap p_room
         (List.filter (fun row => bool_decide (is_Some (p_room row)) && negb (roomOk row))
                      enrichedRows)) in
  let invalidTimes :=
    if tzValid
    then firstOccurrences
           (omap p_time
              (List.filter (fun row => bool_decide (is_Some (p_time row)) && negb (timeOk row))
                           enrichedRows))
    else [] in
  {| rows := enrichedRows;
     assignmentRows := omap toAssignmentRow enrichedRows;
     duplicateRooms := duplicateRooms;
     invalidRooms := invalidRooms;
     invalidTimes := invalidTimes;
     both24Count := length (List.filter both24 enrichedRows);
     timezoneValid := tzValid |}.

End Parser.

(** ** The gate of the application before the engine runs (src/App.tsx)

    A validation message is kept as what it reports; its text is left
    out. *)
Inductive ValidationMessage :=
  | TimezoneNotRecognized (timezone : string)
  | DuplicateRoomEntries (rooms : list string)
  | InvalidRooms (rooms : list string)
  | UnparseableTimes (times : list string)
  | RowsWithBoth24 (count : nat).

Definition validationMessages (timezone : string) (parseResult : ParseResult)
  : list ValidationMessage :=
  ((if negb (timezoneValid parseResult) then [TimezoneNotRecognized timezone] else []) ++
   (if (0 <? length (duplicateRooms parseResult))%nat
    then [DuplicateRoomEntries (duplicateRooms parseResult)] else []) ++
   (if (0 <? length (invalidRooms parseResult))%nat
    then [InvalidRooms (invalidRooms parseResult)] else []) ++
   (if (0 <? length (invalidTimes parseResult))%nat
    then [UnparseableTimes (invalidTimes parseResult)] else []) ++
   (if (0 <? both24Count parseResult)%nat
    then [RowsWithBoth24 (both24Count parseResult)] else []))%list.

Definition canAssign (timezone : string) (parseResult : ParseResult) : bool :=
  (length (validationMessages timezone parseResult) =? 0)%nat
  && (0 <? length (assignmentRows parseResult))%nat.

(** The rooms of the sanitised rows, in table order. *)
Definition roomsEntered (parseResult : ParseResult) : list string :=
  omap p_room (rows parseResult).

(** How often [k] occurs in [ks]. *)
Definition occurrences (k : string) (ks : list string) : nat :=
  length (List.filter (String.eqb k) ks).

(** [arr] without the repetitions of what [seen] or an earlier cell holds. *)
Fixpoint dedupeFrom (seen arr : list string) : list string :=
  match arr with
  | [] => []
  | x :: rest =>
    if includes seen x then dedupeFrom (seen ++ [x]) rest
    else x :: dedupeFrom (seen ++ [x]) rest
  end.

(** The count a [Map] kept as a list of entries holds for [k]; 0 without
    an entry. *)
Definition countOf (roomCounts : list (string * Z)) (k : string) : Z :=
  match List.find (fun e => String.eqb (fst e) k) roomCounts with
  | Some e => snd e
  | None => 0
  end.

(** ** Concrete host functions and scenarios for the parser and the snapshot *)

(** White space among the code units below 256. *)
Definition isSpace (c : ascii) : bool :=
  let n := charCode c in
  (n =? 32) || ((9 <=? n) && (n <=? 13)) || (n =? 160).

Fixpoint trimStart (text : string) : string :=
  match text with
  | EmptyString => EmptyString
  | String c rest => if isSpace c then trimStart rest else text
  end.

Fixpoint trimEnd (text : string) : string :=
  match text with
  | EmptyString => EmptyString
  | String c rest =>
    match trimEnd rest with
    | EmptyString => if isSpace c then EmptyString else String c EmptyString
    | rest' => String c rest'
    end
  end.

(** [String.prototype.trim] on a text of code units below 256 *)
Definition trimCodeUnits (text : string) : string := trimEnd (trimStart text).

(** The host on 2025-01-01 in America/Toronto, the only zone it knows. *)
Definition scenarioNow (tz : string) : option DateTime :=
  if String.eqb tz TZ
  then Some {| toMillis := 1735707600000 + (13 * 60 + 5) * 60000;
               year := 2025; month := 1; day := 1; hour := 13; minute := 5 |}
  else None.

(** A clock time on the anchor day in a zone five hours behind UTC, on a
    day without a change of offset: the start of the day plus the hours and
    minutes, whatever the seconds of the anchor. *)
Definition atClockOfDay (anchor : DateTime) (hours minutes : Z) : DateTime :=
  let offset := 5 * 3600000 in
  let startOfDay := (toMillis anchor - offset) / 86400000 * 86400000 + offset in
  {| toMillis := startOfDay + (hours * 60 + minutes) * 60000;
     year := year anchor; month := month anchor; day := day anchor;
     hour := hours; minute := minutes |}.

Definition flagsOf (keys : list LabelKey) : LabelKey -> bool :=
  fun k => existsb (fun k' => bool_decide (k' = k)) keys.

(** A table as typed: white space around the cells, a short hour, a room
    without a time and a blank row. *)
Definition scenarioTable : list RoomRow :=
  [ {| rr_room := " 1 "; rr_time := "08:00"; rr_flag := flagsOf [k_discharge] |};
    {| rr_room := "3"; rr_time := " 9:30"; rr_flag := flagsOf [k_under_24; k_bfi] |};
    createEmptyRow;
    {| rr_room := "14-1"; rr_time := "11:15"; rr_flag := flagsOf [k_over_24] |};
    {| rr_room := "14-2"; rr_time := ""; rr_flag := flagsOf [k_over_24] |} ].

(** The same table with room 1 entered twice and a room off the roster. *)
Definition faultyTable : list RoomRow :=
  (scenarioTable ++
   [ {| rr_room := "1"; rr_time := "12:00"; rr_flag := flagsOf [] |};
     {| rr_room := "99"; rr_time := "25:00"; rr_flag := flagsOf [] |} ])%list.

Definition runParse (table : list RoomRow) : ParseResult :=
  parseRuntimeTable trimCodeUnits scenarioNow atClockOfDay table TZ.

(** The result of a run, or the empty tables for an error. *)
Definition resultOf (run : Res AssignmentResult) : AssignmentResult :=
  match run with
  | Ok res => res
  | Throw _ => {| perNurse := []; perRoom := [] |}
  end.

(** The snapshot after the first four rooms of the discharge scenario, and
    the fresh result for all eight. *)
Definition scenarioPrevious : AssignmentResult :=
  resultOf (runAssignRooms (firstn 4 dischargeScenario) 3).

Definition scenarioNext : AssignmentResult :=
  resultOf (runAssignRooms dischargeScenario 3).

Definition scenarioMerge : MergeResult :=
  mergeAssignments formatClockOwnZone (Some scenarioPrevious) scenarioNext 3 TZ
    [Some 2; Some 1] ∅.

(** The phases of the engine run on exact rationals, from the initial
    state of [assignRooms]. *)
Definition runAssignRoomsToState (rows : list AssignmentInputRow) (nNurses : nat)
  : Res EngineState :=
  @assignRoomsToState QNumber compareCodeUnits (map deriveRoom rows)
    (buildInitialState (plannedCapacities rows nNurses)) (plannedCapacities rows nNurses).

(** The state after the four phases on the discharge scenario. *)
Definition scenarioEngine : EngineState :=
  match runAssignRoomsToState dischargeScenario 3 with
  | Ok es => es
  | Throw _ => scenarioStart
  end.

(** * Proofs *)

(** Case analysis on every integer equality test of the goal. *)
Ltac cases_eqb :=
  repeat match goal with
         | |- context [Z.eqb ?a ?b] => destruct (Z.eqb_spec a b)
         end;
  cbn [negb].

(** ** Sums *)

Lemma fold_left_add_acc (l : list Z) (a : Z) :
  fold_left Z.add l a = a + fold_left Z.add l 0.
Proof.
  revert a. induction l as [|x l IH]; intros a; cbn [fold_left]; [lia|].
  rewrite (IH (a + x)), (IH (0 + x)). lia.
Qed.

Lemma sumZ_cons (x : Z) (l : list Z) : sumZ (x :: l) = x + sumZ l.
Proof. unfold sumZ. simpl. apply fold_left_add_acc. Qed.

Lemma sumZ_app (l1 l2 : list Z) : sumZ (l1 ++ l2) = sumZ l1 + sumZ l2.
Proof.
  induction l1 as [|x l1 IH]; simpl.
  - unfold sumZ at 2. simpl. lia.
  - rewrite !sumZ_cons, IH. lia.
Qed.

Lemma sumZ_nil : sumZ [] = 0.
Proof. reflexivity. Qed.

(** ** CapacityPlanner *)

Lemma length_computeCapacities (R : Z) (N : nat) :
  length (computeCapacities R N) = N.
Proof. unfold computeCapacities, Array_from. now rewrite length_map, length_seq. Qed.

Lemma lookup_computeCapacities (R : Z) (N i : nat) :
  (i < N)%nat ->
  computeCapacities R N !! i =
    Some {| cap_nurseId := Z.of_nat i + 1;
            capacity := if Z.of_nat i <? Z.rem R (Z.of_nat N)
                        then R / Z.of_nat N + 1 else R / Z.of_nat N |}.
Proof.
  intros Hi. unfold computeCapacities, Array_from.
  rewrite list_lookup_fmap, lookup_seq_lt by lia. reflexivity.
Qed.

Lemma sum_quota (b r : Z) (n : nat) :
  0 <= r ->
  sumZ (map (fun idx : nat => if Z.of_nat idx <? r then b + 1 else b) (seq 0 n))
  = Z.of_nat n * b + Z.min (Z.of_nat n) r.
Proof.
  intros Hr. induction n as [|n IH].
  - simpl. rewrite sumZ_nil. lia.
  - rewrite seq_S, map_app, sumZ_app, IH. simpl.
    rewrite sumZ_cons, sumZ_nil.
    destruct (Z.ltb_spec (Z.of_nat n) r); lia.
Qed.

Lemma map_capacity_computeCapacities (R : Z) (N : nat) :
  map capacity (computeCapacities R N) =
  map (fun idx : nat => if Z.of_nat idx <? Z.rem R (Z.of_nat N)
                        then R / Z.of_nat N + 1 else R / Z.of_nat N) (seq 0 N).
Proof. unfold computeCapacities, Array_from. now rewrite map_map. Qed.

Lemma sum_computeCapacities (R : Z) (N : nat) :
  0 <= R -> (1 <= N)%nat ->
  sumZ (map capacity (computeCapacities R N)) = R.
Proof.
  intros HR HN. rewrite map_capacity_computeCapacities.
  rewrite Z.rem_mod_nonneg by lia.
  pose proof (Z.mod_pos_bound R (Z.of_nat N) ltac:(lia)) as Hb.
  rewrite sum_quota by lia.
  pose proof (Z.div_mod R (Z.of_nat N) ltac:(lia)). lia.
Qed.

Lemma capacity_computeCapacities (R : Z) (N : nat) (c : NurseCapacity) :
  In c (computeCapacities R N) ->
  capacity c = R / Z.of_nat N \/ capacity c = R / Z.of_nat N + 1.
Proof.
  unfold computeCapacities, Array_from. rewrite in_map_iff.
  intros (idx & <- & _). simpl.
  destruct (Z.of_nat idx <? Z.rem R (Z.of_nat N)); auto.
Qed.

(** C2. For every room count [R >= 0] and nurse count [N >= 1],
    [computeCapacities] returns exactly [N] capacities; the nurse with id
    [i+1] gets [floor(R/N) + 1] when its id is at most [R mod N] and
    [floor(R/N)] otherwise; the capacities sum to [R], each is
    [floor(R/N)] or [floor(R/N) + 1], any two differ by at most 1, and 7
    rooms for 3 nurses give [3; 2; 2]. *)
Theorem computeCapacities_quota (R : Z) (N : nat) :
  0 <= R -> (1 <= N)%nat ->
  let caps := computeCapacities R N in
  let base := R / Z.of_nat N in
  let remainder := R mod Z.of_nat N in
  length caps = N /\
  (forall i : nat, (i < N)%nat ->
     caps !! i = Some {| cap_nurseId := Z.of_nat i + 1;
                         capacity := if Z.of_nat i + 1 <=? remainder
                                     then base + 1 else base |}) /\
  sumZ (map capacity caps) = R /\
  (forall c, In c caps -> capacity c = base \/ capacity c = base + 1) /\
  (forall c d, In c caps -> In d caps -> capacity c - capacity d <= 1) /\
  map capacity (computeCapacities 7 3) = [3; 2; 2].
Proof.
  intros HR HN caps base remainder. subst caps base remainder.
  repeat split.
  - apply length_computeCapacities.
  - intros i Hi. rewrite lookup_computeCapacities by exact Hi.
    rewrite Z.rem_mod_nonneg by lia.
    do 2 f_equal.
    destruct (Z.ltb_spec (Z.of_nat i) (R mod Z.of_nat N));
      destruct (Z.leb_spec (Z.of_nat i + 1) (R mod Z.of_nat N)); lia.
  - now apply sum_computeCapacities.
  - apply capacity_computeCapacities.
  - intros c d Hc Hd.
    apply capacity_computeCapacities in Hc, Hd. lia.
Qed.

(** ** [Array.prototype.sort] *)

Lemma js_insert_perm {A} (cmp : A -> A -> Z) (x : A) (l : list A) :
  Permutation (js_insert cmp x l) (x :: l).
Proof.
  induction l as [|y l IH]; simpl; [reflexivity|].
  destruct (cmp x y <=? 0); [reflexivity|].
  rewrite IH. apply perm_swap.
Qed.

Lemma js_sort_cons {A} (cmp : A -> A -> Z) (x : A) (l : list A) :
  js_sort cmp (x :: l) = js_insert cmp x (js_sort cmp l).
Proof. reflexivity. Qed.

Lemma js_sort_perm {A} (cmp : A -> A -> Z) (l : list A) :
  Permutation (js_sort cmp l) l.
Proof.
  induction l as [|x l IH]; [reflexivity|].
  rewrite js_sort_cons, js_insert_perm. now constructor.
Qed.

Lemma js_sort_In {A} (cmp : A -> A -> Z) (l : list A) (x : A) :
  In x (js_sort cmp l) <-> In x l.
Proof.
  split; apply Permutation_in; [|symmetry]; apply js_sort_perm.
Qed.

Lemma js_sort_NoDup_map {A B} (f : A -> B) (cmp : A -> A -> Z) (l : list A) :
  NoDup (map f l) -> NoDup (map f (js_sort cmp l)).
Proof.
  intros Hnd. now rewrite js_sort_perm.
Qed.

(** A comparator and a function that respects it commute with the sort. *)
Lemma js_insert_map {A B} (f : A -> B) (cmpA : A -> A -> Z) (cmpB : B -> B -> Z) :
  (forall a b, cmpB (f a) (f b) = cmpA a b) ->
  forall x l, js_insert cmpB (f x) (map f l) = map f (js_insert cmpA x l).
Proof.
  intros Hcmp x l. induction l as [|y l IH]; simpl; [reflexivity|].
  rewrite Hcmp. destruct (cmpA x y <=? 0); simpl; [reflexivity|].
  now rewrite IH.
Qed.

Lemma js_sort_map {A B} (f : A -> B) (cmpA : A -> A -> Z) (cmpB : B -> B -> Z) :
  (forall a b, cmpB (f a) (f b) = cmpA a b) ->
  forall l, js_sort cmpB (map f l) = map f (js_sort cmpA l).
Proof.
  intros Hcmp l. induction l as [|x l IH]; [reflexivity|].
  cbn [map]. rewrite !js_sort_cons, IH. now apply js_insert_map.
Qed.

Section SortedBy.
Context {A : Type} (cmp : A -> A -> Z) (R : A -> A -> Prop).
Hypothesis R_trans : forall a b c, R a b -> R b c -> R a c.
Hypothesis cmp_le : forall a b, cmp a b <= 0 -> R a b.
Hypothesis cmp_gt : forall a b, 0 < cmp a b -> R b a.

Lemma js_insert_sorted (x : A) (l : list A) :
  StronglySorted R l -> StronglySorted R (js_insert cmp x l).
Proof.
  induction 1 as [|y l Hs IH Hy]; simpl.
  - repeat constructor.
  - destruct (Z.leb_spec (cmp x y) 0) as [Hle|Hgt].
    + apply cmp_le in Hle. constructor; [now constructor|].
      constructor; [exact Hle|].
      eapply Forall_impl; [exact Hy|]. intros z Hz. now apply (R_trans x y z).
    + apply cmp_gt in Hgt. constructor; [exact IH|].
      eapply Permutation_Forall; [symmetry; apply js_insert_perm|].
      now constructor.
Qed.

Lemma js_sort_sorted (l : list A) : StronglySorted R (js_sort cmp l).
Proof.
  induction l as [|x l IH]; [constructor|].
  rewrite js_sort_cons. now apply js_insert_sorted.
Qed.
End SortedBy.

(** ** Lists *)

Lemma hd_In_or {A} (d : A) (l : list A) : hd d l = d \/ In (hd d l) l.
Proof. destruct l; simpl; auto. Qed.

Lemma sum_pos_exists {A} (f : A -> Z) (l : list A) :
  0 < sumZ (map f l) -> exists x, In x l /\ 0 < f x.
Proof.
  induction l as [|x l IH]; cbn [map].
  - rewrite sumZ_nil. lia.
  - rewrite sumZ_cons. intros Hs.
    destruct (Z.lt_ge_cases 0 (f x)) as [Hx|Hx].
    + exists x. split; [now left | exact Hx].
    + destruct IH as (y & Hy & Hfy); [lia|].
      exists y. split; [now right | exact Hfy].
Qed.

Lemma rotation_index (rr len i : nat) :
  (i < len)%nat -> exists off, (off < len)%nat /\ ((rr + off) mod len)%nat = i.
Proof.
  intros Hi.
  pose proof (Nat.mod_upper_bound rr len ltac:(lia)) as Hr.
  pose proof (Nat.div_mod_eq rr len) as Hd.
  destruct (le_lt_dec (rr mod len) i) as [Hle|Hlt].
  - exists (i - rr mod len)%nat. split; [lia|].
    symmetry. apply (Nat.mod_unique _ _ (rr / len)); lia.
  - exists (i + len - rr mod len)%nat. split; [lia|].
    symmetry. apply (Nat.mod_unique _ _ (rr / len + 1)); lia.
Qed.

Lemma filter_nil_iff {A} (f : A -> bool) (l : list A) :
  List.filter f l = [] <-> forall x, In x l -> f x = false.
Proof.
  induction l as [|y l IH]; simpl.
  - split; [intros _ x [] | reflexivity].
  - destruct (f y) eqn:Hy.
    + split; [discriminate|]. intros Hall.
      specialize (Hall y (or_introl eq_refl)). congruence.
    + rewrite IH. split.
      * intros Hall x [<-|Hx]; auto.
      * intros Hall x Hx. apply Hall. now right.
Qed.

Lemma filter_head_In {A} (f : A -> bool) (l : list A) (c : A) (rest : list A) :
  List.filter f l = c :: rest -> In c l /\ f c = true.
Proof.
  intros Hf. apply filter_In. rewrite Hf. now left.
Qed.

Lemma hd_filter_In {A} (f : A -> bool) (d : A) (l : list A) :
  In d l -> In (hd d (List.filter f l)) l.
Proof.
  intros Hd. destruct (hd_In_or d (List.filter f l)) as [-> | Hh]; [exact Hd|].
  apply filter_In in Hh. tauto.
Qed.

Lemma hd_js_sort_In {A} (cmp : A -> A -> Z) (d : A) (l : list A) :
  In d l -> In (hd d (js_sort cmp l)) l.
Proof.
  intros Hd. destruct (hd_In_or d (js_sort cmp l)) as [-> | Hh]; [exact Hd|].
  now apply js_sort_In in Hh.
Qed.

Lemma NoDup_map_filter {A B} (f : A -> B) (p : A -> bool) (l : list A) :
  NoDup (map f l) -> NoDup (map f (List.filter p l)).
Proof.
  induction l as [|x l IH]; cbn [map List.filter]; [auto|].
  intros Hnd. apply NoDup_cons in Hnd as [Hx Hnd].
  destruct (p x); cbn [map]; [|auto].
  apply NoDup_cons. split; [|auto].
  intros Hin. apply Hx. apply list_elem_of_In in Hin. apply list_elem_of_In.
  apply in_map_iff in Hin as (y & Hy & Hin). apply filter_In in Hin as [Hin _].
  rewrite <- Hy. now apply in_map.
Qed.

Lemma filter_comm {A} (p q : A -> bool) (l : list A) :
  List.filter p (List.filter q l) = List.filter q (List.filter p l).
Proof.
  induction l as [|x l IH]; cbn [List.filter]; [reflexivity|].
  destruct (p x) eqn:Hp, (q x) eqn:Hq; cbn [List.filter];
    rewrite ?Hp, ?Hq, IH; reflexivity.
Qed.

Lemma filter_perm {A} (p : A -> bool) (l l' : list A) :
  Permutation l l' -> Permutation (List.filter p l) (List.filter p l').
Proof.
  induction 1 as [|x l l' _ IH|x y l|l l' l'' _ IH1 _ IH2]; cbn [List.filter].
  - constructor.
  - destruct (p x); [now constructor | exact IH].
  - destruct (p x), (p y); try reflexivity. apply perm_swap.
  - now transitivity (List.filter p l').
Qed.

(** ** Selection *)

Section EngineProofs.
Context `{JSNumber}.
Variable localeCompare : string -> string -> Z.
Variable formatClock : DateTime -> string -> string.

Lemma In_getRoundRobinOrder (es : EngineState) (n : NurseState) :
  In n (getRoundRobinOrder es) <-> In n (state es).
Proof.
  rewrite <- !list_elem_of_In. unfold getRoundRobinOrder.
  rewrite list_elem_of_omap. split.
  - intros (off & _ & Hl). eapply list_elem_of_lookup_2, Hl.
  - intros Hn. apply list_elem_of_lookup_1 in Hn as [i Hi].
    pose proof (lookup_lt_Some _ _ _ Hi) as Hlt.
    destruct (rotation_index (roundRobinIndex es) (length (state es)) i Hlt)
      as (off & Hoff & Heq).
    exists off. split.
    + apply elem_of_seq. lia.
    + now rewrite Heq.
Qed.

Lemma exhausted_iff (st : list NurseState) :
  exhausted st <-> forall n, In n st -> (0 <? remaining n) = false.
Proof.
  unfold exhausted. split; intros Hex n Hn; specialize (Hex n Hn).
  - apply Z.ltb_ge. exact Hex.
  - apply Z.ltb_ge in Hex. exact Hex.
Qed.

Lemma roundRobinChoice_Some (room : DerivedRoom) (es : EngineState) (chosen : NurseState) :
  roundRobinChoice room es = Some chosen ->
  In chosen (state es) /\ 0 < remaining chosen.
Proof.
  unfold roundRobinChoice.
  destruct (List.filter _ (getRoundRobinOrder es)) as [|c0 rest] eqn:Hc; [discriminate|].
  intros Heq. injection Heq as Heq.
  assert (Hin : In chosen (c0 :: rest)).
  { rewrite <- Heq. apply (hd_filter_In (avoidsDuplicate room) c0 (c0 :: rest)).
    now left. }
  clear Heq. rewrite <- Hc in Hin. apply filter_In in Hin as [Hin Hrem].
  split; [now apply In_getRoundRobinOrder | now apply Z.ltb_lt].
Qed.

Lemma roundRobinChoice_None (room : DerivedRoom) (es : EngineState) :
  roundRobinChoice room es = None <-> exhausted (state es).
Proof.
  rewrite exhausted_iff. unfold roundRobinChoice.
  destruct (List.filter _ (getRoundRobinOrder es)) as [|c0 rest] eqn:Hc.
  - split; [intros _ | reflexivity].
    intros n Hn. rewrite filter_nil_iff in Hc. apply Hc.
    now apply In_getRoundRobinOrder.
  - split; [discriminate|]. intros Hex.
    apply filter_head_In in Hc as [Hin Hrem].
    apply In_getRoundRobinOrder in Hin. rewrite (Hex _ Hin) in Hrem. discriminate.
Qed.

Lemma pickNurse_Ok (room : DerivedRoom) (st : list NurseState)
    (capacities : list NurseCapacity) (capacityMap : gmap Z Z) (v : Z) :
  pickNurse room st capacities capacityMap = Ok v ->
  exists chosen, In chosen st /\ 0 < remaining chosen /\ nurseId chosen = v.
Proof.
  unfold pickNurse.
  destruct (List.filter _ st) as [|c0 rest] eqn:Hc; [discriminate|].
  intros Heq. injection Heq as Heq.
  set (sc := scoreNurse room st capacities capacityMap) in *.
  assert (Hin : exists s, In s (map sc (c0 :: rest)) /\ s_nurseId s = v).
  { exists (hd (sc c0) (js_sort compareScored (map sc (c0 :: rest)))).
    split; [|exact Heq].
    apply (hd_js_sort_In compareScored (sc c0) (map sc (c0 :: rest))).
    now left. }
  clear Heq. destruct Hin as (s & Hin & Hv).
  apply in_map_iff in Hin as (chosen & Hsc & Hin).
  rewrite <- Hc in Hin. apply filter_In in Hin as [Hin Hrem].
  exists chosen. split; [exact Hin|]. split; [now apply Z.ltb_lt|].
  rewrite <- Hv, <- Hsc. reflexivity.
Qed.

Lemma pickNurse_Throw (room : DerivedRoom) (st : list NurseState)
    (capacities : list NurseCapacity) (capacityMap : gmap Z Z) :
  (exists e, pickNurse room st capacities capacityMap = Throw e) <-> exhausted st.
Proof.
  rewrite exhausted_iff. unfold pickNurse.
  destruct (List.filter _ st) as [|c0 rest] eqn:Hc.
  - split; [intros _ | intros _; eexists; reflexivity].
    now apply filter_nil_iff.
  - split; [intros [e He]; discriminate|]. intros Hex.
    apply filter_head_In in Hc as [Hin Hrem].
    rewrite (Hex _ Hin) in Hrem. discriminate.
Qed.

(** ** The update of the chosen nurse *)

Lemma updateNurseState_split (room : DerivedRoom) (st : list NurseState)
    (chosen : NurseState) :
  NoDup (map nurseId st) -> In chosen st ->
  exists l1 l2, st = l1 ++ chosen :: l2 /\
    updateNurseState (nurseId chosen) room st = l1 ++ recordRoom room chosen :: l2.
Proof.
  induction st as [|n rest IH]; intros Hnd Hin; [destruct Hin|].
  cbn [map] in Hnd. apply NoDup_cons in Hnd as [Hn Hnd].
  cbn [updateNurseState].
  destruct (Z.eqb_spec (nurseId n) (nurseId chosen)) as [Heq|Hne].
  - destruct Hin as [-> | Hin].
    + exists [], rest. split; reflexivity.
    + exfalso. apply Hn. rewrite Heq. apply list_elem_of_In. now apply in_map.
  - destruct Hin as [-> | Hin]; [congruence|].
    destruct (IH Hnd Hin) as (l1 & l2 & Hst & Hup).
    exists (n :: l1), l2. split; cbn [app]; congruence.
Qed.

Lemma roundRobinStep_assigns (room : DerivedRoom) (es es' : EngineState) :
  NoDup (map nurseId (state es)) ->
  roundRobinStep room es = Ok es' -> assigns room es es'.
Proof.
  intros Hnd. unfold roundRobinStep.
  destruct (roundRobinChoice room es) as [chosen|] eqn:Hch; [|discriminate].
  intros [= <-]. apply roundRobinChoice_Some in Hch as [Hin Hrem].
  destruct (updateNurseState_split room _ _ Hnd Hin) as (l1 & l2 & Hst & Hup).
  exists l1, chosen, l2. cbn [state assignment]. auto.
Qed.

Lemma roundRobinStep_total (room : DerivedRoom) (es : EngineState) :
  ~ exhausted (state es) -> exists es', roundRobinStep room es = Ok es'.
Proof.
  intros Hne. unfold roundRobinStep.
  destruct (roundRobinChoice room es) as [chosen|] eqn:Hch; [eexists; reflexivity|].
  apply roundRobinChoice_None in Hch. contradiction.
Qed.

Lemma assignWithScoring_assigns (capacities : list NurseCapacity) (capacityMap : gmap Z Z)
    (room : DerivedRoom) (es es' : EngineState) :
  NoDup (map nurseId (state es)) ->
  Map_has (assignment es) (d_room room) = false ->
  assignWithScoring capacities capacityMap room es = Ok es' -> assigns room es es'.
Proof.
  intros Hnd Hhas. unfold assignWithScoring. rewrite Hhas.
  destruct (pickNurse room (state es) capacities capacityMap) as [v|e] eqn:Hp;
    [|discriminate].
  cbn. intros [= <-]. apply pickNurse_Ok in Hp as (chosen & Hin & Hrem & <-).
  destruct (updateNurseState_split room _ _ Hnd Hin) as (l1 & l2 & Hst & Hup).
  exists l1, chosen, l2. cbn [state assignment]. auto.
Qed.

Lemma assignWithScoring_total (capacities : list NurseCapacity) (capacityMap : gmap Z Z)
    (room : DerivedRoom) (es : EngineState) :
  ~ exhausted (state es) ->
  exists es', assignWithScoring capacities capacityMap room es = Ok es'.
Proof.
  intros Hne. unfold assignWithScoring.
  destruct (Map_has _ _); [eexists; reflexivity|].
  destruct (pickNurse room (state es) capacities capacityMap) as [v|e] eqn:Hp.
  - eexists. reflexivity.
  - exfalso. apply Hne. apply (pickNurse_Throw room _ capacities capacityMap). eauto.
Qed.

(** ** What one assignment does to the shared variables *)

Lemma sumRemaining_assigns (room : DerivedRoom) (es es' : EngineState) :
  assigns room es es' -> sumRemaining (state es') = sumRemaining (state es) - 1.
Proof.
  intros (l1 & chosen & l2 & Hst & Hrem & Hst' & _).
  unfold sumRemaining. rewrite Hst, Hst', !map_app. cbn [map].
  rewrite !sumZ_app, !sumZ_cons. cbn [recordRoom remaining]. lia.
Qed.

Lemma nurseIds_assigns (room : DerivedRoom) (es es' : EngineState) :
  assigns room es es' -> map nurseId (state es') = map nurseId (state es).
Proof.
  intros (l1 & chosen & l2 & Hst & _ & Hst' & _).
  rewrite Hst, Hst', !map_app. reflexivity.
Qed.

Lemma assignment_assigns (room : DerivedRoom) (es es' : EngineState) :
  assigns room es es' ->
  exists v, In v (map nurseId (state es)) /\
            assignment es' = <[d_room room := v]> (assignment es).
Proof.
  intros (l1 & chosen & l2 & Hst & _ & _ & Has).
  exists (nurseId chosen). split; [|exact Has].
  rewrite Hst, map_app, in_app_iff. right. now left.
Qed.

Lemma Map_has_false {V} (m : gmap string V) (k : string) :
  Map_has m k = false <-> m !! k = None.
Proof. unfold Map_has. destruct (m !! k); split; congruence. Qed.

Lemma Map_has_true {V} (m : gmap string V) (k : string) :
  Map_has m k = true <-> k ∈ dom m.
Proof.
  unfold Map_has. rewrite elem_of_dom. destruct (m !! k) eqn:E; split; try congruence.
  - intros _. eauto.
  - intros [x Hx]. discriminate.
Qed.

Lemma engineInvariant_assigns (rooms : list DerivedRoom) (ids : list Z) (room : DerivedRoom)
    (es es' : EngineState) :
  engineInvariant rooms ids es -> assigns room es es' ->
  assignment es !! d_room room = None ->
  In (d_room room) (map d_room rooms) ->
  engineInvariant rooms ids es'.
Proof.
  intros [Htot Hdom Hids Hnd Hval] Has Hfresh Hin.
  pose proof (sumRemaining_assigns _ _ _ Has) as Hsum.
  pose proof (nurseIds_assigns _ _ _ Has) as Hid.
  destruct (assignment_assigns _ _ _ Has) as (v & Hv & Hmap).
  split.
  - rewrite Hsum, Hmap, map_size_insert_None by exact Hfresh. lia.
  - rewrite Hmap, dom_insert_L.
    apply list_elem_of_In in Hin.
    set_solver.
  - now rewrite Hid.
  - exact Hnd.
  - intros k w. rewrite Hmap, lookup_insert. rewrite Hids in Hv.
    case_decide; [intros [= <-]; exact Hv | apply Hval].
Qed.

Lemma engineInvariant_NoDup (rooms : list DerivedRoom) (ids : list Z) (es : EngineState) :
  engineInvariant rooms ids es -> NoDup (map nurseId (state es)).
Proof. intros [_ _ Hids Hnd _]. now rewrite Hids. Qed.

Lemma engineInvariant_capacity_left (rooms : list DerivedRoom) (ids : list Z) (room : DerivedRoom)
    (es : EngineState) :
  NoDup (map d_room rooms) -> engineInvariant rooms ids es ->
  assignment es !! d_room room = None ->
  In (d_room room) (map d_room rooms) ->
  ~ exhausted (state es).
Proof.
  intros Hnd [Htot Hdom _ _ _] Hfresh Hin Hex.
  assert (Hlt : (size (dom (assignment es)) < size (list_to_set (map d_room rooms) : gset string))%nat).
  { apply subset_size. split; [exact Hdom|].
    intros Hsub. apply list_elem_of_In in Hin.
    assert (Hd : d_room room ∈ dom (assignment es)) by set_solver.
    apply elem_of_dom in Hd as [v Hv]. congruence. }
  rewrite size_dom, size_list_to_set, length_map in Hlt by exact Hnd.
  assert (Hpos : 0 < sumRemaining (state es)) by lia.
  apply sum_pos_exists in Hpos as (n & Hn & Hrem).
  specialize (Hex n Hn). lia.
Qed.

(** ** The loops *)

Lemma forEach_cons {A S} (step : A -> S -> Res S) (x : A) (l : list A) (s s1 : S) :
  step x s = Ok s1 -> forEach step (x :: l) s = forEach step l s1.
Proof. intros Hs. cbn [forEach]. rewrite Hs. reflexivity. Qed.

Lemma forEach_roundRobinStep (rooms l : list DerivedRoom) (ids : list Z) :
  NoDup (map d_room rooms) ->
  forall es, engineInvariant rooms ids es -> NoDup (map d_room l) ->
  (forall r, In r l ->
     In (d_room r) (map d_room rooms) /\ assignment es !! d_room r = None) ->
  exists es', forEach roundRobinStep l es = Ok es' /\ engineInvariant rooms ids es' /\
    dom (assignment es') = dom (assignment es) ∪ list_to_set (map d_room l) /\
    assignment es ⊆ assignment es'.
Proof.
  intros Hnd. induction l as [|x l IH]; intros es Hinv Hl Hfresh.
  - exists es. cbn [forEach map].
    split; [reflexivity|]. split; [exact Hinv|]. split; [set_solver | reflexivity].
  - cbn [map] in Hl. apply NoDup_cons in Hl as [Hx Hl].
    destruct (Hfresh x (or_introl eq_refl)) as [Hxin Hxfresh].
    destruct (roundRobinStep_total x es) as [es1 Hstep].
    { now apply (engineInvariant_capacity_left rooms ids x). }
    pose proof (roundRobinStep_assigns x es es1 (engineInvariant_NoDup _ _ _ Hinv) Hstep) as Has.
    pose proof (engineInvariant_assigns rooms ids x es es1 Hinv Has Hxfresh Hxin) as Hinv1.
    destruct (assignment_assigns _ _ _ Has) as (v & _ & Hmap).
    destruct (IH es1 Hinv1 Hl) as (es' & Hrun & Hinv' & Hdom & Hsub).
    { intros r Hr. destruct (Hfresh r (or_intror Hr)) as [Hrin Hrf].
      split; [exact Hrin|]. rewrite Hmap, lookup_insert_ne; [exact Hrf|].
      intros Heq. apply Hx. rewrite Heq. apply list_elem_of_In. now apply in_map. }
    exists es'. split; [now rewrite (forEach_cons _ _ _ _ _ Hstep)|].
    split; [exact Hinv'|]. split.
    + rewrite Hdom, Hmap, dom_insert_L. cbn [map]. set_solver.
    + etransitivity; [|exact Hsub]. rewrite Hmap. now apply insert_subseteq.
Qed.

Lemma forEach_assignWithScoring (capacities : list NurseCapacity) (capacityMap : gmap Z Z)
    (rooms l : list DerivedRoom) (ids : list Z) :
  NoDup (map d_room rooms) ->
  forall es, engineInvariant rooms ids es ->
  (forall r, In r l -> In (d_room r) (map d_room rooms)) ->
  exists es', forEach (assignWithScoring capacities capacityMap) l es = Ok es' /\
    engineInvariant rooms ids es' /\
    dom (assignment es') = dom (assignment es) ∪ list_to_set (map d_room l) /\
    assignment es ⊆ assignment es'.
Proof.
  intros Hnd. induction l as [|x l IH]; intros es Hinv Hin.
  - exists es. cbn [forEach map].
    split; [reflexivity|]. split; [exact Hinv|]. split; [set_solver | reflexivity].
  - pose proof (Hin x (or_introl eq_refl)) as Hxin.
    assert (Hl : forall r, In r l -> In (d_room r) (map d_room rooms)).
    { intros r Hr. apply Hin. now right. }
    destruct (Map_has (assignment es) (d_room x)) eqn:Hhas.
    + destruct (IH es Hinv Hl) as (es' & Hrun & Hinv' & Hdom & Hsub).
      exists es'. split.
      { rewrite (forEach_cons _ _ _ _ es); [exact Hrun|].
        unfold assignWithScoring. now rewrite Hhas. }
      split; [exact Hinv'|]. split; [|exact Hsub].
      apply Map_has_true in Hhas. rewrite Hdom. cbn [map]. set_solver.
    + pose proof Hhas as Hfresh. apply Map_has_false in Hfresh.
      destruct (assignWithScoring_total capacities capacityMap x es) as [es1 Hstep].
      { now apply (engineInvariant_capacity_left rooms ids x). }
      pose proof (assignWithScoring_assigns _ _ x es es1 (engineInvariant_NoDup _ _ _ Hinv) Hhas Hstep)
        as Has.
      pose proof (engineInvariant_assigns rooms ids x es es1 Hinv Has Hfresh Hxin) as Hinv1.
      destruct (assignment_assigns _ _ _ Has) as (v & _ & Hmap).
      destruct (IH es1 Hinv1 Hl) as (es' & Hrun & Hinv' & Hdom & Hsub).
      exists es'. split; [now rewrite (forEach_cons _ _ _ _ _ Hstep)|].
      split; [exact Hinv'|]. split.
      * rewrite Hdom, Hmap, dom_insert_L. cbn [map]. set_solver.
      * etransitivity; [|exact Hsub]. rewrite Hmap. now apply insert_subseteq.
Qed.

(** ** The phases and the run *)

Lemma dom_union_unassigned (es : EngineState) (l : list DerivedRoom) :
  dom (assignment es) ∪ list_to_set (map d_room (List.filter (notYetAssigned es) l))
  = dom (assignment es) ∪ list_to_set (map d_room l).
Proof.
  induction l as [|x l IH]; cbn [List.filter map]; [reflexivity|].
  unfold notYetAssigned at 1.
  destruct (Map_has (assignment es) (d_room x)) eqn:Hhas; cbn [negb map].
  - apply Map_has_true in Hhas. rewrite IH, list_to_set_cons. set_solver.
  - rewrite !list_to_set_cons. set_solver.
Qed.

Lemma assignRoundRobin_ok (rooms data : list DerivedRoom) (ids : list Z)
    (direction : SortDirection) (es : EngineState) :
  NoDup (map d_room rooms) -> engineInvariant rooms ids es ->
  NoDup (map d_room data) -> (forall r, In r data -> In r rooms) ->
  exists es', assignRoundRobin localeCompare data direction es = Ok es' /\
    engineInvariant rooms ids es' /\
    dom (assignment es') = dom (assignment es) ∪ list_to_set (map d_room data) /\
    assignment es ⊆ assignment es'.
Proof.
  intros Hnd Hinv Hdata Hincl. unfold assignRoundRobin.
  destruct (forEach_roundRobinStep rooms
              (List.filter (notYetAssigned es)
                 (sortByAgeThenTime localeCompare data direction)) ids Hnd es Hinv)
    as (es' & Hrun & Hinv' & Hdom & Hsub).
  - apply NoDup_map_filter. now apply js_sort_NoDup_map.
  - intros r Hr. apply filter_In in Hr as [Hr Hfree].
    apply js_sort_In in Hr. split; [now apply in_map, Hincl|].
    apply Map_has_false. unfold notYetAssigned in Hfree.
    now destruct (Map_has (assignment es) (d_room r)).
  - exists es'. split; [exact Hrun|]. split; [exact Hinv'|]. split; [|exact Hsub].
    rewrite Hdom, dom_union_unassigned. unfold sortByAgeThenTime.
    now rewrite js_sort_perm.
Qed.

Lemma assignSequence_ok (capacities : list NurseCapacity) (capacityMap : gmap Z Z)
    (rooms data : list DerivedRoom) (ids : list Z) (direction : SortDirection)
    (es : EngineState) :
  NoDup (map d_room rooms) -> engineInvariant rooms ids es ->
  (forall r, In r data -> In r rooms) ->
  exists es',
    assignSequence localeCompare capacities capacityMap data direction es = Ok es' /\
    engineInvariant rooms ids es' /\
    dom (assignment es') = dom (assignment es) ∪ list_to_set (map d_room data) /\
    assignment es ⊆ assignment es'.
Proof.
  intros Hnd Hinv Hincl. unfold assignSequence.
  destruct (forEach_assignWithScoring capacities capacityMap rooms
              (List.filter (notYetAssigned es)
                 (sortByAgeThenTime localeCompare data direction)) ids Hnd es Hinv)
    as (es' & Hrun & Hinv' & Hdom & Hsub).
  - intros r Hr. apply filter_In in Hr as [Hr _].
    apply js_sort_In in Hr. now apply in_map, Hincl.
  - exists es'. split; [exact Hrun|]. split; [exact Hinv'|]. split; [|exact Hsub].
    rewrite Hdom, dom_union_unassigned. unfold sortByAgeThenTime.
    now rewrite js_sort_perm.
Qed.

Lemma bind_Ok {A B} (a : A) (k : A -> Res B) : (Ok a ≫= k) = k a.
Proof. reflexivity. Qed.

Lemma filter_incl {A} (p : A -> bool) (l : list A) (x : A) :
  In x (List.filter p l) -> In x l.
Proof. intros Hx. now apply filter_In in Hx. Qed.

Lemma assignRoomsToState_ok (rooms : list DerivedRoom) (ids : list Z)
    (state0 : list NurseState) (capacities : list NurseCapacity) :
  NoDup (map d_room rooms) ->
  engineInvariant rooms ids
    {| state := state0; assignment := ∅; roundRobinIndex := 0 |} ->
  exists es, assignRoomsToState localeCompare rooms state0 capacities = Ok es /\
    engineInvariant rooms ids es /\
    dom (assignment es) = list_to_set (map d_room rooms).
Proof.
  intros Hnd Hinv0. unfold assignRoomsToState.
  destruct (assignRoundRobin_ok rooms _ ids oldest _ Hnd Hinv0
              (NoDup_map_filter d_room (fun room => isY (discharge (d_labels room))) rooms Hnd)
              (filter_incl _ rooms))
    as (es1 & H1 & Hinv1 & Hdom1 & _).
  rewrite H1, bind_Ok.
  destruct (assignRoundRobin_ok rooms _ ids oldest _ Hnd Hinv1
              (NoDup_map_filter d_room (fun room => isY (under_24 (d_labels room))) rooms Hnd)
              (filter_incl _ rooms))
    as (es2 & H2 & Hinv2 & Hdom2 & _).
  rewrite H2, bind_Ok.
  destruct (assignRoundRobin_ok rooms _ ids oldest _ Hnd Hinv2
              (NoDup_map_filter d_room (fun room => isY (over_24 (d_labels room))) rooms Hnd)
              (filter_incl _ rooms))
    as (es3 & H3 & Hinv3 & Hdom3 & _).
  rewrite H3, bind_Ok.
  destruct (assignSequence_ok capacities
              (Map_of_entries (map (fun cap => (cap_nurseId cap, capacity cap)) capacities))
              rooms (List.filter (notYetAssigned es3) rooms) ids oldest es3 Hnd Hinv3
              (filter_incl _ rooms))
    as (es4 & H4 & Hinv4 & Hdom4 & _).
  exists es4. split; [exact H4|]. split; [exact Hinv4|].
  rewrite Hdom4, dom_union_unassigned.
  pose proof (inv_dom _ _ _ Hinv3). set_solver.
Qed.

Lemma engineInvariant_initial (rooms : list DerivedRoom) (N : nat) :
  (1 <= N)%nat ->
  engineInvariant rooms (map (fun idx : nat => Z.of_nat idx + 1) (seq 0 N))
    {| state := buildInitialState (computeCapacities (Z.of_nat (length rooms)) N);
       assignment := ∅; roundRobinIndex := 0 |}.
Proof.
  intros HN. split; cbn [state assignment].
  - unfold sumRemaining, buildInitialState. rewrite map_map. cbn [remaining].
    rewrite map_size_empty.
    change (map (fun x => capacity x)) with (map capacity).
    rewrite sum_computeCapacities by lia. lia.
  - rewrite dom_empty_L. set_solver.
  - unfold buildInitialState, computeCapacities, Array_from. rewrite !map_map.
    reflexivity.
  - assert (Hinj : Inj (=) (=) (fun x : nat => Z.of_nat x + 1)).
    { intros a b Hab. lia. }
    apply (NoDup_fmap_2 (fun x : nat => Z.of_nat x + 1)), NoDup_seq.
  - intros k v. rewrite lookup_empty. discriminate.
Qed.

(** ** The run never lacks capacity, whatever the room ids *)

Lemma Map_has_insert {V} (m : gmap string V) (k k' : string) (v : V) :
  Map_has (<[k := v]> m) k' = String.eqb k' k || Map_has m k'.
Proof.
  unfold Map_has. destruct (String.eqb_spec k' k) as [-> | Hne].
  - now rewrite lookup_insert_eq.
  - rewrite lookup_insert_ne by congruence. reflexivity.
Qed.

Lemma unassignedCount_insert (l : list DerivedRoom) (m : gmap string Z) (k : string)
    (v : Z) :
  Map_has m k = false ->
  unassignedCount l m = (unassignedCount l (<[k := v]> m) + idCount k l)%nat.
Proof.
  intros Hk. unfold unassignedCount, idCount.
  induction l as [|x l IH]; cbn [List.filter]; [reflexivity|].
  rewrite Map_has_insert.
  destruct (String.eqb_spec (d_room x) k) as [Heq | Hne]; cbn [orb negb].
  - rewrite Heq, Hk. cbn [negb length]. lia.
  - destruct (Map_has m (d_room x)); cbn [negb length]; lia.
Qed.

Lemma assignedCount_insert (l : list DerivedRoom) (m : gmap string Z) (k : string)
    (v : Z) :
  Map_has m k = false ->
  assignedCount l (<[k := v]> m) = (assignedCount l m + idCount k l)%nat.
Proof.
  intros Hk. unfold assignedCount, idCount.
  induction l as [|x l IH]; cbn [List.filter]; [reflexivity|].
  rewrite Map_has_insert.
  destruct (String.eqb_spec (d_room x) k) as [Heq | Hne]; cbn [orb].
  - rewrite Heq, Hk. cbn [length]. lia.
  - destruct (Map_has m (d_room x)); cbn [length]; lia.
Qed.

Lemma idCount_filter (id : string) (p : DerivedRoom -> bool) (l : list DerivedRoom) :
  (idCount id (List.filter p l) <= idCount id l)%nat.
Proof.
  unfold idCount. induction l as [|x l IH]; cbn [List.filter]; [lia|].
  destruct (p x); cbn [List.filter]; destruct (String.eqb (d_room x) id);
    cbn [length]; lia.
Qed.

Lemma idCount_js_sort (id : string) (cmp : DerivedRoom -> DerivedRoom -> Z)
    (l : list DerivedRoom) :
  idCount id (js_sort cmp l) = idCount id l.
Proof.
  unfold idCount. apply Permutation_length, filter_perm, js_sort_perm.
Qed.

Lemma idCount_pos (id : string) (l : list DerivedRoom) :
  (0 < idCount id l)%nat -> exists r, In r l /\ d_room r = id.
Proof.
  unfold idCount. destruct (List.filter _ l) as [|r rest] eqn:Hf; cbn [length]; [lia|].
  intros _. apply filter_head_In in Hf as [Hr Heq]. apply String.eqb_eq in Heq. eauto.
Qed.

Lemma unassignedCount_pos (l : list DerivedRoom) (m : gmap string Z) (r : DerivedRoom) :
  In r l -> Map_has m (d_room r) = false -> (0 < unassignedCount l m)%nat.
Proof.
  intros Hr Hfree. unfold unassignedCount.
  assert (Hin : In r (List.filter (fun r => negb (Map_has m (d_room r))) l)).
  { apply filter_In. split; [exact Hr|]. now rewrite Hfree. }
  destruct (List.filter _ l); [destruct Hin | cbn [length]; lia].
Qed.

Lemma assignedCount_cons (x : DerivedRoom) (l : list DerivedRoom) (m : gmap string Z) :
  assignedCount (x :: l) m =
  ((if Map_has m (d_room x) then 1 else 0) + assignedCount l m)%nat.
Proof.
  unfold assignedCount. cbn [List.filter]. now destruct (Map_has m (d_room x)).
Qed.

Lemma idCount_cons (id : string) (x : DerivedRoom) (l : list DerivedRoom) :
  idCount id (x :: l) = ((if String.eqb (d_room x) id then 1 else 0) + idCount id l)%nat.
Proof.
  unfold idCount. cbn [List.filter]. now destruct (String.eqb (d_room x) id).
Qed.

Lemma counts_insert_same (l : list DerivedRoom) (m : gmap string Z) (k : string) (v : Z) :
  Map_has m k = true ->
  unassignedCount l (<[k := v]> m) = unassignedCount l m /\
  assignedCount l (<[k := v]> m) = assignedCount l m.
Proof.
  intros Hk. unfold unassignedCount, assignedCount.
  split; f_equal; apply filter_ext; intros r; rewrite Map_has_insert;
    (destruct (String.eqb_spec (d_room r) k) as [-> | _]; [now rewrite Hk | reflexivity]).
Qed.

Lemma capacityLeft_not_exhausted (rooms : list DerivedRoom) (ids : list Z)
    (es : EngineState) (x : DerivedRoom) (rest : list DerivedRoom) :
  capacityLeft rooms ids es (x :: rest) -> ~ exhausted (state es).
Proof.
  intros [Hsum _ _ Hcount] Hex.
  assert (Hpos : 0 < sumRemaining (state es)).
  { rewrite assignedCount_cons in Hsum.
    destruct (Map_has (assignment es) (d_room x)) eqn:Hx; [lia|].
    specialize (Hcount (d_room x)).
    rewrite idCount_cons, String.eqb_refl in Hcount.
    destruct (idCount_pos (d_room x) rooms ltac:(lia)) as (r & Hr & Hid).
    pose proof (unassignedCount_pos rooms (assignment es) r Hr) as Hu.
    rewrite Hid in Hu. specialize (Hu Hx). lia. }
  apply sum_pos_exists in Hpos as (n & Hn & Hrem). specialize (Hex n Hn). lia.
Qed.

Lemma capacityLeft_assigns (rooms : list DerivedRoom) (ids : list Z)
    (es es' : EngineState) (x : DerivedRoom) (rest : list DerivedRoom) :
  capacityLeft rooms ids es (x :: rest) -> assigns x es es' ->
  capacityLeft rooms ids es' rest.
Proof.
  intros [Hsum Hids Hnd Hcount] Has.
  pose proof (sumRemaining_assigns _ _ _ Has) as Hrem.
  pose proof (nurseIds_assigns _ _ _ Has) as Hid.
  destruct (assignment_assigns _ _ _ Has) as (v & _ & Hmap).
  assert (Hrest : forall id, (idCount id rest <= idCount id rooms)%nat).
  { intros id. specialize (Hcount id). rewrite idCount_cons in Hcount. lia. }
  split; [|congruence|exact Hnd|exact Hrest].
  rewrite Hrem, Hmap. rewrite assignedCount_cons in Hsum.
  destruct (Map_has (assignment es) (d_room x)) eqn:Hx.
  - destruct (counts_insert_same rooms _ (d_room x) v Hx) as [-> _].
    destruct (counts_insert_same rest _ (d_room x) v Hx) as [_ ->]. lia.
  - rewrite (unassignedCount_insert rooms _ (d_room x) v Hx) in Hsum.
    rewrite (assignedCount_insert rest _ (d_room x) v Hx).
    specialize (Hcount (d_room x)).
    rewrite idCount_cons, String.eqb_refl in Hcount. lia.
Qed.

Lemma capacityLeft_skip (rooms : list DerivedRoom) (ids : list Z)
    (es : EngineState) (x : DerivedRoom) (rest : list DerivedRoom) :
  capacityLeft rooms ids es (x :: rest) -> capacityLeft rooms ids es rest.
Proof.
  intros [Hsum Hids Hnd Hcount]. split; [|exact Hids|exact Hnd|].
  - rewrite assignedCount_cons in Hsum. lia.
  - intros id. specialize (Hcount id). rewrite idCount_cons in Hcount. lia.
Qed.

Lemma capacityLeft_NoDup (rooms : list DerivedRoom) (ids : list Z) (es : EngineState)
    (rest : list DerivedRoom) :
  capacityLeft rooms ids es rest -> NoDup (map nurseId (state es)).
Proof. intros [_ Hids Hnd _]. now rewrite Hids. Qed.

Lemma forEach_roundRobinStep_total (rooms : list DerivedRoom) (ids : list Z)
    (l : list DerivedRoom) :
  forall es, capacityLeft rooms ids es l ->
  exists es', forEach roundRobinStep l es = Ok es' /\ capacityLeft rooms ids es' [].
Proof.
  induction l as [|x l IH]; intros es Hleft.
  - exists es. split; [reflexivity | exact Hleft].
  - destruct (roundRobinStep_total x es) as [es1 Hstep].
    { now apply (capacityLeft_not_exhausted rooms ids es x l). }
    pose proof (roundRobinStep_assigns x es es1 (capacityLeft_NoDup _ _ _ _ Hleft) Hstep)
      as Has.
    destruct (IH es1 (capacityLeft_assigns _ _ _ _ _ _ Hleft Has)) as (es' & Hrun & Hleft').
    exists es'. split; [now rewrite (forEach_cons _ _ _ _ _ Hstep) | exact Hleft'].
Qed.

Lemma forEach_assignWithScoring_total (capacities : list NurseCapacity)
    (capacityMap : gmap Z Z) (rooms : list DerivedRoom) (ids : list Z)
    (l : list DerivedRoom) :
  forall es, capacityLeft rooms ids es l ->
  exists es', forEach (assignWithScoring capacities capacityMap) l es = Ok es' /\
              capacityLeft rooms ids es' [].
Proof.
  induction l as [|x l IH]; intros es Hleft.
  - exists es. split; [reflexivity | exact Hleft].
  - destruct (Map_has (assignment es) (d_room x)) eqn:Hhas.
    + destruct (IH es (capacityLeft_skip _ _ _ _ _ Hleft)) as (es' & Hrun & Hleft').
      exists es'. split; [|exact Hleft'].
      rewrite (forEach_cons _ _ _ _ es); [exact Hrun|].
      unfold assignWithScoring. now rewrite Hhas.
    + destruct (assignWithScoring_total capacities capacityMap x es) as [es1 Hstep].
      { now apply (capacityLeft_not_exhausted rooms ids es x l). }
      pose proof (assignWithScoring_assigns _ _ x es es1
                    (capacityLeft_NoDup _ _ _ _ Hleft) Hhas Hstep) as Has.
      destruct (IH es1 (capacityLeft_assigns _ _ _ _ _ _ Hleft Has))
        as (es' & Hrun & Hleft').
      exists es'. split; [now rewrite (forEach_cons _ _ _ _ _ Hstep) | exact Hleft'].
Qed.

Lemma capacityLeft_ordered (rooms data : list DerivedRoom) (ids : list Z)
    (direction : SortDirection) (es : EngineState) :
  capacityLeft rooms ids es [] ->
  (forall id, (idCount id data <= idCount id rooms)%nat) ->
  capacityLeft rooms ids es
    (List.filter (notYetAssigned es) (sortByAgeThenTime localeCompare data direction)).
Proof.
  intros [Hsum Hids Hnd _] Hdata. split; [|exact Hids|exact Hnd|].
  - unfold assignedCount in *. cbn [List.filter length] in Hsum.
    rewrite filter_comm, (proj2 (filter_nil_iff _ _)); [cbn [length]; lia|].
    intros r Hr. apply filter_In in Hr as [_ Hr]. unfold notYetAssigned.
    now rewrite Hr.
  - intros id. etransitivity; [apply idCount_filter|].
    unfold sortByAgeThenTime. rewrite idCount_js_sort. apply Hdata.
Qed.

Lemma assignRoundRobin_total (rooms data : list DerivedRoom) (ids : list Z)
    (direction : SortDirection) (es : EngineState) :
  capacityLeft rooms ids es [] ->
  (forall id, (idCount id data <= idCount id rooms)%nat) ->
  exists es', assignRoundRobin localeCompare data direction es = Ok es' /\
              capacityLeft rooms ids es' [].
Proof.
  intros Hleft Hdata. unfold assignRoundRobin.
  apply (forEach_roundRobinStep_total rooms ids).
  now apply capacityLeft_ordered.
Qed.

Lemma assignSequence_total (capacities : list NurseCapacity) (capacityMap : gmap Z Z)
    (rooms data : list DerivedRoom) (ids : list Z) (direction : SortDirection)
    (es : EngineState) :
  capacityLeft rooms ids es [] ->
  (forall id, (idCount id data <= idCount id rooms)%nat) ->
  exists es',
    assignSequence localeCompare capacities capacityMap data direction es = Ok es' /\
    capacityLeft rooms ids es' [].
Proof.
  intros Hleft Hdata. unfold assignSequence.
  apply (forEach_assignWithScoring_total capacities capacityMap rooms ids).
  now apply capacityLeft_ordered.
Qed.

Lemma assignRoomsToState_total (rooms : list DerivedRoom) (ids : list Z)
    (state0 : list NurseState) (capacities : list NurseCapacity) :
  capacityLeft rooms ids
    {| state := state0; assignment := ∅; roundRobinIndex := 0 |} [] ->
  exists es, assignRoomsToState localeCompare rooms state0 capacities = Ok es.
Proof.
  intros Hleft0. unfold assignRoomsToState.
  destruct (assignRoundRobin_total rooms _ ids oldest _ Hleft0
              (fun id => idCount_filter id (fun room => isY (discharge (d_labels room))) rooms))
    as (es1 & H1 & Hleft1).
  rewrite H1, bind_Ok.
  destruct (assignRoundRobin_total rooms _ ids oldest _ Hleft1
              (fun id => idCount_filter id (fun room => isY (under_24 (d_labels room))) rooms))
    as (es2 & H2 & Hleft2).
  rewrite H2, bind_Ok.
  destruct (assignRoundRobin_total rooms _ ids oldest _ Hleft2
              (fun id => idCount_filter id (fun room => isY (over_24 (d_labels room))) rooms))
    as (es3 & H3 & Hleft3).
  rewrite H3, bind_Ok.
  destruct (assignSequence_total capacities
              (Map_of_entries (map (fun cap => (cap_nurseId cap, capacity cap)) capacities))
              rooms (List.filter (notYetAssigned es3) rooms) ids oldest es3 Hleft3
              (fun id => idCount_filter id (notYetAssigned es3) rooms))
    as (es4 & H4 & _).
  exists es4. exact H4.
Qed.

Lemma capacityLeft_initial (rooms : list DerivedRoom) (N : nat) :
  (1 <= N)%nat ->
  capacityLeft rooms (map (fun idx : nat => Z.of_nat idx + 1) (seq 0 N))
    {| state := buildInitialState (computeCapacities (Z.of_nat (length rooms)) N);
       assignment := ∅; roundRobinIndex := 0 |} [].
Proof.
  intros HN. split; cbn [state assignment].
  - unfold sumRemaining, buildInitialState. rewrite map_map. cbn [remaining].
    change (map (fun x => capacity x)) with (map capacity).
    rewrite sum_computeCapacities by lia.
    unfold unassignedCount, assignedCount. cbn [List.filter length].
    pose proof (List.filter_length_le
                  (fun r : DerivedRoom => negb (Map_has (∅ : gmap string Z) (d_room r))) rooms).
    lia.
  - unfold buildInitialState, computeCapacities, Array_from. rewrite !map_map.
    reflexivity.
  - assert (Hinj : Inj (=) (=) (fun x : nat => Z.of_nat x + 1)).
    { intros a b Hab. lia. }
    apply (NoDup_fmap_2 (fun x : nat => Z.of_nat x + 1)), NoDup_seq.
  - intros id. unfold idCount at 1. cbn [List.filter length]. lia.
Qed.

(** ** The run of [assignRooms] *)

Lemma d_room_deriveRoom (rows : list AssignmentInputRow) :
  map d_room (map deriveRoom rows) = map room rows.
Proof. rewrite map_map. reflexivity. Qed.

Lemma assignRooms_nonempty (rows : list AssignmentInputRow) (N : nat) (tz : string) :
  rows <> [] ->
  assignRooms localeCompare formatClock rows N tz =
  (assignRoomsToState localeCompare (map deriveRoom rows)
     (buildInitialState (plannedCapacities rows N)) (plannedCapacities rows N)
   ≫= fun es =>
     let perRoom :=
       buildPerRoom (map deriveRoom rows) (assignment es)
         (denseRankOldest localeCompare (map deriveRoom rows))
         (Z.of_nat (length (map deriveRoom rows))) in
     Ok {| perNurse := buildPerNurse formatClock perRoom N tz; perRoom := perRoom |}).
Proof. destruct rows; [congruence | reflexivity]. Qed.

Lemma run_ok (rows : list AssignmentInputRow) (N : nat) :
  NoDup (map room rows) -> (1 <= N)%nat ->
  exists es,
    assignRoomsToState localeCompare (map deriveRoom rows)
      (buildInitialState (plannedCapacities rows N)) (plannedCapacities rows N) = Ok es /\
    engineInvariant (map deriveRoom rows)
      (map (fun idx : nat => Z.of_nat idx + 1) (seq 0 N)) es /\
    dom (assignment es) = list_to_set (map room rows).
Proof.
  intros Hnd HN. rewrite <- d_room_deriveRoom in Hnd.
  pose proof (engineInvariant_initial (map deriveRoom rows) N HN) as Hinv0.
  rewrite length_map in Hinv0.
  destruct (assignRoomsToState_ok _ _ _ (plannedCapacities rows N) Hnd Hinv0)
    as (es & Hrun & Hinv & Hdom).
  exists es. rewrite d_room_deriveRoom in Hdom. auto.
Qed.

Lemma nurse_ids_range (N : nat) (v : Z) :
  In v (map (fun idx : nat => Z.of_nat idx + 1) (seq 0 N)) <-> 1 <= v <= Z.of_nat N.
Proof.
  rewrite in_map_iff. split.
  - intros (idx & <- & Hidx). apply in_seq in Hidx. lia.
  - intros Hv. exists (Z.to_nat (v - 1)). split; [lia|]. apply in_seq. lia.
Qed.

(** ** The result tables *)

Lemma filter_all {A} (f : A -> bool) (l : list A) :
  (forall x, In x l -> f x = true) -> List.filter f l = l.
Proof.
  induction l as [|x l IH]; intros Hall; cbn [List.filter]; [reflexivity|].
  rewrite (Hall x (or_introl eq_refl)), IH; [reflexivity|].
  intros y Hy. apply Hall. now right.
Qed.

Lemma buildPerRoom_In (derived : list DerivedRoom) (aMap ranks : gmap string Z)
    (total : Z) (p : RoomAssignmentRow) :
  In p (buildPerRoom derived aMap ranks total) ->
  exists r v, In r derived /\ aMap !! d_room r = Some v /\
    pr_room p = d_room r /\ pr_time p = d_time r /\ pr_labels p = d_labels r /\
    nurse_id p = v /\
    rank_oldest p = default 1 (ranks !! d_room r) /\
    rank_youngest p = total - rank_oldest p + 1.
Proof.
  unfold buildPerRoom. rewrite js_sort_In, in_map_iff.
  intros (r & <- & Hr). apply filter_In in Hr as [Hr Hhas].
  unfold Map_has in Hhas. destruct (aMap !! d_room r) as [v|] eqn:Hv; [|discriminate].
  exists r, v. cbn. rewrite Hv. auto 10.
Qed.

Lemma buildPerRoom_rooms (derived : list DerivedRoom) (aMap ranks : gmap string Z)
    (total : Z) :
  dom aMap = list_to_set (map d_room derived) ->
  Permutation (map pr_room (buildPerRoom derived aMap ranks total)) (map d_room derived).
Proof.
  intros Hdom. unfold buildPerRoom. rewrite js_sort_perm, filter_all, map_map.
  - reflexivity.
  - intros r Hr. apply Map_has_true. rewrite Hdom.
    apply elem_of_list_to_set, list_elem_of_In. now apply in_map.
Qed.

Lemma sumZ_map_add {A} (f g : A -> Z) (l : list A) :
  sumZ (map (fun x => f x + g x) l) = sumZ (map f l) + sumZ (map g l).
Proof.
  induction l as [|x l IH]; cbn [map]; [reflexivity|].
  rewrite !sumZ_cons, IH. lia.
Qed.

Lemma sumZ_map_zero {A} (l : list A) : sumZ (map (fun _ => 0) l) = 0.
Proof.
  induction l as [|x l IH]; cbn [map]; [reflexivity|].
  rewrite sumZ_cons, IH. lia.
Qed.

Lemma sum_indicator (N : nat) (z : Z) :
  1 <= z ->
  sumZ (map (fun idx : nat => if z =? Z.of_nat idx + 1 then 1 else 0) (seq 0 N))
  = if z <=? Z.of_nat N then 1 else 0.
Proof.
  intros Hz. induction N as [|N IH].
  - cbn [seq map]. rewrite sumZ_nil.
    destruct (Z.leb_spec z (Z.of_nat 0)); [lia | reflexivity].
  - rewrite seq_S, map_app, sumZ_app, IH. cbn [map Nat.add].
    rewrite sumZ_cons, sumZ_nil.
    destruct (Z.leb_spec z (Z.of_nat N)); destruct (Z.leb_spec z (Z.of_nat (S N)));
      destruct (Z.eqb_spec z (Z.of_nat N + 1)); lia.
Qed.

Lemma sum_roomsForNurse (N : nat) (l : list RoomAssignmentRow) :
  (forall p, In p l -> 1 <= nurse_id p <= Z.of_nat N) ->
  sumZ (map (fun idx : nat => Z.of_nat (length (roomsForNurse l (Z.of_nat idx + 1))))
            (seq 0 N))
  = Z.of_nat (length l).
Proof.
  induction l as [|x l IH]; intros Hrange.
  - apply sumZ_map_zero.
  - rewrite <- (map_ext
      (fun idx : nat =>
         (if nurse_id x =? Z.of_nat idx + 1 then 1 else 0)
         + Z.of_nat (length (roomsForNurse l (Z.of_nat idx + 1))))).
    + rewrite sumZ_map_add, IH, sum_indicator.
      * destruct (Hrange x (or_introl eq_refl)) as [_ Hle].
        destruct (Z.leb_spec (nurse_id x) (Z.of_nat N)); [|lia].
        cbn [length]. lia.
      * apply (Hrange x). now left.
      * intros p Hp. apply Hrange. now right.
    + intros idx. unfold roomsForNurse. cbn [List.filter].
      destruct (nurse_id x =? Z.of_nat idx + 1); cbn [length]; lia.
Qed.

Lemma n_rooms_buildPerNurse (perRoom : list RoomAssignmentRow) (N : nat) (tz : string) :
  map n_rooms (buildPerNurse formatClock perRoom N tz) =
  map (fun idx : nat => Z.of_nat (length (roomsForNurse perRoom (Z.of_nat idx + 1))))
      (seq 0 N).
Proof. unfold buildPerNurse, Array_from. rewrite map_map. reflexivity. Qed.

Lemma NoDup_map_inj {A B} (f : A -> B) (l : list A) (a b : A) :
  NoDup (map f l) -> In a l -> In b l -> f a = f b -> a = b.
Proof.
  induction l as [|x l IH]; cbn [map]; intros Hnd Ha Hb Heq; [destruct Ha|].
  apply NoDup_cons in Hnd as [Hx Hnd].
  destruct Ha as [-> | Ha], Hb as [-> | Hb]; auto.
  - exfalso. apply Hx. rewrite Heq. apply list_elem_of_In. now apply in_map.
  - exfalso. apply Hx. rewrite <- Heq. apply list_elem_of_In. now apply in_map.
Qed.

Lemma assignRooms_returns (rows : list AssignmentInputRow) (N : nat) (tz : string) :
  (1 <= N)%nat ->
  exists res, assignRooms localeCompare formatClock rows N tz = Ok res.
Proof.
  intros HN. destruct rows as [|r0 rows'] eqn:Hrows.
  - eexists. reflexivity.
  - rewrite <- Hrows in *.
    pose proof (capacityLeft_initial (map deriveRoom rows) N HN) as Hleft0.
    rewrite length_map in Hleft0. fold (plannedCapacities rows N) in Hleft0.
    destruct (assignRoomsToState_total _ _ _ (plannedCapacities rows N) Hleft0)
      as (es & Hrun).
    rewrite assignRooms_nonempty, Hrun by (rewrite Hrows; discriminate).
    eexists. reflexivity.
Qed.

(** C1. For rooms with pairwise-distinct ids and [N >= 1] nurses the run
    succeeds and assigns every input room id to exactly one nurse: the
    assignment map is defined exactly on the input ids, with values in
    [1..N]; the per-room table lists every input id exactly once, under the
    nurse the map gives; every input id is in the room list of exactly one
    nurse; and the room counts of the per-nurse table add up to the number
    of input rooms. *)
Theorem assignRooms_covers_every_room (rows : list AssignmentInputRow) (N : nat)
    (tz : string) :
  NoDup (map room rows) -> (1 <= N)%nat ->
  exists es res,
    assignRoomsToState localeCompare (map deriveRoom rows)
      (buildInitialState (plannedCapacities rows N)) (plannedCapacities rows N) = Ok es /\
    assignRooms localeCompare formatClock rows N tz = Ok res /\
    dom (assignment es) = list_to_set (map room rows) /\
    (forall r, In r rows ->
       exists k, assignment es !! room r = Some k /\ 1 <= k <= Z.of_nat N) /\
    Permutation (map pr_room (perRoom res)) (map room rows) /\
    NoDup (map pr_room (perRoom res)) /\
    (forall p, In p (perRoom res) -> assignment es !! pr_room p = Some (nurse_id p)) /\
    (forall r, In r rows ->
       exists k, 1 <= k <= Z.of_nat N /\
         In (room r) (map pr_room (roomsForNurse (perRoom res) k)) /\
         forall k', In (room r) (map pr_room (roomsForNurse (perRoom res) k')) -> k' = k) /\
    sumZ (map n_rooms (perNurse res)) = Z.of_nat (length rows).
Proof.
  intros Hnd HN.
  destruct (run_ok rows N Hnd HN) as (es & Hrun & Hinv & Hdom).
  assert (Hmap : forall r, In r rows ->
            exists k, assignment es !! room r = Some k /\ 1 <= k <= Z.of_nat N).
  { intros r Hr.
    assert (Hd : room r ∈ dom (assignment es)).
    { rewrite Hdom. apply elem_of_list_to_set, list_elem_of_In. now apply in_map. }
    apply elem_of_dom in Hd as [k Hk]. exists k. split; [exact Hk|].
    apply nurse_ids_range. apply (inv_values _ _ _ Hinv _ _ Hk). }
  exists es.
  assert (Hcase : rows = [] \/ rows <> []) by (destruct rows; [now left | now right]).
  destruct Hcase as [-> | Hne].
  { exists {| perNurse := []; perRoom := [] |}. cbn.
    split; [exact Hrun|]. split; [reflexivity|]. split; [exact Hdom|].
    split; [intros r []|]. split; [constructor|]. split; [constructor|].
    split; [intros p []|]. split; [intros r [] | reflexivity]. }
  set (perRoom0 := buildPerRoom (map deriveRoom rows) (assignment es)
         (denseRankOldest localeCompare (map deriveRoom rows))
         (Z.of_nat (length (map deriveRoom rows)))).
  exists {| perNurse := buildPerNurse formatClock perRoom0 N tz; perRoom := perRoom0 |}.
  cbn [perNurse perRoom].
  assert (Hperm : Permutation (map pr_room perRoom0) (map room rows)).
  { rewrite <- d_room_deriveRoom. apply buildPerRoom_rooms.
    now rewrite d_room_deriveRoom. }
  assert (Hnd0 : NoDup (map pr_room perRoom0)) by now rewrite Hperm.
  assert (Hrow : forall p, In p perRoom0 ->
            assignment es !! pr_room p = Some (nurse_id p)).
  { intros p Hp.
    apply buildPerRoom_In in Hp as (r & v & _ & Hv & -> & _ & _ & -> & _). exact Hv. }
  assert (Hrange : forall p, In p perRoom0 -> 1 <= nurse_id p <= Z.of_nat N).
  { intros p Hp. apply nurse_ids_range.
    apply (inv_values _ _ _ Hinv (pr_room p)). now apply Hrow. }
  split; [exact Hrun|].
  split; [rewrite (assignRooms_nonempty rows N tz Hne), Hrun; reflexivity|].
  split; [exact Hdom|].
  split; [exact Hmap|].
  split; [exact Hperm|].
  split; [exact Hnd0|].
  split; [exact Hrow|].
  split.
  - intros r Hr.
    assert (Hin : In (room r) (map pr_room perRoom0)).
    { apply (Permutation_in _ (Permutation_sym Hperm)). now apply in_map. }
    apply in_map_iff in Hin as (p & Hpr & Hp).
    exists (nurse_id p). split; [now apply Hrange|]. split.
    + apply in_map_iff. exists p. split; [exact Hpr|].
      apply filter_In. split; [exact Hp | apply Z.eqb_refl].
    + intros k' Hk'. apply in_map_iff in Hk' as (q & Hq & Hqin).
      apply filter_In in Hqin as [Hqin Hqk]. apply Z.eqb_eq in Hqk.
      rewrite <- Hqk. f_equal.
      apply (NoDup_map_inj pr_room perRoom0); auto. congruence.
  - rewrite n_rooms_buildPerNurse, (sum_roomsForNurse N perRoom0 Hrange).
    rewrite <- (length_map pr_room), (Permutation_length Hperm), length_map.
    reflexivity.
Qed.

(** ** Capacity exhaustion *)

Lemma bind_Ok_inv {A B} (r : Res A) (k : A -> Res B) (b : B) :
  (r ≫= k) = Ok b -> exists a, r = Ok a /\ k a = Ok b.
Proof. destruct r as [a|e]; [eauto | discriminate]. Qed.

Lemma forEach_Throw {A S} (step : A -> S -> Res S) (l : list A) (s : S) (e : EngineError) :
  forEach step l s = Throw e <->
  exists l1 x l2 s1, l = l1 ++ x :: l2 /\ forEach step l1 s = Ok s1 /\ step x s1 = Throw e.
Proof.
  revert s. induction l as [|y l IH]; intros s; cbn [forEach].
  - split; [discriminate|]. intros (l1 & x & l2 & s1 & Hl & _). now destruct l1.
  - destruct (step y s) as [s'|e'] eqn:Hy.
    + rewrite bind_Ok, IH. split.
      * intros (l1 & x & l2 & s1 & -> & Hrun & Hx).
        exists (y :: l1), x, l2, s1. cbn [forEach app]. rewrite Hy. auto.
      * intros (l1 & x & l2 & s1 & Hl & Hrun & Hx).
        destruct l1 as [|y' l1]; cbn [app forEach] in Hl, Hrun.
        -- injection Hl as <- <-. injection Hrun as <-. congruence.
        -- injection Hl as <- ->. rewrite Hy, bind_Ok in Hrun.
           exists l1, x, l2, s1. auto.
    + split.
      * intros Heq. exists [], y, l, s. cbn [forEach app].
        change (@Throw S e' = Throw e) in Heq. rewrite <- Heq. auto.
      * intros (l1 & x & l2 & s1 & Hl & Hrun & Hx).
        destruct l1 as [|y' l1]; cbn [app forEach] in Hl, Hrun.
        -- injection Hl as <- <-. injection Hrun as <-. rewrite Hy in Hx. exact Hx.
        -- injection Hl as <- ->. rewrite Hy in Hrun. discriminate.
Qed.

Lemma roundRobinStep_Throw (room : DerivedRoom) (es : EngineState) (e : EngineError) :
  roundRobinStep room es = Throw e <->
  e = NoRoundRobinCapacity /\ exhausted (state es).
Proof.
  rewrite <- (roundRobinChoice_None room es). unfold roundRobinStep.
  destruct (roundRobinChoice room es) as [chosen|].
  - split; [discriminate | intros [_ ?]; discriminate].
  - split; [intros [= <-]; auto | intros [-> _]; reflexivity].
Qed.

Lemma assignWithScoring_Throw (capacities : list NurseCapacity) (capacityMap : gmap Z Z)
    (room : DerivedRoom) (es : EngineState) (e : EngineError) :
  assignWithScoring capacities capacityMap room es = Throw e <->
  e = NoFeasibleCandidates /\ Map_has (assignment es) (d_room room) = false /\
  exhausted (state es).
Proof.
  rewrite <- (pickNurse_Throw room (state es) capacities capacityMap).
  unfold assignWithScoring, pickNurse.
  destruct (Map_has (assignment es) (d_room room)).
  - split; [discriminate | intros (_ & ? & _); discriminate].
  - destruct (List.filter _ (state es)) as [|c0 rest].
    + split; [intros [= <-]; eauto | intros (-> & _); reflexivity].
    + split; [discriminate | intros (_ & _ & e' & He'); discriminate].
Qed.

(** C6. An engine error is thrown exactly when a room has to be assigned
    while no nurse has remaining capacity greater than zero: a round-robin
    step throws iff the nurse array is exhausted, a scored step throws iff
    its room is not assigned yet and the array is exhausted, and a loop
    throws iff it reaches such a step.  Under the engine's own capacity
    planning (capacities summing to the room count) and [N >= 1],
    [assignRooms] does not throw, for rooms with pairwise-distinct ids as
    for any other list of rooms. *)
Theorem capacity_exhaustion_unreachable (rows : list AssignmentInputRow) (N : nat)
    (tz : string) :
  (1 <= N)%nat ->
  (forall room es e,
     roundRobinStep room es = Throw e <->
     e = NoRoundRobinCapacity /\ exhausted (state es)) /\
  (forall capacities capacityMap room es e,
     assignWithScoring capacities capacityMap room es = Throw e <->
     e = NoFeasibleCandidates /\ Map_has (assignment es) (d_room room) = false /\
     exhausted (state es)) /\
  (forall (step : DerivedRoom -> EngineState -> Res EngineState) l es e,
     forEach step l es = Throw e <->
     exists l1 room l2 es1,
       l = l1 ++ room :: l2 /\ forEach step l1 es = Ok es1 /\ step room es1 = Throw e) /\
  sumZ (map capacity (plannedCapacities rows N)) = Z.of_nat (length rows) /\
  exists res, assignRooms localeCompare formatClock rows N tz = Ok res.
Proof.
  intros HN.
  split; [apply roundRobinStep_Throw|].
  split; [apply assignWithScoring_Throw|].
  split; [intros step l es e; apply forEach_Throw|].
  split; [apply sum_computeCapacities; lia|].
  now apply assignRooms_returns.
Qed.

(** ** The per-nurse table *)

Lemma nurse_ids_buildPerNurse (perRoom : list RoomAssignmentRow) (N : nat) (tz : string) :
  map ns_nurse_id (buildPerNurse formatClock perRoom N tz) =
  map (fun idx : nat => Z.of_nat idx + 1) (seq 0 N).
Proof. unfold buildPerNurse, Array_from. rewrite map_map. reflexivity. Qed.

Lemma buildPerNurse_row (perRoom : list RoomAssignmentRow) (N : nat) (tz : string)
    (row : NurseSummaryRow) :
  In row (buildPerNurse formatClock perRoom N tz) ->
  n_rooms row = Z.of_nat (length (roomsForNurse perRoom (ns_nurse_id row))) /\
  oldest_rank_received row =
    minOrNull (map rank_oldest (roomsForNurse perRoom (ns_nurse_id row))) /\
  youngest_rank_received row =
    maxOrNull (map rank_youngest (roomsForNurse perRoom (ns_nurse_id row))) /\
  assigned_rooms row =
    String.concat ", "
      (map (fun room => buildRoomLabel formatClock room tz)
           (roomsForNurse perRoom (ns_nurse_id row))).
Proof.
  unfold buildPerNurse, Array_from. rewrite in_map_iff.
  intros (idx & <- & _). cbn. auto.
Qed.

(** C4 (as the code has it). For every non-empty list of rooms and
    [N >= 1] nurses, the per-nurse table has exactly [N] rows, with the
    nurse ids [1..N] in order, rows of nurses without rooms included; a row
    without rooms has null oldest and youngest ranks (and a row with rooms
    has both).  For the empty room list the early return gives empty
    per-nurse and per-room tables. *)
Theorem perNurse_rows_for_every_nurse (rows : list AssignmentInputRow) (N : nat)
    (tz : string) :
  rows <> [] -> (1 <= N)%nat ->
  assignRooms localeCompare formatClock [] N tz = Ok {| perNurse := []; perRoom := [] |} /\
  exists res,
    assignRooms localeCompare formatClock rows N tz = Ok res /\
    length (perNurse res) = N /\
    map ns_nurse_id (perNurse res) = map (fun idx : nat => Z.of_nat idx + 1) (seq 0 N) /\
    forall row, In row (perNurse res) ->
      n_rooms row = Z.of_nat (length (roomsForNurse (perRoom res) (ns_nurse_id row))) /\
      (n_rooms row = 0 ->
         oldest_rank_received row = None /\ youngest_rank_received row = None) /\
      (0 < n_rooms row ->
         is_Some (oldest_rank_received row) /\ is_Some (youngest_rank_received row)).
Proof.
  intros Hne HN. split; [reflexivity|].
  destruct (assignRooms_returns rows N tz HN) as (res & Hres).
  exists res. split; [exact Hres|].
  rewrite (assignRooms_nonempty rows N tz Hne) in Hres.
  apply bind_Ok_inv in Hres as (es & _ & Hres). injection Hres as <-.
  cbn [perNurse perRoom].
  split; [|split].
  - rewrite <- (length_map ns_nurse_id), nurse_ids_buildPerNurse, length_map.
    apply length_seq.
  - apply nurse_ids_buildPerNurse.
  - intros row Hrow. apply buildPerNurse_row in Hrow as (Hn & Hold & Hyoung & _).
    split; [exact Hn|]. rewrite Hn, Hold, Hyoung.
    destruct (roomsForNurse _ (ns_nurse_id row)) as [|p ps]; cbn.
    + split; [auto | lia].
    + split; [lia | eauto].
Qed.

(** ** The capacity plan along a run *)

Lemma capacityInvariant_ids (capacities : list NurseCapacity) (st : list NurseState) :
  capacityInvariant capacities st -> map nurseId st = map cap_nurseId capacities.
Proof.
  induction 1 as [|c n caps st (Hid & _) _ IH]; cbn [map]; [reflexivity|].
  now rewrite Hid, IH.
Qed.

Lemma capacityInvariant_initial (capacities : list NurseCapacity) :
  (forall c, In c capacities -> 0 <= capacity c) ->
  capacityInvariant capacities (buildInitialState capacities).
Proof.
  induction capacities as [|c caps IH]; intros Hpos; cbn [buildInitialState map].
  - constructor.
  - constructor.
    + unfold withinPlan. cbn. pose proof (Hpos c (or_introl eq_refl)). lia.
    + apply IH. intros d Hd. apply Hpos. now right.
Qed.

Lemma capacityInvariant_assigns (capacities : list NurseCapacity) (room : DerivedRoom)
    (es es' : EngineState) :
  capacityInvariant capacities (state es) -> assigns room es es' ->
  capacityInvariant capacities (state es').
Proof.
  intros Hinv (l1 & chosen & l2 & Hst & Hrem & Hst' & _).
  unfold capacityInvariant in *. rewrite Hst in Hinv. rewrite Hst'.
  apply Forall2_app_inv_r in Hinv as (c1 & c2' & H1 & H2 & ->).
  apply Forall2_cons_inv_r in H2 as (c & c2 & (Hid & Hge & Hplan) & H2 & ->).
  apply Forall2_app; [exact H1|]. constructor; [|exact H2].
  unfold withinPlan. cbn [recordRoom nurseId remaining nAssigned]. lia.
Qed.

Lemma engineStep_assigns (capacities : list NurseCapacity) (capacityMap : gmap Z Z)
    (es es' : EngineState) :
  NoDup (map nurseId (state es)) ->
  engineStep capacities capacityMap es es' -> exists room, assigns room es es'.
Proof.
  intros Hnd Hs. revert Hnd.
  destruct Hs as [room es0 es0' Hstep | room es0 es0' Hhas Hstep]; intros Hnd; exists room.
  - now apply roundRobinStep_assigns.
  - now apply (assignWithScoring_assigns capacities capacityMap).
Qed.

Lemma capacityInvariant_reachable (capacities : list NurseCapacity) (capacityMap : gmap Z Z)
    (es0 es : EngineState) :
  NoDup (map cap_nurseId capacities) ->
  capacityInvariant capacities (state es0) ->
  rtc (engineStep capacities capacityMap) es0 es ->
  capacityInvariant capacities (state es).
Proof.
  intros Hnd Hinv Hsteps. induction Hsteps as [es1 | es1 es2 es3 Hstep _ IH]; [exact Hinv|].
  apply IH. apply engineStep_assigns in Hstep as [room Has].
  - now apply (capacityInvariant_assigns capacities room es1).
  - now rewrite (capacityInvariant_ids capacities).
Qed.

Lemma forEach_roundRobinStep_rtc (capacities : list NurseCapacity) (capacityMap : gmap Z Z)
    (l : list DerivedRoom) (es es' : EngineState) :
  forEach roundRobinStep l es = Ok es' ->
  rtc (engineStep capacities capacityMap) es es'.
Proof.
  revert es. induction l as [|x l IH]; intros es; cbn [forEach].
  - intros [= <-]. constructor.
  - intros Hrun. apply bind_Ok_inv in Hrun as (es1 & Hstep & Hrun).
    apply (rtc_l _ es es1); [now apply (step_roundRobin _ _ x) | now apply IH].
Qed.

Lemma forEach_assignWithScoring_rtc (capacities : list NurseCapacity)
    (capacityMap : gmap Z Z) (l : list DerivedRoom) (es es' : EngineState) :
  forEach (assignWithScoring capacities capacityMap) l es = Ok es' ->
  rtc (engineStep capacities capacityMap) es es'.
Proof.
  revert es. induction l as [|x l IH]; intros es; cbn [forEach].
  - intros [= <-]. constructor.
  - intros Hrun. apply bind_Ok_inv in Hrun as (es1 & Hstep & Hrun).
    destruct (Map_has (assignment es) (d_room x)) eqn:Hhas.
    + unfold assignWithScoring in Hstep. rewrite Hhas in Hstep.
      injection Hstep as <-. now apply IH.
    + apply (rtc_l _ es es1); [now apply (step_scored _ _ x) | now apply IH].
Qed.

Lemma assignRoomsToState_rtc (rooms : list DerivedRoom) (state0 : list NurseState)
    (capacities : list NurseCapacity) (es : EngineState) :
  assignRoomsToState localeCompare rooms state0 capacities = Ok es ->
  rtc (engineStep capacities
         (Map_of_entries (map (fun cap => (cap_nurseId cap, capacity cap)) capacities)))
      {| state := state0; assignment := ∅; roundRobinIndex := 0 |} es.
Proof.
  unfold assignRoomsToState, assignRoundRobin, assignSequence. intros Hrun.
  apply bind_Ok_inv in Hrun as (es1 & H1 & Hrun).
  apply bind_Ok_inv in Hrun as (es2 & H2 & Hrun).
  apply bind_Ok_inv in Hrun as (es3 & H3 & H4).
  etransitivity; [eapply forEach_roundRobinStep_rtc, H1|].
  etransitivity; [eapply forEach_roundRobinStep_rtc, H2|].
  etransitivity; [eapply forEach_roundRobinStep_rtc, H3|].
  eapply forEach_assignWithScoring_rtc, H4.
Qed.

Lemma computeCapacities_wellformed (R : Z) (N : nat) :
  0 <= R ->
  NoDup (map cap_nurseId (computeCapacities R N)) /\
  forall c, In c (computeCapacities R N) -> 0 <= capacity c.
Proof.
  intros HR. split.
  - unfold computeCapacities, Array_from. rewrite map_map. cbn [cap_nurseId].
    assert (Hinj : Inj (=) (=) (fun x : nat => Z.of_nat x + 1)).
    { intros a b Hab. lia. }
    apply (NoDup_fmap_2 (fun x : nat => Z.of_nat x + 1)), NoDup_seq.
  - intros c Hc. apply capacity_computeCapacities in Hc.
    pose proof (Z.div_pos R (Z.of_nat N) HR) as Hdiv.
    destruct (Nat.eq_dec N 0%nat) as [-> | HN].
    + cbn [Z.of_nat] in Hc. rewrite Zdiv_0_r in Hc. lia.
    + specialize (Hdiv ltac:(lia)). lia.
Qed.

(** C10. Along a run that starts from the capacities planned for [R >= 0]
    rooms, every nurse keeps [remaining + nAssigned = capacity] with
    [remaining >= 0], so that no nurse ever holds more rooms than planned;
    a single assignment picks a nurse with [remaining > 0], takes exactly
    one from its [remaining] (the clamp at zero does not engage) and adds
    exactly one to its [nAssigned], leaving the other nurses as they were;
    and a successful run of the engine is such a sequence of single
    assignments. *)
Theorem assignment_keeps_capacity_plan (R : Z) (N : nat) (capacityMap : gmap Z Z)
    (es : EngineState) :
  0 <= R ->
  let capacities := computeCapacities R N in
  let start :=
    {| state := buildInitialState capacities; assignment := ∅; roundRobinIndex := 0 |} in
  rtc (engineStep capacities capacityMap) start es ->
  capacityInvariant capacities (state es) /\
  Forall2 (fun c n => nAssigned n <= capacity c /\ 0 <= remaining n)
          capacities (state es) /\
  (forall es', engineStep capacities capacityMap es es' ->
     exists room l1 chosen l2,
       state es = l1 ++ chosen :: l2 /\ 0 < remaining chosen /\
       state es' = l1 ++ recordRoom room chosen :: l2 /\
       remaining (recordRoom room chosen) = remaining chosen - 1 /\
       nAssigned (recordRoom room chosen) = nAssigned chosen + 1 /\
       capacityInvariant capacities (state es')) /\
  (forall rooms es',
     assignRoomsToState localeCompare rooms (buildInitialState capacities) capacities
       = Ok es' ->
     rtc (engineStep capacities
            (Map_of_entries (map (fun cap => (cap_nurseId cap, capacity cap)) capacities)))
         start es').
Proof.
  intros HR capacities start Hreach.
  destruct (computeCapacities_wellformed R N HR) as [Hnd Hpos].
  fold capacities in Hnd, Hpos.
  assert (Hinv : capacityInvariant capacities (state es)).
  { eapply (capacityInvariant_reachable capacities capacityMap); [exact Hnd| |exact Hreach].
    now apply capacityInvariant_initial. }
  split; [exact Hinv|]. split; [|split].
  - eapply Forall2_impl; [exact Hinv|]. intros c n (_ & Hge & Hplan). cbn. lia.
  - intros es' Hstep.
    pose proof Hstep as Hstep'. apply engineStep_assigns in Hstep' as [room Has].
    2: now rewrite (capacityInvariant_ids capacities).
    pose proof (capacityInvariant_assigns capacities room es es' Hinv Has) as Hinv'.
    destruct Has as (l1 & chosen & l2 & Hst & Hrem & Hst' & _).
    exists room, l1, chosen, l2. cbn [recordRoom remaining nAssigned].
    repeat split; auto. lia.
  - intros rooms es'. apply assignRoomsToState_rtc.
Qed.

(** ** The hash key *)

Lemma hashLoop_sum (stamp : string) (k : nat) (acc : Z) :
  hashLoop stamp (Z.of_nat k) acc =
  acc + sumZ (map (fun j : nat =>
                     match String.get j stamp with
                     | Some c => (charCode c * ((Z.of_nat (k + j) + 1) mod 97 + 1)) mod 104729
                     | None => 0
                     end)
                  (seq 0 (String.length stamp))).
Proof.
  revert k acc. induction stamp as [|c rest IH]; intros k acc.
  - cbn [hashLoop String.length seq map]. rewrite sumZ_nil. lia.
  - cbn [hashLoop String.length seq map String.get].
    replace (Z.of_nat k + 1) with (Z.of_nat (S k)) by lia.
    rewrite IH, sumZ_cons, <- seq_shift, map_map.
    assert (Hc : 0 <= charCode c) by (unfold charCode; lia).
    rewrite (Z.rem_mod_nonneg (Z.of_nat (S k)) 97) by lia.
    pose proof (Z.mod_pos_bound (Z.of_nat (S k)) 97 ltac:(lia)) as Hm.
    rewrite Z.rem_mod_nonneg by (try apply Z.mul_nonneg_nonneg; lia).
    replace (Z.of_nat (k + 0) + 1) with (Z.of_nat (S k)) by lia.
    rewrite Z.add_assoc. f_equal. f_equal. apply map_ext. intros j.
    cbn [String.get]. now replace (S k + j)%nat with (k + S j)%nat by lia.
Qed.

Lemma stablePseudoRandomKey_spec (room : string) (timeParsed : DateTime) :
  stablePseudoRandomKey room timeParsed = hashKey_spec room timeParsed.
Proof.
  unfold stablePseudoRandomKey, hashKey_spec. cbv zeta.
  rewrite (hashLoop_sum _ 0 0). reflexivity.
Qed.

Lemma compareByAgeThenTime_le (a b : DerivedRoom) :
  compareByAgeThenTime localeCompare oldest a b <= 0 -> ageThenTimeLe a b.
Proof.
  unfold compareByAgeThenTime, ageThenTimeLe. cases_eqb; lia.
Qed.

Lemma compareByAgeThenTime_gt (a b : DerivedRoom) :
  0 < compareByAgeThenTime localeCompare oldest a b -> ageThenTimeLe b a.
Proof.
  unfold compareByAgeThenTime, ageThenTimeLe. cases_eqb; lia.
Qed.

Lemma ageThenTimeLe_trans (a b c : DerivedRoom) :
  ageThenTimeLe a b -> ageThenTimeLe b c -> ageThenTimeLe a c.
Proof. unfold ageThenTimeLe. lia. Qed.

Lemma sortByAgeThenTime_sorted (data : list DerivedRoom) :
  StronglySorted ageThenTimeLe (sortByAgeThenTime localeCompare data oldest).
Proof.
  apply js_sort_sorted.
  - apply ageThenTimeLe_trans.
  - apply compareByAgeThenTime_le.
  - apply compareByAgeThenTime_gt.
Qed.

(** ** The engine does not read the hash key *)

Lemma filter_map_commute {A B} (f : A -> B) (p : B -> bool) (l : list A) :
  List.filter p (map f l) = map f (List.filter (fun x => p (f x)) l).
Proof.
  induction l as [|x l IH]; cbn [map List.filter]; [reflexivity|].
  destruct (p (f x)); cbn [map]; now rewrite IH.
Qed.

Lemma forEach_map {A B S} (f : A -> B) (stepA : A -> S -> Res S) (stepB : B -> S -> Res S)
    (l : list A) :
  (forall x s, stepB (f x) s = stepA x s) ->
  forall s, forEach stepB (map f l) s = forEach stepA l s.
Proof.
  intros Hstep. induction l as [|x l IH]; intros s; cbn [map forEach]; [reflexivity|].
  rewrite Hstep. destruct (stepA x s) as [s'|e]; [|reflexivity].
  rewrite !bind_Ok. apply IH.
Qed.

Section Rekey.
Variable key : string -> DateTime -> Z.

Lemma deriveRoomKeyed_rekey (row : AssignmentInputRow) :
  deriveRoomKeyed key row = rekey key (deriveRoom row).
Proof. reflexivity. Qed.

Lemma updateNurseState_rekey (id : Z) (r : DerivedRoom) (st : list NurseState) :
  updateNurseState id (rekey key r) st = updateNurseState id r st.
Proof.
  induction st as [|n st IH]; cbn [updateNurseState]; [reflexivity|].
  destruct (nurseId n =? id); [reflexivity | now rewrite IH].
Qed.

Lemma roundRobinChoice_rekey (r : DerivedRoom) (es : EngineState) :
  roundRobinChoice (rekey key r) es = roundRobinChoice r es.
Proof. reflexivity. Qed.

Lemma roundRobinStep_rekey (r : DerivedRoom) (es : EngineState) :
  roundRobinStep (rekey key r) es = roundRobinStep r es.
Proof.
  unfold roundRobinStep. rewrite roundRobinChoice_rekey.
  destruct (roundRobinChoice r es) as [chosen|]; [|reflexivity].
  rewrite updateNurseState_rekey. reflexivity.
Qed.

Lemma pickNurse_rekey (capacities : list NurseCapacity) (capacityMap : gmap Z Z)
    (r : DerivedRoom) (st : list NurseState) :
  pickNurse (rekey key r) st capacities capacityMap =
  pickNurse r st capacities capacityMap.
Proof. reflexivity. Qed.

Lemma assignWithScoring_rekey (capacities : list NurseCapacity) (capacityMap : gmap Z Z)
    (r : DerivedRoom) (es : EngineState) :
  assignWithScoring capacities capacityMap (rekey key r) es =
  assignWithScoring capacities capacityMap r es.
Proof.
  unfold assignWithScoring. rewrite pickNurse_rekey.
  change (d_room (rekey key r)) with (d_room r).
  destruct (Map_has (assignment es) (d_room r)); [reflexivity|].
  destruct (pickNurse r (state es) capacities capacityMap) as [chosen|e];
    [|reflexivity].
  rewrite !bind_Ok, updateNurseState_rekey. reflexivity.
Qed.

Lemma ordered_rekey (data : list DerivedRoom) (direction : SortDirection)
    (es : EngineState) :
  List.filter (notYetAssigned es)
    (sortByAgeThenTime localeCompare (map (rekey key) data) direction) =
  map (rekey key)
    (List.filter (notYetAssigned es) (sortByAgeThenTime localeCompare data direction)).
Proof.
  unfold sortByAgeThenTime.
  rewrite (js_sort_map (rekey key) (compareByAgeThenTime localeCompare direction))
    by reflexivity.
  rewrite filter_map_commute. reflexivity.
Qed.

Lemma assignRoundRobin_rekey (data : list DerivedRoom) (direction : SortDirection)
    (es : EngineState) :
  assignRoundRobin localeCompare (map (rekey key) data) direction es =
  assignRoundRobin localeCompare data direction es.
Proof.
  unfold assignRoundRobin. rewrite ordered_rekey.
  apply forEach_map, roundRobinStep_rekey.
Qed.

Lemma assignSequence_rekey (capacities : list NurseCapacity) (capacityMap : gmap Z Z)
    (data : list DerivedRoom) (direction : SortDirection) (es : EngineState) :
  assignSequence localeCompare capacities capacityMap (map (rekey key) data) direction es =
  assignSequence localeCompare capacities capacityMap data direction es.
Proof.
  unfold assignSequence. rewrite ordered_rekey.
  apply forEach_map, assignWithScoring_rekey.
Qed.

Lemma assignRoomsToState_rekey (rooms : list DerivedRoom) (state0 : list NurseState)
    (capacities : list NurseCapacity) :
  assignRoomsToState localeCompare (map (rekey key) rooms) state0 capacities =
  assignRoomsToState localeCompare rooms state0 capacities.
Proof.
  unfold assignRoomsToState. cbv zeta.
  rewrite !filter_map_commute, !assignRoundRobin_rekey.
  destruct (assignRoundRobin _ _ _ _) as [es1|e]; [|reflexivity].
  rewrite !bind_Ok, assignRoundRobin_rekey.
  destruct (assignRoundRobin _ _ _ es1) as [es2|e]; [|reflexivity].
  rewrite !bind_Ok, assignRoundRobin_rekey.
  destruct (assignRoundRobin _ _ _ es2) as [es3|e]; [|reflexivity].
  rewrite !bind_Ok, filter_map_commute. apply assignSequence_rekey.
Qed.

Lemma rankLoop_rekey (l : list DerivedRoom) (currentRank : Z) (lastMillis : option Z)
    (ranks : gmap string Z) :
  rankLoop (map (rekey key) l) currentRank lastMillis ranks =
  rankLoop l currentRank lastMillis ranks.
Proof.
  revert currentRank lastMillis ranks.
  induction l as [|x l IH]; intros c lm m; cbn [map rankLoop]; [reflexivity|].
  apply IH.
Qed.

Lemma denseRankOldest_rekey (rooms : list DerivedRoom) :
  denseRankOldest localeCompare (map (rekey key) rooms) =
  denseRankOldest localeCompare rooms.
Proof.
  unfold denseRankOldest.
  rewrite (js_sort_map (rekey key) (compareByTime localeCompare)) by reflexivity.
  apply rankLoop_rekey.
Qed.

Lemma buildPerRoom_rekey (derived : list DerivedRoom) (aMap ranks : gmap string Z)
    (total : Z) :
  buildPerRoom (map (rekey key) derived) aMap ranks total =
  buildPerRoom derived aMap ranks total.
Proof.
  unfold buildPerRoom. rewrite filter_map_commute, map_map. reflexivity.
Qed.

Lemma assignRoomsKeyed_assignRooms (rows : list AssignmentInputRow) (N : nat)
    (tz : string) :
  assignRoomsKeyed localeCompare formatClock key rows N tz =
  assignRooms localeCompare formatClock rows N tz.
Proof.
  destruct rows as [|r0 rows']; [reflexivity|].
  unfold assignRoomsKeyed, assignRooms. cbv zeta.
  rewrite (map_ext (deriveRoomKeyed key) (fun row => rekey key (deriveRoom row)))
    by apply deriveRoomKeyed_rekey.
  rewrite <- (map_map deriveRoom (rekey key)).
  rewrite assignRoomsToState_rekey, denseRankOldest_rekey.
  destruct (assignRoomsToState _ _ _ _) as [es|e]; [|reflexivity].
  rewrite !bind_Ok, buildPerRoom_rekey, !length_map. reflexivity.
Qed.
End Rekey.

(** C5. The hash key of a room is the sum, over the positions [i] of
    ["<room>|<yyyy-MM-dd HH:mm>"], of [(c * ((i+1) mod 97 + 1)) mod 104729];
    every round-robin phase, the discharge phase included, takes its rooms
    in the order of the age-then-time sort (age priority, then ascending
    timestamp, then [localeCompare] on the room id); and the engine with
    the hash computation replaced by anything, in particular taken out,
    gives the same assignment map, nurse states and result tables. *)
Theorem hash_key_is_computed_but_unused (rows : list AssignmentInputRow) (N : nat)
    (tz : string) (key : string -> DateTime -> Z) :
  (forall r, In r rows ->
     randKey (deriveRoom r) = hashKey_spec (room r) (timeParsed r)) /\
  (forall data es,
     assignRoundRobin localeCompare data oldest es =
     forEach roundRobinStep
       (List.filter (notYetAssigned es) (sortByAgeThenTime localeCompare data oldest)) es /\
     Permutation (sortByAgeThenTime localeCompare data oldest) data /\
     StronglySorted ageThenTimeLe (sortByAgeThenTime localeCompare data oldest)) /\
  (forall a b,
     compareByAgeThenTime localeCompare oldest a b =
     if negb (getAgePriority (d_labels a) =? getAgePriority (d_labels b))
     then getAgePriority (d_labels a) - getAgePriority (d_labels b)
     else if negb (toMillis (d_time a) =? toMillis (d_time b))
     then toMillis (d_time a) - toMillis (d_time b)
     else localeCompare (d_room a) (d_room b)) /\
  assignRoomsToState localeCompare (map (deriveRoomKeyed key) rows)
    (buildInitialState (plannedCapacities rows N)) (plannedCapacities rows N) =
  assignRoomsToState localeCompare (map deriveRoom rows)
    (buildInitialState (plannedCapacities rows N)) (plannedCapacities rows N) /\
  assignRoomsKeyed localeCompare formatClock key rows N tz =
  assignRooms localeCompare formatClock rows N tz /\
  assignRoomsKeyed localeCompare formatClock (fun _ _ => 0) rows N tz =
  assignRooms localeCompare formatClock rows N tz.
Proof.
  split; [intros r _; apply stablePseudoRandomKey_spec|].
  split.
  { intros data es. split; [reflexivity|].
    split; [apply js_sort_perm | apply sortByAgeThenTime_sorted]. }
  split.
  { intros a b. unfold compareByAgeThenTime. cases_eqb; (lia || reflexivity). }
  split.
  { rewrite (map_ext (deriveRoomKeyed key) (fun row => rekey key (deriveRoom row)))
      by apply deriveRoomKeyed_rekey.
    rewrite <- (map_map deriveRoom (rekey key)). apply assignRoomsToState_rekey. }
  split; apply assignRoomsKeyed_assignRooms.
Qed.

(** ** The timezone *)

Lemma Forall2_map_same {A B} (P : B -> B -> Prop) (f g : A -> B) (l : list A) :
  (forall x, P (f x) (g x)) -> Forall2 P (map f l) (map g l).
Proof.
  intros Hfg. induction l as [|x l IH]; cbn [map]; constructor; auto.
Qed.

Lemma buildPerNurse_timezone (perRoom : list RoomAssignmentRow) (N : nat)
    (tz1 tz2 : string) :
  Forall2 sameButLabel (buildPerNurse formatClock perRoom N tz1)
                       (buildPerNurse formatClock perRoom N tz2).
Proof.
  unfold buildPerNurse, Array_from. apply Forall2_map_same.
  intros idx. unfold sameButLabel. cbn. auto.
Qed.

Lemma buildRoomLabel_clock (row : RoomAssignmentRow) (tz : string) :
  buildRoomLabel formatClock row tz = roomLabelWithClock row (formatClock (pr_time row) tz).
Proof. reflexivity. Qed.

(** C9. For fixed rows and nurse count, two runs of [assignRooms] with
    timezones [tz1] and [tz2] throw alike or return alike; when they return,
    the per-room tables are equal (room id, time, nurse id, both ranks and
    all tags) and the per-nurse tables agree row for row on everything but
    the label text; the timezone reaches a label only as the clock text
    [formatClock time tz] inside it. *)
Theorem timezone_only_formats_labels (rows : list AssignmentInputRow) (N : nat)
    (tz1 tz2 : string) :
  (forall e,
     assignRooms localeCompare formatClock rows N tz1 = Throw e <->
     assignRooms localeCompare formatClock rows N tz2 = Throw e) /\
  (forall res1,
     assignRooms localeCompare formatClock rows N tz1 = Ok res1 ->
     exists res2,
       assignRooms localeCompare formatClock rows N tz2 = Ok res2 /\
       perRoom res1 = perRoom res2 /\
       Forall2 sameButLabel (perNurse res1) (perNurse res2) /\
       (forall row, In row (perNurse res1) ->
          assigned_rooms row =
          String.concat ", "
            (map (fun room => roomLabelWithClock room (formatClock (pr_time room) tz1))
                 (roomsForNurse (perRoom res1) (ns_nurse_id row)))) /\
       (forall row, In row (perNurse res2) ->
          assigned_rooms row =
          String.concat ", "
            (map (fun room => roomLabelWithClock room (formatClock (pr_time room) tz2))
                 (roomsForNurse (perRoom res2) (ns_nurse_id row))))).
Proof.
  destruct rows as [|r0 rows'] eqn:Hrows.
  { split; [intros e; split; discriminate|].
    intros res1 [= <-]. eexists. split; [reflexivity|]. cbn.
    split; [reflexivity|]. split; [constructor|]. split; intros row []. }
  assert (Hne : rows <> []) by (rewrite Hrows; discriminate).
  rewrite <- Hrows. clear Hrows r0 rows'.
  rewrite !(assignRooms_nonempty rows N _ Hne).
  destruct (assignRoomsToState _ _ _ _) as [es|e0]; cbn.
  - split; [intros e; split; discriminate|].
    intros res1 [= <-]. eexists. split; [reflexivity|]. cbn [perNurse perRoom].
    split; [reflexivity|]. split; [apply buildPerNurse_timezone|].
    split; intros row Hrow;
      apply buildPerNurse_row in Hrow as (_ & _ & _ & Hlab); exact Hlab.
  - split; [reflexivity|]. discriminate.
Qed.

(** ** Dense ranks *)

Lemma elem_of_timestampsUpTo (l : list DerivedRoom) (u t : Z) :
  t ∈ timestampsUpTo l u <-> t <= u /\ exists r, In r l /\ toMillis (d_time r) = t.
Proof.
  unfold timestampsUpTo.
  rewrite elem_of_list_to_set, list_elem_of_In, filter_In, in_map_iff, Z.leb_le.
  split.
  - intros [(r & Ht & Hr) Hle]. eauto.
  - intros (Hle & r & Hr & Ht). eauto.
Qed.

Lemma timestampsUpTo_perm (l l' : list DerivedRoom) (u : Z) :
  Permutation l l' -> timestampsUpTo l u = timestampsUpTo l' u.
Proof.
  intros Hp. apply set_eq. intros t. rewrite !elem_of_timestampsUpTo.
  split; intros (Hle & r & Hr & Ht); (split; [exact Hle|]); exists r; (split; [|exact Ht]).
  - now apply (Permutation_in _ Hp).
  - now apply (Permutation_in _ (Permutation_sym Hp)).
Qed.

Lemma timestampsUpTo_cons (x : DerivedRoom) (l : list DerivedRoom) (u : Z) :
  toMillis (d_time x) <= u ->
  timestampsUpTo (x :: l) u = {[ toMillis (d_time x) ]} ∪ timestampsUpTo l u.
Proof.
  intros Hx. apply set_eq. intros t.
  rewrite elem_of_union, elem_of_singleton, !elem_of_timestampsUpTo. split.
  - intros (Hle & r & [<- | Hr] & Ht); [now left | right; eauto].
  - intros [-> | (Hle & r & Hr & Ht)].
    + split; [exact Hx|]. exists x. split; [now left | reflexivity].
    + split; [exact Hle|]. exists r. split; [now right | exact Ht].
Qed.

Lemma size_with_new_element (t : Z) (T : gset Z) :
  size ({[ t ]} ∪ T) = S (size (T ∖ {[ t ]})).
Proof.
  rewrite (union_comm_L {[ t ]} T), <- difference_union_L.
  rewrite size_union by set_solver. rewrite size_singleton. lia.
Qed.

Lemma rankLoop_spec (l : list DerivedRoom) :
  forall (c : Z) (lm : option Z) (m : gmap string Z),
  ascendingByTime l -> NoDup (map d_room l) ->
  (forall last, lm = Some last -> Forall (fun a => last <= toMillis (d_time a)) l) ->
  (forall k, ~ In k (map d_room l) -> rankLoop l c lm m !! k = m !! k) /\
  (forall a, In a l ->
     rankLoop l c lm m !! d_room a =
     Some (c + Z.of_nat (size (timestampsUpTo l (toMillis (d_time a)) ∖ lastSeen lm)))).
Proof.
  induction l as [|x l IH]; intros c lm m Hsorted Hnd Hlast.
  { split; [reflexivity | intros a []]. }
  apply StronglySorted_inv in Hsorted as [Hsorted Hx].
  cbn [map] in Hnd. apply NoDup_cons in Hnd as [Hxid Hnd].
  rewrite list_elem_of_In in Hxid.
  cbn [rankLoop].
  set (mx := toMillis (d_time x)) in *.
  set (fresh := match lm with None => true | Some last => negb (mx =? last) end).
  set (c' := if fresh then c + 1 else c).
  set (lm' := if fresh then Some mx else lm).
  assert (Hlm' : lm' = Some mx).
  { subst lm' fresh. destruct lm as [last|]; [|reflexivity].
    destruct (Z.eqb_spec mx last) as [->|]; reflexivity. }
  destruct (IH c' lm' (<[d_room x := c']> m) Hsorted Hnd) as [IH1 IH2].
  { intros last' Hl'. rewrite Hlm' in Hl'. injection Hl' as <-. exact Hx. }
  split.
  - intros k Hk. rewrite IH1 by (intros Hin; apply Hk; now right).
    apply lookup_insert_ne. intros Heq. apply Hk. left. exact Heq.
  - intros a [<- | Ha].
    + rewrite IH1 by exact Hxid. rewrite lookup_insert_eq. f_equal.
      assert (HT : timestampsUpTo (x :: l) mx = {[ mx ]}).
      { apply set_eq. intros t. rewrite elem_of_timestampsUpTo, elem_of_singleton. split.
        - intros (Hle & r & [<- | Hr] & Ht); [now rewrite <- Ht|].
          rewrite List.Forall_forall in Hx. specialize (Hx r Hr). cbn in Hx. lia.
        - intros ->. split; [lia|]. exists x. split; [now left | reflexivity]. }
      fold mx. rewrite HT. subst c' fresh. destruct lm as [last|]; cbn [lastSeen].
      * destruct (Z.eqb_spec mx last) as [<- | Hne]; cbn [negb].
        -- replace ({[ mx ]} ∖ {[ mx ]} : gset Z) with (∅ : gset Z) by set_solver.
           rewrite size_empty. lia.
        -- replace ({[ mx ]} ∖ {[ last ]} : gset Z) with ({[ mx ]} : gset Z) by set_solver.
           rewrite size_singleton. lia.
      * replace ({[ mx ]} ∖ ∅ : gset Z) with ({[ mx ]} : gset Z) by set_solver.
        rewrite size_singleton. lia.
    + rewrite IH2 by exact Ha. rewrite Hlm'. cbn [lastSeen]. f_equal.
      assert (Hxa : mx <= toMillis (d_time a)).
      { rewrite List.Forall_forall in Hx. apply (Hx a Ha). }
      rewrite (timestampsUpTo_cons x l _ Hxa). fold mx.
      set (T := timestampsUpTo l (toMillis (d_time a))).
      assert (Hge : forall t, t ∈ T -> mx <= t).
      { intros t Ht. apply elem_of_timestampsUpTo in Ht as (_ & r & Hr & <-).
        rewrite List.Forall_forall in Hx. apply (Hx r Hr). }
      pose proof (size_with_new_element mx T) as Hsz.
      subst c' fresh. destruct lm as [last|]; cbn [lastSeen].
      * destruct (Z.eqb_spec mx last) as [<- | Hne]; cbn [negb].
        -- replace (({[ mx ]} ∪ T) ∖ {[ mx ]}) with (T ∖ {[ mx ]}) by set_solver.
           lia.
        -- assert (Hlt : last <= mx).
           { specialize (Hlast last eq_refl). apply Forall_cons in Hlast as [Hl _].
             exact Hl. }
           replace (({[ mx ]} ∪ T) ∖ {[ last ]}) with ({[ mx ]} ∪ T).
           ++ rewrite Hsz. lia.
           ++ apply set_eq. intros t.
              rewrite elem_of_difference, elem_of_union, !elem_of_singleton.
              split; [|tauto]. intros [-> | Ht]; split; auto; try lia.
              specialize (Hge t Ht). lia.
      * replace (({[ mx ]} ∪ T) ∖ ∅) with ({[ mx ]} ∪ T) by set_solver.
        rewrite Hsz. lia.
Qed.

Lemma compareByTime_le (a b : DerivedRoom) :
  compareByTime localeCompare a b <= 0 -> toMillis (d_time a) <= toMillis (d_time b).
Proof.
  unfold compareByTime. cases_eqb; lia.
Qed.

Lemma compareByTime_gt (a b : DerivedRoom) :
  0 < compareByTime localeCompare a b -> toMillis (d_time b) <= toMillis (d_time a).
Proof.
  unfold compareByTime. cases_eqb; lia.
Qed.

Lemma sortByTime_ascending (rooms : list DerivedRoom) :
  ascendingByTime (js_sort (compareByTime localeCompare) rooms).
Proof.
  apply js_sort_sorted.
  - intros a b c. lia.
  - apply compareByTime_le.
  - apply compareByTime_gt.
Qed.

Lemma denseRankOldest_closed (rooms : list DerivedRoom) (a : DerivedRoom) :
  NoDup (map d_room rooms) -> In a rooms ->
  denseRankOldest localeCompare rooms !! d_room a =
  Some (Z.of_nat (size (timestampsUpTo rooms (toMillis (d_time a))))).
Proof.
  intros Hnd Ha. unfold denseRankOldest.
  destruct (rankLoop_spec (js_sort (compareByTime localeCompare) rooms) 0 None ∅)
    as [_ Hrank].
  - apply sortByTime_ascending.
  - now apply js_sort_NoDup_map.
  - discriminate.
  - rewrite Hrank by now apply js_sort_In.
    cbn [lastSeen]. rewrite difference_empty_L.
    rewrite (timestampsUpTo_perm _ rooms) by apply js_sort_perm.
    f_equal.
Qed.

Lemma timestampsUpTo_mono (rooms : list DerivedRoom) (t u : Z) :
  t <= u -> timestampsUpTo rooms t ⊆ timestampsUpTo rooms u.
Proof.
  intros Htu v. rewrite !elem_of_timestampsUpTo. intros (Hle & Hr). split; [lia | exact Hr].
Qed.

Lemma timestampsUpTo_self (rooms : list DerivedRoom) (a : DerivedRoom) :
  In a rooms -> toMillis (d_time a) ∈ timestampsUpTo rooms (toMillis (d_time a)).
Proof.
  intros Ha. apply elem_of_timestampsUpTo. split; [lia|]. now exists a.
Qed.

Lemma timestampsUpTo_lt (rooms : list DerivedRoom) (a b : DerivedRoom) :
  In b rooms -> toMillis (d_time a) < toMillis (d_time b) ->
  (size (timestampsUpTo rooms (toMillis (d_time a)))
   < size (timestampsUpTo rooms (toMillis (d_time b))))%nat.
Proof.
  intros Hb Hlt. apply subset_size. split.
  - apply timestampsUpTo_mono. lia.
  - intros Hsub. pose proof (Hsub _ (timestampsUpTo_self rooms b Hb)) as Hin.
    apply elem_of_timestampsUpTo in Hin as [Hle _]. lia.
Qed.

Lemma rank_eq_iff (rooms : list DerivedRoom) (a b : DerivedRoom) :
  In a rooms -> In b rooms ->
  size (timestampsUpTo rooms (toMillis (d_time a)))
  = size (timestampsUpTo rooms (toMillis (d_time b)))
  <-> toMillis (d_time a) = toMillis (d_time b).
Proof.
  intros Ha Hb. split; [|now intros ->].
  intros Hsize.
  destruct (Z.lt_total (toMillis (d_time a)) (toMillis (d_time b))) as [Hlt | [Heq | Hgt]].
  - pose proof (timestampsUpTo_lt rooms a b Hb Hlt). lia.
  - exact Heq.
  - pose proof (timestampsUpTo_lt rooms b a Ha Hgt). lia.
Qed.

Lemma sorted_app_inv {A} (R : A -> A -> Prop) (l1 l2 : list A) :
  StronglySorted R (l1 ++ l2) -> forall x y, In x l1 -> In y l2 -> R x y.
Proof.
  induction l1 as [|z l1 IH]; cbn [app]; intros Hs x y Hx Hy; [destruct Hx|].
  apply StronglySorted_inv in Hs as [Hs Hz].
  destruct Hx as [<- | Hx].
  - rewrite List.Forall_forall in Hz. apply Hz, in_or_app. now right.
  - now apply IH.
Qed.

Lemma timestampsUpTo_head (a : DerivedRoom) (rest : list DerivedRoom) :
  ascendingByTime (a :: rest) ->
  timestampsUpTo (a :: rest) (toMillis (d_time a)) = {[ toMillis (d_time a) ]}.
Proof.
  intros Hs. apply StronglySorted_inv in Hs as [_ Ha].
  rewrite List.Forall_forall in Ha.
  apply set_eq. intros t. rewrite elem_of_timestampsUpTo, elem_of_singleton. split.
  - intros (Hle & r & [<- | Hr] & Ht); [now rewrite <- Ht|].
    specialize (Ha r Hr). cbn in Ha. lia.
  - intros ->. split; [lia|]. exists a. split; [now left | reflexivity].
Qed.

Lemma sorted_app_r {A} (R : A -> A -> Prop) (l1 l2 : list A) :
  StronglySorted R (l1 ++ l2) -> StronglySorted R l2.
Proof.
  induction l1 as [|z l1 IH]; cbn [app]; intros Hs; [exact Hs|].
  apply StronglySorted_inv in Hs as [Hs _]. now apply IH.
Qed.

Lemma timestampsUpTo_next (front rest : list DerivedRoom) (a b : DerivedRoom) :
  ascendingByTime (front ++ a :: b :: rest) ->
  toMillis (d_time a) <= toMillis (d_time b) /\
  timestampsUpTo (front ++ a :: b :: rest) (toMillis (d_time b)) =
  {[ toMillis (d_time b) ]} ∪ timestampsUpTo (front ++ a :: b :: rest) (toMillis (d_time a)).
Proof.
  intros Hs. unfold ascendingByTime in Hs.
  pose proof (sorted_app_inv _ front (a :: b :: rest) Hs) as Hfront.
  pose proof (sorted_app_r _ front (a :: b :: rest) Hs) as Htail.
  apply StronglySorted_inv in Htail as [Htail Ha].
  apply StronglySorted_inv in Htail as [_ Hb].
  rewrite List.Forall_forall in Ha, Hb.
  assert (Hab : toMillis (d_time a) <= toMillis (d_time b)) by (apply Ha; now left).
  split; [exact Hab|].
  apply set_eq. intros t.
  rewrite elem_of_union, elem_of_singleton, !elem_of_timestampsUpTo. split.
  - intros (Hle & r & Hr & Ht).
    apply in_app_iff in Hr as [Hr | [<- | [<- | Hr]]].
    + right. pose proof (Hfront r a Hr (or_introl eq_refl)) as Hra. cbn in Hra.
      split; [lia|]. exists r. split; [apply in_or_app; now left | exact Ht].
    + right. split; [lia|]. exists a.
      split; [apply in_or_app; right; now left | exact Ht].
    + now left.
    + left. specialize (Hb r Hr). cbn in Hb. lia.
  - intros [-> | (Hle & r & Hr & Ht)].
    + split; [lia|]. exists b. split; [|reflexivity].
      apply in_or_app. right. right. now left.
    + split; [lia|]. eauto.
Qed.

(** C8. For a non-empty input with pairwise-distinct room ids: the rooms
    are sorted ascending by timestamp, rooms of equal timestamp being
    compared by [localeCompare] on the room id; the first room of that
    order has oldest rank 1 and each next room has the rank of the room
    before it, plus one exactly when its timestamp differs; the rank of a
    room is the number of distinct timestamps not later than its own, so
    two rooms share a rank iff they share a timestamp; and every row of the
    per-room table has [rank_oldest + rank_youngest = totalRooms + 1].  For
    [N >= 1] nurses the run returns a per-room table with one row for every
    room of the input, which carries the room's rank from the rank map as
    [rank_oldest] and [totalRooms - rank_oldest + 1] as [rank_youngest]. *)
Theorem oldest_rank_is_dense (rows : list AssignmentInputRow) (N : nat) (tz : string) :
  rows <> [] -> NoDup (map room rows) ->
  let derived := map deriveRoom rows in
  let sorted := js_sort (compareByTime localeCompare) derived in
  let ranks := denseRankOldest localeCompare derived in
  let millis := fun r : DerivedRoom => toMillis (d_time r) in
  Permutation sorted derived /\
  ascendingByTime sorted /\
  (forall a b,
     compareByTime localeCompare a b =
     if negb (millis a =? millis b) then millis a - millis b
     else localeCompare (d_room a) (d_room b)) /\
  (forall a rest, sorted = a :: rest -> ranks !! d_room a = Some 1) /\
  (forall front a b rest, sorted = front ++ a :: b :: rest ->
     exists ra, ranks !! d_room a = Some ra /\
       ranks !! d_room b = Some (if millis b =? millis a then ra else ra + 1)) /\
  (forall a, In a derived ->
     ranks !! d_room a = Some (Z.of_nat (size (timestampsUpTo derived (millis a))))) /\
  (forall a b ra rb, In a derived -> In b derived ->
     ranks !! d_room a = Some ra -> ranks !! d_room b = Some rb ->
     1 <= ra /\ (ra = rb <-> millis a = millis b)) /\
  (forall res, assignRooms localeCompare formatClock rows N tz = Ok res ->
     forall p, In p (perRoom res) ->
       ranks !! pr_room p = Some (rank_oldest p) /\
       rank_youngest p = Z.of_nat (length rows) - rank_oldest p + 1 /\
       rank_oldest p + rank_youngest p = Z.of_nat (length rows) + 1) /\
  ((1 <= N)%nat ->
   exists res,
     assignRooms localeCompare formatClock rows N tz = Ok res /\
     length (perRoom res) = length rows /\
     forall row, In row rows ->
       exists p, In p (perRoom res) /\ pr_room p = room row /\
         ranks !! room row = Some (rank_oldest p) /\
         rank_youngest p = Z.of_nat (length rows) - rank_oldest p + 1 /\
         rank_oldest p + rank_youngest p = Z.of_nat (length rows) + 1).
Proof.
  intros Hne Hnd derived sorted ranks millis.
  assert (Hndd : NoDup (map d_room derived)).
  { unfold derived. now rewrite d_room_deriveRoom. }
  assert (Hperm : Permutation sorted derived) by apply js_sort_perm.
  assert (Hasc : ascendingByTime sorted) by apply sortByTime_ascending.
  assert (Hclosed : forall a, In a derived ->
            ranks !! d_room a = Some (Z.of_nat (size (timestampsUpTo derived (millis a))))).
  { intros a Ha. now apply denseRankOldest_closed. }
  split; [exact Hperm|]. split; [exact Hasc|]. split.
  { intros a b. unfold compareByTime, millis. cases_eqb; (lia || reflexivity). }
  split.
  { intros a rest Hsorted.
    rewrite Hclosed by (apply (Permutation_in _ Hperm); rewrite Hsorted; now left).
    rewrite <- (timestampsUpTo_perm _ _ _ Hperm), Hsorted.
    rewrite timestampsUpTo_head by (rewrite <- Hsorted; exact Hasc).
    now rewrite size_singleton. }
  split.
  { intros front a b rest Hsorted. eexists.
    split; [apply Hclosed, (Permutation_in _ Hperm); rewrite Hsorted;
            apply in_or_app; right; now left|].
    rewrite Hclosed by (apply (Permutation_in _ Hperm); rewrite Hsorted;
                        apply in_or_app; right; right; now left).
    f_equal. rewrite <- !(timestampsUpTo_perm _ _ _ Hperm), Hsorted.
    destruct (timestampsUpTo_next front rest a b) as [Hab Hnext].
    { rewrite <- Hsorted. exact Hasc. }
    fold (millis a) (millis b) in Hab, Hnext |- *. rewrite Hnext.
    destruct (Z.eqb_spec (millis b) (millis a)) as [Heq | Hneq].
    - rewrite Heq. f_equal. f_equal. apply subseteq_union_1_L.
      apply singleton_subseteq_l, elem_of_timestampsUpTo. split; [lia|].
      exists a. split; [apply in_or_app; right; now left | reflexivity].
    - rewrite size_union, size_singleton; [lia|].
      apply disjoint_singleton_l. rewrite elem_of_timestampsUpTo. lia. }
  split; [exact Hclosed|]. split.
  { intros a b ra rb Ha Hb Hra Hrb.
    rewrite (Hclosed a Ha) in Hra. rewrite (Hclosed b Hb) in Hrb.
    injection Hra as <-. injection Hrb as <-.
    pose proof (rank_eq_iff derived a b Ha Hb) as Hiff.
    pose proof (timestampsUpTo_self derived a Ha) as Hself.
    assert (Hpos : size (timestampsUpTo derived (millis a)) <> 0%nat).
    { intros Hz. apply size_empty_inv in Hz. unfold millis in Hz.
      rewrite (leibniz_equiv _ _ Hz) in Hself. set_solver. }
    split; [lia|]. unfold millis.
    split; [intros Heq; apply Hiff; lia | intros Heq; apply Hiff in Heq; lia]. }
  assert (Hrows : forall res, assignRooms localeCompare formatClock rows N tz = Ok res ->
            forall p, In p (perRoom res) ->
              ranks !! pr_room p = Some (rank_oldest p) /\
              rank_youngest p = Z.of_nat (length rows) - rank_oldest p + 1 /\
              rank_oldest p + rank_youngest p = Z.of_nat (length rows) + 1).
  { intros res Hres p Hp.
    rewrite (assignRooms_nonempty rows N tz Hne) in Hres.
    apply bind_Ok_inv in Hres as (es & _ & Hres). injection Hres as <-.
    cbn [perRoom] in Hp.
    apply buildPerRoom_In in Hp as (r & v & Hr & _ & Hroom & _ & _ & _ & Hold & Hyoung).
    fold derived ranks in Hold. rewrite (Hclosed r Hr) in Hold. cbn [default] in Hold.
    rewrite Hroom, (Hclosed r Hr), Hold.
    rewrite Hyoung, Hold, length_map. repeat split; lia. }
  split; [exact Hrows|].
  intros HN.
  destruct (run_ok rows N Hnd HN) as (es & Hrun & _ & Hdom).
  pose proof (assignRooms_nonempty rows N tz Hne) as Hres.
  rewrite Hrun, bind_Ok in Hres. cbv zeta in Hres.
  eexists. split; [exact Hres|].
  assert (Hrooms : Permutation
            (map pr_room (buildPerRoom derived (assignment es) ranks
                            (Z.of_nat (length derived))))
            (map room rows)).
  { rewrite buildPerRoom_rooms.
    - unfold derived. now rewrite d_room_deriveRoom.
    - rewrite Hdom. unfold derived. now rewrite d_room_deriveRoom. }
  cbn [perRoom]. fold derived ranks. split.
  { apply Permutation_length in Hrooms. now rewrite !length_map in Hrooms. }
  intros row Hrow.
  assert (Hin : In (room row)
                  (map pr_room (buildPerRoom derived (assignment es) ranks
                                  (Z.of_nat (length derived))))).
  { apply (Permutation_in _ (Permutation_sym Hrooms)). now apply in_map. }
  apply in_map_iff in Hin as (p & Hroom & Hp).
  exists p. split; [exact Hp|]. split; [exact Hroom|].
  rewrite <- Hroom. apply (Hrows _ Hres p). exact Hp.
Qed.

(** ** A later phase never moves a room *)

Lemma assignRoomsToState_keeps_discharge (rooms : list DerivedRoom) (ids : list Z)
    (state0 : list NurseState) (capacities : list NurseCapacity) (es : EngineState) :
  NoDup (map d_room rooms) ->
  engineInvariant rooms ids
    {| state := state0; assignment := ∅; roundRobinIndex := 0 |} ->
  assignRoomsToState localeCompare rooms state0 capacities = Ok es ->
  exists es1,
    assignRoundRobin localeCompare
      (List.filter (fun room => isY (discharge (d_labels room))) rooms) oldest
      {| state := state0; assignment := ∅; roundRobinIndex := 0 |} = Ok es1 /\
    assignment es1 ⊆ assignment es.
Proof.
  intros Hnd Hinv0 Hrun. unfold assignRoomsToState in Hrun.
  apply bind_Ok_inv in Hrun as (es1 & H1 & Hrun).
  apply bind_Ok_inv in Hrun as (es2 & H2 & Hrun).
  apply bind_Ok_inv in Hrun as (es3 & H3 & H4).
  destruct (assignRoundRobin_ok rooms _ ids oldest _ Hnd Hinv0
              (NoDup_map_filter d_room (fun room => isY (discharge (d_labels room))) rooms Hnd)
              (filter_incl _ rooms))
    as (es1' & H1' & Hinv1 & _ & _).
  rewrite H1 in H1'. injection H1' as <-.
  destruct (assignRoundRobin_ok rooms _ ids oldest _ Hnd Hinv1
              (NoDup_map_filter d_room (fun room => isY (under_24 (d_labels room))) rooms Hnd)
              (filter_incl _ rooms))
    as (es2' & H2' & Hinv2 & _ & Hsub2).
  rewrite H2 in H2'. injection H2' as <-.
  destruct (assignRoundRobin_ok rooms _ ids oldest _ Hnd Hinv2
              (NoDup_map_filter d_room (fun room => isY (over_24 (d_labels room))) rooms Hnd)
              (filter_incl _ rooms))
    as (es3' & H3' & Hinv3 & _ & Hsub3).
  rewrite H3 in H3'. injection H3' as <-.
  destruct (assignSequence_ok capacities
              (Map_of_entries (map (fun cap => (cap_nurseId cap, capacity cap)) capacities))
              rooms (List.filter (notYetAssigned es3) rooms) ids oldest es3 Hnd Hinv3
              (filter_incl _ rooms))
    as (es4 & H4' & _ & _ & Hsub4).
  rewrite H4 in H4'. injection H4' as <-.
  exists es1. split; [exact H1|].
  etransitivity; [exact Hsub2|]. etransitivity; [exact Hsub3 | exact Hsub4].
Qed.

(** ** Counting the rooms of a nurse by tag *)

Lemma labelCount_buildPerNurse (perRoom : list RoomAssignmentRow) (N : nat) (tz : string)
    (col : LabelKey) :
  map (labelCount col) (buildPerNurse formatClock perRoom N tz) =
  map (fun idx : nat =>
         Z.of_nat (length (List.filter (fun room => nurse_id room =? Z.of_nat idx + 1)
                             (List.filter (fun room => isY (getLabel col (pr_labels room)))
                                          perRoom))))
      (seq 0 N).
Proof.
  unfold buildPerNurse, Array_from. rewrite map_map. apply map_ext. intros idx.
  rewrite filter_comm. destruct col; reflexivity.
Qed.

Lemma tagged_rooms_of_buildPerRoom (derived : list DerivedRoom) (aMap ranks : gmap string Z)
    (total : Z) (col : LabelKey) (k : Z) :
  dom aMap = list_to_set (map d_room derived) ->
  length (List.filter (fun room => nurse_id room =? k)
            (List.filter (fun room => isY (getLabel col (pr_labels room)))
                         (buildPerRoom derived aMap ranks total)))
  = length (List.filter (fun id => default 0 (aMap !! id) =? k)
              (map d_room
                 (List.filter (fun r => isY (getLabel col (d_labels r))) derived))).
Proof.
  intros Hdom. unfold buildPerRoom.
  rewrite (filter_all (fun room => Map_has aMap (d_room room)) derived).
  2:{ intros r Hr. apply Map_has_true. rewrite Hdom.
      apply elem_of_list_to_set, list_elem_of_In. now apply in_map. }
  rewrite (Permutation_length
             (filter_perm _ _ _ (filter_perm _ _ _ (js_sort_perm comparePerRoom _)))).
  rewrite !filter_map_commute, !length_map. reflexivity.
Qed.

(** ** The scenarios of the test suite *)

Lemma initial_invariant_rows (rows : list AssignmentInputRow) (N : nat) :
  (1 <= N)%nat ->
  engineInvariant (map deriveRoom rows)
    (map (fun idx : nat => Z.of_nat idx + 1) (seq 0 N))
    {| state := buildInitialState (plannedCapacities rows N);
       assignment := ∅; roundRobinIndex := 0 |}.
Proof.
  intros HN. pose proof (engineInvariant_initial (map deriveRoom rows) N HN) as Hinv0.
  now rewrite length_map in Hinv0.
Qed.

Lemma avoidsDuplicate_false (room : DerivedRoom) (nurse : NurseState) :
  avoidsDuplicate room nurse = false <->
  (bfi (d_labels room) = Y /\ hasBfi nurse = true) \/
  (cs (d_labels room) = Y /\ hasCs nurse = true).
Proof.
  unfold avoidsDuplicate.
  destruct (bfi (d_labels room)), (cs (d_labels room)), (hasBfi nurse), (hasCs nurse);
    cbn; intuition congruence.
Qed.

Lemma roundRobinChoice_prefers_no_duplicate (room : DerivedRoom) (es : EngineState)
    (chosen : NurseState) :
  roundRobinChoice room es = Some chosen ->
  (exists n, In n (state es) /\ 0 < remaining n /\ avoidsDuplicate room n = true) ->
  avoidsDuplicate room chosen = true.
Proof.
  unfold roundRobinChoice. intros Hch (n & Hn & Hrem & Havoid).
  destruct (List.filter _ (getRoundRobinOrder es)) as [|c0 rest] eqn:Hc; [discriminate|].
  assert (Hch' : hd c0 (List.filter (avoidsDuplicate room) (c0 :: rest)) = chosen)
    by congruence.
  clear Hch. rename Hch' into Hch.
  assert (Hin : In n (List.filter (avoidsDuplicate room) (c0 :: rest))).
  { apply filter_In. split; [|exact Havoid]. rewrite <- Hc. apply filter_In.
    split; [now apply In_getRoundRobinOrder | now apply Z.ltb_lt]. }
  destruct (List.filter (avoidsDuplicate room) (c0 :: rest)) as [|a l] eqn:Hf;
    [destruct Hin|].
  assert (Ha : In a (List.filter (avoidsDuplicate room) (c0 :: rest))).
  { rewrite Hf. now left. }
  apply filter_In in Ha as [_ Ha]. cbn [hd] in Hch. now rewrite <- Hch.
Qed.

End EngineProofs.

(** * The theorems at the scenarios of the test suite

    Run on exact rationals, with code-unit comparison of room ids and the
    clock of the rows' own zone. *)

Lemma NoDup_dischargeScenario : NoDup (map room dischargeScenario).
Proof. apply (bool_decide_unpack _). vm_compute. exact I. Defined.

Lemma NoDup_tieScenario : NoDup (map room tieScenario).
Proof. apply (bool_decide_unpack _). vm_compute. exact I. Defined.

Lemma computeCapacities_quota_witness :
  length (computeCapacities 7 3) = 3%nat /\ sumZ (map capacity (computeCapacities 7 3)) = 7.
Proof.
  pose proof (computeCapacities_quota 7 3 ltac:(lia) ltac:(lia)) as (Hlen & _ & Hsum & _).
  split; [exact Hlen | exact Hsum].
Defined.

Lemma assignRooms_covers_every_room_witness :
  exists res,
    runAssignRooms dischargeScenario 3 = Ok res /\
    Permutation (map pr_room (perRoom res)) (map room dischargeScenario) /\
    sumZ (map n_rooms (perNurse res)) = 8.
Proof.
  destruct (@assignRooms_covers_every_room QNumber compareCodeUnits formatClockOwnZone
              dischargeScenario 3 TZ NoDup_dischargeScenario ltac:(lia))
    as (es & res & _ & Hres & _ & _ & Hperm & _ & _ & _ & Hsum).
  exists res. split; [exact Hres|]. split; [exact Hperm | exact Hsum].
Defined.

Lemma capacity_exhaustion_unreachable_witness :
  exists res, runAssignRooms dischargeScenario 3 = Ok res.
Proof.
  destruct (@capacity_exhaustion_unreachable QNumber compareCodeUnits formatClockOwnZone
              dischargeScenario 3 TZ ltac:(lia))
    as (_ & _ & _ & _ & Hres).
  exact Hres.
Defined.

Lemma perNurse_rows_for_every_nurse_witness :
  exists res,
    runAssignRooms tieScenario 4 = Ok res /\
    map ns_nurse_id (perNurse res) = [1; 2; 3; 4].
Proof.
  destruct (@perNurse_rows_for_every_nurse QNumber compareCodeUnits formatClockOwnZone
              tieScenario 4 TZ ltac:(discriminate) ltac:(lia))
    as (_ & res & Hres & _ & Hids & _).
  exists res. split; [exact Hres | exact Hids].
Defined.

(** The per-nurse table of the empty room list is empty: the early return
    leaves it without the row of nurse 1. *)
Lemma perNurse_empty_input_counterexample :
  ~ (exists res,
       runAssignRooms [] 1 = Ok res /\ map ns_nurse_id (perNurse res) = [1]).
Proof.
  intros (res & Hres & Hids). vm_compute in Hres. injection Hres as <-.
  discriminate Hids.
Qed.

(** Two [bfi] rooms, two nurses, pairwise-distinct ids: nurse 2 ends with
    both [bfi] rooms, nurse 1 being full when the second one comes up. *)
Lemma bfi_duplicate_under_pressure_counterexample :
  NoDup (map room bfiPressureScenario) /\
  (length (List.filter (fun r => isY (bfi (labels r))) bfiPressureScenario) <= 2)%nat /\
  exists res,
    runAssignRooms bfiPressureScenario 2 = Ok res /\
    map (labelCount k_bfi) (perNurse res) = [0; 2] /\
    ~ Forall (fun row => labelCount k_bfi row <= 1) (perNurse res).
Proof.
  split; [apply (bool_decide_unpack _); vm_compute; exact I|].
  split; [vm_compute; lia|].
  destruct (runAssignRooms bfiPressureScenario 2) as [res|e] eqn:Hrun;
    vm_compute in Hrun; [injection Hrun as <- | discriminate].
  eexists. split; [reflexivity|]. split; [vm_compute; reflexivity|].
  intros Hall. apply Forall_cons in Hall as [_ Hall].
  apply Forall_cons in Hall as [Hrow _]. vm_compute in Hrow. apply Hrow. reflexivity.
Qed.

Lemma hash_key_is_computed_but_unused_witness :
  randKey (deriveRoom (makeRow "14-1" 11 0 noLabels))
  = hashKey_spec "14-1" (timeParsed (makeRow "14-1" 11 0 noLabels)) /\
  hashKey_spec "14-1" (timeParsed (makeRow "14-1" 11 0 noLabels)) = 12560 /\
  assignRoomsKeyed compareCodeUnits formatClockOwnZone (fun _ _ => 0) dischargeScenario 3 TZ
  = runAssignRooms dischargeScenario 3.
Proof.
  destruct (@hash_key_is_computed_but_unused QNumber compareCodeUnits formatClockOwnZone
              dischargeScenario 3 TZ (fun _ _ => 0))
    as (Hkey & _ & _ & _ & _ & Hrun).
  split; [|split; [vm_compute; reflexivity | exact Hrun]].
  apply (Hkey (makeRow "14-1" 11 0 noLabels)).
  unfold dischargeScenario. do 6 right. now left.
Defined.

Lemma assignment_keeps_capacity_plan_witness :
  roundRobinStep scenarioFirstRoom scenarioStart = Ok scenarioAfterFirst /\
  capacityInvariant (plannedCapacities dischargeScenario 3) (state scenarioAfterFirst) /\
  map remaining (state scenarioAfterFirst) = [2; 3; 2] /\
  map nAssigned (state scenarioAfterFirst) = [1; 0; 0].
Proof.
  assert (Hstep : roundRobinStep scenarioFirstRoom scenarioStart = Ok scenarioAfterFirst)
    by (vm_compute; reflexivity).
  destruct (@assignment_keeps_capacity_plan QNumber compareCodeUnits 8 3 ∅
              scenarioAfterFirst)
    as (Hinv & _).
  - lia.
  - apply rtc_once. apply (step_roundRobin _ _ scenarioFirstRoom). exact Hstep.
  - split; [exact Hstep|]. split; [exact Hinv|].
    split; vm_compute; reflexivity.
Defined.

Lemma oldest_rank_is_dense_witness :
  (map (fun id => denseRankOldest compareCodeUnits (map deriveRoom tieScenario) !! id)
       ["3"; "1"; "5"]%string
   = [Some 1; Some 1; Some 2] /\
   forall a b ra rb,
    In a (map deriveRoom tieScenario) -> In b (map deriveRoom tieScenario) ->
    denseRankOldest compareCodeUnits (map deriveRoom tieScenario) !! d_room a = Some ra ->
    denseRankOldest compareCodeUnits (map deriveRoom tieScenario) !! d_room b = Some rb ->
    1 <= ra /\ (ra = rb <-> toMillis (d_time a) = toMillis (d_time b))) /\
  exists res,
    runAssignRooms tieScenario 2 = Ok res /\
    length (perRoom res) = 3%nat /\
    exists p, In p (perRoom res) /\ pr_room p = "5" /\
      rank_oldest p + rank_youngest p = 4.
Proof.
  destruct (@oldest_rank_is_dense QNumber compareCodeUnits formatClockOwnZone
              tieScenario 2 TZ ltac:(discriminate) NoDup_tieScenario)
    as (_ & _ & _ & _ & _ & _ & Hiff & _ & Hrows).
  split; [split; [vm_compute; reflexivity | exact Hiff]|].
  destruct (Hrows ltac:(lia)) as (res & Hres & Hlen & Hevery).
  exists res. split; [exact Hres|]. split; [exact Hlen|].
  destruct (Hevery (makeRow "5" 9 0 noLabels)) as (p & Hp & Hroom & _ & _ & Hsum).
  - unfold tieScenario. right. right. now left.
  - exists p. split; [exact Hp|]. split; [exact Hroom | exact Hsum].
Defined.

Lemma timezone_only_formats_labels_witness :
  exists res1 res2,
    runAssignRooms dischargeScenario 3 = Ok res1 /\
    assignRooms compareCodeUnits formatClockOwnZone dischargeScenario 3 "Europe/Paris"
      = Ok res2 /\
    perRoom res1 = perRoom res2 /\
    Forall2 sameButLabel (perNurse res1) (perNurse res2).
Proof.
  destruct (@timezone_only_formats_labels QNumber compareCodeUnits formatClockOwnZone
              dischargeScenario 3 TZ "Europe/Paris") as (_ & Hsame).
  destruct (runAssignRooms dischargeScenario 3) as [res1|e] eqn:Hres1;
    [|vm_compute in Hres1; discriminate].
  destruct (Hsame res1 Hres1) as (res2 & Hres2 & Hrooms & Hnurses & _).
  exists res1, res2. auto.
Defined.

(** * Further properties of the engine *)

From Stdlib Require Import Lqa.

Lemma sorted_perm_unique {A} (R : A -> A -> Prop) (l1 l2 : list A) :
  (forall a b, In a l1 -> In b l1 -> R a b -> R b a -> a = b) ->
  StronglySorted R l1 -> StronglySorted R l2 -> Permutation l1 l2 -> l1 = l2.
Proof.
  revert l2. induction l1 as [|x t1 IH]; intros l2 Hanti S1 S2 Hperm.
  - apply Permutation_nil in Hperm. now subst.
  - destruct l2 as [|y t2].
    { apply Permutation_sym, Permutation_nil in Hperm. discriminate. }
    apply StronglySorted_inv in S1 as [S1 F1], S2 as [S2 F2].
    rewrite List.Forall_forall in F1, F2.
    assert (Hxy : x = y).
    { assert (Hx : In x (y :: t2)) by (apply (Permutation_in _ Hperm); now left).
      assert (Hy : In y (x :: t1))
        by (apply (Permutation_in _ (Permutation_sym Hperm)); now left).
      destruct Hx as [Hx | Hx]; [now symmetry|].
      destruct Hy as [Hy | Hy]; [exact Hy|].
      apply Hanti; [now left | now right | now apply F1 | now apply F2]. }
    subst y. f_equal. apply IH; auto.
    + intros a b Ha Hb. apply Hanti; now right.
    + now apply Permutation_cons_inv in Hperm.
Qed.

Section EngineExtras.
Context `{JSNumber}.
Variable localeCompare : string -> string -> Z.
Variable formatClock : DateTime -> string -> string.

(** ** The age-then-time sort *)

Lemma compareByAgeThenTime_order_le (direction : SortDirection) (a b : DerivedRoom) :
  compareByAgeThenTime localeCompare direction a b <= 0 -> ageThenTimeOrder direction a b.
Proof.
  unfold compareByAgeThenTime, ageThenTimeOrder. destruct direction; cases_eqb; lia.
Qed.

Lemma compareByAgeThenTime_order_gt (direction : SortDirection) (a b : DerivedRoom) :
  0 < compareByAgeThenTime localeCompare direction a b -> ageThenTimeOrder direction b a.
Proof.
  unfold compareByAgeThenTime, ageThenTimeOrder. destruct direction; cases_eqb; lia.
Qed.

Lemma ageThenTimeOrder_trans (direction : SortDirection) (a b c : DerivedRoom) :
  ageThenTimeOrder direction a b -> ageThenTimeOrder direction b c ->
  ageThenTimeOrder direction a c.
Proof. unfold ageThenTimeOrder. destruct direction; lia. Qed.

(** X1. [sortByAgeThenTime] returns the rooms it was given, rearranged:
    rooms tagged under_24 come first, then rooms tagged over_24, then the
    rest, and within one age class the rooms run from the oldest timestamp
    to the newest for direction [oldest] and from the newest to the oldest
    for direction [newest]. *)
Theorem sortByAgeThenTime_orders (data : list DerivedRoom) (direction : SortDirection) :
  Permutation (sortByAgeThenTime localeCompare data direction) data /\
  StronglySorted (ageThenTimeOrder direction)
    (sortByAgeThenTime localeCompare data direction).
Proof.
  split; [apply js_sort_perm|].
  apply js_sort_sorted.
  - apply ageThenTimeOrder_trans.
  - apply compareByAgeThenTime_order_le.
  - apply compareByAgeThenTime_order_gt.
Qed.

(** ** The rotation *)

Lemma omap_seq_lookup {A} (f : nat -> option A) (l : list A) (s : nat) :
  (forall i, (i < length l)%nat -> f (s + i)%nat = l !! i) ->
  omap f (seq s (length l)) = l.
Proof.
  revert s. induction l as [|x l IH]; intros s Hf; [reflexivity|].
  pose proof (Hf 0%nat ltac:(cbn; lia)) as H0.
  rewrite Nat.add_0_r in H0. cbn [lookup list_lookup] in H0.
  cbn [length seq]. cbn. rewrite H0.
  f_equal. apply IH. intros i Hi.
  replace (S s + i)%nat with (s + S i)%nat by lia.
  rewrite Hf by (cbn; lia). reflexivity.
Qed.

Lemma getRoundRobinOrder_rotate (es : EngineState) :
  getRoundRobinOrder es = rotate (roundRobinIndex es) (state es).
Proof.
  unfold getRoundRobinOrder.
  pose proof (omap_seq_lookup
                (fun offset =>
                   state es !! ((roundRobinIndex es + offset) mod length (state es))%nat)
                (rotate (roundRobinIndex es) (state es)) 0) as Hl.
  rewrite length_rotate in Hl. apply Hl. intros i Hi.
  rewrite lookup_rotate_r by exact Hi. cbn [Nat.add].
  f_equal. unfold rotate_nat_add.
  rewrite <- Nat2Z.inj_add, <- Nat2Z.inj_mod, Nat2Z.id. reflexivity.
Qed.

(** X2. The order in which a round-robin step looks at the nurses is the
    nurse array rotated to start at the rotation pointer: the nurses from
    the pointer to the end, then those before the pointer.  It is as long
    as the nurse array and lists every nurse once per occurrence. *)
Theorem getRoundRobinOrder_is_rotation (es : EngineState) :
  let k := (roundRobinIndex es mod length (state es))%nat in
  getRoundRobinOrder es = drop k (state es) ++ take k (state es) /\
  length (getRoundRobinOrder es) = length (state es) /\
  Permutation (getRoundRobinOrder es) (state es).
Proof.
  intros k. rewrite getRoundRobinOrder_rotate. unfold rotate. fold k.
  split; [reflexivity|]. split.
  - rewrite length_app, length_drop, length_take. lia.
  - rewrite Permutation_app_comm, take_drop. reflexivity.
Qed.

(** ** The update of one nurse *)

Lemma updateNurseState_ids (id : Z) (room : DerivedRoom) (st : list NurseState) :
  map nurseId (updateNurseState id room st) = map nurseId st.
Proof.
  induction st as [|n st IH]; cbn [updateNurseState map]; [reflexivity|].
  destruct (nurseId n =? id); cbn [map recordRoom nurseId]; [reflexivity|].
  now rewrite IH.
Qed.

Lemma updateNurseState_unknown (id : Z) (room : DerivedRoom) (st : list NurseState) :
  ~ In id (map nurseId st) -> updateNurseState id room st = st.
Proof.
  induction st as [|n st IH]; cbn [updateNurseState map]; [reflexivity|].
  intros Hid. destruct (Z.eqb_spec (nurseId n) id) as [Heq|Hne].
  - exfalso. apply Hid. now left.
  - rewrite IH; [reflexivity|]. intros Hin. apply Hid. now right.
Qed.

Lemma updateNurseState_first (id : Z) (room : DerivedRoom)
    (l1 l2 : list NurseState) (n : NurseState) :
  nurseId n = id -> ~ In id (map nurseId l1) ->
  updateNurseState id room (l1 ++ n :: l2) = l1 ++ recordRoom room n :: l2.
Proof.
  intros Hn. induction l1 as [|m l1 IH]; cbn [app map updateNurseState]; intros Hl1.
  - now rewrite (proj2 (Z.eqb_eq _ _) Hn).
  - destruct (Z.eqb_spec (nurseId m) id) as [Heq|Hne].
    + exfalso. apply Hl1. now left.
    + rewrite IH; [reflexivity|]. intros Hin. apply Hl1. now right.
Qed.

(** X3. [updateNurseState] changes the first nurse carrying the id and
    nobody else: every nurse before and after that one is left as it is,
    and that nurse counts one more room, loses one unit of remaining
    capacity (clamped at zero), adds the effective load of the room and is
    marked bfi or cs when the room is tagged so.  The nurse ids stay as they
    are, an id that no nurse carries leaves the array untouched (nothing is
    thrown), and for a known id exactly one more room is counted.  Where no
    nurse had a negative remaining capacity none has one afterwards, and the
    total remaining capacity drops by at most one, so a nurse without
    capacity left still records the room. *)
Theorem updateNurseState_effect (id : Z) (room : DerivedRoom) (st : list NurseState) :
  (forall l1 n l2, st = l1 ++ n :: l2 -> nurseId n = id -> ~ In id (map nurseId l1) ->
     exists n',
       updateNurseState id room st = l1 ++ n' :: l2 /\
       nurseId n' = id /\
       nAssigned n' = nAssigned n + 1 /\
       remaining n' = Z.max 0 (remaining n - 1) /\
       loadSum n' = nadd (loadSum n) (wEffective room) /\
       hasBfi n' = isY (bfi (d_labels room)) || hasBfi n /\
       hasCs n' = isY (cs (d_labels room)) || hasCs n /\
       assignedGroups n' =
         match groupKey room with
         | Some g => if String.eqb g "" then assignedGroups n
                     else {[ g ]} ∪ assignedGroups n
         | None => assignedGroups n
         end) /\
  map nurseId (updateNurseState id room st) = map nurseId st /\
  (~ In id (map nurseId st) -> updateNurseState id room st = st) /\
  (In id (map nurseId st) ->
     sumZ (map nAssigned (updateNurseState id room st)) = sumZ (map nAssigned st) + 1) /\
  (Forall (fun n => 0 <= remaining n) st ->
     Forall (fun n => 0 <= remaining n) (updateNurseState id room st) /\
     sumRemaining st - 1 <= sumRemaining (updateNurseState id room st) <= sumRemaining st).
Proof.
  split.
  { intros l1 n l2 -> Hn Hl1. exists (recordRoom room n).
    split; [now apply updateNurseState_first|].
    cbn [recordRoom nurseId nAssigned remaining loadSum hasBfi hasCs assignedGroups].
    repeat split; try assumption;
      try (now destruct (isY (bfi (d_labels room))));
      try (now destruct (isY (cs (d_labels room)))). }
  split; [apply updateNurseState_ids|]. split; [apply updateNurseState_unknown|].
  split.
  - induction st as [|n st IH]; cbn [map]; [intros []|].
    intros Hin. cbn [updateNurseState].
    destruct (Z.eqb_spec (nurseId n) id) as [Heq|Hne].
    + cbn [map]. rewrite !sumZ_cons. cbn [recordRoom nAssigned]. lia.
    + destruct Hin as [Hin|Hin]; [contradiction|].
      cbn [map]. rewrite !sumZ_cons, (IH Hin). lia.
  - induction st as [|n st IH]; intros Hall; cbn [updateNurseState].
    + split; [constructor | lia].
    + inversion Hall as [|? ? Hn Hst]; subst.
      destruct (nurseId n =? id).
      * split; [constructor; [cbn [recordRoom remaining]; lia | exact Hst]|].
        unfold sumRemaining. cbn [map]. rewrite !sumZ_cons.
        cbn [recordRoom remaining]. lia.
      * destruct (IH Hst) as [IH1 IH2].
        split; [constructor; [exact Hn | exact IH1]|].
        unfold sumRemaining in *. cbn [map]. rewrite !sumZ_cons. lia.
Qed.

(** ** A run is a sequence of assignments of fresh rooms *)

Lemma forEach_roundRobinStep_fresh (rooms : list DerivedRoom) (ids : list Z)
    (l : list DerivedRoom) :
  NoDup (map d_room l) ->
  forall es es', engineInvariant rooms ids es ->
  (forall r, In r l -> In r rooms /\ assignment es !! d_room r = None) ->
  forEach roundRobinStep l es = Ok es' -> rtc (freshStep rooms) es es'.
Proof.
  induction l as [|x l IH]; intros Hl es es' Hinv Hfresh; cbn [forEach].
  - intros [= <-]. constructor.
  - intros Hrun. apply bind_Ok_inv in Hrun as (es1 & Hstep & Hrun).
    cbn [map] in Hl. apply NoDup_cons in Hl as [Hx Hl].
    destruct (Hfresh x (or_introl eq_refl)) as [Hxin Hxfresh].
    pose proof (roundRobinStep_assigns x es es1 (engineInvariant_NoDup _ _ _ Hinv) Hstep)
      as Has.
    pose proof (engineInvariant_assigns localeCompare rooms ids x es es1 Hinv Has Hxfresh
                  (in_map d_room _ _ Hxin)) as Hinv1.
    destruct (assignment_assigns _ _ _ Has) as (v & _ & Hmap).
    apply (rtc_l _ es es1); [exists x; auto|].
    apply IH; [exact Hl | exact Hinv1 | | exact Hrun].
    intros r Hr. destruct (Hfresh r (or_intror Hr)) as [Hrin Hrf].
    split; [exact Hrin|]. rewrite Hmap, lookup_insert_ne; [exact Hrf|].
    intros Heq. apply Hx. rewrite Heq. apply list_elem_of_In. now apply in_map.
Qed.

Lemma forEach_assignWithScoring_fresh (capacities : list NurseCapacity)
    (capacityMap : gmap Z Z) (rooms : list DerivedRoom) (ids : list Z)
    (l : list DerivedRoom) :
  forall es es', engineInvariant rooms ids es ->
  (forall r, In r l -> In r rooms) ->
  forEach (assignWithScoring capacities capacityMap) l es = Ok es' ->
  rtc (freshStep rooms) es es'.
Proof.
  induction l as [|x l IH]; intros es es' Hinv Hin; cbn [forEach].
  - intros [= <-]. constructor.
  - intros Hrun. apply bind_Ok_inv in Hrun as (es1 & Hstep & Hrun).
    assert (Hl : forall r, In r l -> In r rooms) by (intros r Hr; apply Hin; now right).
    destruct (Map_has (assignment es) (d_room x)) eqn:Hhas.
    + unfold assignWithScoring in Hstep. rewrite Hhas in Hstep.
      injection Hstep as <-. now apply IH.
    + pose proof Hhas as Hfresh. apply Map_has_false in Hfresh.
      pose proof (assignWithScoring_assigns _ _ x es es1
                    (engineInvariant_NoDup _ _ _ Hinv) Hhas Hstep) as Has.
      pose proof (engineInvariant_assigns localeCompare rooms ids x es es1 Hinv Has Hfresh
                    (in_map d_room _ _ (Hin x (or_introl eq_refl)))) as Hinv1.
      apply (rtc_l _ es es1); [exists x; split; [apply Hin; now left | auto]|].
      now apply IH.
Qed.

Lemma assignRoundRobin_fresh (rooms data : list DerivedRoom) (ids : list Z)
    (direction : SortDirection) (es es' : EngineState) :
  engineInvariant rooms ids es ->
  NoDup (map d_room data) -> (forall r, In r data -> In r rooms) ->
  assignRoundRobin localeCompare data direction es = Ok es' ->
  rtc (freshStep rooms) es es'.
Proof.
  intros Hinv Hdata Hincl. unfold assignRoundRobin.
  apply (forEach_roundRobinStep_fresh rooms ids).
  - apply NoDup_map_filter. now apply js_sort_NoDup_map.
  - exact Hinv.
  - intros r Hr. apply filter_In in Hr as [Hr Hfree].
    apply js_sort_In in Hr. split; [now apply Hincl|].
    apply Map_has_false. unfold notYetAssigned in Hfree.
    now destruct (Map_has (assignment es) (d_room r)).
Qed.

Lemma engineInvariant_fresh (rooms : list DerivedRoom) (ids : list Z)
    (es es' : EngineState) :
  engineInvariant rooms ids es -> rtc (freshStep rooms) es es' ->
  engineInvariant rooms ids es'.
Proof.
  intros Hinv Hsteps. induction Hsteps as [es1 | es1 es2 es3 Hstep _ IH]; [exact Hinv|].
  apply IH. destruct Hstep as (room & Hin & Hfresh & Has).
  apply (engineInvariant_assigns localeCompare rooms ids room es1 es2 Hinv Has Hfresh).
  now apply in_map.
Qed.

Lemma capacityInvariant_fresh (capacities : list NurseCapacity) (rooms : list DerivedRoom)
    (es es' : EngineState) :
  capacityInvariant capacities (state es) -> rtc (freshStep rooms) es es' ->
  capacityInvariant capacities (state es').
Proof.
  intros Hinv Hsteps. induction Hsteps as [es1 | es1 es2 es3 Hstep _ IH]; [exact Hinv|].
  apply IH. destruct Hstep as (room & _ & _ & Has).
  now apply (capacityInvariant_assigns capacities room es1).
Qed.

Lemma assignRoomsToState_fresh (rooms : list DerivedRoom) (ids : list Z)
    (state0 : list NurseState) (capacities : list NurseCapacity) (es : EngineState) :
  NoDup (map d_room rooms) ->
  engineInvariant rooms ids
    {| state := state0; assignment := ∅; roundRobinIndex := 0 |} ->
  assignRoomsToState localeCompare rooms state0 capacities = Ok es ->
  rtc (freshStep rooms) {| state := state0; assignment := ∅; roundRobinIndex := 0 |} es.
Proof.
  intros Hnd Hinv0. unfold assignRoomsToState. intros Hrun.
  apply bind_Ok_inv in Hrun as (es1 & H1 & Hrun).
  apply bind_Ok_inv in Hrun as (es2 & H2 & Hrun).
  apply bind_Ok_inv in Hrun as (es3 & H3 & H4).
  pose proof (assignRoundRobin_fresh rooms _ ids oldest _ es1 Hinv0
                (NoDup_map_filter d_room _ rooms Hnd) (filter_incl _ rooms) H1) as R1.
  pose proof (engineInvariant_fresh _ _ _ _ Hinv0 R1) as Hinv1.
  pose proof (assignRoundRobin_fresh rooms _ ids oldest _ es2 Hinv1
                (NoDup_map_filter d_room _ rooms Hnd) (filter_incl _ rooms) H2) as R2.
  pose proof (engineInvariant_fresh _ _ _ _ Hinv1 R2) as Hinv2.
  pose proof (assignRoundRobin_fresh rooms _ ids oldest _ es3 Hinv2
                (NoDup_map_filter d_room _ rooms Hnd) (filter_incl _ rooms) H3) as R3.
  pose proof (engineInvariant_fresh _ _ _ _ Hinv2 R3) as Hinv3.
  etransitivity; [exact R1|]. etransitivity; [exact R2|]. etransitivity; [exact R3|].
  unfold assignSequence in H4.
  eapply (forEach_assignWithScoring_fresh _ _ rooms ids); [exact Hinv3 | | exact H4].
  intros r Hr. apply filter_In in Hr as [Hr _]. apply js_sort_In in Hr.
  now apply filter_In in Hr.
Qed.

(** ** The nurse array agrees with the assignment map *)

Lemma length_filter_one_more {A B} (f : A -> B) (p q : A -> bool) (l : list A) (x : A) :
  NoDup (map f l) -> In x l -> p x = false -> q x = true ->
  (forall y, In y l -> f y <> f x -> q y = p y) ->
  length (List.filter q l) = S (length (List.filter p l)).
Proof.
  induction l as [|y l IH]; intros Hnd Hin Hp Hq Hsame; [destruct Hin|].
  cbn [map] in Hnd. apply NoDup_cons in Hnd as [Hy Hnd]. cbn [List.filter].
  destruct Hin as [-> | Hin].
  - rewrite Hp, Hq. cbn [length]. f_equal. f_equal.
    apply filter_ext_in. intros z Hz. apply Hsame; [now right|].
    intros Heq. apply Hy. rewrite <- Heq. apply list_elem_of_In. now apply in_map.
  - assert (Hne : f y <> f x).
    { intros Heq. apply Hy. rewrite Heq. apply list_elem_of_In. now apply in_map. }
    rewrite (Hsame y (or_introl eq_refl) Hne).
    assert (IH' : length (List.filter q l) = S (length (List.filter p l))).
    { apply IH; auto. intros z Hz. apply Hsame. now right. }
    destruct (p y); cbn [length]; lia.
Qed.

Lemma roomsOfNurse_empty (rooms : list DerivedRoom) (id : Z) :
  roomsOfNurse rooms ∅ id = [].
Proof.
  unfold roomsOfNurse. apply filter_nil_iff. intros r _.
  rewrite lookup_empty. now apply bool_decide_eq_false_2.
Qed.

Lemma roomsOfNurse_insert_other (rooms : list DerivedRoom) (m : gmap string Z)
    (k : string) (v id : Z) :
  v <> id -> m !! k = None ->
  roomsOfNurse rooms (<[k := v]> m) id = roomsOfNurse rooms m id.
Proof.
  intros Hv Hk. unfold roomsOfNurse. apply filter_ext. intros r.
  destruct (decide (d_room r = k)) as [-> | Hne].
  - rewrite lookup_insert_eq, Hk.
    rewrite !bool_decide_eq_false_2; [reflexivity | discriminate | congruence].
  - rewrite lookup_insert_ne by congruence. reflexivity.
Qed.

Lemma In_roomsOfNurse_insert (rooms : list DerivedRoom) (m : gmap string Z)
    (room r : DerivedRoom) (v : Z) :
  NoDup (map d_room rooms) -> In room rooms -> m !! d_room room = None ->
  In r (roomsOfNurse rooms (<[d_room room := v]> m) v) <->
  r = room \/ In r (roomsOfNurse rooms m v).
Proof.
  intros Hnd Hin Hfresh. unfold roomsOfNurse. rewrite !filter_In. split.
  - intros [Hr Hb]. destruct (decide (d_room r = d_room room)) as [Heq | Hne].
    + left. now apply (NoDup_map_inj d_room rooms).
    + right. rewrite lookup_insert_ne in Hb by congruence. auto.
  - intros [-> | [Hr Hb]].
    + split; [exact Hin|]. rewrite lookup_insert_eq. now apply bool_decide_eq_true_2.
    + split; [exact Hr|]. rewrite lookup_insert_ne; [exact Hb|].
      intros Heq. apply bool_decide_eq_true_1 in Hb. congruence.
Qed.

Lemma length_roomsOfNurse_insert (rooms : list DerivedRoom) (m : gmap string Z)
    (room : DerivedRoom) (v : Z) :
  NoDup (map d_room rooms) -> In room rooms -> m !! d_room room = None ->
  length (roomsOfNurse rooms (<[d_room room := v]> m) v) =
  S (length (roomsOfNurse rooms m v)).
Proof.
  intros Hnd Hin Hfresh. unfold roomsOfNurse.
  apply (length_filter_one_more d_room _ _ rooms room Hnd Hin).
  - rewrite Hfresh. now apply bool_decide_eq_false_2.
  - rewrite lookup_insert_eq. now apply bool_decide_eq_true_2.
  - intros y _ Hne. rewrite lookup_insert_ne by congruence. reflexivity.
Qed.

Lemma stateAgrees_initial (rooms : list DerivedRoom) (capacities : list NurseCapacity) :
  stateAgrees rooms
    {| state := buildInitialState capacities; assignment := ∅; roundRobinIndex := 0 |}.
Proof.
  split; cbn [state assignment]; intros n Hn;
    apply in_map_iff in Hn as (c & <- & _); cbn; rewrite roomsOfNurse_empty.
  - reflexivity.
  - split; [discriminate | intros (r & [] & _)].
  - split; [discriminate | intros (r & [] & _)].
Qed.

Lemma stateAgrees_freshStep (rooms : list DerivedRoom) (ids : list Z)
    (es es' : EngineState) :
  NoDup (map d_room rooms) -> engineInvariant rooms ids es ->
  stateAgrees rooms es -> freshStep rooms es es' -> stateAgrees rooms es'.
Proof.
  intros Hnd Hinv [Hcount Hbfi Hcs]
    (room & Hin & Hfresh & (l1 & chosen & l2 & Hst & Hrem & Hst' & Hmap)).
  pose proof (engineInvariant_NoDup _ _ _ Hinv) as Hids.
  assert (Hother : forall n, In n (l1 ++ l2) ->
            In n (state es) /\ nurseId chosen <> nurseId n).
  { intros n Hn. split.
    - rewrite Hst. apply in_app_iff. apply in_app_iff in Hn as [Hn|Hn]; [now left|].
      right. now right.
    - intros Heq. rewrite Hst in Hids.
      apply (NoDup_map_inj nurseId (l1 ++ chosen :: l2) chosen n) in Heq.
      + subst n. rewrite map_app in Hids. cbn [map] in Hids.
        apply NoDup_app in Hids as (_ & Hdisj & Hr).
        apply NoDup_cons in Hr as [Hr _].
        apply in_app_iff in Hn as [Hn|Hn].
        * apply (Hdisj (nurseId chosen)).
          -- apply list_elem_of_In. now apply in_map.
          -- left.
        * apply Hr. apply list_elem_of_In. now apply in_map.
      + exact Hids.
      + apply in_app_iff. right. now left.
      + apply in_app_iff. apply in_app_iff in Hn as [Hn|Hn]; [now left|].
        right. now right. }
  assert (Hchosen : In chosen (state es)).
  { rewrite Hst. apply in_app_iff. right. now left. }
  assert (Hcases : forall n, In n (state es') ->
            (In n (l1 ++ l2)) \/ n = recordRoom room chosen).
  { intros n Hn. rewrite Hst' in Hn. apply in_app_iff in Hn as [Hn|[Hn|Hn]].
    - left. apply in_app_iff. now left.
    - right. now symmetry.
    - left. apply in_app_iff. now right. }
  split; intros n Hn; rewrite Hmap; destruct (Hcases n Hn) as [Ho | ->].
  - destruct (Hother n Ho) as [Hno Hne].
    rewrite roomsOfNurse_insert_other by assumption. now apply Hcount.
  - cbn [recordRoom nAssigned nurseId].
    rewrite length_roomsOfNurse_insert by assumption.
    rewrite (Hcount chosen Hchosen). lia.
  - destruct (Hother n Ho) as [Hno Hne].
    rewrite roomsOfNurse_insert_other by assumption. now apply Hbfi.
  - cbn [recordRoom hasBfi nurseId]. split.
    + intros Hb. destruct (isY (bfi (d_labels room))) eqn:Hy.
      * exists room. split; [|exact Hy]. apply In_roomsOfNurse_insert; auto.
      * apply (Hbfi chosen Hchosen) in Hb as (r & Hr & Hry).
        exists r. split; [|exact Hry]. apply In_roomsOfNurse_insert; auto.
    + intros (r & Hr & Hry).
      apply In_roomsOfNurse_insert in Hr as [-> | Hr]; try assumption.
      * now rewrite Hry.
      * destruct (isY (bfi (d_labels room))); [reflexivity|].
        apply (Hbfi chosen Hchosen). eauto.
  - destruct (Hother n Ho) as [Hno Hne].
    rewrite roomsOfNurse_insert_other by assumption. now apply Hcs.
  - cbn [recordRoom hasCs nurseId]. split.
    + intros Hb. destruct (isY (cs (d_labels room))) eqn:Hy.
      * exists room. split; [|exact Hy]. apply In_roomsOfNurse_insert; auto.
      * apply (Hcs chosen Hchosen) in Hb as (r & Hr & Hry).
        exists r. split; [|exact Hry]. apply In_roomsOfNurse_insert; auto.
    + intros (r & Hr & Hry).
      apply In_roomsOfNurse_insert in Hr as [-> | Hr]; try assumption.
      * now rewrite Hry.
      * destruct (isY (cs (d_labels room))); [reflexivity|].
        apply (Hcs chosen Hchosen). eauto.
Qed.

Lemma stateAgrees_reachable (rooms : list DerivedRoom) (ids : list Z)
    (es es' : EngineState) :
  NoDup (map d_room rooms) -> engineInvariant rooms ids es ->
  stateAgrees rooms es -> rtc (freshStep rooms) es es' -> stateAgrees rooms es'.
Proof.
  intros Hnd Hinv Hag Hsteps.
  induction Hsteps as [es1 | es1 es2 es3 Hstep Hrest IH]; [exact Hag|].
  apply IH.
  - apply (engineInvariant_fresh rooms ids es1); [exact Hinv|].
    now apply rtc_once.
  - now apply (stateAgrees_freshStep rooms ids es1).
Qed.

(** X4. Throughout a run over rooms with pairwise distinct ids, the nurse
    array and the assignment map tell the same story: the run is a
    sequence of assignments of rooms that were not assigned before, and
    after each of them every nurse has counted exactly the rooms the map
    gives to its id, carries the bfi mark exactly when one of those rooms is
    tagged bfi, and the cs mark exactly when one is tagged cs. *)
Theorem nurse_state_agrees_with_assignment (rows : list AssignmentInputRow) (N : nat)
    (es : EngineState) :
  NoDup (map room rows) -> (1 <= N)%nat ->
  let derived := map deriveRoom rows in
  let start := {| state := buildInitialState (plannedCapacities rows N);
                  assignment := ∅; roundRobinIndex := 0 |} in
  assignRoomsToState localeCompare derived
    (buildInitialState (plannedCapacities rows N)) (plannedCapacities rows N) = Ok es ->
  rtc (freshStep derived) start es /\
  forall es', rtc (freshStep derived) start es' -> stateAgrees derived es'.
Proof.
  intros Hnd HN derived start Hrun.
  assert (Hndd : NoDup (map d_room derived)).
  { unfold derived. now rewrite d_room_deriveRoom. }
  pose proof (initial_invariant_rows rows N HN) as Hinv0.
  split.
  - exact (assignRoomsToState_fresh _ _ _ _ _ Hndd Hinv0 Hrun).
  - intros es' Hsteps.
    apply (stateAgrees_reachable derived _ start es' Hndd Hinv0); [|exact Hsteps].
    apply stateAgrees_initial.
Qed.

(** ** Every nurse ends with the planned number of rooms *)

Lemma roomsForNurse_buildPerRoom (derived : list DerivedRoom) (aMap ranks : gmap string Z)
    (total : Z) (k : Z) :
  length (roomsForNurse (buildPerRoom derived aMap ranks total) k) =
  length (roomsOfNurse derived aMap k).
Proof.
  unfold roomsForNurse, buildPerRoom, roomsOfNurse.
  rewrite (Permutation_length (filter_perm _ _ _ (js_sort_perm _ _))).
  rewrite filter_map_commute, length_map. cbn [nurse_id].
  induction derived as [|x l IH]; cbn [List.filter]; [reflexivity|].
  destruct (aMap !! d_room x) as [v|] eqn:Hx.
  - assert (Hhas : Map_has aMap (d_room x) = true) by (unfold Map_has; now rewrite Hx).
    rewrite Hhas. cbn [List.filter]. rewrite Hx.
    change (default 0 (Some v)) with v.
    destruct (Z.eqb_spec v k) as [-> | Hne].
    + rewrite bool_decide_eq_true_2 by reflexivity. cbn [length]. now rewrite IH.
    + rewrite bool_decide_eq_false_2 by congruence. exact IH.
  - assert (Hhas : Map_has aMap (d_room x) = false) by (unfold Map_has; now rewrite Hx).
    rewrite Hhas. rewrite bool_decide_eq_false_2 by discriminate. exact IH.
Qed.

Lemma remaining_all_zero (st : list NurseState) :
  (forall n, In n st -> 0 <= remaining n) -> sumRemaining st = 0 ->
  forall n, In n st -> remaining n = 0.
Proof.
  unfold sumRemaining. induction st as [|x st IH]; intros Hpos Hsum n Hn; [destruct Hn|].
  cbn [map] in Hsum. rewrite sumZ_cons in Hsum.
  assert (Hrest : 0 <= sumZ (map remaining st)).
  { clear -Hpos. induction st as [|y st IH]; cbn [map]; [rewrite sumZ_nil; lia|].
    rewrite sumZ_cons.
    pose proof (Hpos y (or_intror (or_introl eq_refl))).
    assert (0 <= sumZ (map remaining st)); [|lia].
    apply IH. intros n [<- | Hn]; apply Hpos; [now left | right; now right]. }
  pose proof (Hpos x (or_introl eq_refl)) as Hx.
  destruct Hn as [<- | Hn]; [lia|].
  apply IH; [intros m Hm; apply Hpos; now right | lia | exact Hn].
Qed.

Lemma planned_quota_run (rows : list AssignmentInputRow) (N : nat) (tz : string) :
  rows <> [] -> NoDup (map room rows) -> (1 <= N)%nat ->
  exists res,
    assignRooms localeCompare formatClock rows N tz = Ok res /\
    Permutation (map pr_room (perRoom res)) (map room rows) /\
    map n_rooms (perNurse res) = map capacity (plannedCapacities rows N).
Proof.
  intros Hne Hnd HN.
  destruct (run_ok localeCompare rows N Hnd HN) as (es & Hrun & Hinv & Hdom).
  rewrite (assignRooms_nonempty localeCompare formatClock rows N tz Hne), Hrun, bind_Ok.
  eexists. split; [reflexivity|]. cbn [perNurse perRoom].
  set (derived := map deriveRoom rows) in *.
  set (caps := plannedCapacities rows N) in *.
  assert (Hndd : NoDup (map d_room derived)).
  { unfold derived. now rewrite d_room_deriveRoom. }
  split.
  { rewrite buildPerRoom_rooms.
    - unfold derived. now rewrite d_room_deriveRoom.
    - rewrite Hdom. unfold derived. now rewrite d_room_deriveRoom. }
  pose proof (initial_invariant_rows rows N HN) as Hinv0. fold derived caps in Hinv0.
  pose proof (assignRoomsToState_fresh _ _ _ _ _ Hndd Hinv0 Hrun) as Hsteps.
  assert (Hag : stateAgrees derived es).
  { apply (stateAgrees_reachable derived _ _ es Hndd Hinv0); [|exact Hsteps].
    apply stateAgrees_initial. }
  destruct (computeCapacities_wellformed (Z.of_nat (length rows)) N ltac:(lia))
    as [_ Hcpos].
  assert (Hcap : capacityInvariant caps (state es)).
  { eapply (capacityInvariant_fresh caps derived); [|exact Hsteps].
    cbn [state]. now apply capacityInvariant_initial. }
  assert (Hzero : forall n, In n (state es) -> remaining n = 0).
  { apply remaining_all_zero.
    - intros n Hn. apply list_elem_of_In in Hn.
      apply list_elem_of_lookup_1 in Hn as [i Hi].
      destruct (Forall2_lookup_r _ _ _ _ _ Hcap Hi) as (c & _ & _ & Hge & _). exact Hge.
    - pose proof (inv_total _ _ _ Hinv) as Htot.
      rewrite <- size_dom, Hdom, size_list_to_set in Htot by exact Hnd.
      unfold derived in Htot. rewrite !length_map in Htot. lia. }
  rewrite n_rooms_buildPerNurse.
  unfold caps, plannedCapacities, computeCapacities, Array_from. rewrite map_map.
  apply map_ext_in. intros idx Hidx. apply in_seq in Hidx. cbn [capacity].
  rewrite roomsForNurse_buildPerRoom.
  pose proof (lookup_computeCapacities (Z.of_nat (length rows)) N idx ltac:(lia)) as Hc.
  destruct (Forall2_lookup_l _ _ _ _ _ Hcap Hc) as (n & Hn & Hid & _ & Hplan).
  cbn [cap_nurseId capacity] in Hid, Hplan.
  assert (Hin : In n (state es)).
  { apply list_elem_of_In. eapply list_elem_of_lookup_2, Hn. }
  rewrite <- Hid, <- (agree_count _ _ Hag n Hin), <- Hplan, (Hzero n Hin). lia.
Qed.

(** X5. For every non-empty list of rooms with pairwise distinct ids and
    every nurse count [N >= 1], each nurse ends with exactly the number of
    rooms [computeCapacities] planned for it: the [n_rooms] column of the
    per-nurse table is the list of planned capacities, so nurse [k] holds
    [floor(R/N) + 1] rooms when [k <= R mod N] and [floor(R/N)] otherwise,
    and the room counts of two nurses differ by at most one. *)
Theorem every_nurse_gets_the_planned_quota (rows : list AssignmentInputRow) (N : nat)
    (tz : string) :
  rows <> [] -> NoDup (map room rows) -> (1 <= N)%nat ->
  exists res,
    assignRooms localeCompare formatClock rows N tz = Ok res /\
    map n_rooms (perNurse res) = map capacity (plannedCapacities rows N) /\
    (forall a b, In a (perNurse res) -> In b (perNurse res) ->
       n_rooms a - n_rooms b <= 1).
Proof.
  intros Hne Hnd HN.
  destruct (planned_quota_run rows N tz Hne Hnd HN) as (res & Hres & _ & Hcols).
  exists res. split; [exact Hres|]. split; [exact Hcols|].
  intros a b Ha Hb.
  apply (in_map n_rooms) in Ha, Hb. rewrite Hcols in Ha, Hb.
  apply in_map_iff in Ha as (ca & <- & Ha), Hb as (cb & <- & Hb).
  apply capacity_computeCapacities in Ha, Hb. lia.
Qed.

(** ** Rooms without bfi and cs tags are dealt in turn *)

Lemma lookup_map {A B} (f : A -> B) (l : list A) (i : nat) :
  map f l !! i = f <$> (l !! i).
Proof. exact (list_lookup_fmap f l i). Qed.

Lemma map_insert {A B} (f : A -> B) (l : list A) (i : nat) (x : A) :
  map f (<[i := x]> l) = <[i := f x]> (map f l).
Proof. exact (list_fmap_insert f l i x). Qed.

Lemma findIndex_lookup {A} (f : A -> Z) (l : list A) (i : nat) (x : A) :
  NoDup (map f l) -> l !! i = Some x ->
  findIndex (fun y => f y =? f x) l = Some i.
Proof.
  revert i. induction l as [|y l IH]; intros i Hnd Hi; [discriminate|].
  cbn [map] in Hnd. apply NoDup_cons in Hnd as [Hy Hnd]. cbn [findIndex].
  destruct i as [|i]; cbn in Hi.
  - injection Hi as ->. now rewrite Z.eqb_refl.
  - destruct (Z.eqb_spec (f y) (f x)) as [Heq|Hne].
    + exfalso. apply Hy. rewrite Heq. apply list_elem_of_In, in_map.
      apply list_elem_of_In. eapply list_elem_of_lookup_2, Hi.
    + now rewrite (IH i Hnd Hi).
Qed.

Lemma updateNurseState_insert (room : DerivedRoom) (st : list NurseState) (i : nat)
    (n : NurseState) :
  NoDup (map nurseId st) -> st !! i = Some n ->
  updateNurseState (nurseId n) room st = <[i := recordRoom room n]> st.
Proof.
  revert i. induction st as [|y st IH]; intros i Hnd Hi; [discriminate|].
  cbn [map] in Hnd. apply NoDup_cons in Hnd as [Hy Hnd]. cbn [updateNurseState].
  destruct i as [|i]; cbn in Hi.
  - injection Hi as ->. now rewrite Z.eqb_refl.
  - destruct (Z.eqb_spec (nurseId y) (nurseId n)) as [Heq|Hne].
    + exfalso. apply Hy. rewrite Heq. apply list_elem_of_In, in_map.
      apply list_elem_of_In. eapply list_elem_of_lookup_2, Hi.
    + cbn. now rewrite (IH i Hnd Hi).
Qed.

Lemma roundRobinStep_at_pointer (room : DerivedRoom) (es : EngineState) (n : NurseState) :
  NoDup (map nurseId (state es)) ->
  state es !! roundRobinIndex es = Some n ->
  0 < remaining n -> avoidsDuplicate room n = true ->
  roundRobinStep room es =
  Ok {| state := <[roundRobinIndex es := recordRoom room n]> (state es);
        assignment := <[d_room room := nurseId n]> (assignment es);
        roundRobinIndex := ((roundRobinIndex es + 1) mod length (state es))%nat |}.
Proof.
  intros Hnd Hn Hrem Hav.
  pose proof (lookup_lt_Some _ _ _ Hn) as Hlt.
  assert (Hch : roundRobinChoice room es = Some n).
  { unfold roundRobinChoice. rewrite getRoundRobinOrder_rotate. unfold rotate.
    rewrite Nat.mod_small by exact Hlt. rewrite (drop_S _ _ _ Hn).
    cbn [app List.filter].
    apply Z.ltb_lt in Hrem. rewrite Hrem. cbn [List.filter]. rewrite Hav.
    reflexivity. }
  unfold roundRobinStep. rewrite Hch.
  rewrite (findIndex_lookup nurseId _ _ _ Hnd Hn).
  rewrite (updateNurseState_insert room _ _ _ Hnd Hn). reflexivity.
Qed.

Lemma turn_has_capacity (R : Z) (N i : nat) :
  (1 <= N)%nat -> Z.of_nat i < R ->
  Z.of_nat (i / N) <
  (if Z.of_nat (i mod N) <? Z.rem R (Z.of_nat N)
   then R / Z.of_nat N + 1 else R / Z.of_nat N).
Proof.
  intros HN Hi.
  rewrite Z.rem_mod_nonneg by lia.
  rewrite Nat2Z.inj_div, Nat2Z.inj_mod.
  pose proof (Z.div_mod (Z.of_nat i) (Z.of_nat N) ltac:(lia)) as Hdi.
  pose proof (Z.div_mod R (Z.of_nat N) ltac:(lia)) as Hdr.
  pose proof (Z.mod_pos_bound (Z.of_nat i) (Z.of_nat N) ltac:(lia)) as Hbi.
  pose proof (Z.mod_pos_bound R (Z.of_nat N) ltac:(lia)) as Hbr.
  set (q := Z.of_nat i / Z.of_nat N) in *. set (r := Z.of_nat i mod Z.of_nat N) in *.
  set (Q := R / Z.of_nat N) in *. set (S := R mod Z.of_nat N) in *.
  destruct (Z.ltb_spec r S); nia.
Qed.

Lemma turn_count_step (N i k : nat) :
  (1 <= N)%nat -> (k < N)%nat ->
  Z.of_nat (S i / N) + (if (k <? S i mod N)%nat then 1 else 0) =
  Z.of_nat (i / N) + (if (k <? i mod N)%nat then 1 else 0)
  + (if (k =? i mod N)%nat then 1 else 0).
Proof.
  intros HN Hk.
  pose proof (Nat.div_mod_eq i N) as Hd.
  pose proof (Nat.mod_upper_bound i N ltac:(lia)) as Hb.
  destruct (Nat.lt_ge_cases (S (i mod N)) N) as [Hlt|Hge].
  - assert (Hq : (S i / N = i / N)%nat).
    { symmetry. apply (Nat.div_unique _ _ _ (S (i mod N))); lia. }
    assert (Hr : (S i mod N = S (i mod N))%nat).
    { symmetry. apply (Nat.mod_unique _ _ (i / N)); lia. }
    rewrite Hq, Hr.
    destruct (Nat.ltb_spec k (S (i mod N))), (Nat.ltb_spec k (i mod N)),
      (Nat.eqb_spec k (i mod N)); lia.
  - assert (Hq : (S i / N = S (i / N))%nat).
    { symmetry. apply (Nat.div_unique _ _ _ 0%nat); lia. }
    assert (Hr : (S i mod N = 0)%nat).
    { symmetry. apply (Nat.mod_unique _ _ (S (i / N))); lia. }
    rewrite Hq, Hr.
    destruct (Nat.ltb_spec k 0), (Nat.ltb_spec k (i mod N)),
      (Nat.eqb_spec k (i mod N)); lia.
Qed.

Lemma dealtInTurn_step (R : Z) (N i : nat) (room : DerivedRoom) (es : EngineState) :
  (1 <= N)%nat -> Z.of_nat i < R ->
  isY (bfi (d_labels room)) = false -> isY (cs (d_labels room)) = false ->
  dealtInTurn R N i es ->
  exists es', roundRobinStep room es = Ok es' /\ dealtInTurn R N (S i) es' /\
    assignment es' = <[d_room room := Z.of_nat (i mod N) + 1]> (assignment es).
Proof.
  intros HN Hi Hbfi Hcs (Hids & Hrr & Hremaining).
  pose proof (Nat.mod_upper_bound i N ltac:(lia)) as Hb.
  assert (Hlen : length (state es) = N).
  { rewrite <- (length_map nurseId), Hids, length_map, length_seq. reflexivity. }
  destruct (lookup_lt_is_Some_2 (state es) (i mod N)%nat ltac:(lia)) as [n Hn].
  assert (Hid : nurseId n = Z.of_nat (i mod N) + 1).
  { pose proof (lookup_map nurseId (state es) (i mod N)%nat) as Hl.
    rewrite Hn, Hids, lookup_map, lookup_seq_lt in Hl by lia.
    cbn in Hl. injection Hl as Hl. now rewrite Hl. }
  assert (Hrem : remaining n =
            (if Z.of_nat (i mod N) <? Z.rem R (Z.of_nat N)
             then R / Z.of_nat N + 1 else R / Z.of_nat N) - Z.of_nat (i / N)).
  { pose proof (lookup_map remaining (state es) (i mod N)%nat) as Hl.
    rewrite Hn, Hremaining, list_lookup_imap, lookup_computeCapacities in Hl by lia.
    cbn [fmap option_fmap option_map capacity] in Hl.
    injection Hl as Hl. rewrite Nat.ltb_irrefl in Hl. lia. }
  pose proof (turn_has_capacity R N i HN Hi) as Hcapacity.
  assert (Hnd : NoDup (map nurseId (state es))).
  { rewrite Hids.
    assert (Hinj : Inj (=) (=) (fun x : nat => Z.of_nat x + 1)).
    { intros a b Hab. lia. }
    apply (NoDup_fmap_2 (fun x : nat => Z.of_nat x + 1)), NoDup_seq. }
  rewrite <- Hrr in Hn.
  eexists. split.
  { apply (roundRobinStep_at_pointer room es n Hnd Hn); [lia|].
    unfold avoidsDuplicate. now rewrite Hbfi, Hcs. }
  split; [|cbn [assignment]; now rewrite Hid].
  split; [|split]; cbn [state roundRobinIndex].
  - rewrite map_insert. cbn [recordRoom nurseId].
    rewrite list_insert_id; [exact Hids|]. now rewrite lookup_map, Hn.
  - rewrite Hlen, Hrr, Nat.Div0.add_mod_idemp_l. f_equal. lia.
  - rewrite map_insert. cbn [recordRoom remaining].
    apply list_eq. intros k.
    rewrite list_lookup_imap.
    destruct (decide (k < N)%nat) as [Hk|Hk].
    + rewrite lookup_computeCapacities by exact Hk. cbn [fmap option_fmap option_map capacity].
      pose proof (turn_count_step N i k HN Hk) as Hstep.
      destruct (decide (k = roundRobinIndex es)) as [-> | Hne].
      * rewrite list_lookup_insert_eq by (rewrite length_map; lia).
        f_equal. rewrite Hrr in *. rewrite Nat.eqb_refl, Nat.ltb_irrefl in Hstep. lia.
      * rewrite list_lookup_insert_ne by congruence.
        rewrite Hremaining, list_lookup_imap, lookup_computeCapacities by exact Hk.
        cbn [fmap option_fmap option_map capacity]. f_equal.
        rewrite Hrr in Hne. apply Nat.eqb_neq in Hne. rewrite Hne in Hstep. lia.
    + rewrite (lookup_ge_None_2 (computeCapacities R N)) by (rewrite length_computeCapacities; lia).
      apply lookup_ge_None_2. rewrite length_insert, length_map. lia.
Qed.

Lemma forEach_roundRobinStep_deals (R : Z) (N : nat) (l : list DerivedRoom) :
  (1 <= N)%nat -> NoDup (map d_room l) -> noRepeatTags l ->
  forall i es, dealtInTurn R N i es -> Z.of_nat (i + length l) <= R ->
  exists es', forEach roundRobinStep l es = Ok es' /\
    dealtInTurn R N (i + length l) es' /\
    (forall j r, l !! j = Some r ->
       assignment es' !! d_room r = Some (Z.of_nat ((i + j) mod N) + 1)) /\
    (forall k, ~ In k (map d_room l) -> assignment es' !! k = assignment es !! k).
Proof.
  intros HN. induction l as [|x l IH]; intros Hnd Htags i es Hdealt Hle.
  - exists es. cbn [forEach length]. rewrite Nat.add_0_r.
    split; [reflexivity|]. split; [exact Hdealt|]. split; [intros j r Hj; discriminate|].
    reflexivity.
  - cbn [map] in Hnd. apply NoDup_cons in Hnd as [Hx Hnd]. cbn [length] in Hle.
    destruct (Htags x (or_introl eq_refl)) as [Hbfi Hcs].
    destruct (dealtInTurn_step R N i x es HN ltac:(lia) Hbfi Hcs Hdealt)
      as (es1 & Hstep & Hdealt1 & Hmap).
    destruct (IH Hnd (fun r Hr => Htags r (or_intror Hr)) (S i) es1 Hdealt1 ltac:(lia))
      as (es' & Hrun & Hdealt' & Hrooms & Hrest).
    exists es'. split; [now rewrite (forEach_cons _ _ _ _ _ Hstep)|].
    split; [cbn [length]; now replace (i + S (length l))%nat with (S i + length l)%nat by lia|].
    split.
    + intros j r Hj. destruct j as [|j]; cbn in Hj.
      * injection Hj as <-. rewrite Hrest, Hmap, lookup_insert_eq, Nat.add_0_r.
        -- reflexivity.
        -- intros Hin. apply Hx. now apply list_elem_of_In.
      * rewrite (Hrooms j r Hj).
        now replace (S i + j)%nat with (i + S j)%nat by lia.
    + intros k Hk. rewrite Hrest, Hmap.
      * apply lookup_insert_ne. intros Heq. apply Hk. left. exact Heq.
      * intros Hin. apply Hk. now right.
Qed.

Lemma discharge_dealt_run (rows : list AssignmentInputRow) (N : nat) :
  NoDup (map room rows) -> (1 <= N)%nat ->
  let derived := map deriveRoom rows in
  let dealt :=
    sortByAgeThenTime localeCompare
      (List.filter (fun room => isY (discharge (d_labels room))) derived) oldest in
  noRepeatTags dealt ->
  exists es,
    assignRoomsToState localeCompare derived
      (buildInitialState (plannedCapacities rows N)) (plannedCapacities rows N) = Ok es /\
    forall j r, dealt !! j = Some r ->
      assignment es !! d_room r = Some (Z.of_nat (j mod N) + 1).
Proof.
  intros Hnd HN derived dealt Htags.
  destruct (run_ok localeCompare rows N Hnd HN) as (es & Hrun & Hinv & Hdom).
  fold derived in Hrun, Hinv. exists es. split; [exact Hrun|].
  assert (Hndd : NoDup (map d_room derived)).
  { unfold derived. now rewrite d_room_deriveRoom. }
  pose proof (initial_invariant_rows rows N HN) as Hinv0. fold derived in Hinv0.
  destruct (assignRoomsToState_keeps_discharge localeCompare derived _ _ _ es Hndd Hinv0 Hrun)
    as (es1 & H1 & Hsub).
  set (es0 := {| state := buildInitialState (plannedCapacities rows N);
                 assignment := ∅; roundRobinIndex := 0 |}) in *.
  unfold assignRoundRobin in H1. fold dealt in H1.
  rewrite filter_all in H1.
  2:{ intros r _. unfold notYetAssigned, Map_has. cbn [es0 assignment].
      now rewrite lookup_empty. }
  assert (Hstart : dealtInTurn (Z.of_nat (length rows)) N 0 es0).
  { split; [|split]; cbn [es0 state roundRobinIndex].
    - unfold buildInitialState, plannedCapacities, computeCapacities, Array_from.
      rewrite !map_map. reflexivity.
    - rewrite Nat.Div0.mod_0_l. reflexivity.
    - unfold plannedCapacities. apply list_eq. intros k.
      rewrite list_lookup_imap. unfold buildInitialState. rewrite map_map, lookup_map.
      cbn [remaining]. destruct (computeCapacities _ N !! k); cbn; [|reflexivity].
      f_equal. rewrite Nat.Div0.div_0_l, Nat.Div0.mod_0_l.
      destruct (Nat.ltb_spec k 0); lia. }
  destruct (forEach_roundRobinStep_deals (Z.of_nat (length rows)) N dealt HN) with
    (i := 0%nat) (es := es0) as (es1' & H1' & _ & Hrooms & _).
  - unfold dealt, sortByAgeThenTime. apply js_sort_NoDup_map.
    now apply NoDup_map_filter.
  - exact Htags.
  - exact Hstart.
  - unfold dealt, sortByAgeThenTime.
    rewrite (Permutation_length (js_sort_perm _ _)).
    pose proof (List.filter_length_le (fun room => isY (discharge (d_labels room))) derived)
      as Hle.
    unfold derived in Hle at 2. rewrite length_map in Hle. lia.
  - assert (es1' = es1) by congruence. subst es1'.
    intros j r Hj. apply (lookup_weaken _ _ _ _ (Hrooms j r Hj) Hsub).
Qed.

(** X6. The discharge phase deals the rooms out in turn.  For rooms with
    pairwise distinct ids and [N >= 1] nurses, when no discharge room is
    tagged bfi or cs, the discharge rooms in age-then-time order go to the
    nurses 1, 2, ..., N, 1, 2, ...: the room at position [j] (from 0) of
    that order is assigned to nurse [(j mod N) + 1], and no later phase
    changes this. *)
Theorem discharge_rooms_are_dealt_in_turn (rows : list AssignmentInputRow) (N : nat) :
  NoDup (map room rows) -> (1 <= N)%nat ->
  let derived := map deriveRoom rows in
  let dealt :=
    sortByAgeThenTime localeCompare
      (List.filter (fun room => isY (discharge (d_labels room))) derived) oldest in
  noRepeatTags dealt ->
  exists es,
    assignRoomsToState localeCompare derived
      (buildInitialState (plannedCapacities rows N)) (plannedCapacities rows N) = Ok es /\
    forall j r, dealt !! j = Some r ->
      assignment es !! d_room r = Some (Z.of_nat (j mod N) + 1).
Proof. exact (discharge_dealt_run rows N). Qed.

(** ** Six discharge rooms and three nurses *)

(** C7. Six rooms 1, 3, 5, 7, 9, 11 tagged discharge, at any strictly
    ascending times, and any two untagged rooms, given in any order, with 3
    nurses: the planned capacities are [3; 3; 2], the discharge phase hands
    the six rooms out in rotation (nurses 1, 2, 3, 1, 2, 3), no later phase
    moves them, and every nurse ends with exactly 2 discharge rooms. *)
Theorem discharge_rooms_are_spread_evenly (t1 t3 t5 t7 t9 t11 : DateTime)
    (u1 u2 : AssignmentInputRow) (rows : list AssignmentInputRow) (tz : string) :
  let six :=
    [ {| room := "1"; timeParsed := t1; labels := dischargeOnly |};
      {| room := "3"; timeParsed := t3; labels := dischargeOnly |};
      {| room := "5"; timeParsed := t5; labels := dischargeOnly |};
      {| room := "7"; timeParsed := t7; labels := dischargeOnly |};
      {| room := "9"; timeParsed := t9; labels := dischargeOnly |};
      {| room := "11"; timeParsed := t11; labels := dischargeOnly |} ] in
  toMillis t1 < toMillis t3 -> toMillis t3 < toMillis t5 ->
  toMillis t5 < toMillis t7 -> toMillis t7 < toMillis t9 ->
  toMillis t9 < toMillis t11 ->
  labels u1 = noLabels -> labels u2 = noLabels ->
  Permutation rows (six ++ [u1; u2]) ->
  NoDup (map room rows) ->
  exists es res,
    assignRoomsToState localeCompare (map deriveRoom rows)
      (buildInitialState (plannedCapacities rows 3)) (plannedCapacities rows 3) = Ok es /\
    assignRooms localeCompare formatClock rows 3 tz = Ok res /\
    map capacity (plannedCapacities rows 3) = [3; 3; 2] /\
    map (fun id => assignment es !! id) ["1"; "3"; "5"; "7"; "9"; "11"]%string
      = [Some 1; Some 2; Some 3; Some 1; Some 2; Some 3] /\
    map (labelCount k_discharge) (perNurse res) = [2; 2; 2].
Proof.
  intros six H13 H35 H57 H79 H911 Hu1 Hu2 Hperm Hnd.
  set (derived := map deriveRoom rows).
  set (tagged := fun room : DerivedRoom => isY (discharge (d_labels room))).
  assert (Hlen : length rows = 8%nat) by (rewrite (Permutation_length Hperm); reflexivity).
  assert (Hfilter : Permutation (List.filter tagged derived) (map deriveRoom six)).
  { unfold derived. rewrite (filter_perm tagged _ _ (Permutation_map deriveRoom Hperm)).
    destruct u1 as [r1 x1 l1], u2 as [r2 x2 l2]. cbn [labels] in Hu1, Hu2. subst l1 l2.
    reflexivity. }
  assert (Hdealt : sortByAgeThenTime localeCompare (List.filter tagged derived) oldest
                   = map deriveRoom six).
  { symmetry. apply (sorted_perm_unique (ageThenTimeOrder oldest)).
    - intros a b Ha Hb Hab Hba. unfold ageThenTimeOrder in Hab, Hba.
      cbn in Ha, Hb.
      repeat (destruct Ha as [<- | Ha]; [|]); try destruct Ha;
        (repeat (destruct Hb as [<- | Hb]; [|]); try destruct Hb;
         try reflexivity; exfalso; cbn in Hab, Hba; lia).
    - unfold ageThenTimeOrder. cbn. repeat constructor; cbn; lia.
    - apply js_sort_sorted.
      + apply ageThenTimeOrder_trans.
      + apply compareByAgeThenTime_order_le.
      + apply compareByAgeThenTime_order_gt.
    - unfold sortByAgeThenTime. rewrite js_sort_perm. now symmetry. }
  destruct (run_ok localeCompare rows 3 Hnd ltac:(lia)) as (es & Hrun & _ & Hdom).
  destruct (discharge_dealt_run rows 3 Hnd ltac:(lia)) as (es' & Hrun' & Hturn).
  { fold derived tagged. rewrite Hdealt. intros r Hr. cbn in Hr.
    repeat (destruct Hr as [<- | Hr]; [split; reflexivity|]). destruct Hr. }
  assert (es' = es) by congruence. subst es'. clear Hrun'.
  fold derived tagged in Hturn. rewrite Hdealt in Hturn.
  pose proof (Hturn 0%nat _ eq_refl) as L1. pose proof (Hturn 1%nat _ eq_refl) as L3.
  pose proof (Hturn 2%nat _ eq_refl) as L5. pose proof (Hturn 3%nat _ eq_refl) as L7.
  pose proof (Hturn 4%nat _ eq_refl) as L9. pose proof (Hturn 5%nat _ eq_refl) as L11.
  cbn in L1, L3, L5, L7, L9, L11.
  exists es. eexists. split; [exact Hrun|].
  split.
  { rewrite assignRooms_nonempty, Hrun, bind_Ok; [reflexivity|].
    intros ->. discriminate Hlen. }
  split; [unfold plannedCapacities; rewrite Hlen; reflexivity|].
  split; [cbn [map]; now rewrite L1, L3, L5, L7, L9, L11|].
  cbn [perNurse]. rewrite labelCount_buildPerNurse. cbn [seq map].
  rewrite <- d_room_deriveRoom in Hdom. fold derived in Hdom |- *.
  rewrite !(tagged_rooms_of_buildPerRoom _ _ _ _ _ _ Hdom).
  assert (Hids : forall f : string -> bool,
            length (List.filter f
                      (map d_room
                         (List.filter (fun r => isY (getLabel k_discharge (d_labels r)))
                                      derived)))
            = length (List.filter f ["1"; "3"; "5"; "7"; "9"; "11"]%string)).
  { intros f. apply Permutation_length, filter_perm.
    change ["1"; "3"; "5"; "7"; "9"; "11"]%string with (map d_room (map deriveRoom six)).
    apply Permutation_map. exact Hfilter. }
  rewrite !Hids. cbn [List.filter]. rewrite L1, L3, L5, L7, L9, L11. reflexivity.
Qed.

(** ** What each phase takes *)

Lemma elem_of_ids_filter (rooms : list DerivedRoom) (p : DerivedRoom -> bool)
    (r : DerivedRoom) :
  NoDup (map d_room rooms) -> In r rooms ->
  d_room r ∈ (list_to_set (map d_room (List.filter p rooms)) : gset string) <->
  p r = true.
Proof.
  intros Hnd Hr. rewrite elem_of_list_to_set, list_elem_of_In, in_map_iff. split.
  - intros (r' & Heq & Hin). apply filter_In in Hin as [Hin Hp].
    now rewrite <- (NoDup_map_inj d_room rooms r' r Hnd Hin Hr Heq).
  - intros Hp. exists r. split; [reflexivity|]. now apply filter_In.
Qed.

Lemma run_phases (rows : list AssignmentInputRow) (N : nat)
    (es : EngineState) :
  NoDup (map room rows) -> (1 <= N)%nat ->
  let derived := map deriveRoom rows in
  let capacities := plannedCapacities rows N in
  let capacityMap :=
    Map_of_entries (map (fun cap => (cap_nurseId cap, capacity cap)) capacities) in
  let start := {| state := buildInitialState capacities;
                  assignment := ∅; roundRobinIndex := 0 |} in
  assignRoomsToState localeCompare derived (buildInitialState capacities) capacities
    = Ok es ->
  exists es1 es2 es3,
    assignRoundRobin localeCompare
      (List.filter (fun r => isY (discharge (d_labels r))) derived) oldest start = Ok es1 /\
    assignRoundRobin localeCompare
      (List.filter (fun r => isY (under_24 (d_labels r))) derived) oldest es1 = Ok es2 /\
    assignRoundRobin localeCompare
      (List.filter (fun r => isY (over_24 (d_labels r))) derived) oldest es2 = Ok es3 /\
    assignSequence localeCompare capacities capacityMap
      (List.filter (fun r => negb (phaseTagged r)) derived) oldest es3 = Ok es /\
    (forall r, In r derived ->
       (Map_has (assignment es3) (d_room r) = true <-> phaseTagged r = true)) /\
    assignment es1 ⊆ assignment es2 /\ assignment es2 ⊆ assignment es3 /\
    assignment es3 ⊆ assignment es /\
    ((forall r, In r derived -> phaseTagged r = true) -> es = es3).
Proof.
  intros Hnd HN derived capacities capacityMap start Hrun.
  assert (Hndd : NoDup (map d_room derived)).
  { unfold derived. now rewrite d_room_deriveRoom. }
  pose proof (initial_invariant_rows rows N HN) as Hinv0.
  fold derived capacities start in Hinv0.
  unfold assignRoomsToState in Hrun. fold capacityMap start in Hrun.
  destruct (assignRoundRobin_ok localeCompare derived _ _ oldest _ Hndd Hinv0
              (NoDup_map_filter d_room (fun r => isY (discharge (d_labels r))) derived Hndd)
              (filter_incl _ derived))
    as (es1 & H1 & Hinv1 & Hdom1 & _).
  rewrite H1, bind_Ok in Hrun.
  destruct (assignRoundRobin_ok localeCompare derived _ _ oldest _ Hndd Hinv1
              (NoDup_map_filter d_room (fun r => isY (under_24 (d_labels r))) derived Hndd)
              (filter_incl _ derived))
    as (es2 & H2 & Hinv2 & Hdom2 & Hsub2).
  rewrite H2, bind_Ok in Hrun.
  destruct (assignRoundRobin_ok localeCompare derived _ _ oldest _ Hndd Hinv2
              (NoDup_map_filter d_room (fun r => isY (over_24 (d_labels r))) derived Hndd)
              (filter_incl _ derived))
    as (es3 & H3 & Hinv3 & Hdom3 & Hsub3).
  rewrite H3, bind_Ok in Hrun.
  assert (Htagged : forall r, In r derived ->
            (Map_has (assignment es3) (d_room r) = true <-> phaseTagged r = true)).
  { intros r Hr. rewrite Map_has_true, Hdom3, Hdom2, Hdom1.
    cbn [start assignment]. rewrite dom_empty_L, !elem_of_union.
    rewrite !(elem_of_ids_filter derived _ r Hndd Hr). unfold phaseTagged.
    rewrite !orb_true_iff. split; [|tauto].
    intros [[[Hempty|?]|?]|?]; auto. now apply elem_of_empty in Hempty. }
  assert (Hrest : List.filter (notYetAssigned es3) derived =
                  List.filter (fun r => negb (phaseTagged r)) derived).
  { apply filter_ext_in. intros r Hr. unfold notYetAssigned.
    pose proof (Htagged r Hr) as Hiff.
    destruct (Map_has (assignment es3) (d_room r)), (phaseTagged r); try reflexivity.
    - destruct Hiff as [Hiff _]. discriminate Hiff. reflexivity.
    - destruct Hiff as [_ Hiff]. discriminate Hiff. reflexivity. }
  rewrite Hrest in Hrun.
  destruct (assignSequence_ok localeCompare capacities capacityMap derived
              (List.filter (fun r => negb (phaseTagged r)) derived) _ oldest es3
              Hndd Hinv3 (filter_incl _ derived))
    as (es4 & H4 & _ & _ & Hsub4).
  assert (es4 = es) by congruence. subst es4.
  exists es1, es2, es3. repeat (split; [assumption|]).
  intros Hall. rewrite (proj2 (filter_nil_iff _ derived)) in H4.
  - cbn in H4. congruence.
  - intros r Hr. now rewrite (Hall r Hr).
Qed.

(** X7. The three round-robin phases place exactly the rooms tagged
    discharge, under_24 or over_24, and what they decide stays: for rooms
    with pairwise distinct ids, after the third phase a room is in the
    assignment map iff it carries one of the three tags, the scored
    selection is run on the rooms with none of them and keeps every earlier
    entry, and when every room carries one of the tags the scored phase
    changes nothing. *)
Theorem scored_selection_takes_untagged_rooms (rows : list AssignmentInputRow) (N : nat)
    (es : EngineState) :
  NoDup (map room rows) -> (1 <= N)%nat ->
  let derived := map deriveRoom rows in
  let capacities := plannedCapacities rows N in
  let capacityMap :=
    Map_of_entries (map (fun cap => (cap_nurseId cap, capacity cap)) capacities) in
  let start := {| state := buildInitialState capacities;
                  assignment := ∅; roundRobinIndex := 0 |} in
  assignRoomsToState localeCompare derived (buildInitialState capacities) capacities
    = Ok es ->
  exists es1 es2 es3,
    assignRoundRobin localeCompare
      (List.filter (fun r => isY (discharge (d_labels r))) derived) oldest start = Ok es1 /\
    assignRoundRobin localeCompare
      (List.filter (fun r => isY (under_24 (d_labels r))) derived) oldest es1 = Ok es2 /\
    assignRoundRobin localeCompare
      (List.filter (fun r => isY (over_24 (d_labels r))) derived) oldest es2 = Ok es3 /\
    assignSequence localeCompare capacities capacityMap
      (List.filter (fun r => negb (phaseTagged r)) derived) oldest es3 = Ok es /\
    (forall r, In r derived ->
       (Map_has (assignment es3) (d_room r) = true <-> phaseTagged r = true)) /\
    assignment es1 ⊆ assignment es2 /\ assignment es2 ⊆ assignment es3 /\
    assignment es3 ⊆ assignment es /\
    ((forall r, In r derived -> phaseTagged r = true) -> es = es3).
Proof. exact (run_phases rows N es). Qed.

(** ** The order of the per-room table *)

Lemma comparePerRoom_le (a b : RoomAssignmentRow) :
  comparePerRoom a b <= 0 -> perRoomOrder a b.
Proof. unfold comparePerRoom, perRoomOrder. cases_eqb; lia. Qed.

Lemma comparePerRoom_gt (a b : RoomAssignmentRow) :
  0 < comparePerRoom a b -> perRoomOrder b a.
Proof. unfold comparePerRoom, perRoomOrder. cases_eqb; lia. Qed.

Lemma perRoomOrder_trans (a b c : RoomAssignmentRow) :
  perRoomOrder a b -> perRoomOrder b c -> perRoomOrder a c.
Proof. unfold perRoomOrder. lia. Qed.

Lemma StronglySorted_filter {A} (R Q : A -> A -> Prop) (p : A -> bool) (l : list A) :
  (forall a b, p a = true -> p b = true -> R a b -> Q a b) ->
  StronglySorted R l -> StronglySorted Q (List.filter p l).
Proof.
  intros HRQ. induction 1 as [|x l Hs IH Hall]; cbn [List.filter]; [constructor|].
  destruct (p x) eqn:Hx; [|exact IH].
  constructor; [exact IH|].
  apply List.Forall_forall. intros y Hy. apply filter_In in Hy as [Hy Hpy].
  apply HRQ; auto. rewrite List.Forall_forall in Hall. now apply Hall.
Qed.

Lemma perRoom_of_assignRooms (rows : list AssignmentInputRow) (N : nat) (tz : string)
    (res : AssignmentResult) :
  assignRooms localeCompare formatClock rows N tz = Ok res ->
  rows = [] /\ res = {| perNurse := []; perRoom := [] |} \/
  exists es,
    perRoom res =
      buildPerRoom (map deriveRoom rows) (assignment es)
        (denseRankOldest localeCompare (map deriveRoom rows))
        (Z.of_nat (length (map deriveRoom rows))) /\
    perNurse res = buildPerNurse formatClock (perRoom res) N tz.
Proof.
  destruct rows as [|row rows]; [intros [= <-]; now left|].
  rewrite assignRooms_nonempty by discriminate. intros Hres.
  apply bind_Ok_inv in Hres as (es & _ & Hres). injection Hres as <-.
  right. exists es. split; reflexivity.
Qed.

(** X8. The per-room table is ordered by nurse id and, for one nurse, by
    oldest rank; so the rooms of each nurse, which its label lists in table
    order, run from the oldest to the newest. *)
Theorem perRoom_is_ordered_by_nurse_then_rank (rows : list AssignmentInputRow) (N : nat)
    (tz : string) (res : AssignmentResult) :
  assignRooms localeCompare formatClock rows N tz = Ok res ->
  StronglySorted perRoomOrder (perRoom res) /\
  forall k, StronglySorted (fun a b => rank_oldest a <= rank_oldest b)
              (roomsForNurse (perRoom res) k).
Proof.
  intros Hres.
  assert (Hsorted : StronglySorted perRoomOrder (perRoom res)).
  { destruct (perRoom_of_assignRooms rows N tz res Hres) as [[_ ->] | (es & -> & _)].
    - constructor.
    - apply js_sort_sorted.
      + apply perRoomOrder_trans.
      + apply comparePerRoom_le.
      + apply comparePerRoom_gt. }
  split; [exact Hsorted|]. intros k. unfold roomsForNurse.
  apply (StronglySorted_filter perRoomOrder); [|exact Hsorted].
  intros a b Ha Hb. apply Z.eqb_eq in Ha, Hb. unfold perRoomOrder. lia.
Qed.

(** ** The rank and count columns of the per-nurse table *)

Lemma fold_left_min_spec (l : list Z) (a : Z) :
  (fold_left Z.min l a = a \/ In (fold_left Z.min l a) l) /\
  fold_left Z.min l a <= a /\
  forall x, In x l -> fold_left Z.min l a <= x.
Proof.
  revert a. induction l as [|y l IH]; intros a; cbn [fold_left].
  - split; [now left|]. split; [lia | intros x []].
  - destruct (IH (Z.min a y)) as (Hin & Hle & Hall). split; [|split].
    + destruct Hin as [Heq | Hin]; [|right; now right].
      rewrite Heq. destruct (Z.min_spec a y) as [[_ ->] | [_ ->]]; [now left|].
      right. now left.
    + lia.
    + intros x [<- | Hx]; [lia | now apply Hall].
Qed.

Lemma minOrNull_spec (xs : list Z) :
  match minOrNull xs with
  | None => xs = []
  | Some m => In m xs /\ forall x, In x xs -> m <= x
  end.
Proof.
  destruct xs as [|a l]; cbn [minOrNull]; [reflexivity|].
  destruct (fold_left_min_spec l a) as (Hin & Hle & Hall). split.
  - destruct Hin as [-> | Hin]; [now left | now right].
  - intros x [<- | Hx]; [exact Hle | now apply Hall].
Qed.

Lemma fold_left_max_mirror (c : Z) (l : list Z) (a : Z) :
  fold_left Z.max (map (fun x => c - x + 1) l) (c - a + 1) =
  c - fold_left Z.min l a + 1.
Proof.
  revert a. induction l as [|y l IH]; intros a; cbn [map fold_left]; [reflexivity|].
  rewrite <- IH. f_equal. lia.
Qed.

Lemma maxOrNull_mirror (c : Z) (xs : list Z) :
  maxOrNull (map (fun x => c - x + 1) xs) =
  option_map (fun m => c - m + 1) (minOrNull xs).
Proof.
  destruct xs as [|a l]; cbn [map maxOrNull minOrNull option_map]; [reflexivity|].
  now rewrite fold_left_max_mirror.
Qed.

Lemma labelCount_row (perRoom : list RoomAssignmentRow) (N : nat) (tz : string)
    (col : LabelKey) (row : NurseSummaryRow) :
  In row (buildPerNurse formatClock perRoom N tz) ->
  labelCount col row =
  Z.of_nat (length (List.filter (fun room => isY (getLabel col (pr_labels room)))
                      (roomsForNurse perRoom (ns_nurse_id row)))).
Proof.
  unfold buildPerNurse, Array_from. rewrite in_map_iff.
  intros (idx & <- & _). destruct col; reflexivity.
Qed.

(** X9. In every row of the per-nurse table, [oldest_rank_received] is the
    smallest oldest rank among the nurse's rooms, and
    [youngest_rank_received], the largest youngest rank among them, belongs
    to that same oldest room: it is always the room count plus one minus
    [oldest_rank_received].  Both are null exactly when the nurse has no
    room.  Every tag count of the row lies between 0 and [n_rooms]. *)
Theorem rank_columns_describe_the_oldest_room (rows : list AssignmentInputRow) (N : nat)
    (tz : string) (res : AssignmentResult) (row : NurseSummaryRow) :
  assignRooms localeCompare formatClock rows N tz = Ok res ->
  In row (perNurse res) ->
  let mine := roomsForNurse (perRoom res) (ns_nurse_id row) in
  match oldest_rank_received row with
  | None => mine = [] /\ youngest_rank_received row = None
  | Some m =>
      (exists p, In p mine /\ rank_oldest p = m) /\
      (forall p, In p mine -> m <= rank_oldest p) /\
      youngest_rank_received row = Some (Z.of_nat (length rows) - m + 1)
  end /\
  forall col, 0 <= labelCount col row <= n_rooms row.
Proof.
  intros Hres Hrow mine.
  destruct (perRoom_of_assignRooms rows N tz res Hres) as [[_ ->] | (es & Hrooms & Hnurses)];
    [destruct Hrow|].
  rewrite Hnurses in Hrow.
  destruct (buildPerNurse_row formatClock _ _ _ _ Hrow) as (Hn & Hold & Hyoung & _).
  fold mine in Hn, Hold, Hyoung.
  assert (Hmirror : map rank_youngest mine =
            map (fun x => Z.of_nat (length rows) - x + 1) (map rank_oldest mine)).
  { rewrite map_map. apply map_ext_in. intros p Hp.
    unfold mine, roomsForNurse in Hp. apply filter_In in Hp as [Hp _].
    rewrite Hrooms in Hp. apply buildPerRoom_In in Hp as (r & v & _ & _ & _ & _ & _ & _ & _ & Hy).
    rewrite Hy, length_map. reflexivity. }
  rewrite Hmirror, maxOrNull_mirror in Hyoung. rewrite Hyoung, Hold.
  pose proof (minOrNull_spec (map rank_oldest mine)) as Hspec.
  split.
  - destruct (minOrNull (map rank_oldest mine)) as [m|]; cbn [option_map].
    + destruct Hspec as [Hin Hall]. split; [|split; [|reflexivity]].
      * apply in_map_iff in Hin as (p & Hp & Hin). eauto.
      * intros p Hp. apply Hall. now apply in_map.
    + split; [|reflexivity]. now apply map_eq_nil in Hspec.
  - intros col. rewrite (labelCount_row _ _ _ col row Hrow), Hn. fold mine.
    pose proof (List.filter_length_le
                  (fun room => isY (getLabel col (pr_labels room))) mine).
    lia.
Qed.

(** ** No nurses *)

Lemma js_sort_nil_inv {A} (cmp : A -> A -> Z) (l : list A) :
  js_sort cmp l = [] -> l = [].
Proof.
  intros Hs. pose proof (js_sort_perm cmp l) as Hperm. rewrite Hs in Hperm.
  now apply Permutation_nil in Hperm.
Qed.

Lemma assignRoundRobin_no_nurses (data : list DerivedRoom) (direction : SortDirection) :
  let es0 := {| state := []; assignment := ∅; roundRobinIndex := 0 |} in
  assignRoundRobin localeCompare data direction es0 =
  match data with
  | [] => Ok es0
  | _ => Throw NoRoundRobinCapacity
  end.
Proof.
  intros es0. unfold assignRoundRobin.
  rewrite filter_all by (intros r _; unfold notYetAssigned, Map_has; cbn [es0 assignment];
                         now rewrite lookup_empty).
  destruct data as [|x data]; [reflexivity|].
  destruct (sortByAgeThenTime localeCompare (x :: data) direction) as [|y l] eqn:Hs.
  - apply js_sort_nil_inv in Hs. discriminate.
  - reflexivity.
Qed.

Lemma assignSequence_no_nurses (capacities : list NurseCapacity) (capacityMap : gmap Z Z)
    (data : list DerivedRoom) (direction : SortDirection) :
  let es0 := {| state := []; assignment := ∅; roundRobinIndex := 0 |} in
  assignSequence localeCompare capacities capacityMap data direction es0 =
  match data with
  | [] => Ok es0
  | _ => Throw NoFeasibleCandidates
  end.
Proof.
  intros es0. unfold assignSequence.
  rewrite filter_all by (intros r _; unfold notYetAssigned, Map_has; cbn [es0 assignment];
                         now rewrite lookup_empty).
  destruct data as [|x data]; [reflexivity|].
  destruct (sortByAgeThenTime localeCompare (x :: data) direction) as [|y l] eqn:Hs.
  - apply js_sort_nil_inv in Hs. discriminate.
  - cbn [forEach]. unfold assignWithScoring, Map_has. cbn [es0 assignment state].
    rewrite lookup_empty. reflexivity.
Qed.

(** X26. Without nurses the engine cannot place a room: for nurse count
    0 every non-empty input throws, with the round-robin error when a room
    is tagged discharge, under_24 or over_24 and with the error of
    [pickNurse] otherwise; the empty input still returns the two empty
    tables. *)
Theorem assignRooms_without_nurses (rows : list AssignmentInputRow) (tz : string) :
  assignRooms localeCompare formatClock rows 0 tz =
  match rows with
  | [] => Ok {| perNurse := []; perRoom := [] |}
  | _ =>
    if existsb (fun row => isY (discharge (labels row)) || isY (under_24 (labels row))
                           || isY (over_24 (labels row))) rows
    then Throw NoRoundRobinCapacity
    else Throw NoFeasibleCandidates
  end.
Proof.
  destruct rows as [|row rows]; [reflexivity|].
  rewrite assignRooms_nonempty by discriminate.
  set (all := row :: rows). set (derived := map deriveRoom all).
  change (plannedCapacities all 0) with (@nil NurseCapacity).
  change (buildInitialState []) with (@nil NurseState).
  assert (Htag : forall (p : LabelFlags -> bool) x rest,
            List.filter (fun r => p (d_labels r)) derived = x :: rest ->
            exists r, In r all /\ p (labels r) = true).
  { intros p x rest Hf. apply filter_head_In in Hf as [Hin Hp].
    apply in_map_iff in Hin as (r & <- & Hr). exists r. auto. }
  assert (Hnone : forall (p : LabelFlags -> bool),
            List.filter (fun r => p (d_labels r)) derived = [] ->
            forall r, In r all -> p (labels r) = false).
  { intros p Hf r Hr. rewrite filter_nil_iff in Hf.
    apply (Hf (deriveRoom r)). now apply in_map. }
  unfold assignRoomsToState.
  rewrite assignRoundRobin_no_nurses.
  destruct (List.filter (fun room => isY (discharge (d_labels room))) derived)
    as [|x1 l1] eqn:E1.
  2:{ destruct (Htag (fun l => isY (discharge l)) _ _ E1) as (r & Hr & Hp).
      replace (existsb _ all) with true; [reflexivity|].
      symmetry. apply existsb_exists. exists r. split; [exact Hr|]. now rewrite Hp. }
  rewrite bind_Ok, assignRoundRobin_no_nurses.
  destruct (List.filter (fun room => isY (under_24 (d_labels room))) derived)
    as [|x2 l2] eqn:E2.
  2:{ destruct (Htag (fun l => isY (under_24 l)) _ _ E2) as (r & Hr & Hp).
      replace (existsb _ all) with true; [reflexivity|].
      symmetry. apply existsb_exists. exists r. split; [exact Hr|].
      rewrite Hp. now rewrite orb_true_r. }
  rewrite bind_Ok, assignRoundRobin_no_nurses.
  destruct (List.filter (fun room => isY (over_24 (d_labels room))) derived)
    as [|x3 l3] eqn:E3.
  2:{ destruct (Htag (fun l => isY (over_24 l)) _ _ E3) as (r & Hr & Hp).
      replace (existsb _ all) with true; [reflexivity|].
      symmetry. apply existsb_exists. exists r. split; [exact Hr|].
      rewrite Hp. now rewrite orb_true_r. }
  rewrite bind_Ok.
  rewrite filter_all by (intros r _; unfold notYetAssigned, Map_has; cbn [assignment];
                         now rewrite lookup_empty).
  rewrite assignSequence_no_nurses. cbn [derived all map].
  replace (existsb _ (row :: rows)) with false; [reflexivity|].
  symmetry. apply not_true_is_false. intros Hex.
  apply existsb_exists in Hex as (r & Hr & Hp).
  rewrite (Hnone (fun l => isY (discharge l)) E1 r Hr),
          (Hnone (fun l => isY (under_24 l)) E2 r Hr),
          (Hnone (fun l => isY (over_24 l)) E3 r Hr) in Hp.
  discriminate.
Qed.

(** ** The scored selection *)

Lemma scoredFirst_iff (a b : Scored) :
  scoredFirst a b <-> compareScored a b <= 0.
Proof.
  unfold scoredFirst, compareScored.
  destruct (nsign (nsub (score a) (score b))); intuition lia.
Qed.

(** The first cell of a sorted array is not after any other, for a
    comparator that orders the cells of the array totally. *)
Lemma hd_js_sort_first {A} (cmp : A -> A -> Z) (d : A) (l : list A) :
  l <> [] ->
  (forall a b, In a l -> In b l -> 0 < cmp a b -> cmp b a <= 0) ->
  (forall a b c, In a l -> In b l -> In c l ->
     cmp a b <= 0 -> cmp b c <= 0 -> cmp a c <= 0) ->
  In (hd d (js_sort cmp l)) l /\ forall y, In y l -> cmp (hd d (js_sort cmp l)) y <= 0.
Proof.
  induction l as [|x l IH]; [congruence|]. intros _ Htotal Htrans.
  assert (Hrefl : forall a, In a (x :: l) -> cmp a a <= 0).
  { intros a Ha. destruct (Z.lt_ge_cases 0 (cmp a a)) as [Hpos|]; [|lia].
    exact (Htotal a a Ha Ha Hpos). }
  rewrite js_sort_cons.
  destruct l as [|x' l'].
  { cbn. split; [now left|]. intros y [<-|[]]. apply Hrefl. now left. }
  destruct IH as [Hin Hmin]; [discriminate | | |].
  { intros a b Ha Hb. apply Htotal; now right. }
  { intros a b c Ha Hb Hc. apply Htrans; now right. }
  set (l := x' :: l') in *.
  destruct (js_sort cmp l) as [|h tl] eqn:Hs.
  { pose proof (js_sort_perm cmp l) as Hp. rewrite Hs in Hp.
    apply Permutation_nil in Hp. discriminate. }
  cbn [hd] in Hin, Hmin. cbn [js_insert].
  destruct (Z.leb_spec (cmp x h) 0) as [Hle|Hgt]; cbn [hd].
  - split; [now left|]. intros y [<-|Hy]; [apply Hrefl; now left|].
    apply (Htrans x h y); [now left | now right | now right | exact Hle | now apply Hmin].
  - split; [now right|]. intros y [<-|Hy]; [|now apply Hmin].
    apply Htotal; [now left | now right | exact Hgt].
Qed.

Lemma pickNurse_first (room : DerivedRoom)
    (st : list NurseState) (capacities : list NurseCapacity) (capacityMap : gmap Z Z) :
  let sc := scoreNurse room st capacities capacityMap in
  let candidate := fun n : NurseState => In n st /\ 0 < remaining n in
  (forall a b, candidate a -> candidate b ->
     scoredFirst (sc a) (sc b) \/ scoredFirst (sc b) (sc a)) ->
  (forall a b c, candidate a -> candidate b -> candidate c ->
     scoredFirst (sc a) (sc b) -> scoredFirst (sc b) (sc c) -> scoredFirst (sc a) (sc c)) ->
  match pickNurse room st capacities capacityMap with
  | Ok v =>
      exists chosen, candidate chosen /\ nurseId chosen = v /\
        forall other, candidate other -> scoredFirst (sc chosen) (sc other)
  | Throw e => e = NoFeasibleCandidates /\ exhausted st
  end.
Proof.
  intros sc candidate Htotal Htrans.
  destruct (pickNurse room st capacities capacityMap) as [v|e] eqn:Hpick.
  - unfold pickNurse in Hpick.
    destruct (List.filter _ st) as [|c0 rest] eqn:Hc; [discriminate|].
    fold sc in Hpick. injection Hpick as Hv.
    assert (Hcand : forall y, In y (map sc (c0 :: rest)) ->
              exists n, candidate n /\ sc n = y).
    { intros y Hy. apply in_map_iff in Hy as (n & Hn & Hin).
      rewrite <- Hc in Hin. apply filter_In in Hin as [Hin Hrem].
      exists n. split; [split; [exact Hin | now apply Z.ltb_lt] | exact Hn]. }
    destruct (hd_js_sort_first compareScored (sc c0) (map sc (c0 :: rest)))
      as [Hin Hmin].
    + discriminate.
    + intros a b Ha Hb Hpos.
      destruct (Hcand a Ha) as (na & Hna & <-), (Hcand b Hb) as (nb & Hnb & <-).
      destruct (Htotal na nb Hna Hnb) as [Hab | Hba].
      * apply scoredFirst_iff in Hab. lia.
      * now apply scoredFirst_iff.
    + intros a b c Ha Hb Hc' Hab Hbc.
      destruct (Hcand a Ha) as (na & Hna & <-), (Hcand b Hb) as (nb & Hnb & <-),
        (Hcand c Hc') as (nc & Hnc & <-).
      apply scoredFirst_iff. apply (Htrans na nb nc); auto; now apply scoredFirst_iff.
    + destruct (Hcand _ Hin) as (chosen & Hchosen & Hsc).
      exists chosen. split; [exact Hchosen|].
      split; [transitivity (s_nurseId (sc chosen)); [reflexivity | rewrite Hsc; exact Hv]|].
      intros other Hother. apply scoredFirst_iff. rewrite Hsc. apply Hmin.
      apply in_map. rewrite <- Hc. apply filter_In.
      split; [apply Hother | apply Z.ltb_lt, Hother].
  - split.
    + unfold pickNurse in Hpick. destruct (List.filter _ st); [|discriminate].
      now injection Hpick as <-.
    + apply (pickNurse_Throw room st capacities capacityMap). eauto.
Qed.

(** X10. [pickNurse] returns a nurse with capacity left that the
    comparator of its sort puts before every other such nurse, and throws
    exactly when no nurse has capacity left.  This holds for every kind of
    number on which the comparator orders the scores of the candidates
    totally and transitively, as the sign of the difference does on finite
    doubles and on exact rationals: no candidate has a score whose
    difference to the score of the chosen nurse is negative, and a candidate
    at no difference has no lower id. *)
Theorem pickNurse_picks_the_lowest_score (room : DerivedRoom)
    (st : list NurseState) (capacities : list NurseCapacity) (capacityMap : gmap Z Z) :
  let sc := scoreNurse room st capacities capacityMap in
  let candidate := fun n : NurseState => In n st /\ 0 < remaining n in
  (forall a b, candidate a -> candidate b ->
     scoredFirst (sc a) (sc b) \/ scoredFirst (sc b) (sc a)) ->
  (forall a b c, candidate a -> candidate b -> candidate c ->
     scoredFirst (sc a) (sc b) -> scoredFirst (sc b) (sc c) -> scoredFirst (sc a) (sc c)) ->
  match pickNurse room st capacities capacityMap with
  | Ok v =>
      exists chosen, candidate chosen /\ nurseId chosen = v /\
        forall other, candidate other -> scoredFirst (sc chosen) (sc other)
  | Throw e => e = NoFeasibleCandidates /\ exhausted st
  end.
Proof. exact (pickNurse_first room st capacities capacityMap). Qed.

(** ** Repeated bfi and cs rooms *)

Lemma holdsTagged_true (rooms : list DerivedRoom) (m : gmap string Z)
    (tag : LabelFlags -> Flag) (id : Z) :
  holdsTagged rooms m tag id = true <->
  exists r, In r (roomsOfNurse rooms m id) /\ isY (tag (d_labels r)) = true.
Proof. unfold holdsTagged. apply existsb_exists. Qed.

Lemma marks_holdsTagged (rooms : list DerivedRoom) (es : EngineState) (n : NurseState) :
  stateAgrees rooms es -> In n (state es) ->
  hasBfi n = holdsTagged rooms (assignment es) bfi (nurseId n) /\
  hasCs n = holdsTagged rooms (assignment es) cs (nurseId n).
Proof.
  intros Hag Hn. split; apply Bool.eq_iff_eq_true; rewrite holdsTagged_true.
  - exact (agree_bfi _ _ Hag n Hn).
  - exact (agree_cs _ _ Hag n Hn).
Qed.

Lemma avoidsDuplicate_wouldRepeat (rooms : list DerivedRoom) (es : EngineState)
    (room : DerivedRoom) (n : NurseState) :
  stateAgrees rooms es -> In n (state es) ->
  avoidsDuplicate room n = negb (wouldRepeat rooms (assignment es) room (nurseId n)).
Proof.
  intros Hag Hn. unfold avoidsDuplicate, wouldRepeat.
  destruct (marks_holdsTagged rooms es n Hag Hn) as [<- <-].
  destruct (isY (bfi (d_labels room))), (hasBfi n), (isY (cs (d_labels room))), (hasCs n);
    reflexivity.
Qed.

Lemma score_penalty (rooms : list DerivedRoom) (es : EngineState) (room : DerivedRoom)
    (capacities : list NurseCapacity) (capacityMap : gmap Z Z) (n : NurseState) :
  stateAgrees rooms es -> In n (state es) ->
  score (scoreNurse room (state es) capacities capacityMap n) =
  nadd (scoreBeforePenalty room (state es) capacities capacityMap n)
       (repeatPenaltyFor rooms (assignment es) room (nurseId n)).
Proof.
  intros Hag Hn. unfold repeatPenaltyFor.
  destruct (marks_holdsTagged rooms es n Hag Hn) as [<- <-]. reflexivity.
Qed.

Lemma scoreBeforePenalty_marks (room : DerivedRoom) (st : list NurseState)
    (capacities : list NurseCapacity) (capacityMap : gmap Z Z) (a b : NurseState) :
  sameButMarks a b ->
  scoreBeforePenalty room st capacities capacityMap a =
  scoreBeforePenalty room st capacities capacityMap b.
Proof.
  intros (Hid & _ & Hn & Hl & Hg). unfold scoreBeforePenalty.
  now rewrite Hid, Hn, Hl, Hg.
Qed.

Lemma roundRobinStep_repeat (rooms : list DerivedRoom) (es es' : EngineState)
    (room : DerivedRoom) :
  stateAgrees rooms es ->
  roundRobinStep room es = Ok es' ->
  exists chosen, In chosen (state es) /\ 0 < remaining chosen /\
    assignment es' = <[d_room room := nurseId chosen]> (assignment es) /\
    (wouldRepeat rooms (assignment es) room (nurseId chosen) = true ->
     forall n, In n (state es) -> 0 < remaining n ->
       wouldRepeat rooms (assignment es) room (nurseId n) = true).
Proof.
  intros Hag. unfold roundRobinStep.
  destruct (roundRobinChoice room es) as [chosen|] eqn:Hch; [|discriminate].
  intros [= <-]. destruct (roundRobinChoice_Some _ _ _ Hch) as [Hin Hrem].
  exists chosen. split; [exact Hin|]. split; [exact Hrem|]. split; [reflexivity|].
  intros Hrep n Hn Hcap.
  destruct (wouldRepeat rooms (assignment es) room (nurseId n)) eqn:Hn'; [reflexivity|].
  exfalso.
  assert (Hav : avoidsDuplicate room chosen = true).
  { apply (roundRobinChoice_prefers_no_duplicate room es chosen Hch).
    exists n. split; [exact Hn|]. split; [exact Hcap|].
    now rewrite (avoidsDuplicate_wouldRepeat rooms es room n Hag Hn), Hn'. }
  rewrite (avoidsDuplicate_wouldRepeat rooms es room chosen Hag Hin), Hrep in Hav.
  discriminate.
Qed.

Lemma assignWithScoring_repeat (rooms : list DerivedRoom) (ids : list Z)
    (es es' : EngineState) (room : DerivedRoom)
    (capacities : list NurseCapacity) (capacityMap : gmap Z Z) :
  engineInvariant rooms ids es -> stateAgrees rooms es ->
  assignment es !! d_room room = None ->
  assignWithScoring capacities capacityMap room es = Ok es' ->
  let sc := scoreNurse room (state es) capacities capacityMap in
  let candidate := fun n : NurseState => In n (state es) /\ 0 < remaining n in
  exists chosen, candidate chosen /\
    assignment es' = <[d_room room := nurseId chosen]> (assignment es) /\
    (forall n, In n (state es) ->
       score (sc n) =
       nadd (scoreBeforePenalty room (state es) capacities capacityMap n)
            (repeatPenaltyFor rooms (assignment es) room (nurseId n))) /\
    ((forall a b, candidate a -> candidate b ->
        scoredFirst (sc a) (sc b) \/ scoredFirst (sc b) (sc a)) ->
     (forall a b c, candidate a -> candidate b -> candidate c ->
        scoredFirst (sc a) (sc b) -> scoredFirst (sc b) (sc c) ->
        scoredFirst (sc a) (sc c)) ->
     forall other, candidate other -> scoredFirst (sc chosen) (sc other)).
Proof.
  intros Hinv Hag Hfresh Hstep sc candidate. unfold assignWithScoring in Hstep.
  rewrite (proj2 (Map_has_false _ _) Hfresh) in Hstep.
  destruct (pickNurse room (state es) capacities capacityMap) as [v|e] eqn:Hp;
    [|discriminate].
  cbn in Hstep. injection Hstep as <-.
  destruct (pickNurse_Ok _ _ _ _ _ Hp) as (chosen & Hin & Hrem & Hv).
  exists chosen. split; [split; assumption|]. cbn [assignment].
  split; [now rewrite Hv|]. split.
  - intros n Hn. now apply score_penalty.
  - intros Htotal Htrans other Hother.
    pose proof (pickNurse_first room (state es) capacities capacityMap Htotal Htrans)
      as Hfirst.
    rewrite Hp in Hfirst. destruct Hfirst as (chosen' & [Hin' _] & Hv' & Hmin).
    assert (chosen' = chosen).
    { apply (NoDup_map_inj nurseId (state es));
        [now apply (engineInvariant_NoDup rooms ids) | assumption | assumption | congruence]. }
    subst chosen'. now apply Hmin.
Qed.

Lemma filter_short {A} (p : A -> bool) (l : list A) :
  (length (List.filter p l) < length l)%nat -> exists x, In x l /\ p x = false.
Proof.
  induction l as [|y l IH]; cbn [List.filter length]; [lia|].
  destruct (p y) eqn:Hy; cbn [length]; intros Hlt.
  - destruct IH as (x & Hx & Hp); [lia|]. exists x. split; [now right | exact Hp].
  - exists y. split; [now left | exact Hy].
Qed.

Lemma filter_full {A} (p : A -> bool) (l : list A) :
  length (List.filter p l) = length l -> forall x, In x l -> p x = true.
Proof.
  intros Hlen x Hx. destruct (p x) eqn:Hp; [reflexivity|]. exfalso.
  induction l as [|y l IH]; [destruct Hx|]. cbn [List.filter length] in Hlen.
  pose proof (List.filter_length_le p l) as Hle.
  destruct (p y) eqn:Hy; cbn [length] in Hlen; [|lia].
  destruct Hx as [-> | Hx]; [congruence|]. apply IH; [lia | exact Hx].
Qed.

Lemma length_filter_split {A} (p q : A -> bool) (l : list A) :
  (forall x, In x l -> xorb (p x) (q x) = true) ->
  length l = (length (List.filter p l) + length (List.filter q l))%nat.
Proof.
  induction l as [|y l IH]; intros Hone; cbn [List.filter length]; [reflexivity|].
  pose proof (Hone y (or_introl eq_refl)) as Hy.
  rewrite IH by (intros x Hx; apply Hone; now right).
  destruct (p y), (q y); cbn [length]; try discriminate; lia.
Qed.

Lemma idCount_filter_room (rooms : list DerivedRoom) (p : DerivedRoom -> bool)
    (room : DerivedRoom) :
  NoDup (map d_room rooms) -> In room rooms ->
  idCount (d_room room) (List.filter p rooms) = if p room then 1%nat else 0%nat.
Proof.
  intros Hnd Hin. unfold idCount. rewrite filter_comm.
  assert (Hone : List.filter (fun r => String.eqb (d_room r) (d_room room)) rooms = [room]).
  { clear p. induction rooms as [|x rooms IH]; [destruct Hin|].
    cbn [map] in Hnd. apply NoDup_cons in Hnd as [Hx Hnd]. cbn [List.filter].
    destruct Hin as [-> | Hin].
    - rewrite String.eqb_refl. f_equal. apply filter_nil_iff. intros y Hy.
      apply String.eqb_neq. intros Heq. apply Hx. rewrite <- Heq.
      apply list_elem_of_In. now apply in_map.
    - destruct (String.eqb_spec (d_room x) (d_room room)) as [Heq | Hne].
      + exfalso. apply Hx. rewrite Heq. apply list_elem_of_In. now apply in_map.
      + now apply IH. }
  rewrite Hone. cbn [List.filter]. now destruct (p room).
Qed.

Lemma filter_marks_split (p : NurseState -> bool) (l1 l2 : list NurseState)
    (n : NurseState) :
  length (List.filter p (l1 ++ n :: l2)) =
  (length (List.filter p l1) + (if p n then 1 else 0) + length (List.filter p l2))%nat.
Proof.
  rewrite List.filter_app, length_app. cbn [List.filter].
  destruct (p n); cbn [length]; lia.
Qed.

Lemma spread_step (rooms : list DerivedRoom) (ids : list Z) (N : nat)
    (room : DerivedRoom) (es es' : EngineState) :
  NoDup (map d_room rooms) ->
  (forall r, In r rooms -> oneOfBfiCs (d_labels r) = true) ->
  engineInvariant rooms ids es -> In room rooms ->
  assignment es !! d_room room = None ->
  spreadInvariant rooms N es ->
  roundRobinStep room es = Ok es' ->
  spreadInvariant rooms N es'.
Proof.
  intros Hnd Hone Hinv Hroom Hfresh [Hlen Hmarks Hb Hc] Hstep.
  pose proof (engineInvariant_NoDup _ _ _ Hinv) as Hids.
  pose proof (proj2 (Map_has_false _ _) Hfresh) as Hhas.
  pose proof (Hone room Hroom) as Hx. unfold oneOfBfiCs in Hx.
  unfold roundRobinStep in Hstep.
  destruct (roundRobinChoice room es) as [chosen|] eqn:Hch; [|discriminate].
  injection Hstep as <-.
  destruct (roundRobinChoice_Some _ _ _ Hch) as [Hin Hrem].
  destruct (updateNurseState_split room _ _ Hids Hin) as (l1 & l2 & Hst & Hup).
  assert (Hav : avoidsDuplicate room chosen = true).
  { apply (roundRobinChoice_prefers_no_duplicate room es chosen Hch).
    destruct (isY (bfi (d_labels room))) eqn:Hbfi, (isY (cs (d_labels room))) eqn:Hcs;
      try discriminate.
    - assert (Hleft : (0 < unassignedCount
                             (List.filter (fun r => isY (bfi (d_labels r))) rooms)
                             (assignment es))%nat).
      { apply (unassignedCount_pos _ _ room); [|exact Hhas].
        apply filter_In. split; assumption. }
      destruct (filter_short hasBfi (state es)) as (n & Hn & Hnb); [lia|].
      exists n. split; [exact Hn|]. destruct (Hmarks n Hn) as [Hcount Hcap]. split.
      + rewrite Hnb in Hcount. destruct (hasCs n); cbn in Hcount; lia.
      + unfold avoidsDuplicate. now rewrite Hbfi, Hcs, Hnb.
    - assert (Hleft : (0 < unassignedCount
                             (List.filter (fun r => isY (cs (d_labels r))) rooms)
                             (assignment es))%nat).
      { apply (unassignedCount_pos _ _ room); [|exact Hhas].
        apply filter_In. split; assumption. }
      destruct (filter_short hasCs (state es)) as (n & Hn & Hnc); [lia|].
      exists n. split; [exact Hn|]. destruct (Hmarks n Hn) as [Hcount Hcap]. split.
      + rewrite Hnc in Hcount. destruct (hasBfi n); cbn in Hcount; lia.
      + unfold avoidsDuplicate. now rewrite Hbfi, Hcs, Hnc. }
  destruct (Hmarks chosen Hin) as [Hcount Hcap].
  unfold avoidsDuplicate in Hav.
  rewrite Hst in Hb, Hc, Hlen. rewrite filter_marks_split in Hb, Hc.
  rewrite (unassignedCount_insert _ (assignment es) (d_room room) (nurseId chosen) Hhas),
    (idCount_filter_room rooms _ room Hnd Hroom) in Hb.
  rewrite (unassignedCount_insert _ (assignment es) (d_room room) (nurseId chosen) Hhas),
    (idCount_filter_room rooms _ room Hnd Hroom) in Hc.
  constructor; cbn [state assignment]; rewrite Hup.
  - rewrite <- Hlen, !length_app. reflexivity.
  - intros n Hn. apply in_app_iff in Hn as [Hn | [<- | Hn]].
    + apply Hmarks. rewrite Hst. apply in_or_app. now left.
    + cbn [recordRoom nAssigned remaining hasBfi hasCs].
      destruct (isY (bfi (d_labels room))), (isY (cs (d_labels room))),
        (hasBfi chosen), (hasCs chosen); try discriminate; cbn in *; lia.
    + apply Hmarks. rewrite Hst. apply in_or_app. right. now right.
  - rewrite filter_marks_split. cbn [recordRoom hasBfi].
    destruct (isY (bfi (d_labels room))), (isY (cs (d_labels room))),
      (hasBfi chosen); try discriminate; lia.
  - rewrite filter_marks_split. cbn [recordRoom hasCs].
    destruct (isY (bfi (d_labels room))), (isY (cs (d_labels room))),
      (hasBfi chosen), (hasCs chosen); try discriminate; lia.
Qed.

Lemma forEach_roundRobinStep_spread (rooms : list DerivedRoom) (ids : list Z) (N : nat)
    (l : list DerivedRoom) :
  NoDup (map d_room rooms) ->
  (forall r, In r rooms -> oneOfBfiCs (d_labels r) = true) ->
  NoDup (map d_room l) ->
  forall es es', engineInvariant rooms ids es ->
  (forall r, In r l -> In r rooms /\ assignment es !! d_room r = None) ->
  spreadInvariant rooms N es ->
  forEach roundRobinStep l es = Ok es' -> spreadInvariant rooms N es'.
Proof.
  intros Hnd Hone. induction l as [|x l IH]; intros Hl es es' Hinv Hfresh Hsp;
    cbn [forEach].
  - now intros [= <-].
  - intros Hrun. apply bind_Ok_inv in Hrun as (es1 & Hstep & Hrun).
    cbn [map] in Hl. apply NoDup_cons in Hl as [Hx Hl].
    destruct (Hfresh x (or_introl eq_refl)) as [Hxin Hxfresh].
    pose proof (roundRobinStep_assigns x es es1 (engineInvariant_NoDup _ _ _ Hinv) Hstep)
      as Has.
    pose proof (engineInvariant_assigns localeCompare rooms ids x es es1 Hinv Has Hxfresh
                  (in_map d_room _ _ Hxin)) as Hinv1.
    destruct (assignment_assigns _ _ _ Has) as (v & _ & Hmap).
    apply (IH Hl es1 es' Hinv1); [| |exact Hrun].
    + intros r Hr. destruct (Hfresh r (or_intror Hr)) as [Hrin Hrf].
      split; [exact Hrin|]. rewrite Hmap, lookup_insert_ne; [exact Hrf|].
      intros Heq. apply Hx. rewrite Heq. apply list_elem_of_In. now apply in_map.
    + exact (spread_step rooms ids N x es es1 Hnd Hone Hinv Hxin Hxfresh Hsp Hstep).
Qed.

Lemma assignRoundRobin_spread (rooms data : list DerivedRoom) (ids : list Z) (N : nat)
    (direction : SortDirection) (es es' : EngineState) :
  NoDup (map d_room rooms) ->
  (forall r, In r rooms -> oneOfBfiCs (d_labels r) = true) ->
  engineInvariant rooms ids es ->
  NoDup (map d_room data) -> (forall r, In r data -> In r rooms) ->
  spreadInvariant rooms N es ->
  assignRoundRobin localeCompare data direction es = Ok es' ->
  spreadInvariant rooms N es'.
Proof.
  intros Hnd Hone Hinv Hdata Hincl Hsp. unfold assignRoundRobin.
  apply (forEach_roundRobinStep_spread rooms ids N); try assumption.
  - apply NoDup_map_filter. now apply js_sort_NoDup_map.
  - intros r Hr. apply filter_In in Hr as [Hr Hfree].
    apply js_sort_In in Hr. split; [now apply Hincl|].
    apply Map_has_false. unfold notYetAssigned in Hfree.
    now destruct (Map_has (assignment es) (d_room r)).
Qed.

Lemma tagged_roomsForNurse_buildPerRoom (derived : list DerivedRoom)
    (aMap ranks : gmap string Z) (total : Z) (col : LabelKey) (k : Z) :
  length (List.filter (fun room => isY (getLabel col (pr_labels room)))
            (roomsForNurse (buildPerRoom derived aMap ranks total) k)) =
  length (List.filter (fun r => isY (getLabel col (d_labels r)))
            (roomsOfNurse derived aMap k)).
Proof.
  unfold roomsForNurse, buildPerRoom, roomsOfNurse.
  rewrite (Permutation_length
             (filter_perm _ _ _ (filter_perm _ _ _ (js_sort_perm _ _)))).
  rewrite !filter_map_commute, length_map. cbn [nurse_id pr_labels].
  induction derived as [|x l IH]; cbn [List.filter]; [reflexivity|].
  destruct (aMap !! d_room x) as [v|] eqn:Hx.
  - assert (Hhas : Map_has aMap (d_room x) = true) by (unfold Map_has; now rewrite Hx).
    rewrite Hhas. cbn [List.filter]. rewrite Hx.
    change (default 0 (Some v)) with v.
    destruct (Z.eqb_spec v k) as [-> | Hne].
    + rewrite bool_decide_eq_true_2 by reflexivity. cbn [List.filter].
      destruct (isY (getLabel col (d_labels x))); cbn [length]; now rewrite IH.
    + rewrite bool_decide_eq_false_2 by congruence. exact IH.
  - assert (Hhas : Map_has aMap (d_room x) = false) by (unfold Map_has; now rewrite Hx).
    rewrite Hhas. rewrite bool_decide_eq_false_2 by discriminate. exact IH.
Qed.

Lemma spread_initial (rows : list AssignmentInputRow) (N : nat) :
  (1 <= N)%nat ->
  let derived := map deriveRoom rows in
  (forall r, In r derived -> oneOfBfiCs (d_labels r) = true) ->
  length (List.filter (fun r => isY (bfi (d_labels r))) derived) = N ->
  length (List.filter (fun r => isY (cs (d_labels r))) derived) = N ->
  spreadInvariant derived N
    {| state := buildInitialState (plannedCapacities rows N);
       assignment := ∅; roundRobinIndex := 0 |}.
Proof.
  intros HN derived Hone Hb Hc.
  assert (Hlen : length rows = (N + N)%nat).
  { rewrite <- (length_map deriveRoom rows). fold derived.
    rewrite (length_filter_split (fun r => isY (bfi (d_labels r)))
               (fun r => isY (cs (d_labels r))) derived Hone).
    now rewrite Hb, Hc. }
  assert (Hfree : forall l : list DerivedRoom,
            unassignedCount l (∅ : gmap string Z) = length l).
  { intros l. unfold unassignedCount. f_equal. apply filter_all.
    intros r _. unfold Map_has. now rewrite lookup_empty. }
  assert (Hclean : forall n, In n (buildInitialState (plannedCapacities rows N)) ->
            hasBfi n = false /\ hasCs n = false /\ nAssigned n = 0 /\ remaining n = 2).
  { intros n Hn. unfold buildInitialState, plannedCapacities, computeCapacities,
      Array_from in Hn. rewrite map_map in Hn.
    apply in_map_iff in Hn as (idx & <- & _).
    cbn [hasBfi hasCs nAssigned remaining capacity]. repeat split.
    rewrite Hlen. replace (Z.of_nat (N + N)) with (2 * Z.of_nat N) by lia.
    rewrite Z.rem_mul by lia. rewrite Z.div_mul by lia.
    destruct (Z.ltb_spec (Z.of_nat idx) 0); [lia | reflexivity]. }
  constructor; cbn [state assignment].
  - unfold buildInitialState, plannedCapacities.
    now rewrite length_map, length_computeCapacities.
  - intros n Hn. destruct (Hclean n Hn) as (-> & -> & -> & ->). cbn. lia.
  - rewrite Hfree, Hb. rewrite (proj2 (filter_nil_iff _ _)); [reflexivity|].
    intros n Hn. now destruct (Hclean n Hn) as (-> & _).
  - rewrite Hfree, Hc. rewrite (proj2 (filter_nil_iff _ _)); [reflexivity|].
    intros n Hn. now destruct (Hclean n Hn) as (_ & -> & _).
Qed.

Lemma spread_final (rooms : list DerivedRoom) (ids : list Z) (N : nat)
    (es : EngineState) (k : Z) :
  (forall r, In r rooms -> oneOfBfiCs (d_labels r) = true) ->
  engineInvariant rooms ids es -> stateAgrees rooms es -> spreadInvariant rooms N es ->
  dom (assignment es) = list_to_set (map d_room rooms) ->
  In k ids ->
  length (List.filter (fun r => isY (bfi (d_labels r)))
            (roomsOfNurse rooms (assignment es) k)) = 1%nat /\
  length (List.filter (fun r => isY (cs (d_labels r)))
            (roomsOfNurse rooms (assignment es) k)) = 1%nat.
Proof.
  intros Hone Hinv Hag [Hlen Hmarks Hb Hc] Hdom Hk.
  assert (Hdone : forall p : DerivedRoom -> bool,
            unassignedCount (List.filter p rooms) (assignment es) = 0%nat).
  { intros p. unfold unassignedCount.
    rewrite (proj2 (filter_nil_iff _ _)); [reflexivity|].
    intros r Hr. apply filter_In in Hr as [Hr _].
    rewrite (proj2 (Map_has_true (assignment es) (d_room r))); [reflexivity|].
    rewrite Hdom. apply elem_of_list_to_set, list_elem_of_In. now apply in_map. }
  rewrite Hdone in Hb, Hc.
  rewrite <- (inv_ids _ _ _ Hinv) in Hk. apply in_map_iff in Hk as (n & <- & Hn).
  assert (Hbn : hasBfi n = true) by (apply (filter_full hasBfi (state es)); [lia | exact Hn]).
  assert (Hcn : hasCs n = true) by (apply (filter_full hasCs (state es)); [lia | exact Hn]).
  destruct (Hmarks n Hn) as [Hcount _]. rewrite Hbn, Hcn in Hcount. cbn in Hcount.
  rewrite (agree_count _ _ Hag n Hn) in Hcount.
  set (mine := roomsOfNurse rooms (assignment es) (nurseId n)) in *.
  assert (Hsplit : length mine =
            (length (List.filter (fun r => isY (bfi (d_labels r))) mine) +
             length (List.filter (fun r => isY (cs (d_labels r))) mine))%nat).
  { apply length_filter_split. intros r Hr. apply Hone.
    unfold mine, roomsOfNurse in Hr. now apply filter_In in Hr as [Hr _]. }
  assert (Hpos : forall p : DerivedRoom -> bool,
            (exists r, In r mine /\ p r = true) -> (0 < length (List.filter p mine))%nat).
  { intros p (r & Hr & Hp).
    assert (Hin : In r (List.filter p mine)) by (apply filter_In; now split).
    destruct (List.filter p mine); [destruct Hin | cbn [length]; lia]. }
  pose proof (Hpos _ (proj1 (agree_bfi _ _ Hag n Hn) Hbn)) as Hb1.
  pose proof (Hpos _ (proj1 (agree_cs _ _ Hag n Hn) Hcn)) as Hc1.
  lia.
Qed.

Lemma spread_run (rows : list AssignmentInputRow) (N : nat) (tz : string) :
  NoDup (map room rows) -> (1 <= N)%nat ->
  (forall row, In row rows ->
     isY (discharge (labels row)) || isY (under_24 (labels row))
     || isY (over_24 (labels row)) = true /\
     oneOfBfiCs (labels row) = true) ->
  length (List.filter (fun row => isY (bfi (labels row))) rows) = N ->
  length (List.filter (fun row => isY (cs (labels row))) rows) = N ->
  exists res,
    assignRooms localeCompare formatClock rows N tz = Ok res /\
    Forall (fun row => labelCount k_bfi row = 1 /\ labelCount k_cs row = 1)
           (perNurse res).
Proof.
  intros Hnd HN Hall Hb Hc.
  set (derived := map deriveRoom rows).
  assert (Hndd : NoDup (map d_room derived)).
  { unfold derived. now rewrite d_room_deriveRoom. }
  assert (Hone : forall r, In r derived -> oneOfBfiCs (d_labels r) = true).
  { intros r Hr. apply in_map_iff in Hr as (row & <- & Hrow). now apply Hall. }
  assert (Hphase : forall r, In r derived -> phaseTagged r = true).
  { intros r Hr. apply in_map_iff in Hr as (row & <- & Hrow). now apply Hall. }
  assert (Hb' : length (List.filter (fun r => isY (bfi (d_labels r))) derived) = N).
  { unfold derived. now rewrite filter_map_commute, length_map. }
  assert (Hc' : length (List.filter (fun r => isY (cs (d_labels r))) derived) = N).
  { unfold derived. now rewrite filter_map_commute, length_map. }
  assert (Hne : rows <> []).
  { intros ->. cbn in Hb. lia. }
  destruct (run_ok localeCompare rows N Hnd HN) as (es & Hrun & Hinv & Hdom).
  fold derived in Hrun, Hinv.
  pose proof (initial_invariant_rows rows N HN) as Hinv0. fold derived in Hinv0.
  pose proof (spread_initial rows N HN Hone Hb' Hc') as Hsp0. fold derived in Hsp0.
  destruct (run_phases rows N es Hnd HN Hrun)
    as (es1 & es2 & es3 & H1 & H2 & H3 & _ & _ & _ & _ & _ & Hsame).
  fold derived in H1, H2, H3, Hsame. specialize (Hsame Hphase). subst es3.
  set (ids := map (fun idx : nat => Z.of_nat idx + 1) (seq 0 N)) in *.
  destruct (assignRoundRobin_ok localeCompare derived _ ids oldest _ Hndd Hinv0
              (NoDup_map_filter d_room (fun r => isY (discharge (d_labels r))) derived Hndd)
              (filter_incl _ derived))
    as (es1' & H1' & Hinv1 & _).
  assert (es1' = es1) by congruence. subst es1'.
  pose proof (assignRoundRobin_spread derived _ ids N oldest _ es1 Hndd Hone Hinv0
                (NoDup_map_filter d_room (fun r => isY (discharge (d_labels r))) derived Hndd)
                (filter_incl _ derived) Hsp0 H1) as Hsp1.
  destruct (assignRoundRobin_ok localeCompare derived _ ids oldest _ Hndd Hinv1
              (NoDup_map_filter d_room (fun r => isY (under_24 (d_labels r))) derived Hndd)
              (filter_incl _ derived))
    as (es2' & H2' & Hinv2 & _).
  assert (es2' = es2) by congruence. subst es2'.
  pose proof (assignRoundRobin_spread derived _ ids N oldest _ es2 Hndd Hone Hinv1
                (NoDup_map_filter d_room (fun r => isY (under_24 (d_labels r))) derived Hndd)
                (filter_incl _ derived) Hsp1 H2) as Hsp2.
  pose proof (assignRoundRobin_spread derived _ ids N oldest _ es Hndd Hone Hinv2
                (NoDup_map_filter d_room (fun r => isY (over_24 (d_labels r))) derived Hndd)
                (filter_incl _ derived) Hsp2 H3) as Hsp.
  assert (Hag : stateAgrees derived es).
  { apply (stateAgrees_reachable derived ids _ es Hndd Hinv0); [apply stateAgrees_initial|].
    exact (assignRoomsToState_fresh _ _ _ _ _ Hndd Hinv0 Hrun). }
  rewrite (assignRooms_nonempty localeCompare formatClock rows N tz Hne).
  fold derived. rewrite Hrun, bind_Ok.
  eexists. split; [reflexivity|]. cbn [perNurse perRoom].
  apply List.Forall_forall. intros row Hrow.
  rewrite !(labelCount_row _ _ _ _ _ Hrow), !tagged_roomsForNurse_buildPerRoom.
  assert (Hk : In (ns_nurse_id row) ids).
  { pose proof (in_map ns_nurse_id _ _ Hrow) as Hid.
    now rewrite nurse_ids_buildPerNurse in Hid. }
  rewrite <- d_room_deriveRoom in Hdom. fold derived in Hdom.
  destruct (spread_final derived ids N es (ns_nurse_id row) Hone Hinv Hag Hsp Hdom Hk)
    as [Hb1 Hc1].
  cbn [getLabel]. rewrite Hb1, Hc1. split; reflexivity.
Qed.

(** C3 (as the code has it).  For rooms with pairwise distinct ids and
    [N >= 1] nurses, in every state a run can reach:

    - a round-robin step gives the room to a nurse with capacity left, and
      to one who already holds a bfi room (the room being tagged bfi) or a
      cs room (the room being tagged cs) only when every nurse with capacity
      left already holds such a room;
    - a scored step gives the room to a nurse with capacity left, and a
      nurse who already holds such a room is not excluded: its score is the
      score before the penalty, which does not depend on the marks, plus 50
      for a second bfi room and 75 for a second cs room; where the
      comparator orders the scores of the candidates, the chosen nurse is
      the first of them.

    When every room is tagged discharge, under_24 or over_24 and carries
    exactly one of bfi and cs, with [N] bfi rooms and [N] cs rooms, every
    nurse ends with exactly one bfi room and one cs room; three over_24+bfi
    rooms, three over_24+cs rooms and 3 nurses are such an input. *)
Theorem duplicates_avoided_when_possible (rows : list AssignmentInputRow) (N : nat)
    (tz : string) :
  NoDup (map room rows) -> (1 <= N)%nat ->
  let derived := map deriveRoom rows in
  let capacities := plannedCapacities rows N in
  let capacityMap :=
    Map_of_entries (map (fun cap => (cap_nurseId cap, capacity cap)) capacities) in
  let start := {| state := buildInitialState capacities;
                  assignment := ∅; roundRobinIndex := 0 |} in
  (forall es room es',
     rtc (freshStep derived) start es ->
     roundRobinStep room es = Ok es' ->
     exists chosen, In chosen (state es) /\ 0 < remaining chosen /\
       assignment es' = <[d_room room := nurseId chosen]> (assignment es) /\
       (wouldRepeat derived (assignment es) room (nurseId chosen) = true ->
        forall n, In n (state es) -> 0 < remaining n ->
          wouldRepeat derived (assignment es) room (nurseId n) = true)) /\
  (forall es room es',
     rtc (freshStep derived) start es ->
     assignment es !! d_room room = None ->
     assignWithScoring capacities capacityMap room es = Ok es' ->
     let sc := scoreNurse room (state es) capacities capacityMap in
     let candidate := fun n : NurseState => In n (state es) /\ 0 < remaining n in
     exists chosen, candidate chosen /\
       assignment es' = <[d_room room := nurseId chosen]> (assignment es) /\
       (forall n, In n (state es) ->
          score (sc n) =
          nadd (scoreBeforePenalty room (state es) capacities capacityMap n)
               (repeatPenaltyFor derived (assignment es) room (nurseId n))) /\
       (forall a b, sameButMarks a b ->
          scoreBeforePenalty room (state es) capacities capacityMap a =
          scoreBeforePenalty room (state es) capacities capacityMap b) /\
       ((forall a b, candidate a -> candidate b ->
           scoredFirst (sc a) (sc b) \/ scoredFirst (sc b) (sc a)) ->
        (forall a b c, candidate a -> candidate b -> candidate c ->
           scoredFirst (sc a) (sc b) -> scoredFirst (sc b) (sc c) ->
           scoredFirst (sc a) (sc c)) ->
        forall other, candidate other -> scoredFirst (sc chosen) (sc other))) /\
  ((forall row, In row rows ->
      isY (discharge (labels row)) || isY (under_24 (labels row))
      || isY (over_24 (labels row)) = true /\
      oneOfBfiCs (labels row) = true) ->
   length (List.filter (fun row => isY (bfi (labels row))) rows) = N ->
   length (List.filter (fun row => isY (cs (labels row))) rows) = N ->
   exists res,
     assignRooms localeCompare formatClock rows N tz = Ok res /\
     Forall (fun row => labelCount k_bfi row = 1 /\ labelCount k_cs row = 1)
            (perNurse res)).
Proof.
  intros Hnd HN derived capacities capacityMap start.
  assert (Hndd : NoDup (map d_room derived)).
  { unfold derived. now rewrite d_room_deriveRoom. }
  pose proof (initial_invariant_rows rows N HN) as Hinv0.
  fold derived capacities start in Hinv0.
  assert (Hreach : forall es, rtc (freshStep derived) start es ->
            engineInvariant derived (map (fun idx : nat => Z.of_nat idx + 1) (seq 0 N)) es /\
            stateAgrees derived es).
  { intros es Hsteps. split.
    - exact (engineInvariant_fresh derived _ start es Hinv0 Hsteps).
    - apply (stateAgrees_reachable derived _ start es Hndd Hinv0); [|exact Hsteps].
      apply stateAgrees_initial. }
  split; [|split].
  - intros es room es' Hsteps Hstep. destruct (Hreach es Hsteps) as [_ Hag].
    exact (roundRobinStep_repeat derived es es' room Hag Hstep).
  - intros es room es' Hsteps Hfresh Hstep sc candidate.
    destruct (Hreach es Hsteps) as [Hinv Hag].
    destruct (assignWithScoring_repeat derived _ es es' room capacities capacityMap
                Hinv Hag Hfresh Hstep) as (chosen & Hc & Hmap & Hscore & Hmin).
    exists chosen. split; [exact Hc|]. split; [exact Hmap|]. split; [exact Hscore|].
    split; [|exact Hmin]. intros a b. apply scoreBeforePenalty_marks.
  - exact (spread_run rows N tz Hnd HN).
Qed.

End EngineExtras.

(** ** The score order on exact rationals *)

Lemma compareScored_le (a b : @Scored QNumber) :
  compareScored a b <= 0 -> scoredBefore a b.
Proof.
  unfold compareScored, scoredBefore. cbn [nsign nsub QNumber].
  destruct (Qcompare_spec (Qred (score a - score b)) 0) as [Heq|Hlt|Hgt];
    rewrite Qred_correct in *; intros Hc.
  - right. split; [lra | lia].
  - left. lra.
  - lia.
Qed.

Lemma compareScored_gt (a b : @Scored QNumber) :
  0 < compareScored a b -> scoredBefore b a.
Proof.
  unfold compareScored, scoredBefore. cbn [nsign nsub QNumber].
  destruct (Qcompare_spec (Qred (score a - score b)) 0) as [Heq|Hlt|Hgt];
    rewrite Qred_correct in *; intros Hc.
  - right. split; [lra | lia].
  - lia.
  - left. lra.
Qed.

Lemma scoredBefore_trans (a b c : @Scored QNumber) :
  scoredBefore a b -> scoredBefore b c -> scoredBefore a c.
Proof.
  unfold scoredBefore. intros [Hab | [Hab Hiab]] [Hbc | [Hbc Hibc]].
  - left. lra.
  - left. lra.
  - left. lra.
  - right. split; [lra | lia].
Qed.

Lemma scoredBefore_le (a b : @Scored QNumber) :
  scoredBefore a b -> compareScored a b <= 0.
Proof.
  unfold compareScored, scoredBefore. cbn [nsign nsub QNumber].
  destruct (Qcompare_spec (Qred (score a - score b)) 0) as [Heq|Hlt|Hgt];
    rewrite Qred_correct in *; intros [Hab | [Hab Hid]]; (lia || lra).
Qed.

(** ** The order of the input rows does not matter *)

Lemma js_sort_perm_eq {A} (cmp : A -> A -> Z) (l l' : list A) :
  (forall a b c, cmp a b <= 0 -> cmp b c <= 0 -> cmp a c <= 0) ->
  (forall a b, 0 < cmp a b -> cmp b a <= 0) ->
  (forall a b, In a l -> In b l -> cmp a b <= 0 -> cmp b a <= 0 -> a = b) ->
  Permutation l l' -> js_sort cmp l = js_sort cmp l'.
Proof.
  intros Htrans Htotal Hanti Hperm.
  apply (sorted_perm_unique (fun a b => cmp a b <= 0)).
  - intros a b Ha Hb. apply Hanti; now apply (js_sort_In cmp l).
  - apply js_sort_sorted; auto.
  - apply js_sort_sorted; auto.
  - rewrite !js_sort_perm. exact Hperm.
Qed.

Lemma minOrNull_perm (xs ys : list Z) :
  Permutation xs ys -> minOrNull xs = minOrNull ys.
Proof.
  intros Hperm.
  pose proof (minOrNull_spec xs) as Hx. pose proof (minOrNull_spec ys) as Hy.
  destruct (minOrNull xs) as [m|], (minOrNull ys) as [m'|].
  - destruct Hx as [Hin Hall], Hy as [Hin' Hall'].
    pose proof (Hall m' (Permutation_in _ (Permutation_sym Hperm) Hin')).
    pose proof (Hall' m (Permutation_in _ Hperm Hin)).
    f_equal. lia.
  - subst ys. apply Permutation_sym, Permutation_nil in Hperm. subst xs.
    destruct Hx as [[] _].
  - subst xs. apply Permutation_nil in Hperm. subst ys. destruct Hy as [[] _].
  - reflexivity.
Qed.

Lemma fold_left_max_spec (l : list Z) (a : Z) :
  (fold_left Z.max l a = a \/ In (fold_left Z.max l a) l) /\
  a <= fold_left Z.max l a /\
  forall x, In x l -> x <= fold_left Z.max l a.
Proof.
  revert a. induction l as [|y l IH]; intros a; cbn [fold_left].
  - split; [now left|]. split; [lia | intros x []].
  - destruct (IH (Z.max a y)) as (Hin & Hle & Hall). split; [|split].
    + destruct Hin as [Heq | Hin]; [|right; now right].
      rewrite Heq. destruct (Z.max_spec a y) as [[_ ->] | [_ ->]]; [|now left].
      right. now left.
    + lia.
    + intros x [<- | Hx]; [lia | now apply Hall].
Qed.

Lemma maxOrNull_spec (xs : list Z) :
  match maxOrNull xs with
  | None => xs = []
  | Some m => In m xs /\ forall x, In x xs -> x <= m
  end.
Proof.
  destruct xs as [|a l]; cbn [maxOrNull]; [reflexivity|].
  destruct (fold_left_max_spec l a) as (Hin & Hle & Hall). split.
  - destruct Hin as [-> | Hin]; [now left | now right].
  - intros x [<- | Hx]; [exact Hle | now apply Hall].
Qed.

Lemma maxOrNull_perm (xs ys : list Z) :
  Permutation xs ys -> maxOrNull xs = maxOrNull ys.
Proof.
  intros Hperm.
  pose proof (maxOrNull_spec xs) as Hx. pose proof (maxOrNull_spec ys) as Hy.
  destruct (maxOrNull xs) as [m|], (maxOrNull ys) as [m'|].
  - destruct Hx as [Hin Hall], Hy as [Hin' Hall'].
    pose proof (Hall m' (Permutation_in _ (Permutation_sym Hperm) Hin')).
    pose proof (Hall' m (Permutation_in _ Hperm Hin)).
    f_equal. lia.
  - subst ys. apply Permutation_sym, Permutation_nil in Hperm. subst xs.
    destruct Hx as [[] _].
  - subst xs. apply Permutation_nil in Hperm. subst ys. destruct Hy as [[] _].
  - reflexivity.
Qed.

Lemma fold_left_pointwise {A B} (f g : A -> B -> A) (l : list B) (a : A) :
  (forall acc x, f acc x = g acc x) -> fold_left f l a = fold_left g l a.
Proof.
  intros Hfg. revert a. induction l as [|x l IH]; intros a; cbn [fold_left]; [reflexivity|].
  now rewrite Hfg, IH.
Qed.

Section RowOrder.
Context `{JSNumber}.
Variable localeCompare : string -> string -> Z.
Variable formatClock : DateTime -> string -> string.
Hypothesis lc_total : forall a b, 0 < localeCompare a b -> localeCompare b a <= 0.
Hypothesis lc_trans : forall a b c,
  localeCompare a b <= 0 -> localeCompare b c <= 0 -> localeCompare a c <= 0.
Hypothesis lc_antisym : forall a b,
  localeCompare a b <= 0 -> localeCompare b a <= 0 -> a = b.

Lemma sortByAgeThenTime_perm (data data' : list DerivedRoom) (direction : SortDirection) :
  NoDup (map d_room data) -> Permutation data data' ->
  sortByAgeThenTime localeCompare data direction =
  sortByAgeThenTime localeCompare data' direction.
Proof.
  intros Hnd Hperm. unfold sortByAgeThenTime. apply js_sort_perm_eq; [| | |exact Hperm].
  - intros a b c. unfold compareByAgeThenTime.
    pose proof (lc_trans (d_room a) (d_room b) (d_room c)).
    destruct direction; cases_eqb; lia.
  - intros a b. unfold compareByAgeThenTime.
    pose proof (lc_total (d_room a) (d_room b)).
    destruct direction; cases_eqb; lia.
  - intros a b Ha Hb Hab Hba. apply (NoDup_map_inj d_room data a b Hnd Ha Hb).
    apply lc_antisym; revert Hab Hba; unfold compareByAgeThenTime;
      destruct direction; cases_eqb; lia.
Qed.

Lemma sortByTime_perm (rooms rooms' : list DerivedRoom) :
  NoDup (map d_room rooms) -> Permutation rooms rooms' ->
  js_sort (compareByTime localeCompare) rooms = js_sort (compareByTime localeCompare) rooms'.
Proof.
  intros Hnd Hperm. apply js_sort_perm_eq; [| | |exact Hperm].
  - intros a b c. unfold compareByTime.
    pose proof (lc_trans (d_room a) (d_room b) (d_room c)). cases_eqb; lia.
  - intros a b. unfold compareByTime.
    pose proof (lc_total (d_room a) (d_room b)). cases_eqb; lia.
  - intros a b Ha Hb Hab Hba. apply (NoDup_map_inj d_room rooms a b Hnd Ha Hb).
    apply lc_antisym; revert Hab Hba; unfold compareByTime; cases_eqb; lia.
Qed.

Lemma assignRoundRobin_perm (data data' : list DerivedRoom) (direction : SortDirection)
    (es : EngineState) :
  NoDup (map d_room data) -> Permutation data data' ->
  assignRoundRobin localeCompare data direction es =
  assignRoundRobin localeCompare data' direction es.
Proof.
  intros Hnd Hperm. unfold assignRoundRobin.
  now rewrite (sortByAgeThenTime_perm data data' direction Hnd Hperm).
Qed.

Lemma assignRoomsToState_perm (rooms rooms' : list DerivedRoom)
    (state0 : list NurseState) (capacities : list NurseCapacity) :
  NoDup (map d_room rooms) -> Permutation rooms rooms' ->
  assignRoomsToState localeCompare rooms state0 capacities =
  assignRoomsToState localeCompare rooms' state0 capacities.
Proof.
  intros Hnd Hperm. unfold assignRoomsToState.
  rewrite (assignRoundRobin_perm _ (List.filter (fun room => isY (discharge (d_labels room))) rooms'))
    by (try apply NoDup_map_filter; try apply filter_perm; assumption).
  destruct (assignRoundRobin _ _ _ _) as [es1|e]; [|reflexivity]. rewrite !bind_Ok.
  rewrite (assignRoundRobin_perm _ (List.filter (fun room => isY (under_24 (d_labels room))) rooms'))
    by (try apply NoDup_map_filter; try apply filter_perm; assumption).
  destruct (assignRoundRobin _ _ _ _) as [es2|e]; [|reflexivity]. rewrite !bind_Ok.
  rewrite (assignRoundRobin_perm _ (List.filter (fun room => isY (over_24 (d_labels room))) rooms'))
    by (try apply NoDup_map_filter; try apply filter_perm; assumption).
  destruct (assignRoundRobin _ _ _ _) as [es3|e]; [|reflexivity]. rewrite !bind_Ok.
  unfold assignSequence.
  rewrite (sortByAgeThenTime_perm (List.filter (notYetAssigned es3) rooms)
             (List.filter (notYetAssigned es3) rooms') oldest)
    by (try apply NoDup_map_filter; try apply filter_perm; assumption).
  reflexivity.
Qed.

Lemma buildPerNurse_perm (perRoom perRoom' : list RoomAssignmentRow) (N : nat)
    (tz : string) :
  Permutation perRoom perRoom' ->
  Forall2 sameButLabel (buildPerNurse formatClock perRoom N tz)
                       (buildPerNurse formatClock perRoom' N tz).
Proof.
  intros Hperm. unfold buildPerNurse, Array_from. apply Forall2_map_same.
  intros idx. unfold sameButLabel.
  cbn [ns_nurse_id n_rooms oldest_rank_received youngest_rank_received label_counts].
  set (mine := List.filter _ perRoom). set (mine' := List.filter _ perRoom').
  assert (Hmine : Permutation mine mine') by now apply filter_perm.
  split; [reflexivity|]. split; [now rewrite (Permutation_length Hmine)|].
  split; [apply minOrNull_perm; now apply Permutation_map|].
  split; [apply maxOrNull_perm; now apply Permutation_map|].
  apply fold_left_pointwise. intros acc col.
  now rewrite (Permutation_length
                 (filter_perm (fun room => isY (getLabel col (pr_labels room))) _ _ Hmine)).
Qed.

(** X11. The assignment does not depend on the order of the rows.  When
    [localeCompare] orders the room ids totally (no two distinct ids tie),
    two lists holding the same rooms with pairwise distinct ids in
    different orders give the same capacities, the same assignment map and
    nurse array, per-room tables with the same rows, and per-nurse tables
    that agree in every column but the label text, whose rooms of equal
    rank follow the input order. *)
Theorem assignment_ignores_row_order (rows rows' : list AssignmentInputRow) (N : nat)
    (tz : string) :
  NoDup (map room rows) -> Permutation rows rows' ->
  plannedCapacities rows N = plannedCapacities rows' N /\
  assignRoomsToState localeCompare (map deriveRoom rows)
    (buildInitialState (plannedCapacities rows N)) (plannedCapacities rows N) =
  assignRoomsToState localeCompare (map deriveRoom rows')
    (buildInitialState (plannedCapacities rows' N)) (plannedCapacities rows' N) /\
  match assignRooms localeCompare formatClock rows N tz,
        assignRooms localeCompare formatClock rows' N tz with
  | Ok res, Ok res' =>
      Permutation (perRoom res) (perRoom res') /\
      Forall2 sameButLabel (perNurse res) (perNurse res')
  | Throw e, Throw e' => e = e'
  | _, _ => False
  end.
Proof.
  intros Hnd Hperm.
  assert (Hcaps : plannedCapacities rows N = plannedCapacities rows' N).
  { unfold plannedCapacities. now rewrite (Permutation_length Hperm). }
  assert (Hndd : NoDup (map d_room (map deriveRoom rows))).
  { now rewrite d_room_deriveRoom. }
  assert (Hpd : Permutation (map deriveRoom rows) (map deriveRoom rows'))
    by now apply Permutation_map.
  assert (Hrun : assignRoomsToState localeCompare (map deriveRoom rows)
            (buildInitialState (plannedCapacities rows N)) (plannedCapacities rows N) =
          assignRoomsToState localeCompare (map deriveRoom rows')
            (buildInitialState (plannedCapacities rows' N)) (plannedCapacities rows' N)).
  { rewrite <- Hcaps. now apply assignRoomsToState_perm. }
  split; [exact Hcaps|]. split; [exact Hrun|].
  destruct rows as [|row rows].
  { apply Permutation_nil in Hperm. subst rows'. cbn. split; constructor. }
  destruct rows' as [|row' rows'].
  { apply Permutation_sym, Permutation_nil in Hperm. discriminate. }
  rewrite !assignRooms_nonempty by discriminate. rewrite <- Hrun.
  destruct (assignRoomsToState _ _ _ _) as [es|e]; [|reflexivity].
  rewrite !bind_Ok. cbn [perRoom perNurse].
  assert (Hrooms : Permutation
            (buildPerRoom (map deriveRoom (row :: rows)) (assignment es)
               (denseRankOldest localeCompare (map deriveRoom (row :: rows)))
               (Z.of_nat (length (map deriveRoom (row :: rows)))))
            (buildPerRoom (map deriveRoom (row' :: rows')) (assignment es)
               (denseRankOldest localeCompare (map deriveRoom (row' :: rows')))
               (Z.of_nat (length (map deriveRoom (row' :: rows')))))).
  { unfold denseRankOldest.
    rewrite <- (sortByTime_perm _ _ Hndd Hpd), <- (Permutation_length Hpd).
    unfold buildPerRoom.
    etransitivity; [apply js_sort_perm|]. symmetry.
    etransitivity; [apply js_sort_perm|]. symmetry.
    apply Permutation_map. now apply filter_perm. }
  split; [exact Hrooms | now apply buildPerNurse_perm].
Qed.

End RowOrder.

(** ** Group keys and the roster *)

Lemma includes_In (l : list string) (s : string) : includes l s = true <-> In s l.
Proof.
  unfold includes. rewrite existsb_exists. split.
  - intros (x & Hx & Heq). apply String.eqb_eq in Heq. now subst.
  - intros Hin. exists s. split; [exact Hin | apply String.eqb_refl].
Qed.

Lemma includes_false (l : list string) (s : string) : includes l s = false <-> ~ In s l.
Proof.
  rewrite <- includes_In. destruct (includes l s); split; congruence.
Qed.


Lemma prefix_split (a s : string) :
  String.prefix a s = true -> exists rest, s = a +:+ rest.
Proof.
  revert s. induction a as [|c a IH]; intros s.
  - intros _. exists s. reflexivity.
  - destruct s as [|d s]; cbn [String.prefix]; [discriminate|].
    destruct (ascii_dec c d) as [<- | Hne]; [|discriminate].
    intros Hp. destruct (IH s Hp) as [rest ->]. exists rest. reflexivity.
Qed.

Lemma append_cons (x : ascii) (a b : string) : String x a +:+ b = String x (a +:+ b).
Proof. reflexivity. Qed.

Lemma append_assoc (a b c : string) : (a +:+ b) +:+ c = a +:+ (b +:+ c).
Proof.
  induction a as [|x a IH]; [reflexivity|]. rewrite !append_cons. now f_equal.
Qed.

(** X12. [roomGroupKey] gives no key to the empty room id only.  The key
    of a room is never empty; it is the bay number for a bed of one of the
    seven bays (an id made of the bay number, a dash and anything), so beds
    of one bay share their key, and the room id itself otherwise; either way
    the room id is the key or the key followed by a dash and a bed, and a
    key is its own key. *)
Theorem roomGroupKey_cases (room : string) :
  roomGroupKey None = None /\
  (roomGroupKey (Some room) = None <-> room = "") /\
  (forall g, roomGroupKey (Some room) = Some g ->
     g <> "" /\
     (g = room \/ In g bays /\ exists bed, room = g +:+ "-" +:+ bed) /\
     roomGroupKey (Some g) = Some g) /\
  (forall bay bed, In bay bays ->
     roomGroupKey (Some (bay +:+ "-" +:+ bed)) = Some bay).
Proof.
  split; [reflexivity|]. split; [|split].
  - unfold roomGroupKey. destruct (String.eqb_spec room "") as [-> | Hne].
    + split; reflexivity.
    + split; [|contradiction]. now destruct (List.find _ _).
  - intros g. unfold roomGroupKey at 1.
    destruct (String.eqb_spec room "") as [-> | Hne]; [discriminate|].
    destruct (List.find _ _) as [p|] eqn:Hfind; intros [= <-].
    + apply find_some in Hfind as [Hin Hp]. fold bays in Hin.
      apply prefix_split in Hp as [bed Hbed]. rewrite append_assoc in Hbed.
      split; [|split].
      * intros ->. cbn in Hin. intuition discriminate.
      * right. split; [exact Hin|]. now exists bed.
      * cbn in Hin.
        destruct Hin as [<-|[<-|[<-|[<-|[<-|[<-|[<-|[]]]]]]]]; reflexivity.
    + split; [exact Hne|]. split; [now left|].
      unfold roomGroupKey. apply String.eqb_neq in Hne. now rewrite Hne, Hfind.
  - intros bay bed Hin. cbn in Hin.
    destruct Hin as [<-|[<-|[<-|[<-|[<-|[<-|[<-|[]]]]]]]]; destruct bed; reflexivity.
Qed.

Lemma append_length (a b : string) :
  String.length (a +:+ b) = (String.length a + String.length b)%nat.
Proof.
  induction a as [|x a IH]; [reflexivity|]. rewrite append_cons. cbn [String.length].
  now rewrite IH.
Qed.

Lemma isValidRoom_roster (room : string) :
  (In room canonicalRooms -> isValidRoom (Some room) = true) /\
  (isValidRoom (Some room) = true -> In room canonicalRooms).
Proof.
  unfold isValidRoom. destruct (String.eqb_spec room "") as [-> | Hne].
  - split; [|discriminate]. cbn. intuition discriminate.
  - split; apply includes_In.
Qed.

(** X13. [formatRoomLabel] returns a room id unchanged exactly when
    [isValidRoom] accepts it, that is when it is one of the 26 rooms of the
    roster, and appends [" (unknown)"] otherwise; [isValidRoom] rejects a
    missing and an empty id. *)
Theorem formatRoomLabel_marks_unknown_rooms (room : string) :
  isValidRoom None = false /\ isValidRoom (Some "") = false /\
  (isValidRoom (Some room) = true <-> In room canonicalRooms) /\
  (formatRoomLabel room = room <-> isValidRoom (Some room) = true) /\
  (isValidRoom (Some room) = false -> formatRoomLabel room = room +:+ " (unknown)").
Proof.
  assert (Hinc : includes canonicalRooms room = true <-> In room canonicalRooms).
  { unfold includes. rewrite existsb_exists. split.
    - intros (x & Hx & Heq). apply String.eqb_eq in Heq. now subst.
    - intros Hin. exists room. split; [exact Hin | apply String.eqb_refl]. }
  assert (Hvalid : isValidRoom (Some room) = includes canonicalRooms room).
  { unfold isValidRoom. destruct (String.eqb_spec room "") as [-> | Hne]; reflexivity. }
  split; [reflexivity|]. split; [reflexivity|]. split; [now rewrite Hvalid|].
  rewrite Hvalid. unfold formatRoomLabel.
  destruct (includes canonicalRooms room).
  - split; [split; reflexivity | discriminate].
  - split; [split; [|discriminate] | reflexivity].
    intros Heq. apply (f_equal String.length) in Heq.
    rewrite append_length in Heq. cbn in Heq. lia.
Qed.

(** * The snapshot of the application *)

Lemma pushWhileShort_closed (fuel N : nat) (next : list (option Z)) :
  (N - length next <= fuel)%nat ->
  pushWhileShort fuel N next = next ++ replicate (N - length next) (Some 0).
Proof.
  revert next. induction fuel as [|fuel IH]; intros next Hfuel; cbn [pushWhileShort].
  - replace (N - length next)%nat with 0%nat by lia. cbn. now rewrite app_nil_r.
  - destruct (Nat.ltb_spec (length next) N) as [Hlt|Hge].
    + rewrite IH by (rewrite length_app; cbn; lia).
      rewrite length_app. cbn [length].
      replace (N - length next)%nat with (S (N - (length next + 1)))%nat by lia.
      cbn [replicate]. now rewrite <- app_assoc.
    + replace (N - length next)%nat with 0%nat by lia. cbn. now rewrite app_nil_r.
Qed.

Lemma ensureCountsLength_closed (counts : list (option Z)) (N : nat) :
  ensureCountsLength counts N =
  firstn N counts ++ replicate (N - length counts) (Some 0).
Proof.
  unfold ensureCountsLength. destruct (Nat.ltb_spec N (length counts)) as [Hlt|Hge].
  - replace (N - length counts)%nat with 0%nat by lia. cbn. now rewrite app_nil_r.
  - rewrite pushWhileShort_closed by lia. now rewrite firstn_all2 by lia.
Qed.

(** X16. [ensureCountsLength] returns an array of exactly [nNurses]
    cells: a longer array is cut, a shorter one is filled up with zeros,
    and the cells that remain keep their value; the loop that fills up ends
    by its own condition.  No count of a nurse [1..nNurses] changes, and
    applying it twice is applying it once. *)
Theorem ensureCountsLength_fits (counts : list (option Z)) (N : nat) :
  length (ensureCountsLength counts N) = N /\
  (forall fuel, (N <= fuel)%nat ->
     pushWhileShort fuel N counts = pushWhileShort N N counts) /\
  (forall i, (i < N)%nat ->
     ensureCountsLength counts N !! i =
     if (i <? length counts)%nat then counts !! i else Some (Some 0)) /\
  (forall idx, idx < Z.of_nat N ->
     countAt (ensureCountsLength counts N) idx = countAt counts idx) /\
  ensureCountsLength (ensureCountsLength counts N) N = ensureCountsLength counts N.
Proof.
  assert (Hlen : length (ensureCountsLength counts N) = N).
  { rewrite ensureCountsLength_closed, length_app, length_firstn, length_replicate. lia. }
  assert (Hlookup : forall i, (i < N)%nat ->
            ensureCountsLength counts N !! i =
            if (i <? length counts)%nat then counts !! i else Some (Some 0)).
  { intros i Hi. rewrite ensureCountsLength_closed.
    destruct (Nat.ltb_spec i (length counts)) as [Hlt|Hge].
    - rewrite lookup_app_l by (rewrite length_firstn; lia).
      apply (lookup_take_lt counts N i Hi).
    - rewrite lookup_app_r by (rewrite length_firstn; lia).
      rewrite length_firstn. apply lookup_replicate_2. lia. }
  split; [exact Hlen|]. split; [|split; [exact Hlookup|split]].
  - intros fuel Hfuel. rewrite !pushWhileShort_closed by lia. reflexivity.
  - intros idx Hidx. unfold countAt. destruct (Z.ltb_spec idx 0); [reflexivity|].
    rewrite Hlookup by lia.
    destruct (Nat.ltb_spec (Z.to_nat idx) (length counts)) as [Hlt|Hge]; [reflexivity|].
    now rewrite (lookup_ge_None_2 counts) by lia.
  - rewrite (ensureCountsLength_closed (ensureCountsLength counts N)), Hlen.
    rewrite firstn_all2 by lia. rewrite Nat.sub_diag. cbn. now rewrite app_nil_r.
Qed.

Section Snapshot.
Context `{JSNumber}.
Variable localeCompare : string -> string -> Z.
Variable formatClock : DateTime -> string -> string.

Lemma buildNurseSummary_buildPerNurse (perRoom : list RoomAssignmentRow) (N : nat)
    (tz : string) :
  buildNurseSummary formatClock perRoom N tz = buildPerNurse formatClock perRoom N tz.
Proof. reflexivity. Qed.

(** ** Merging a fresh result into the snapshot *)

Lemma byRoom_lookup (l : list RoomAssignmentRow) (k : string) (q : RoomAssignmentRow) :
  NoDup (map pr_room l) ->
  fold_left (fun m room => <[pr_room room := room]> m) l (∅ : gmap string RoomAssignmentRow)
    !! k = Some q <->
  In q l /\ pr_room q = k.
Proof.
  induction l as [|x l IH] using rev_ind; intros Hnd.
  - cbn. rewrite lookup_empty. split; [discriminate | intros [[] _]].
  - rewrite map_app in Hnd. cbn [map] in Hnd.
    apply NoDup_app in Hnd as (Hl & Hdisj & _).
    rewrite fold_left_app. cbn [fold_left].
    destruct (decide (pr_room x = k)) as [Hk | Hk].
    + rewrite Hk, lookup_insert_eq. split.
      * intros [= <-]. split; [|exact Hk]. apply in_app_iff. right. now left.
      * intros [Hin Hq]. apply in_app_iff in Hin as [Hin | [-> | []]]; [|reflexivity].
        exfalso. apply (Hdisj k).
        -- apply list_elem_of_In. rewrite <- Hq. now apply in_map.
        -- rewrite Hk. left.
    + rewrite lookup_insert_ne by exact Hk. rewrite (IH Hl). split.
      * intros [Hin Hq]. split; [|exact Hq]. apply in_app_iff. now left.
      * intros [Hin Hq]. split; [|exact Hq].
        apply in_app_iff in Hin as [Hin | [<- | []]]; [exact Hin | congruence].
Qed.

Lemma byRoom_has (l : list RoomAssignmentRow) (k : string) :
  Map_has (fold_left (fun m room => <[pr_room room := room]> m) l
             (∅ : gmap string RoomAssignmentRow)) k
  = includes (map pr_room l) k.
Proof.
  induction l as [|x l IH] using rev_ind.
  - reflexivity.
  - rewrite fold_left_app. cbn [fold_left]. rewrite Map_has_insert, IH.
    unfold includes. rewrite map_app, existsb_app. cbn [map existsb].
    rewrite orb_false_r. apply orb_comm.
Qed.

Lemma preserved_rooms (prevRooms nextRooms : list RoomAssignmentRow) :
  NoDup (map pr_room nextRooms) ->
  let nextByRoom :=
    fold_left (fun m room => <[pr_room room := room]> m) nextRooms
      (∅ : gmap string RoomAssignmentRow) in
  let preserved :=
    omap (fun room =>
            (fun updated => withNurse updated (nurse_id room))
              <$> nextByRoom !! pr_room room)
         (List.filter (fun room => Map_has nextByRoom (pr_room room)) prevRooms) in
  map pr_room preserved =
    List.filter (includes (map pr_room nextRooms)) (map pr_room prevRooms) /\
  (forall x, In x preserved <->
     exists p q, In p prevRooms /\ In q nextRooms /\ pr_room q = pr_room p /\
                 x = withNurse q (nurse_id p)).
Proof.
  intros Hnd nextByRoom preserved. subst preserved.
  assert (Hhas : forall k, Map_has nextByRoom k = includes (map pr_room nextRooms) k)
    by apply byRoom_has.
  induction prevRooms as [|p l [IH1 IH2]].
  - split; [reflexivity|]. intros x. split; [intros [] | intros (p & q & [] & _)].
  - cbn [List.filter map]. rewrite Hhas.
    destruct (includes (map pr_room nextRooms) (pr_room p)) eqn:Hinc.
    + assert (Hq : exists q, nextByRoom !! pr_room p = Some q /\
                             In q nextRooms /\ pr_room q = pr_room p).
      { apply includes_In, in_map_iff in Hinc as (q & Hq & Hin).
        exists q. split; [|auto]. now apply byRoom_lookup. }
      destruct Hq as (q & Hlook & Hin & Hkey).
      cbn [omap list_omap]. rewrite Hlook. cbn [fmap option_fmap option_map].
      cbn [map withNurse pr_room]. split.
      * now rewrite Hkey, <- IH1.
      * intros x. cbn [In]. rewrite IH2. split.
        -- intros [<- | (p' & q' & Hp' & Hrest)].
           ++ exists p, q. auto.
           ++ exists p', q'. split; [now right | exact Hrest].
        -- intros (p' & q' & [<- | Hp'] & Hq' & Hkey' & ->).
           ++ left. f_equal. apply (NoDup_map_inj pr_room nextRooms); auto. congruence.
           ++ right. exists p', q'. auto.
    + split; [exact IH1|]. intros x. rewrite IH2. split.
      * intros (p' & q' & Hp' & Hrest). exists p', q'. split; [now right | exact Hrest].
      * intros (p' & q' & [<- | Hp'] & Hq' & Hkey' & ->).
        -- exfalso. apply includes_false in Hinc. apply Hinc.
           rewrite <- Hkey'. now apply in_map.
        -- exists p', q'. auto.
Qed.

Lemma compareCandidates_le (counts : list (option Z)) (nurseCounts : gmap Z Z) (a b : Z) :
  compareCandidates counts nurseCounts a b <= 0 -> candidateBefore counts nurseCounts a b.
Proof. unfold compareCandidates, candidateBefore. cases_eqb; lia. Qed.

Lemma compareCandidates_gt (counts : list (option Z)) (nurseCounts : gmap Z Z) (a b : Z) :
  0 < compareCandidates counts nurseCounts a b -> candidateBefore counts nurseCounts b a.
Proof. unfold compareCandidates, candidateBefore. cases_eqb; lia. Qed.

Lemma candidateBefore_trans (counts : list (option Z)) (nurseCounts : gmap Z Z)
    (a b c : Z) :
  candidateBefore counts nurseCounts a b -> candidateBefore counts nurseCounts b c ->
  candidateBefore counts nurseCounts a c.
Proof. unfold candidateBefore. lia. Qed.

Lemma first_candidate (N : nat) (counts : list (option Z)) (nurseCounts : gmap Z Z) :
  (1 <= N)%nat ->
  let chosen :=
    hd 1 (js_sort (compareCandidates counts nurseCounts)
                  (Array_from N (fun idx => Z.of_nat idx + 1))) in
  1 <= chosen <= Z.of_nat N /\
  forall a, 1 <= a <= Z.of_nat N -> candidateBefore counts nurseCounts chosen a.
Proof.
  intros HN chosen. subst chosen.
  set (ids := Array_from N (fun idx => Z.of_nat idx + 1)).
  assert (Hids : forall a, In a ids <-> 1 <= a <= Z.of_nat N).
  { intros a. unfold ids, Array_from. rewrite in_map_iff. split.
    - intros (i & <- & Hi). apply in_seq in Hi. lia.
    - intros Ha. exists (Z.to_nat (a - 1)). split; [lia|]. apply in_seq. lia. }
  pose proof (js_sort_sorted (compareCandidates counts nurseCounts)
                (candidateBefore counts nurseCounts)
                (candidateBefore_trans counts nurseCounts)
                (compareCandidates_le counts nurseCounts)
                (compareCandidates_gt counts nurseCounts) ids) as Hsorted.
  pose proof (js_sort_perm (compareCandidates counts nurseCounts) ids) as Hperm.
  destruct (js_sort (compareCandidates counts nurseCounts) ids) as [|h tl].
  { apply Permutation_nil in Hperm.
    assert (Hone : In 1 ids) by (apply Hids; lia). rewrite Hperm in Hone. destruct Hone. }
  cbn [hd]. split.
  - apply Hids. apply (Permutation_in _ Hperm). now left.
  - intros a Ha. apply Hids in Ha.
    apply (Permutation_in _ (Permutation_sym Hperm)) in Ha.
    destruct Ha as [<- | Ha].
    + unfold candidateBefore. lia.
    + apply StronglySorted_inv in Hsorted as [_ Hall].
      rewrite List.Forall_forall in Hall. now apply Hall.
Qed.

Lemma assignNewRooms_rooms (N : nat) (counts : list (option Z))
    (appended : list RoomAssignmentRow) (nurseCounts : gmap Z Z) :
  Forall2 (fun room x => x = withNurse room (nurse_id x))
          appended (assignNewRooms N counts appended nurseCounts).
Proof.
  revert nurseCounts. induction appended as [|room rest IH]; intros nurseCounts;
    cbn [assignNewRooms]; constructor; [reflexivity | apply IH].
Qed.

Lemma assignNewRooms_least_served (N : nat) (counts : list (option Z))
    (appended : list RoomAssignmentRow) (nurseCounts : gmap Z Z) (x : RoomAssignmentRow) :
  (1 <= N)%nat -> In x (assignNewRooms N counts appended nurseCounts) ->
  1 <= nurse_id x <= Z.of_nat N /\
  forall a, 1 <= a <= Z.of_nat N ->
    countAt counts (nurse_id x - 1) <= countAt counts (a - 1).
Proof.
  intros HN. revert nurseCounts.
  induction appended as [|room rest IH]; intros nurseCounts; cbn [assignNewRooms];
    [intros []|].
  intros [<- | Hin]; [|now apply (IH _ Hin)].
  cbn [withNurse nurse_id].
  destruct (first_candidate N counts nurseCounts HN) as [Hrange Hmin].
  split; [exact Hrange|]. intros a Ha. specialize (Hmin a Ha).
  unfold candidateBefore in Hmin. lia.
Qed.

Lemma Forall2_map_eq {A B C} (f : A -> C) (g : B -> C) (l : list A) (k : list B) :
  Forall2 (fun a b => f a = g b) l k -> map f l = map g k.
Proof. induction 1; cbn [map]; congruence. Qed.

(** X17. Merging a fresh engine result into the snapshot on screen never
    moves a room that is already placed.  For tables with pairwise
    distinct room ids, none of them the name of a property the history
    object inherits, the merged per-room table holds exactly the rooms of
    the fresh result, each once and with the fresh result's data; a room
    that was in the previous snapshot keeps the nurse it had there,
    whatever the engine decided now, and rooms that left the input are
    dropped.  Without a previous snapshot the fresh result is taken as it
    is. *)
Theorem mergeAssignments_keeps_placed_rooms (previous next : AssignmentResult)
    (N : nat) (tz : string) (servedCounts : list (option Z))
    (servedHistory : gmap string (list Z)) :
  plainRoomIds next servedHistory ->
  NoDup (map pr_room (perRoom previous)) -> NoDup (map pr_room (perRoom next)) ->
  let merged :=
    perRoom (result (mergeAssignments formatClock (Some previous) next N tz
                       servedCounts servedHistory)) in
  Permutation (map pr_room merged) (map pr_room (perRoom next)) /\
  (forall x, In x merged ->
     exists q, In q (perRoom next) /\ x = withNurse q (nurse_id x)) /\
  (forall p q, In p (perRoom previous) -> In q (perRoom next) ->
     pr_room q = pr_room p -> In (withNurse q (nurse_id p)) merged) /\
  result (mergeAssignments formatClock None next N tz servedCounts servedHistory) = next.
Proof.
  intros _ Hprev Hnext merged. subst merged. cbn [mergeAssignments result perRoom].
  destruct (preserved_rooms (perRoom previous) (perRoom next) Hnext) as [Hkeys Hpres].
  set (preserved := omap _ _) in *.
  set (appended := List.filter _ (perRoom next)).
  set (new := assignNewRooms _ _ appended _).
  pose proof (assignNewRooms_rooms N (ensureCountsLength servedCounts N) appended
                (fold_left (fun m room =>
                              <[nurse_id room := default 0 (m !! nurse_id room) + 1]> m)
                           preserved ∅)) as Hnew.
  fold new in Hnew.
  assert (Hnewkeys : map pr_room new = map pr_room appended).
  { symmetry. apply Forall2_map_eq. eapply Forall2_impl; [exact Hnew|].
    intros room x ->. reflexivity. }
  split; [|split; [|split; [|reflexivity]]].
  - apply NoDup_Permutation.
    + rewrite map_app, Hkeys, Hnewkeys.
      apply NoDup_app. split; [|split].
      * apply NoDup_ListNoDup, List.NoDup_filter, NoDup_ListNoDup. exact Hprev.
      * intros k Hk Hk'. apply list_elem_of_In in Hk, Hk'.
        apply filter_In in Hk as [Hk _].
        unfold appended in Hk'. apply in_map_iff in Hk' as (q & <- & Hq).
        apply filter_In in Hq as [_ Hq]. apply negb_true_iff, includes_false in Hq.
        contradiction.
      * unfold appended. now apply NoDup_map_filter.
    + exact Hnext.
    + intros k. rewrite !list_elem_of_In.
      rewrite map_app, in_app_iff, Hkeys, Hnewkeys, filter_In, includes_In.
      unfold appended. rewrite !in_map_iff. split.
      * intros [[_ Hk] | (q & <- & Hq)]; [exact Hk|].
        apply filter_In in Hq as [Hq _]. eauto.
      * intros (q & <- & Hq).
        destruct (includes (map pr_room (perRoom previous)) (pr_room q)) eqn:Hinc.
        -- left. split; [|eauto]. apply in_map_iff. now apply includes_In.
        -- right. exists q. split; [reflexivity|]. apply filter_In. now rewrite Hinc.
  - intros x Hx. apply in_app_iff in Hx as [Hx | Hx].
    + apply Hpres in Hx as (p & q & _ & Hq & _ & ->). exists q. split; [exact Hq|].
      reflexivity.
    + apply list_elem_of_In, list_elem_of_lookup_1 in Hx as [i Hi].
      destruct (Forall2_lookup_r _ _ _ _ _ Hnew Hi) as (room & Hroom & Heq).
      exists room. split; [|exact Heq].
      apply list_elem_of_lookup_2, list_elem_of_In in Hroom.
      unfold appended in Hroom. now apply filter_In in Hroom.
  - intros p q Hp Hq Hkey. apply in_app_iff. left. apply Hpres. exists p, q. auto.
Qed.

(** X18. A room that is new to the snapshot goes to a nurse who has
    served the fewest rooms so far: for [N >= 1] nurses and room ids that
    are no inherited property names, the nurse id of a
    merged room that the previous snapshot did not hold lies in [1..N], and
    no nurse of [1..N] has a smaller served count. *)
Theorem new_rooms_go_to_the_least_served_nurse (previous next : AssignmentResult)
    (N : nat) (tz : string) (servedCounts : list (option Z))
    (servedHistory : gmap string (list Z)) (x : RoomAssignmentRow) :
  plainRoomIds next servedHistory ->
  (1 <= N)%nat ->
  In x (perRoom (result (mergeAssignments formatClock (Some previous) next N tz
                           servedCounts servedHistory))) ->
  ~ In (pr_room x) (map pr_room (perRoom previous)) ->
  1 <= nurse_id x <= Z.of_nat N /\
  forall a, 1 <= a <= Z.of_nat N ->
    countAt servedCounts (nurse_id x - 1) <= countAt servedCounts (a - 1).
Proof.
  intros _ HN Hx Hnew. cbn [mergeAssignments result perRoom] in Hx.
  apply in_app_iff in Hx as [Hx | Hx].
  - exfalso. apply Hnew.
    apply list_elem_of_In, list_elem_of_omap in Hx as (p & Hp & Hx).
    apply list_elem_of_In, filter_In in Hp as [Hp _].
    destruct (_ !! pr_room p) as [q|] eqn:Hq; [|discriminate].
    cbn in Hx. injection Hx as <-. cbn [withNurse pr_room].
    assert (Hkey : pr_room q = pr_room p).
    { clear -Hq. revert Hq. generalize (pr_room p). intros k.
      induction (perRoom next) as [|y l IH] using rev_ind.
      - cbn. rewrite lookup_empty. discriminate.
      - rewrite fold_left_app. cbn [fold_left].
        destruct (decide (pr_room y = k)) as [Hk | Hk].
        + rewrite Hk, lookup_insert_eq. now intros [= <-].
        + rewrite lookup_insert_ne by exact Hk. exact IH. }
    rewrite Hkey. now apply in_map.
  - destruct (assignNewRooms_least_served N _ _ _ x HN Hx) as [Hrange Hmin].
    split; [exact Hrange|]. intros a Ha.
    destruct (ensureCountsLength_fits servedCounts N) as (_ & _ & _ & Hcount & _).
    rewrite <- (Hcount (nurse_id x - 1)), <- (Hcount (a - 1)) by lia.
    now apply Hmin.
Qed.

(** ** The serve history and the served counts *)

Lemma existsb_Zeqb (x : Z) (l : list Z) : existsb (Z.eqb x) l = true <-> In x l.
Proof.
  rewrite existsb_exists. split.
  - intros (y & Hy & Heq). apply Z.eqb_eq in Heq. now subst.
  - intros Hin. exists x. split; [exact Hin | apply Z.eqb_refl].
Qed.

Lemma uniq_spec (ids : list Z) :
  NoDup (uniq ids) /\ forall x, In x (uniq ids) <-> In x ids.
Proof.
  unfold uniq.
  assert (Hgen : forall acc, NoDup acc ->
            NoDup (fold_left (fun acc x => if existsb (Z.eqb x) acc then acc
                                           else acc ++ [x]) ids acc) /\
            forall x, In x (fold_left (fun acc x => if existsb (Z.eqb x) acc then acc
                                                   else acc ++ [x]) ids acc)
                      <-> In x acc \/ In x ids).
  { induction ids as [|y ids IH]; intros acc Hacc; cbn [fold_left].
    - split; [exact Hacc|]. intros x. cbn. tauto.
    - destruct (existsb (Z.eqb y) acc) eqn:Hy.
      + destruct (IH acc Hacc) as [Hnd Hin]. split; [exact Hnd|].
        intros x. rewrite Hin. cbn [In]. apply existsb_Zeqb in Hy.
        split; [tauto|]. intros [Hx | [<- | Hx]]; auto.
      + assert (Hacc' : NoDup (acc ++ [y])).
        { apply NoDup_app. split; [exact Hacc|]. split; [|apply NoDup_singleton].
          intros x Hx Hx'. apply list_elem_of_In in Hx.
          apply list_elem_of_In in Hx' as [<- | []].
          apply existsb_Zeqb in Hx. congruence. }
        destruct (IH (acc ++ [y]) Hacc') as [Hnd Hin]. split; [exact Hnd|].
        intros x. rewrite Hin, in_app_iff. cbn [In]. tauto. }
  destruct (Hgen [] ltac:(constructor)) as [Hnd Hin]. split; [exact Hnd|].
  intros x. rewrite Hin. cbn. tauto.
Qed.

Lemma countAt_jsArraySet (counts : list (option Z)) (i : nat) (v : Z) (idx : Z) :
  countAt (jsArraySet counts i v) idx =
  if (0 <=? idx) && (Z.to_nat idx =? i)%nat then v else countAt counts idx.
Proof.
  unfold countAt. destruct (Z.ltb_spec idx 0) as [Hneg|Hpos].
  { destruct (Z.leb_spec 0 idx); [lia | reflexivity]. }
  destruct (Z.leb_spec 0 idx); [|lia]. cbn [andb].
  unfold jsArraySet. destruct (Nat.ltb_spec i (length counts)) as [Hlt|Hge].
  - destruct (Nat.eqb_spec (Z.to_nat idx) i) as [-> | Hne].
    + now rewrite list_lookup_insert_eq.
    + now rewrite list_lookup_insert_ne by congruence.
  - destruct (Nat.eqb_spec (Z.to_nat idx) i) as [-> | Hne].
    + rewrite lookup_app_r by lia. rewrite lookup_app_r by (rewrite length_replicate; lia).
      rewrite length_replicate. now replace (i - length counts - (i - length counts))%nat
        with 0%nat by lia.
    + destruct (Nat.lt_ge_cases (Z.to_nat idx) (length counts)) as [Hin|Hout].
      * now rewrite lookup_app_l by exact Hin.
      * rewrite (lookup_ge_None_2 counts) by exact Hout.
        rewrite lookup_app_r by exact Hout.
        destruct (Nat.lt_ge_cases (Z.to_nat idx - length counts) (i - length counts))
          as [Hmid|Hend].
        -- rewrite lookup_app_l by (rewrite length_replicate; exact Hmid).
           now rewrite lookup_replicate_2 by exact Hmid.
        -- rewrite lookup_app_r by (rewrite length_replicate; exact Hend).
           rewrite length_replicate.
           rewrite lookup_ge_None_2; [reflexivity|]. cbn. lia.
Qed.

Lemma creditRoom_spec (hc : gmap string (list Z) * list (option Z))
    (x : RoomAssignmentRow) :
  (forall k ids, fst hc !! k = Some ids -> NoDup ids) ->
  (forall k ids, fst (creditRoom hc x) !! k = Some ids -> NoDup ids) /\
  servedBy (fst (creditRoom hc x)) (pr_room x) (nurse_id x) /\
  (forall k id, servedBy (fst hc) k id -> servedBy (fst (creditRoom hc x)) k id) /\
  (forall k, k ∈ dom (fst (creditRoom hc x)) <-> k = pr_room x \/ k ∈ dom (fst hc)) /\
  (forall idx, countAt (snd hc) idx <= countAt (snd (creditRoom hc x)) idx).
Proof.
  destruct hc as [h c]. cbn [fst snd]. intros Hok. unfold creditRoom. cbn [fst snd].
  set (recorded := default [] (h !! pr_room x)).
  assert (Hrec : NoDup recorded).
  { unfold recorded. destruct (h !! pr_room x) as [ids|] eqn:Hl; cbn.
    - now apply (Hok _ _ Hl).
    - constructor. }
  destruct (existsb (Z.eqb (nurse_id x)) recorded) eqn:Hin.
  - cbn [fst snd]. apply existsb_Zeqb in Hin.
    assert (Hl : h !! pr_room x = Some recorded).
    { unfold recorded in *. destruct (h !! pr_room x); [reflexivity | destruct Hin]. }
    split; [exact Hok|]. split; [exists recorded; auto|]. split; [auto|].
    split; [|lia].
    intros k. split; [auto|]. intros [-> | Hk]; [|exact Hk].
    apply elem_of_dom. eauto.
  - assert (Hnew : ~ In (nurse_id x) recorded).
    { intros Hx. apply existsb_Zeqb in Hx. congruence. }
    assert (Hhist :
      (forall k ids, <[pr_room x := recorded ++ [nurse_id x]]> h !! k = Some ids ->
                     NoDup ids) /\
      servedBy (<[pr_room x := recorded ++ [nurse_id x]]> h) (pr_room x) (nurse_id x) /\
      (forall k id, servedBy h k id ->
                    servedBy (<[pr_room x := recorded ++ [nurse_id x]]> h) k id) /\
      (forall k, k ∈ dom (<[pr_room x := recorded ++ [nurse_id x]]> h) <->
                 k = pr_room x \/ k ∈ dom h)).
    { split; [|split; [|split]].
      - intros k ids. destruct (decide (k = pr_room x)) as [-> | Hne].
        + rewrite lookup_insert_eq. intros [= <-].
          apply NoDup_app. split; [exact Hrec|]. split; [|apply NoDup_singleton].
          intros y Hy Hy'. apply list_elem_of_In in Hy.
          apply list_elem_of_In in Hy' as [<- | []]. contradiction.
        + rewrite lookup_insert_ne by congruence. apply Hok.
      - exists (recorded ++ [nurse_id x]). rewrite lookup_insert_eq.
        split; [reflexivity|]. apply in_app_iff. right. now left.
      - intros k id (ids & Hl & Hid). destruct (decide (k = pr_room x)) as [-> | Hne].
        + exists (recorded ++ [nurse_id x]). rewrite lookup_insert_eq.
          split; [reflexivity|]. apply in_app_iff. left.
          unfold recorded. now rewrite Hl.
        + exists ids. rewrite lookup_insert_ne by congruence. auto.
      - intros k. rewrite dom_insert_L. set_solver. }
    destruct Hhist as (H1 & H2 & H3 & H4).
    destruct (0 <=? nurse_id x - 1) eqn:Hidx; cbn [fst snd].
    + repeat (split; [assumption|]). intros idx. rewrite countAt_jsArraySet.
      destruct ((0 <=? idx) && (Z.to_nat idx =? Z.to_nat (nurse_id x - 1))%nat) eqn:Hsame;
        [|lia].
      apply andb_true_iff in Hsame as [Hpos Hsame].
      apply Z.leb_le in Hpos, Hidx. apply Nat.eqb_eq in Hsame.
      replace idx with (nurse_id x - 1) by lia. lia.
    + repeat (split; [assumption|]). intros idx. lia.
Qed.

Lemma fold_creditRoom_spec (l : list RoomAssignmentRow)
    (hc : gmap string (list Z) * list (option Z)) :
  (forall k ids, fst hc !! k = Some ids -> NoDup ids) ->
  (forall k ids, fst (fold_left creditRoom l hc) !! k = Some ids -> NoDup ids) /\
  (forall x, In x l -> servedBy (fst (fold_left creditRoom l hc)) (pr_room x) (nurse_id x)) /\
  (forall k id, servedBy (fst hc) k id -> servedBy (fst (fold_left creditRoom l hc)) k id) /\
  (forall k, k ∈ dom (fst (fold_left creditRoom l hc)) <->
             In k (map pr_room l) \/ k ∈ dom (fst hc)) /\
  (forall idx, countAt (snd hc) idx <= countAt (snd (fold_left creditRoom l hc)) idx).
Proof.
  revert hc. induction l as [|x l IH]; intros hc Hok; cbn [fold_left map].
  - split; [exact Hok|]. split; [intros x []|]. split; [auto|]. split; [|lia].
    intros k. cbn. tauto.
  - destruct (creditRoom_spec hc x Hok) as (S1 & S2 & S3 & S4 & S5).
    destruct (IH (creditRoom hc x) S1) as (I1 & I2 & I3 & I4 & I5).
    split; [exact I1|]. split; [|split; [|split]].
    + intros y [<- | Hy]; [now apply I3 | now apply I2].
    + intros k id Hs. now apply I3, S3.
    + intros k. rewrite I4, S4. cbn [In]. split.
      * intros [? | [-> | ?]]; auto.
      * intros [[<- | ?] | ?]; auto.
    + intros idx. specialize (S5 idx). specialize (I5 idx). lia.
Qed.

Lemma mergeAssignments_shape (previous : option AssignmentResult) (next : AssignmentResult)
    (N : nat) (tz : string) (servedCounts : list (option Z))
    (servedHistory : gmap string (list Z)) :
  let r := mergeAssignments formatClock previous next N tz servedCounts servedHistory in
  let credited :=
    fold_left creditRoom (perRoom (result r))
      (uniq <$> servedHistory, ensureCountsLength servedCounts N) in
  updatedServedByRoom r = dropInactive (perRoom (result r)) (fst credited) /\
  updatedServedCounts r = snd credited.
Proof. destruct previous; split; reflexivity. Qed.

(** X19. After a merge the serve history covers exactly the rooms of the
    merged snapshot, for room ids that are no inherited property names: it
    has an entry for every room of the merged per-room
    table and for no other room, every entry lists each nurse once and
    includes the nurse who holds the room now, and it still lists the nurses
    recorded before for a room that stays.  The served count of a nurse
    [1..N] never decreases. *)
Theorem serve_history_tracks_the_snapshot (previous : option AssignmentResult)
    (next : AssignmentResult) (N : nat) (tz : string) (servedCounts : list (option Z))
    (servedHistory : gmap string (list Z)) :
  plainRoomIds next servedHistory ->
  let r := mergeAssignments formatClock previous next N tz servedCounts servedHistory in
  dom (updatedServedByRoom r) = list_to_set (map pr_room (perRoom (result r))) /\
  (forall k ids, updatedServedByRoom r !! k = Some ids -> NoDup ids) /\
  (forall x, In x (perRoom (result r)) ->
     servedBy (updatedServedByRoom r) (pr_room x) (nurse_id x)) /\
  (forall k id, servedBy servedHistory k id -> In k (map pr_room (perRoom (result r))) ->
     servedBy (updatedServedByRoom r) k id) /\
  (forall idx, idx < Z.of_nat N ->
     countAt servedCounts idx <= countAt (updatedServedCounts r) idx).
Proof.
  intros _ r.
  destruct (mergeAssignments_shape previous next N tz servedCounts servedHistory)
    as [Hhist Hcounts].
  fold r in Hhist, Hcounts. rewrite Hhist, Hcounts.
  set (rooms := perRoom (result r)).
  set (start := (uniq <$> servedHistory, ensureCountsLength servedCounts N)).
  assert (Hstart : forall k ids, fst start !! k = Some ids -> NoDup ids).
  { intros k ids. cbn [start fst]. rewrite lookup_fmap.
    destruct (servedHistory !! k) as [ids0|]; [|discriminate].
    intros [= <-]. apply uniq_spec. }
  destruct (fold_creditRoom_spec rooms start Hstart) as (F1 & F2 & F3 & F4 & F5).
  set (credited := fold_left creditRoom rooms start) in *.
  assert (Hdrop : forall k ids,
            dropInactive rooms (fst credited) !! k = Some ids <->
            fst credited !! k = Some ids /\ In k (map pr_room rooms)).
  { intros k ids. unfold dropInactive. rewrite map_lookup_filter_Some. cbn [fst].
    now rewrite includes_In. }
  assert (Hserved : forall k id, servedBy (fst credited) k id -> In k (map pr_room rooms) ->
            servedBy (dropInactive rooms (fst credited)) k id).
  { intros k id (ids & Hl & Hid) Hk. exists ids. split; [|exact Hid]. now apply Hdrop. }
  split; [|split; [|split; [|split]]].
  - apply set_eq. intros k. rewrite elem_of_dom, elem_of_list_to_set, list_elem_of_In. split.
    + intros [ids Hl]. now apply Hdrop in Hl.
    + intros Hk. assert (Hd : k ∈ dom (fst credited)) by (apply F4; now left).
      apply elem_of_dom in Hd as [ids Hl]. exists ids. now apply Hdrop.
  - intros k ids Hl. apply Hdrop in Hl as [Hl _]. now apply (F1 k).
  - intros x Hx. apply Hserved; [now apply F2 | now apply in_map].
  - intros k id (ids & Hl & Hid) Hk. apply Hserved; [|exact Hk]. apply F3.
    exists (uniq ids). cbn [start fst]. rewrite lookup_fmap, Hl.
    split; [reflexivity | now apply uniq_spec].
  - intros idx Hidx. specialize (F5 idx). cbn [start snd] in F5.
    destruct (ensureCountsLength_fits servedCounts N) as (_ & _ & _ & Hc & _).
    rewrite (Hc idx Hidx) in F5. exact F5.
Qed.

Lemma filter_filter_implied {A} (p q : A -> bool) (l : list A) :
  (forall x, p x = true -> q x = true) ->
  List.filter p (List.filter q l) = List.filter p l.
Proof.
  intros Hpq. induction l as [|x l IH]; cbn [List.filter]; [reflexivity|].
  destruct (q x) eqn:Hq; cbn [List.filter].
  - now rewrite IH.
  - destruct (p x) eqn:Hp; [|exact IH]. rewrite (Hpq x Hp) in Hq. discriminate.
Qed.

(** X20. The two tables of the snapshot always agree.  When the fresh
    result comes from [assignRooms] on a non-empty list of rooms whose ids
    are no inherited property names, the
    per-nurse table of the merged snapshot is the summary
    [buildNurseSummary] computes from its per-room table, with or without
    a previous snapshot: it has one row for each nurse [1..N], and the room
    counts of these rows add up to the number of rooms whose nurse id lies
    in [1..N], so a room kept for a nurse beyond [N] is in the per-room
    table and in no nurse's row. *)
Theorem snapshot_tables_agree (rows : list AssignmentInputRow) (N : nat) (tz : string)
    (previous : option AssignmentResult) (next : AssignmentResult)
    (servedCounts : list (option Z)) (servedHistory : gmap string (list Z)) :
  plainRoomIds next servedHistory ->
  rows <> [] ->
  assignRooms localeCompare formatClock rows N tz = Ok next ->
  let snapshot :=
    result (mergeAssignments formatClock previous next N tz servedCounts servedHistory) in
  perNurse snapshot = buildNurseSummary formatClock (perRoom snapshot) N tz /\
  map ns_nurse_id (perNurse snapshot) = map (fun idx : nat => Z.of_nat idx + 1) (seq 0 N) /\
  sumZ (map n_rooms (perNurse snapshot)) =
    Z.of_nat (length (List.filter
                        (fun x => (1 <=? nurse_id x) && (nurse_id x <=? Z.of_nat N))
                        (perRoom snapshot))).
Proof.
  intros _ Hne Hnext snapshot.
  assert (Hsummary : perNurse snapshot =
                     buildNurseSummary formatClock (perRoom snapshot) N tz).
  { subst snapshot. destruct previous as [previous|]; [reflexivity|].
    cbn [mergeAssignments result].
    destruct (perRoom_of_assignRooms localeCompare formatClock rows N tz next Hnext)
      as [[-> _] | (es & _ & Hn)]; [contradiction | exact Hn]. }
  split; [exact Hsummary|]. rewrite Hsummary, buildNurseSummary_buildPerNurse.
  split; [apply nurse_ids_buildPerNurse|].
  rewrite n_rooms_buildPerNurse.
  set (inRange := fun x : RoomAssignmentRow =>
                    (1 <=? nurse_id x) && (nurse_id x <=? Z.of_nat N)).
  rewrite <- (sum_roomsForNurse N (List.filter inRange (perRoom snapshot))).
  - f_equal. apply map_ext_in. intros idx Hidx. apply in_seq in Hidx.
    do 2 f_equal. unfold roomsForNurse. symmetry. apply filter_filter_implied.
    intros x Hx. apply Z.eqb_eq in Hx. unfold inRange. rewrite Hx.
    apply andb_true_iff. split; apply Z.leb_le; lia.
  - intros x Hx. apply filter_In in Hx as [_ Hx]. unfold inRange in Hx.
    apply andb_true_iff in Hx as [H1 H2]. apply Z.leb_le in H1, H2. lia.
Qed.

End Snapshot.

(** * The table parser and the gate before the engine *)

Lemma findIndex_app {A} (p : A -> bool) (l1 l2 : list A) :
  findIndex p (l1 ++ l2) =
  match findIndex p l1 with
  | Some i => Some i
  | None => option_map (fun i => (length l1 + i)%nat) (findIndex p l2)
  end.
Proof.
  induction l1 as [|x l1 IH]; cbn [app findIndex length].
  - destruct (findIndex p l2); reflexivity.
  - destruct (p x); [reflexivity|]. rewrite IH.
    destruct (findIndex p l1); [reflexivity|].
    destruct (findIndex p l2); reflexivity.
Qed.

Lemma findIndex_None {A} (p : A -> bool) (l : list A) :
  findIndex p l = None <-> forall x, In x l -> p x = false.
Proof.
  induction l as [|y l IH]; cbn [findIndex].
  - split; [intros _ x [] | reflexivity].
  - destruct (p y) eqn:Hy.
    + split; [discriminate|]. intros Hall. rewrite (Hall y (or_introl eq_refl)) in Hy.
      discriminate.
    + destruct (findIndex p l) as [i|]; cbn [option_map].
      * split; [discriminate|]. intros Hall.
        assert (Hnone : Some i = None); [|discriminate].
        apply IH. intros x Hx. apply Hall. now right.
      * split; [|reflexivity]. intros _ x [<- | Hx]; [exact Hy|].
        now apply (proj1 IH).
Qed.

Lemma findIndex_lt {A} (p : A -> bool) (l : list A) (i : nat) :
  findIndex p l = Some i -> (i < length l)%nat.
Proof.
  revert i. induction l as [|y l IH]; intros i; cbn [findIndex length]; [discriminate|].
  destruct (p y); [intros [= <-]; lia|].
  destruct (findIndex p l) as [j|]; cbn [option_map]; [|discriminate].
  intros [= <-]. specialize (IH j eq_refl). lia.
Qed.

Lemma firstOccurrences_from (pre suf : list string) :
  map fst
    (List.filter
       (fun vi : string * nat =>
          match findIndex (String.eqb (fst vi)) (pre ++ suf) with
          | Some i => (i =? snd vi)%nat
          | None => false
          end)
       (combine suf (seq (length pre) (length suf))))
  = dedupeFrom pre suf.
Proof.
  revert pre. induction suf as [|x suf IH]; intros pre; [reflexivity|].
  cbn [length seq combine List.filter fst snd dedupeFrom].
  assert (Hrest : map fst
            (List.filter
               (fun vi : string * nat =>
                  match findIndex (String.eqb (fst vi)) (pre ++ x :: suf) with
                  | Some i => (i =? snd vi)%nat
                  | None => false
                  end)
               (combine suf (seq (S (length pre)) (length suf))))
          = dedupeFrom (pre ++ [x]) suf).
  { rewrite <- IH. rewrite <- app_assoc. cbn [app].
    rewrite length_app. cbn [length]. now rewrite Nat.add_1_r. }
  rewrite findIndex_app.
  destruct (includes pre x) eqn:Hinc.
  - apply includes_In in Hinc.
    destruct (findIndex (String.eqb x) pre) as [i|] eqn:Hfind.
    + pose proof (findIndex_lt _ _ _ Hfind) as Hlt.
      destruct (Nat.eqb_spec i (length pre)); [lia|]. exact Hrest.
    + exfalso. rewrite findIndex_None in Hfind. specialize (Hfind x Hinc).
      rewrite String.eqb_refl in Hfind. discriminate.
  - apply includes_false in Hinc.
    assert (Hfind : findIndex (String.eqb x) pre = None).
    { apply findIndex_None. intros y Hy. apply String.eqb_neq. congruence. }
    rewrite Hfind. cbn [findIndex]. rewrite String.eqb_refl. cbn [option_map].
    rewrite Nat.add_0_r, Nat.eqb_refl. cbn [map fst]. now rewrite Hrest.
Qed.

Lemma firstOccurrences_dedupe (arr : list string) :
  firstOccurrences arr = dedupeFrom [] arr.
Proof. exact (firstOccurrences_from [] arr). Qed.

Lemma dedupeFrom_spec (seen arr : list string) :
  NoDup (dedupeFrom seen arr) /\
  forall x, In x (dedupeFrom seen arr) <-> In x arr /\ ~ In x seen.
Proof.
  revert seen. induction arr as [|y arr IH]; intros seen; cbn [dedupeFrom].
  - split; [constructor|]. intros x. cbn. tauto.
  - destruct (IH (seen ++ [y])) as [Hnd Hin].
    destruct (includes seen y) eqn:Hinc.
    + apply includes_In in Hinc. split; [exact Hnd|].
      intros x. rewrite Hin, in_app_iff. cbn [In]. split.
      * intros [Hx Hno]. split; [now right | tauto].
      * intros [[<- | Hx] Hno]; [contradiction|]. split; [exact Hx|].
        intros [Hs | [<- | []]]; [contradiction|]. contradiction.
    + apply includes_false in Hinc. split.
      * apply NoDup_cons. split; [|exact Hnd].
        rewrite list_elem_of_In, Hin, in_app_iff. cbn [In]. tauto.
      * intros x. cbn [In]. rewrite Hin, in_app_iff. cbn [In]. split.
        -- intros [<- | [Hx Hno]]; [split; [now left | exact Hinc]|].
           split; [now right | tauto].
        -- intros [[<- | Hx] Hno]; [now left|].
           destruct (String.eqb_spec y x) as [-> | Hne]; [now left|].
           right. split; [exact Hx|]. intros [Hs | [Heq | []]]; contradiction.
Qed.

Lemma firstOccurrences_spec (arr : list string) :
  NoDup (firstOccurrences arr) /\ forall x, In x (firstOccurrences arr) <-> In x arr.
Proof.
  rewrite firstOccurrences_dedupe. destruct (dedupeFrom_spec [] arr) as [Hnd Hin].
  split; [exact Hnd|]. intros x. rewrite Hin. cbn. tauto.
Qed.

Lemma occurrences_cons (k x : string) (ks : list string) :
  occurrences k (x :: ks) = ((if String.eqb k x then 1 else 0) + occurrences k ks)%nat.
Proof. unfold occurrences. cbn [List.filter]. now destruct (String.eqb k x). Qed.

Lemma occurrences_pos (k : string) (ks : list string) :
  (0 < occurrences k ks)%nat <-> In k ks.
Proof.
  induction ks as [|x ks IH]; [cbn; split; [lia | intros []]|].
  rewrite occurrences_cons. cbn [In]. destruct (String.eqb_spec k x) as [-> | Hne].
  - split; [now left | lia].
  - rewrite Nat.add_0_l, IH. split; [now right | intros [? | ?]; congruence].
Qed.

Lemma NoDup_occurrences (ks : list string) :
  NoDup ks <-> forall k, (occurrences k ks <= 1)%nat.
Proof.
  induction ks as [|x ks IH].
  - split; [intros _ k; cbn; lia | constructor].
  - rewrite NoDup_cons, IH, list_elem_of_In. split.
    + intros [Hx Hall] k. rewrite occurrences_cons.
      destruct (String.eqb_spec k x) as [-> | Hne]; [|apply Hall].
      rewrite <- occurrences_pos in Hx. lia.
    + intros Hall. split.
      * intros Hx. apply occurrences_pos in Hx. specialize (Hall x).
        rewrite occurrences_cons, String.eqb_refl in Hall. lia.
      * intros k. specialize (Hall k). rewrite occurrences_cons in Hall. lia.
Qed.

Lemma countOf_countRoom (m : list (string * Z)) (k k' : string) :
  countOf (countRoom m k) k' = countOf m k' + (if String.eqb k' k then 1 else 0).
Proof.
  unfold countRoom, countOf.
  destruct (existsb (fun e => String.eqb (fst e) k) m) eqn:Hex.
  - induction m as [|[a c] m IH]; [discriminate|].
    cbn [existsb map List.find fst snd] in *.
    destruct (String.eqb_spec a k) as [-> | Hne].
    + cbn [fst snd]. rewrite (String.eqb_sym k k').
      destruct (String.eqb_spec k' k) as [-> | Hne'].
      * reflexivity.
      * clear IH Hex. cbn [orb].
        assert (Hsame : forall l : list (string * Z),
                  List.find (fun e => String.eqb (fst e) k')
                    (map (fun e => if String.eqb (fst e) k then (fst e, snd e + 1) else e) l)
                  = List.find (fun e => String.eqb (fst e) k') l).
        { induction l as [|[b d] l IHl]; [reflexivity|]. cbn [map List.find fst snd].
          destruct (String.eqb_spec b k) as [-> | Hb]; cbn [fst snd].
          - destruct (String.eqb_spec k k'); [congruence | exact IHl].
          - destruct (String.eqb b k'); [reflexivity | exact IHl]. }
        rewrite Hsame. lia.
    + cbn [orb fst snd] in *. destruct (String.eqb_spec a k') as [-> | Hne'].
      * destruct (String.eqb_spec k' k); [congruence | lia].
      * now apply IH.
  - assert (Hnone : forall l : list (string * Z),
              existsb (fun e => String.eqb (fst e) k) l = false ->
              List.find (fun e => String.eqb (fst e) k') (l ++ [(k, 1)]) =
              match List.find (fun e => String.eqb (fst e) k') l with
              | Some e => Some e
              | None => if String.eqb k k' then Some (k, 1) else None
              end).
    { induction l as [|[b d] l IHl]; intros Hl; cbn [app List.find fst snd existsb] in *.
      - reflexivity.
      - apply orb_false_iff in Hl as [Hb Hl].
        destruct (String.eqb b k'); [reflexivity | now apply IHl]. }
    rewrite (Hnone m Hex).
    destruct (List.find (fun e => String.eqb (fst e) k') m) as [e|] eqn:Hfind.
    + apply find_some in Hfind as [Hin He]. apply String.eqb_eq in He.
      destruct (String.eqb_spec k' k) as [-> | Hne]; [|lia].
      exfalso. assert (Htrue : existsb (fun e => String.eqb (fst e) k) m = true).
      { apply existsb_exists. exists e. split; [exact Hin|]. now apply String.eqb_eq. }
      congruence.
    + rewrite (String.eqb_sym k k'). destruct (String.eqb k' k); cbn; lia.
Qed.

Lemma keys_countRoom (m : list (string * Z)) (k : string) :
  NoDup (map fst m) -> NoDup (map fst (countRoom m k)).
Proof.
  intros Hnd. unfold countRoom.
  destruct (existsb (fun e => String.eqb (fst e) k) m) eqn:Hex.
  - rewrite map_map.
    replace (map (fun x => fst (if String.eqb (fst x) k then (fst x, snd x + 1) else x)) m)
      with (map fst m); [exact Hnd|].
    apply map_ext. intros [a c]. cbn. now destruct (String.eqb a k).
  - rewrite map_app. cbn [map fst]. apply NoDup_app. split; [exact Hnd|].
    split; [|apply NoDup_singleton].
    intros x Hx Hx'. apply list_elem_of_In in Hx' as [<- | []].
    apply list_elem_of_In, in_map_iff in Hx as (e & He & Hin).
    assert (Htrue : existsb (fun e => String.eqb (fst e) k) m = true).
    { apply existsb_exists. exists e. split; [exact Hin|]. now apply String.eqb_eq. }
    congruence.
Qed.

Lemma tally_spec (ks : list string) (m : list (string * Z)) :
  NoDup (map fst m) ->
  NoDup (map fst (fold_left countRoom ks m)) /\
  forall k, countOf (fold_left countRoom ks m) k = countOf m k + Z.of_nat (occurrences k ks).
Proof.
  revert m. induction ks as [|x ks IH]; intros m Hnd; cbn [fold_left].
  - split; [exact Hnd|]. intros k. cbn. lia.
  - destruct (IH (countRoom m x) (keys_countRoom m x Hnd)) as [Hkeys Hcount].
    split; [exact Hkeys|]. intros k.
    rewrite Hcount, countOf_countRoom, occurrences_cons.
    destruct (String.eqb k x); lia.
Qed.

Lemma countOf_In (m : list (string * Z)) (k : string) (c : Z) :
  NoDup (map fst m) -> In (k, c) m -> countOf m k = c.
Proof.
  unfold countOf. induction m as [|[a d] m IH]; intros Hnd Hin; [destruct Hin|].
  cbn [map fst] in Hnd. apply NoDup_cons in Hnd as [Ha Hnd]. cbn [List.find fst snd].
  destruct Hin as [[= -> ->] | Hin].
  - now rewrite String.eqb_refl.
  - destruct (String.eqb_spec a k) as [-> | Hne]; [|now apply IH].
    exfalso. apply Ha. apply list_elem_of_In. apply (in_map fst) in Hin. exact Hin.
Qed.

Lemma countOf_find (m : list (string * Z)) (k : string) :
  countOf m k <> 0 -> In (k, countOf m k) m.
Proof.
  unfold countOf. destruct (List.find _ m) as [[a c]|] eqn:Hfind; [|congruence].
  intros _. apply find_some in Hfind as [Hin He]. cbn in He.
  apply String.eqb_eq in He. now subst.
Qed.

Section ParserProofs.
Context `{JSNumber}.
Variable localeCompare : string -> string -> Z.
Variable formatClock : DateTime -> string -> string.
Variable trim : string -> string.
Variable nowInZone : string -> option DateTime.
Variable atClock : DateTime -> Z -> Z -> DateTime.

Lemma roomCounts_tally (parsedRows : list ParsedRoomRow) (m : list (string * Z)) :
  fold_left (fun counts row =>
               match p_room row with
               | Some r => countRoom counts r
               | None => counts
               end) parsedRows m
  = fold_left countRoom (omap p_room parsedRows) m.
Proof.
  revert m. induction parsedRows as [|row l IH]; intros m; [reflexivity|].
  cbn [fold_left]. change (omap p_room (row :: l)) with
    (match p_room row with Some r => r :: omap p_room l | None => omap p_room l end).
  destruct (p_room row); cbn [fold_left]; apply IH.
Qed.

Lemma roomsEntered_parse (table : list RoomRow) (tz : string) :
  roomsEntered (parseRuntimeTable trim nowInZone atClock table tz) = omap p_room (sanitiseRows trim table).
Proof.
  unfold roomsEntered. cbn [parseRuntimeTable rows].
  induction (sanitiseRows trim table) as [|row l IH]; [reflexivity|].
  cbn [map]. change (omap p_room (?x :: ?l)) with
    (match p_room x with Some r => r :: omap p_room l | None => omap p_room l end).
  cbn [enrichRow p_room]. now rewrite IH.
Qed.

Lemma duplicateRooms_spec (table : list RoomRow) (tz : string) :
  let parseResult := parseRuntimeTable trim nowInZone atClock table tz in
  (forall k, In k (duplicateRooms parseResult) <->
             (2 <= occurrences k (roomsEntered parseResult))%nat) /\
  NoDup (duplicateRooms parseResult) /\
  (duplicateRooms parseResult = [] <-> NoDup (roomsEntered parseResult)) /\
  (duplicateRooms parseResult = [] -> NoDup (map room (assignmentRows parseResult))).
Proof.
  intros parseResult.
  assert (Hrooms : roomsEntered parseResult = omap p_room (sanitiseRows trim table))
    by apply roomsEntered_parse.
  set (ks := roomsEntered parseResult) in *.
  assert (Hdup : duplicateRooms parseResult =
                 map fst (List.filter (fun e => 1 <? snd e) (fold_left countRoom ks []))).
  { subst parseResult. cbn [parseRuntimeTable duplicateRooms].
    now rewrite roomCounts_tally, Hrooms. }
  destruct (tally_spec ks [] ltac:(constructor)) as [Hkeys Hcount].
  set (m := fold_left countRoom ks []) in *.
  assert (Hin : forall k, In k (duplicateRooms parseResult) <-> (2 <= occurrences k ks)%nat).
  { intros k. rewrite Hdup, in_map_iff. split.
    - intros ([a c] & <- & He). apply filter_In in He as [He Hc]. cbn [fst snd] in *.
      apply Z.ltb_lt in Hc. pose proof (countOf_In m a c Hkeys He) as Hco.
      rewrite Hcount in Hco. change (countOf [] a) with 0 in Hco. lia.
    - intros Hocc. exists (k, countOf m k). split; [reflexivity|].
      pose proof (Hcount k) as Hco. change (countOf [] k) with 0 in Hco.
      apply filter_In. split; [apply countOf_find; lia|].
      cbn [snd]. apply Z.ltb_lt. lia. }
  assert (Hnodup : duplicateRooms parseResult = [] <-> NoDup ks).
  { rewrite NoDup_occurrences. split.
    - intros Hnil k. destruct (le_lt_dec (occurrences k ks) 1) as [Hle|Hgt]; [exact Hle|].
      assert (Hk : In k (duplicateRooms parseResult)) by (apply Hin; lia).
      rewrite Hnil in Hk. destruct Hk.
    - intros Hall. destruct (duplicateRooms parseResult) as [|k l] eqn:Hd; [reflexivity|].
      assert (Hk : In k (k :: l)) by now left.
      apply Hin in Hk. specialize (Hall k). lia. }
  split; [exact Hin|]. split; [|split; [exact Hnodup|]].
  - rewrite Hdup. now apply NoDup_map_filter.
  - intros Hnil. apply Hnodup in Hnil. unfold ks, roomsEntered in Hnil.
    subst parseResult. cbn [parseRuntimeTable rows assignmentRows] in *.
    induction (map (enrichRow trim nowInZone atClock tz (isValidTimeZone trim nowInZone tz))
                   (sanitiseRows trim table)) as [|row l IH]; [constructor|].
    change (omap p_room (row :: l)) with
      (match p_room row with Some r => r :: omap p_room l | None => omap p_room l end)
      in Hnil.
    change (omap toAssignmentRow (row :: l)) with
      (match toAssignmentRow row with
       | Some a => a :: omap toAssignmentRow l
       | None => omap toAssignmentRow l
       end).
    unfold toAssignmentRow at 1.
    destruct (p_room row) as [r|]; [|now apply IH].
    apply NoDup_cons in Hnil as [Hr Hnil].
    destruct (p_timeParsed row) as [t|]; [|now apply IH].
    cbn [map room]. apply NoDup_cons. split; [|now apply IH].
    intros Hin'. apply Hr. apply list_elem_of_In. apply list_elem_of_In in Hin'.
    apply in_map_iff in Hin' as (a & Ha & Hin').
    apply list_elem_of_In, list_elem_of_omap in Hin' as (p & Hp & Hpa).
    apply list_elem_of_In, list_elem_of_omap. exists p. split; [exact Hp|].
    unfold toAssignmentRow in Hpa.
    destruct (p_room p) as [r'|]; [|discriminate].
    destruct (p_timeParsed p); [|discriminate].
    injection Hpa as <-. cbn [room] in Ha. now subst.
Qed.

(** X21. [duplicateRooms] lists exactly the room ids that occur in more
    than one sanitised row, each once; it is empty exactly when the room
    ids entered are pairwise distinct, and then the rows handed to the engine have
    pairwise distinct room ids. *)
Theorem duplicateRooms_are_the_repeated_rooms (table : list RoomRow) (tz : string) :
  let parseResult := parseRuntimeTable trim nowInZone atClock table tz in
  (forall k, In k (duplicateRooms parseResult) <->
             (2 <= occurrences k (roomsEntered parseResult))%nat) /\
  NoDup (duplicateRooms parseResult) /\
  (duplicateRooms parseResult = [] <-> NoDup (roomsEntered parseResult)) /\
  (duplicateRooms parseResult = [] -> NoDup (map room (assignmentRows parseResult))).
Proof. exact (duplicateRooms_spec table tz). Qed.

Lemma In_omap_p_room (l : list ParsedRoomRow) (k : string) :
  In k (omap p_room l) <-> exists p, In p l /\ p_room p = Some k.
Proof.
  rewrite <- list_elem_of_In, list_elem_of_omap. split.
  - intros (p & Hp & Hk). exists p. now rewrite <- list_elem_of_In.
  - intros (p & Hp & Hk). exists p. now rewrite list_elem_of_In.
Qed.

Lemma In_rows_parse (table : list RoomRow) (tz : string) (p : ParsedRoomRow) :
  In p (rows (parseRuntimeTable trim nowInZone atClock table tz)) <->
  exists s, In s (sanitiseRows trim table) /\
            p = enrichRow trim nowInZone atClock tz (isValidTimeZone trim nowInZone tz) s.
Proof.
  cbn [parseRuntimeTable rows]. rewrite in_map_iff. split.
  - intros (s & <- & Hs). eauto.
  - intros (s & Hs & ->). eauto.
Qed.

Lemma invalidRooms_spec (table : list RoomRow) (tz : string) :
  let parseResult := parseRuntimeTable trim nowInZone atClock table tz in
  (forall k, In k (invalidRooms parseResult) <->
             In k (roomsEntered parseResult) /\ ~ In k canonicalRooms) /\
  NoDup (invalidRooms parseResult) /\
  (invalidRooms parseResult = [] ->
   forall r, In r (assignmentRows parseResult) -> isValidRoom (Some (room r)) = true) /\
  (forall t, In t (invalidTimes parseResult) <->
             timezoneValid parseResult = true /\
             exists p, In p (rows parseResult) /\ p_time p = Some t /\
                       p_timeParsed p = None) /\
  NoDup (invalidTimes parseResult).
Proof.
  intros parseResult.
  assert (Hin : forall k, In k (invalidRooms parseResult) <->
                  In k (roomsEntered parseResult) /\ ~ In k canonicalRooms).
  { intros k. subst parseResult. unfold roomsEntered.
    cbn [parseRuntimeTable invalidRooms rows].
    rewrite (proj2 (firstOccurrences_spec _)), !In_omap_p_room. split.
    - intros (p & Hp & Hk). apply filter_In in Hp as [Hp Hbad].
      split; [eauto|]. apply andb_true_iff in Hbad as [_ Hbad].
      apply negb_true_iff in Hbad.
      apply in_map_iff in Hp as (s & <- & Hs). cbn [enrichRow roomOk p_room] in *.
      rewrite Hk in Hbad. now apply includes_false.
    - intros [(p & Hp & Hk) Hbad]. exists p. split; [|exact Hk].
      apply filter_In. split; [exact Hp|]. rewrite Hk.
      apply andb_true_iff. split; [apply bool_decide_eq_true_2; eauto|].
      apply negb_true_iff.
      apply in_map_iff in Hp as (s & <- & Hs). cbn [enrichRow roomOk p_room] in *.
      rewrite Hk. now apply includes_false. }
  split; [exact Hin|]. split; [|split; [|split]].
  - subst parseResult. cbn [parseRuntimeTable invalidRooms]. apply firstOccurrences_spec.
  - intros Hnil r Hr.
    assert (Hk : In (room r) (roomsEntered parseResult)).
    { subst parseResult. unfold roomsEntered. cbn [parseRuntimeTable rows assignmentRows] in *.
      apply list_elem_of_In, list_elem_of_omap in Hr as (p & Hp & Hpr).
      apply In_omap_p_room. exists p. split; [now apply list_elem_of_In|].
      unfold toAssignmentRow in Hpr. destruct (p_room p); [|discriminate].
      destruct (p_timeParsed p); [|discriminate]. now injection Hpr as <-. }
    destruct (isValidRoom_roster (room r)) as [Hvalid _].
    apply Hvalid.
    destruct (includes canonicalRooms (room r)) eqn:Hinc; [now apply includes_In|].
    exfalso. apply includes_false in Hinc.
    assert (Hbad : In (room r) (invalidRooms parseResult)) by (apply Hin; auto).
    rewrite Hnil in Hbad. destruct Hbad.
  - intros t. subst parseResult. cbn [parseRuntimeTable invalidTimes rows timezoneValid].
    destruct (isValidTimeZone trim nowInZone tz) eqn:Htz.
    + rewrite (proj2 (firstOccurrences_spec _)).
      rewrite <- list_elem_of_In, list_elem_of_omap. split.
      * intros (p & Hp & Ht). apply list_elem_of_In, filter_In in Hp as [Hp Hbad].
        split; [reflexivity|]. exists p. split; [exact Hp|]. split; [exact Ht|].
        apply andb_true_iff in Hbad as [_ Hbad]. apply negb_true_iff in Hbad.
        apply in_map_iff in Hp as (s & <- & Hs). cbn [enrichRow timeOk p_timeParsed] in *.
        apply bool_decide_eq_false_1 in Hbad.
        destruct (match p_time s with Some t0 => _ | None => None end); [|reflexivity].
        exfalso. apply Hbad. eauto.
      * intros (_ & p & Hp & Ht & Hnone). exists p. split; [|exact Ht].
        apply list_elem_of_In, filter_In. split; [exact Hp|]. rewrite Ht.
        apply andb_true_iff. split; [apply bool_decide_eq_true_2; eauto|].
        apply negb_true_iff.
        apply in_map_iff in Hp as (s & <- & Hs). cbn [enrichRow timeOk p_timeParsed] in *.
        rewrite Hnone. apply bool_decide_eq_false_2. intros [x Hx]. discriminate.
    + split; [intros [] | intros [Hfalse _]; discriminate].
  - subst parseResult. cbn [parseRuntimeTable invalidTimes].
    destruct (isValidTimeZone trim nowInZone tz); [apply firstOccurrences_spec | constructor].
Qed.

(** X22. [invalidRooms] lists exactly the room ids entered that are not
    in the roster, each once; when it is empty every room handed to the
    engine is a room of the roster.  [invalidTimes] lists the time texts of
    the rows whose time could not be read, each once, and nothing when the
    time zone itself is invalid. *)
Theorem invalidRooms_are_the_rooms_off_the_roster (table : list RoomRow) (tz : string) :
  let parseResult := parseRuntimeTable trim nowInZone atClock table tz in
  (forall k, In k (invalidRooms parseResult) <->
             In k (roomsEntered parseResult) /\ ~ In k canonicalRooms) /\
  NoDup (invalidRooms parseResult) /\
  (invalidRooms parseResult = [] ->
   forall r, In r (assignmentRows parseResult) -> isValidRoom (Some (room r)) = true) /\
  (forall t, In t (invalidTimes parseResult) <->
             timezoneValid parseResult = true /\
             exists p, In p (rows parseResult) /\ p_time p = Some t /\
                       p_timeParsed p = None) /\
  NoDup (invalidTimes parseResult).
Proof. exact (invalidRooms_spec table tz). Qed.

Lemma In_imap_sanitiseRow (table : list RoomRow) (p : ParsedRoomRow) :
  In p (imap (sanitiseRow trim) table) <->
  exists row, table !! rowIndex p = Some row /\ p = sanitiseRow trim (rowIndex p) row.
Proof.
  rewrite <- list_elem_of_In, elem_of_lookup_imap. split.
  - intros (i & row & -> & Hrow). exists row. cbn [sanitiseRow rowIndex]. auto.
  - intros (row & Hrow & Hp). exists (rowIndex p), row. auto.
Qed.

Lemma imap_sanitiseRow_sorted (table : list RoomRow) (k : nat) :
  StronglySorted (fun a b => (rowIndex a < rowIndex b)%nat)
    (imap (fun i => sanitiseRow trim (k + i)) table).
Proof.
  revert k. induction table as [|row table IH]; intros k; [constructor|].
  rewrite imap_cons. constructor.
  - assert (Hext : imap ((fun i => sanitiseRow trim (k + i)) ∘ S) table =
                   imap (fun i => sanitiseRow trim (S k + i)) table).
    { apply imap_ext. intros i x _. cbn. f_equal. lia. }
    rewrite Hext. apply IH.
  - apply List.Forall_forall. intros y Hy.
    apply list_elem_of_In, elem_of_lookup_imap in Hy as (i & x & -> & _).
    cbn [sanitiseRow rowIndex compose]. lia.
Qed.

(** X23. [sanitiseRows] keeps exactly the table rows that have a room, a
    time or a tag after trimming, in table order: a kept row is the
    sanitised form of the table row at its [rowIndex], the row indices are
    strictly increasing, and a table of blank rows leaves nothing (when
    trimming the empty text gives the empty text). *)
Theorem sanitiseRows_keeps_the_rows_with_content (table : list RoomRow) :
  let parsed := sanitiseRows trim table in
  (forall p, In p parsed <->
     exists row, table !! rowIndex p = Some row /\
                 p = sanitiseRow trim (rowIndex p) row /\ hasContent p = true) /\
  StronglySorted (fun a b => (rowIndex a < rowIndex b)%nat) parsed /\
  (forall p, In p parsed ->
     p_room p <> Some "" /\ p_time p <> Some "" /\ p_timeParsed p = None) /\
  (trim "" = "" -> forall n, sanitiseRows trim (replicate n createEmptyRow) = []).
Proof.
  intros parsed. subst parsed. unfold sanitiseRows.
  assert (Hin : forall p, In p (List.filter hasContent (imap (sanitiseRow trim) table)) <->
            exists row, table !! rowIndex p = Some row /\
                        p = sanitiseRow trim (rowIndex p) row /\ hasContent p = true).
  { intros p. rewrite filter_In, In_imap_sanitiseRow. split.
    - intros [(row & Hrow & Hp) Hc]. eauto.
    - intros (row & Hrow & Hp & Hc). eauto. }
  split; [exact Hin|]. split; [|split].
  - apply (StronglySorted_filter (fun a b => (rowIndex a < rowIndex b)%nat)); [auto|].
    apply (imap_sanitiseRow_sorted table 0).
  - intros p Hp. apply Hin in Hp as (row & _ & -> & _).
    cbn [sanitiseRow p_room p_time p_timeParsed]. unfold orNull.
    split; [|split; [|reflexivity]].
    + destruct (String.eqb_spec (trim (rr_room row)) ""); congruence.
    + destruct (String.eqb_spec (trim (rr_time row)) ""); congruence.
  - intros Hempty n. apply filter_nil_iff. intros p Hp.
    apply In_imap_sanitiseRow in Hp as (row & Hrow & ->).
    apply list_elem_of_lookup_2, elem_of_replicate_inv in Hrow. subst row.
    unfold hasContent. cbn [sanitiseRow p_room p_time p_labels createEmptyRow rr_room rr_time].
    rewrite Hempty. reflexivity.
Qed.

Lemma NoDup_omap_inj {A} (f : A -> option string) (l : list A) (a b : A) (k : string) :
  NoDup (omap f l) -> In a l -> In b l -> f a = Some k -> f b = Some k -> a = b.
Proof.
  induction l as [|x l IH]; intros Hnd Ha Hb Hfa Hfb; [destruct Ha|].
  change (omap f (x :: l)) with
    (match f x with Some y => y :: omap f l | None => omap f l end) in Hnd.
  assert (Hrest : forall c, In c l -> f c = Some k -> In k (omap f l)).
  { intros c Hc Hfc. apply list_elem_of_In, list_elem_of_omap. exists c.
    split; [now apply list_elem_of_In | exact Hfc]. }
  destruct Ha as [-> | Ha], Hb as [-> | Hb]; [reflexivity | | |].
  - rewrite Hfa in Hnd. apply NoDup_cons in Hnd as [Hk _].
    exfalso. apply Hk, list_elem_of_In. now apply (Hrest b).
  - rewrite Hfb in Hnd. apply NoDup_cons in Hnd as [Hk _].
    exfalso. apply Hk, list_elem_of_In. now apply (Hrest a).
  - apply IH; auto. destruct (f x); [now apply NoDup_cons in Hnd as [_ Hnd] | exact Hnd].
Qed.

Lemma canAssign_true (tz : string) (parseResult : ParseResult) :
  canAssign tz parseResult = true <->
  timezoneValid parseResult = true /\ duplicateRooms parseResult = [] /\
  invalidRooms parseResult = [] /\ invalidTimes parseResult = [] /\
  both24Count parseResult = 0%nat /\ assignmentRows parseResult <> [].
Proof.
  unfold canAssign, validationMessages.
  destruct (timezoneValid parseResult), (duplicateRooms parseResult),
    (invalidRooms parseResult), (invalidTimes parseResult), (both24Count parseResult),
    (assignmentRows parseResult); cbn; intuition congruence.
Qed.

(** X24. The gate of the application establishes what the engine needs.
    Whenever [canAssign] holds, that is when no validation message is
    raised and a row is left to assign, the rows handed to the engine are
    not empty, have pairwise distinct room ids that are all rooms of the
    roster (so they are at most 26), and none is tagged both under_24 and
    over_24; a room entered in the table is among them exactly when its row
    has a time, so a row with a room and no time is left out without a
    message.  The table is read in the zone [debouncedTimezone]; the gate
    and the engine are given [timezone].  The gate does not look at the
    nurse count: for a whole number [N >= 1] of nurses the call
    [assignRooms(parseResult.assignmentRows, N, timezone)] that
    [pendingAssignment] makes returns a result, never an error, which
    places every one of these rooms once and gives each nurse the planned
    number of rooms. *)
Theorem engine_runs_on_validated_rows (table : list RoomRow)
    (debouncedTimezone timezone : string) (N : nat) :
  let parseResult := parseRuntimeTable trim nowInZone atClock table debouncedTimezone in
  canAssign timezone parseResult = true -> (1 <= N)%nat ->
  NoDup (map room (assignmentRows parseResult)) /\
  (forall r, In r (assignmentRows parseResult) ->
     In (room r) canonicalRooms /\
     ~ (isY (under_24 (labels r)) = true /\ isY (over_24 (labels r)) = true)) /\
  (1 <= length (assignmentRows parseResult) <= 26)%nat /\
  (forall p k, In p (rows parseResult) -> p_room p = Some k ->
     (In k (map room (assignmentRows parseResult)) <-> is_Some (p_time p))) /\
  exists res,
    assignRooms localeCompare formatClock (assignmentRows parseResult) N timezone
      = Ok res /\
    Permutation (map pr_room (perRoom res)) (map room (assignmentRows parseResult)) /\
    map n_rooms (perNurse res) =
      map capacity (plannedCapacities (assignmentRows parseResult) N).
Proof.
  intros parseResult Hcan HN.
  pose proof Hcan as Hgate.
  apply canAssign_true in Hgate as (Htz & Hdup & Hbadrooms & Hbadtimes & Hboth & Hne).
  destruct (duplicateRooms_spec table debouncedTimezone) as (_ & _ & Hnodup & Hdistinct).
  fold parseResult in Hnodup, Hdistinct.
  pose proof (Hdistinct Hdup) as Hnd. apply Hnodup in Hdup.
  assert (Hrow : forall r, In r (assignmentRows parseResult) ->
            exists p, In p (rows parseResult) /\ p_room p = Some (room r) /\
                      p_timeParsed p = Some (timeParsed r) /\ labels r = p_labels p).
  { intros r Hr. subst parseResult. cbn [parseRuntimeTable assignmentRows rows] in *.
    apply list_elem_of_In, list_elem_of_omap in Hr as (p & Hp & Hpr).
    exists p. split; [now apply list_elem_of_In|].
    unfold toAssignmentRow in Hpr. destruct (p_room p); [|discriminate].
    destruct (p_timeParsed p); [|discriminate]. now injection Hpr as <-. }
  assert (Hroster : forall r, In r (assignmentRows parseResult) -> In (room r) canonicalRooms).
  { intros r Hr. apply isValidRoom_roster.
    destruct (invalidRooms_spec table debouncedTimezone) as (_ & _ & Hvalid & _).
    fold parseResult in Hvalid. now apply Hvalid. }
  split; [exact Hnd|]. split; [|split; [|split]].
  - intros r Hr. split; [now apply Hroster|]. intros [Hu Ho].
    destruct (Hrow r Hr) as (p & Hp & _ & _ & Hl).
    assert (Hb : In p (List.filter both24 (rows parseResult))).
    { apply filter_In. split; [exact Hp|].
      subst parseResult. cbn [parseRuntimeTable rows] in Hp.
      apply in_map_iff in Hp as (s & <- & _). cbn [enrichRow both24 p_labels] in *.
      rewrite <- Hl. now rewrite Hu, Ho. }
    subst parseResult. cbn [parseRuntimeTable both24Count rows] in *.
    destruct (List.filter both24 _); [destruct Hb | discriminate].
  - split.
    + destruct (assignmentRows parseResult); [congruence | cbn; lia].
    + rewrite <- (length_map room).
      change 26%nat with (length canonicalRooms).
      apply NoDup_incl_length; [now apply NoDup_ListNoDup|].
      intros k Hk. apply in_map_iff in Hk as (r & <- & Hr). now apply Hroster.
  - intros p k Hp Hk. split.
    + intros Hin. apply in_map_iff in Hin as (r & Hr & Hin).
      destruct (Hrow r Hin) as (p' & Hp' & Hk' & Ht' & _).
      assert (p' = p).
      { apply (NoDup_omap_inj p_room (rows parseResult) p' p k); auto. congruence. }
      subst p'. subst parseResult. cbn [parseRuntimeTable rows] in Hp.
      apply in_map_iff in Hp as (s & <- & _). cbn [enrichRow p_time p_timeParsed] in *.
      destruct (p_time s); [eauto | discriminate].
    + intros [t Ht].
      destruct (p_timeParsed p) as [parsed|] eqn:Hparsed.
      * apply in_map_iff. exists {| room := k; timeParsed := parsed; labels := p_labels p |}.
        split; [reflexivity|]. subst parseResult.
        cbn [parseRuntimeTable assignmentRows rows] in *.
        apply list_elem_of_In, list_elem_of_omap. exists p.
        split; [now apply list_elem_of_In|]. unfold toAssignmentRow. now rewrite Hk, Hparsed.
      * exfalso.
        destruct (invalidRooms_spec table debouncedTimezone) as (_ & _ & _ & Htimes & _).
        fold parseResult in Htimes.
        assert (Hbad : In t (invalidTimes parseResult)).
        { apply Htimes. split; [exact Htz|]. eauto. }
        rewrite Hbadtimes in Hbad. destruct Hbad.
  - destruct (planned_quota_run localeCompare formatClock
                (assignmentRows parseResult) N timezone Hne Hnd HN)
      as (res & Hres & Hperm & Hq).
    exists res. auto.
Qed.

End ParserProofs.

(** ** Reading a clock text *)

Lemma charCode_digitChar (d : Z) :
  charCode (digitChar d) = 48 + d mod 10.
Proof.
  unfold charCode, digitChar.
  pose proof (Z.mod_pos_bound d 10 ltac:(lia)) as Hd.
  rewrite nat_ascii_embedding by lia. lia.
Qed.

Lemma isDigit_digitChar (d : Z) : isDigit (digitChar d) = true.
Proof.
  unfold isDigit. rewrite charCode_digitChar.
  pose proof (Z.mod_pos_bound d 10 ltac:(lia)) as Hd.
  apply andb_true_iff. split; apply Z.leb_le; lia.
Qed.

Lemma digitChar_charCode (c : ascii) (d : Z) :
  isDigit c = true -> d mod 10 = charCode c - 48 -> digitChar d = c.
Proof.
  unfold isDigit, digitChar. intros Hc Hd. apply andb_true_iff in Hc as [H1 H2].
  apply Z.leb_le in H1, H2. rewrite Hd. unfold charCode in *.
  replace (48 + Z.to_nat (Z.of_nat (nat_of_ascii c) - 48))%nat with (nat_of_ascii c) by lia.
  apply ascii_nat_embedding.
Qed.

Lemma clock_text (h m : Z) :
  pad2 h +:+ ":" +:+ pad2 m =
  String (digitChar (h / 10)) (String (digitChar h)
    (String ":" (String (digitChar (m / 10)) (String (digitChar m) EmptyString)))).
Proof. reflexivity. Qed.

Lemma short_clock_text (h m : Z) :
  String (digitChar h) (":" +:+ pad2 m) =
  String (digitChar h)
    (String ":" (String (digitChar (m / 10)) (String (digitChar m) EmptyString))).
Proof. reflexivity. Qed.

Lemma two_digits (n : Z) :
  0 <= n <= 99 -> ((0 * 10 + (n / 10) mod 10) * 10 + n mod 10) = n.
Proof.
  intros Hn. pose proof (Z.div_mod n 10 ltac:(lia)) as Hd.
  pose proof (Z.mod_pos_bound n 10 ltac:(lia)) as Hb.
  assert (0 <= n / 10 <= 9) by lia.
  rewrite (Z.mod_small (n / 10) 10) by lia. lia.
Qed.

Section ClockProofs.
Variable trim : string -> string.
Variable nowInZone : string -> option DateTime.
Variable atClock : DateTime -> Z -> Z -> DateTime.

Lemma matchClock_two_digit_hour (h m : Z) :
  0 <= h <= 99 -> 0 <= m <= 99 ->
  matchClock (pad2 h +:+ ":" +:+ pad2 m) = Some (h, m).
Proof.
  intros Hh Hm. rewrite clock_text. cbn [matchClock].
  rewrite !isDigit_digitChar. cbn [andb Ascii.eqb Bool.eqb]. cbn.
  unfold digitsValue. cbn [fold_left]. rewrite !charCode_digitChar.
  f_equal. f_equal.
  - pose proof (two_digits h Hh). lia.
  - pose proof (two_digits m Hm). lia.
Qed.

Lemma matchClock_one_digit_hour (h m : Z) :
  0 <= h <= 9 -> 0 <= m <= 99 ->
  matchClock (String (digitChar h) (":" +:+ pad2 m)) = Some (h, m).
Proof.
  intros Hh Hm. rewrite short_clock_text. cbn [matchClock].
  rewrite !isDigit_digitChar. cbn [andb Ascii.eqb Bool.eqb]. cbn.
  unfold digitsValue. cbn [fold_left]. rewrite !charCode_digitChar.
  f_equal. f_equal.
  - rewrite Z.mod_small by lia. lia.
  - pose proof (two_digits m Hm). lia.
Qed.

Lemma matchClock_Some (text : string) (h m : Z) :
  matchClock text = Some (h, m) ->
  0 <= h <= 99 /\ 0 <= m <= 99 /\
  (text = pad2 h +:+ ":" +:+ pad2 m \/
   (h <= 9 /\ text = String (digitChar h) (":" +:+ pad2 m))).
Proof.
  unfold matchClock.
  destruct text as [|c1 [|c2 [|c3 [|c4 [|c5 [|c6 rest]]]]]]; try discriminate.
  - destruct (isDigit c1) eqn:H1; [|discriminate].
    destruct (Ascii.eqb_spec c2 ":") as [-> | Hc]; [|discriminate].
    destruct (isDigit c3) eqn:H3; [|discriminate].
    destruct (isDigit c4) eqn:H4; [|discriminate].
    cbn [andb]. unfold digitsValue. cbn [fold_left]. intros [= <- <-].
    pose proof H1 as B1. pose proof H3 as B3. pose proof H4 as B4.
    unfold isDigit in B1, B3, B4.
    apply andb_true_iff in B1 as [B1 B1'], B3 as [B3 B3'], B4 as [B4 B4'].
    apply Z.leb_le in B1, B1', B3, B3', B4, B4'.
    split; [lia|]. split; [lia|]. right. split; [lia|].
    rewrite short_clock_text. f_equal; [|f_equal; f_equal; [|f_equal]].
    + symmetry. apply digitChar_charCode; [exact H1|]. rewrite Z.mod_small by lia. lia.
    + symmetry. apply digitChar_charCode; [exact H3|].
      replace ((0 * 10 + (charCode c3 - 48)) * 10 + (charCode c4 - 48))
        with ((charCode c4 - 48) + (charCode c3 - 48) * 10) by lia.
      rewrite Z.div_add by lia. rewrite (Z.div_small (charCode c4 - 48)) by lia.
      rewrite Z.mod_small by lia. lia.
    + symmetry. apply digitChar_charCode; [exact H4|].
      replace ((0 * 10 + (charCode c3 - 48)) * 10 + (charCode c4 - 48))
        with ((charCode c4 - 48) + (charCode c3 - 48) * 10) by lia.
      rewrite Z.mod_add by lia. rewrite Z.mod_small by lia. lia.
  - destruct (isDigit c1) eqn:H1; [|discriminate].
    destruct (isDigit c2) eqn:H2; [|discriminate].
    destruct (Ascii.eqb_spec c3 ":") as [-> | Hc]; [|discriminate].
    destruct (isDigit c4) eqn:H4; [|discriminate].
    destruct (isDigit c5) eqn:H5; [|discriminate].
    cbn [andb]. unfold digitsValue. cbn [fold_left]. intros [= <- <-].
    pose proof H1 as B1. pose proof H2 as B2. pose proof H4 as B4. pose proof H5 as B5.
    unfold isDigit in B1, B2, B4, B5.
    apply andb_true_iff in B1 as [B1 B1'], B2 as [B2 B2'], B4 as [B4 B4'], B5 as [B5 B5'].
    apply Z.leb_le in B1, B1', B2, B2', B4, B4', B5, B5'.
    split; [lia|]. split; [lia|]. left.
    rewrite clock_text. f_equal; [|f_equal; [|f_equal; f_equal; [|f_equal]]].
    + symmetry. apply digitChar_charCode; [exact H1|].
      replace ((0 * 10 + (charCode c1 - 48)) * 10 + (charCode c2 - 48))
        with ((charCode c2 - 48) + (charCode c1 - 48) * 10) by lia.
      rewrite Z.div_add by lia. rewrite (Z.div_small (charCode c2 - 48)) by lia.
      rewrite Z.mod_small by lia. lia.
    + symmetry. apply digitChar_charCode; [exact H2|].
      replace ((0 * 10 + (charCode c1 - 48)) * 10 + (charCode c2 - 48))
        with ((charCode c2 - 48) + (charCode c1 - 48) * 10) by lia.
      rewrite Z.mod_add by lia. rewrite Z.mod_small by lia. lia.
    + symmetry. apply digitChar_charCode; [exact H4|].
      replace ((0 * 10 + (charCode c4 - 48)) * 10 + (charCode c5 - 48))
        with ((charCode c5 - 48) + (charCode c4 - 48) * 10) by lia.
      rewrite Z.div_add by lia. rewrite (Z.div_small (charCode c5 - 48)) by lia.
      rewrite Z.mod_small by lia. lia.
    + symmetry. apply digitChar_charCode; [exact H5|].
      replace ((0 * 10 + (charCode c4 - 48)) * 10 + (charCode c5 - 48))
        with ((charCode c5 - 48) + (charCode c4 - 48) * 10) by lia.
      rewrite Z.mod_add by lia. rewrite Z.mod_small by lia. lia.
Qed.

(** X25. [parseTimeToday] accepts exactly the clock texts: it returns a
    time iff, after trimming, the text is an hour from 0 to 23 written with
    one or two digits, a colon and a minute from 00 to 59 written with two
    digits, and the time zone is valid; the time is then the start of the
    anchor day plus that many hours and minutes.  So every text [HH:mm] that [formatClock] can show is
    read back as the hour and minute it shows, and texts such as 24:00,
    12:60 or 7.30 are refused. *)
Theorem parseTimeToday_accepts_clock_texts (text tz : string) (t : DateTime) :
  parseTimeToday trim nowInZone atClock text tz = Some t <->
  exists h m anchor,
    0 <= h <= 23 /\ 0 <= m <= 59 /\
    (trim text = pad2 h +:+ ":" +:+ pad2 m \/
     (h <= 9 /\ trim text = String (digitChar h) (":" +:+ pad2 m))) /\
    nowInZone tz = Some anchor /\ t = atClock anchor h m.
Proof.
  unfold parseTimeToday. split.
  - destruct (String.eqb_spec (trim text) "") as [Hempty | Hne]; [discriminate|].
    destruct (matchClock (trim text)) as [[h m]|] eqn:Hmatch; [|discriminate].
    destruct ((h <? 0) || (23 <? h) || (m <? 0) || (59 <? m)) eqn:Hrange; [discriminate|].
    destruct (nowInZone tz) as [anchor|]; [|discriminate].
    intros [= <-]. apply matchClock_Some in Hmatch as (_ & _ & Hform).
    apply orb_false_iff in Hrange as [Hrange H4].
    apply orb_false_iff in Hrange as [Hrange H3].
    apply orb_false_iff in Hrange as [H1 H2].
    apply Z.ltb_ge in H1, H2, H3, H4.
    exists h, m, anchor.
    split; [lia|]. split; [lia|]. split; [exact Hform|]. split; reflexivity.
  - intros (h & m & anchor & Hh & Hm & Hform & Hzone & ->).
    assert (Hmatch : matchClock (trim text) = Some (h, m)).
    { destruct Hform as [-> | [Hh9 ->]].
      - apply matchClock_two_digit_hour; lia.
      - apply matchClock_one_digit_hour; lia. }
    assert (Hne : String.eqb (trim text) "" = false).
    { destruct Hform as [-> | [_ ->]]; reflexivity. }
    rewrite Hne, Hmatch, Hzone.
    destruct (Z.ltb_spec h 0), (Z.ltb_spec 23 h), (Z.ltb_spec m 0), (Z.ltb_spec 59 m);
      try lia. reflexivity.
Qed.

End ClockProofs.

(** * The further properties at the scenarios *)

Lemma compareCodeUnits_range (a b : string) :
  -1 <= compareCodeUnits a b <= 1.
Proof.
  revert b. induction a as [|x a IH]; intros [|y b]; cbn [compareCodeUnits]; try lia.
  destruct (charCode x <? charCode y); [lia|].
  destruct (charCode y <? charCode x); [lia | apply IH].
Qed.

Lemma charCode_inj (x y : ascii) : charCode x = charCode y -> x = y.
Proof.
  unfold charCode. intros Hxy.
  rewrite <- (ascii_nat_embedding x), <- (ascii_nat_embedding y). f_equal. lia.
Qed.

Lemma compareCodeUnits_total (a b : string) :
  0 < compareCodeUnits a b -> compareCodeUnits b a <= 0.
Proof.
  revert b. induction a as [|x a IH]; intros [|y b]; cbn [compareCodeUnits]; try lia.
  destruct (Z.ltb_spec (charCode x) (charCode y)), (Z.ltb_spec (charCode y) (charCode x));
    try lia. apply IH.
Qed.

Lemma compareCodeUnits_antisym (a b : string) :
  compareCodeUnits a b <= 0 -> compareCodeUnits b a <= 0 -> a = b.
Proof.
  revert b. induction a as [|x a IH]; intros [|y b]; cbn [compareCodeUnits]; try lia.
  - reflexivity.
  - destruct (Z.ltb_spec (charCode x) (charCode y)), (Z.ltb_spec (charCode y) (charCode x));
      try lia.
    intros Hab Hba. f_equal; [apply charCode_inj; lia | now apply IH].
Qed.

Lemma compareCodeUnits_trans (a b c : string) :
  compareCodeUnits a b <= 0 -> compareCodeUnits b c <= 0 -> compareCodeUnits a c <= 0.
Proof.
  revert b c. induction a as [|x a IH]; intros [|y b] [|z c]; cbn [compareCodeUnits];
    try lia.
  destruct (Z.ltb_spec (charCode x) (charCode y)), (Z.ltb_spec (charCode y) (charCode x)),
    (Z.ltb_spec (charCode y) (charCode z)), (Z.ltb_spec (charCode z) (charCode y)),
    (Z.ltb_spec (charCode x) (charCode z)), (Z.ltb_spec (charCode z) (charCode x));
    try lia.
  apply IH.
Qed.

Lemma lookup_In {A} (l : list A) (i : nat) (x : A) : l !! i = Some x -> In x l.
Proof. intros Hx. apply list_elem_of_In. exact (list_elem_of_lookup_2 l i x Hx). Qed.

Lemma NoDup_scenarioPrevious : NoDup (map pr_room (perRoom scenarioPrevious)).
Proof. apply (bool_decide_unpack _). vm_compute. exact I. Defined.

Lemma NoDup_scenarioNext : NoDup (map pr_room (perRoom scenarioNext)).
Proof. apply (bool_decide_unpack _). vm_compute. exact I. Defined.

Lemma plainRoomIds_scenarioNext : plainRoomIds scenarioNext ∅.
Proof.
  split; [|reflexivity]. intros x Hx.
  assert (Hall : forallb (fun x => negb (includes objectPrototypeNames (pr_room x)))
                   (perRoom scenarioNext) = true) by (vm_compute; reflexivity).
  rewrite forallb_forall in Hall. apply negb_true_iff, Hall, Hx.
Defined.

Lemma run_scenarioNext : runAssignRooms dischargeScenario 3 = Ok scenarioNext.
Proof. vm_compute. reflexivity. Defined.

Lemma run_scenarioEngine : runAssignRoomsToState dischargeScenario 3 = Ok scenarioEngine.
Proof. vm_compute. reflexivity. Defined.

Lemma updateNurseState_effect_witness :
  sumZ (map nAssigned (updateNurseState 2 scenarioFirstRoom (state scenarioStart))) =
  sumZ (map nAssigned (state scenarioStart)) + 1.
Proof.
  destruct (@updateNurseState_effect QNumber 2 scenarioFirstRoom (state scenarioStart))
    as (_ & _ & _ & Hcount & _).
  apply Hcount. vm_compute. right. left. reflexivity.
Defined.

Lemma nurse_state_agrees_with_assignment_witness :
  stateAgrees (map deriveRoom dischargeScenario) scenarioEngine.
Proof.
  destruct (@nurse_state_agrees_with_assignment QNumber compareCodeUnits
              dischargeScenario 3 scenarioEngine NoDup_dischargeScenario ltac:(lia)
              run_scenarioEngine)
    as [Hsteps Hall].
  exact (Hall scenarioEngine Hsteps).
Defined.

Lemma every_nurse_gets_the_planned_quota_witness :
  exists res,
    runAssignRooms dischargeScenario 3 = Ok res /\
    map n_rooms (perNurse res) = [3; 3; 2].
Proof.
  destruct (@every_nurse_gets_the_planned_quota QNumber compareCodeUnits formatClockOwnZone
              dischargeScenario 3 TZ ltac:(discriminate) NoDup_dischargeScenario ltac:(lia))
    as (res & Hres & Hquota & _).
  exists res. split; [exact Hres | exact Hquota].
Defined.

Lemma discharge_rooms_are_dealt_in_turn_witness :
  exists es,
    runAssignRoomsToState dischargeScenario 3 = Ok es /\
    assignment es !! "7" = Some 1 /\ assignment es !! "11" = Some 3.
Proof.
  destruct (@discharge_rooms_are_dealt_in_turn QNumber compareCodeUnits
              dischargeScenario 3 NoDup_dischargeScenario ltac:(lia))
    as (es & Hrun & Hturn).
  - intros r Hr.
    assert (Hall : forallb (fun r : @DerivedRoom QNumber =>
                              negb (isY (bfi (d_labels r))) && negb (isY (cs (d_labels r))))
                     (sortByAgeThenTime compareCodeUnits
                        (List.filter (fun room => isY (discharge (d_labels room)))
                           (map deriveRoom dischargeScenario)) oldest) = true)
      by (vm_compute; reflexivity).
    rewrite forallb_forall in Hall. apply Hall, andb_true_iff in Hr as [Hbfi Hcs].
    apply negb_true_iff in Hbfi, Hcs. split; assumption.
  - exists es. split; [exact Hrun|]. split.
    + apply (Hturn 3%nat (deriveRoom (makeRow "7" 9 30 dischargeOnly))).
      vm_compute. reflexivity.
    + apply (Hturn 5%nat (deriveRoom (makeRow "11" 10 30 dischargeOnly))).
      vm_compute. reflexivity.
Defined.

Lemma scored_selection_takes_untagged_rooms_witness :
  exists es3,
    assignment es3 ⊆ assignment scenarioEngine /\
    forall r, In r (map deriveRoom dischargeScenario) ->
      (Map_has (assignment es3) (d_room r) = true <-> phaseTagged r = true).
Proof.
  destruct (@scored_selection_takes_untagged_rooms QNumber compareCodeUnits
              dischargeScenario 3 scenarioEngine NoDup_dischargeScenario ltac:(lia)
              run_scenarioEngine)
    as (es1 & es2 & es3 & _ & _ & _ & _ & Htagged & _ & _ & Hsub & _).
  exists es3. split; [exact Hsub | exact Htagged].
Defined.

Lemma perRoom_is_ordered_by_nurse_then_rank_witness :
  StronglySorted perRoomOrder (perRoom scenarioNext).
Proof.
  exact (proj1 (@perRoom_is_ordered_by_nurse_then_rank QNumber compareCodeUnits
                  formatClockOwnZone dischargeScenario 3 TZ scenarioNext
                  run_scenarioNext)).
Defined.

Lemma rank_columns_describe_the_oldest_room_witness :
  exists row,
    perNurse scenarioNext !! 1%nat = Some row /\
    forall col, 0 <= labelCount col row <= n_rooms row.
Proof.
  destruct (perNurse scenarioNext !! 1%nat) as [row|] eqn:Hrow;
    [|vm_compute in Hrow; discriminate].
  exists row. split; [reflexivity|].
  apply (@rank_columns_describe_the_oldest_room QNumber compareCodeUnits
           formatClockOwnZone dischargeScenario 3 TZ scenarioNext row run_scenarioNext).
  exact (lookup_In _ _ _ Hrow).
Defined.

Lemma scoredFirst_total_exact (a b : @Scored QNumber) :
  scoredFirst a b \/ scoredFirst b a.
Proof.
  rewrite !scoredFirst_iff.
  destruct (Z.lt_ge_cases 0 (compareScored a b)) as [Hpos | Hle]; [right | left; lia].
  apply scoredBefore_le, compareScored_gt, Hpos.
Qed.

Lemma scoredFirst_trans_exact (a b c : @Scored QNumber) :
  scoredFirst a b -> scoredFirst b c -> scoredFirst a c.
Proof.
  rewrite !scoredFirst_iff. intros Hab Hbc.
  apply scoredBefore_le, (scoredBefore_trans a b c); now apply compareScored_le.
Qed.

Lemma pickNurse_picks_the_lowest_score_witness :
  exists v chosen,
    pickNurse scenarioFirstRoom (state scenarioStart)
      (plannedCapacities dischargeScenario 3)
      (Map_of_entries (map (fun cap => (cap_nurseId cap, capacity cap))
                         (plannedCapacities dischargeScenario 3))) = Ok v /\
    In chosen (state scenarioStart) /\ 0 < remaining chosen /\ nurseId chosen = v.
Proof.
  pose proof (@pickNurse_picks_the_lowest_score QNumber scenarioFirstRoom
                (state scenarioStart) (plannedCapacities dischargeScenario 3)
                (Map_of_entries (map (fun cap => (cap_nurseId cap, capacity cap))
                                   (plannedCapacities dischargeScenario 3)))
                (fun a b _ _ => scoredFirst_total_exact _ _)
                (fun a b c _ _ _ => scoredFirst_trans_exact _ _ _)) as Hpick.
  destruct (pickNurse _ _ _ _) as [v|e] eqn:Hrun; [|vm_compute in Hrun; discriminate].
  destruct Hpick as (chosen & [Hin Hcap] & Hid & _).
  exists v, chosen. split; [reflexivity|]. split; [exact Hin|]. split; [exact Hcap | exact Hid].
Defined.

Lemma assignment_ignores_row_order_witness :
  runAssignRoomsToState tieScenario 2 = runAssignRoomsToState (rev tieScenario) 2.
Proof.
  destruct (@assignment_ignores_row_order QNumber compareCodeUnits formatClockOwnZone
              compareCodeUnits_total compareCodeUnits_trans compareCodeUnits_antisym
              tieScenario (rev tieScenario) 2 TZ NoDup_tieScenario
              (Permutation_rev tieScenario))
    as (_ & Hrun & _).
  exact Hrun.
Defined.

Lemma roomGroupKey_cases_witness :
  roomGroupKey (Some "14-1") = Some "14".
Proof.
  destruct (roomGroupKey_cases "14-1") as (_ & _ & _ & Hbay).
  apply (Hbay "14" "1"). vm_compute. right. right. left. reflexivity.
Defined.

Lemma formatRoomLabel_marks_unknown_rooms_witness :
  formatRoomLabel "99" = "99 (unknown)".
Proof.
  destruct (formatRoomLabel_marks_unknown_rooms "99") as (_ & _ & _ & _ & Hunknown).
  apply Hunknown. vm_compute. reflexivity.
Defined.

Lemma ensureCountsLength_fits_witness :
  ensureCountsLength [Some 2] 3 !! 2%nat = Some (Some 0) /\
  countAt (ensureCountsLength [Some 2] 3) 0 = 2.
Proof.
  destruct (ensureCountsLength_fits [Some 2] 3) as (_ & _ & Hcell & Hcount & _).
  split.
  - apply (Hcell 2%nat). lia.
  - rewrite (Hcount 0) by lia. reflexivity.
Defined.

Lemma mergeAssignments_keeps_placed_rooms_witness :
  Permutation (map pr_room (perRoom (result scenarioMerge)))
              (map pr_room (perRoom scenarioNext)).
Proof.
  exact (proj1 (mergeAssignments_keeps_placed_rooms formatClockOwnZone scenarioPrevious
                  scenarioNext 3 TZ [Some 2; Some 1] ∅ plainRoomIds_scenarioNext
                  NoDup_scenarioPrevious NoDup_scenarioNext)).
Defined.

Lemma new_rooms_go_to_the_least_served_nurse_witness :
  exists x,
    perRoom (result scenarioMerge) !! 4%nat = Some x /\
    1 <= nurse_id x <= 3 /\
    countAt [Some 2; Some 1] (nurse_id x - 1) <= countAt [Some 2; Some 1] 1.
Proof.
  destruct (perRoom (result scenarioMerge) !! 4%nat) as [x|] eqn:Hx;
    [|vm_compute in Hx; discriminate].
  exists x. split; [reflexivity|].
  assert (Hin : In x (perRoom (result scenarioMerge))).
  { exact (lookup_In _ _ _ Hx). }
  vm_compute in Hx. injection Hx as <-.
  destruct (new_rooms_go_to_the_least_served_nurse formatClockOwnZone scenarioPrevious
              scenarioNext 3 TZ [Some 2; Some 1] ∅ _ plainRoomIds_scenarioNext
              ltac:(lia) Hin)
    as [Hrange Hleast].
  - vm_compute. intuition discriminate.
  - split; [exact Hrange|]. apply (Hleast 2). lia.
Defined.

Lemma serve_history_tracks_the_snapshot_witness :
  dom (updatedServedByRoom scenarioMerge) =
    list_to_set (map pr_room (perRoom (result scenarioMerge))) /\
  countAt [Some 2; Some 1] 2 <= countAt (updatedServedCounts scenarioMerge) 2.
Proof.
  destruct (serve_history_tracks_the_snapshot compareCodeUnits formatClockOwnZone
              (Some scenarioPrevious) scenarioNext 3 TZ [Some 2; Some 1] ∅
              plainRoomIds_scenarioNext)
    as (Hdom & _ & _ & _ & Hcounts).
  split; [exact Hdom|]. apply Hcounts. lia.
Defined.

Lemma snapshot_tables_agree_witness :
  perNurse (result scenarioMerge) =
  buildNurseSummary formatClockOwnZone (perRoom (result scenarioMerge)) 3 TZ.
Proof.
  exact (proj1 (@snapshot_tables_agree QNumber compareCodeUnits formatClockOwnZone
                  dischargeScenario 3 TZ (Some scenarioPrevious) scenarioNext
                  [Some 2; Some 1] ∅ plainRoomIds_scenarioNext ltac:(discriminate)
                  run_scenarioNext)).
Defined.

Lemma duplicateRooms_are_the_repeated_rooms_witness :
  In "1" (duplicateRooms (runParse faultyTable)) /\
  duplicateRooms (runParse scenarioTable) = [].
Proof.
  split.
  - destruct (duplicateRooms_are_the_repeated_rooms trimCodeUnits scenarioNow atClockOfDay
                faultyTable TZ) as (Hdup & _).
    apply Hdup. vm_compute. lia.
  - destruct (duplicateRooms_are_the_repeated_rooms trimCodeUnits scenarioNow atClockOfDay
                scenarioTable TZ) as (_ & _ & Hnone & _).
    apply Hnone. apply (bool_decide_unpack _). vm_compute. exact I.
Defined.

Lemma invalidRooms_are_the_rooms_off_the_roster_witness :
  In "99" (invalidRooms (runParse faultyTable)).
Proof.
  destruct (invalidRooms_are_the_rooms_off_the_roster trimCodeUnits scenarioNow atClockOfDay
              faultyTable TZ) as (Hbad & _).
  apply Hbad. split.
  - vm_compute. tauto.
  - vm_compute. intuition discriminate.
Defined.

Lemma sanitiseRows_keeps_the_rows_with_content_witness :
  sanitiseRows trimCodeUnits (replicate 3 createEmptyRow) = [].
Proof.
  destruct (sanitiseRows_keeps_the_rows_with_content trimCodeUnits scenarioTable)
    as (_ & _ & _ & Hblank).
  apply Hblank. reflexivity.
Defined.

Lemma engine_runs_on_validated_rows_witness :
  exists res,
    runAssignRooms (assignmentRows (runParse scenarioTable)) 2 = Ok res /\
    map n_rooms (perNurse res) = [2; 1].
Proof.
  destruct (@engine_runs_on_validated_rows QNumber compareCodeUnits formatClockOwnZone
              trimCodeUnits scenarioNow atClockOfDay scenarioTable TZ TZ 2)
    as (_ & _ & _ & _ & res & Hres & _ & Hquota).
  - vm_compute. reflexivity.
  - lia.
  - exists res. split; [exact Hres | exact Hquota].
Defined.

Lemma parseTimeToday_accepts_clock_texts_witness :
  exists t,
    parseTimeToday trimCodeUnits scenarioNow atClockOfDay " 9:30" TZ = Some t /\
    hour t = 9 /\ minute t = 30.
Proof.
  destruct (scenarioNow TZ) as [anchor|] eqn:Hnow; [|vm_compute in Hnow; discriminate].
  exists (atClockOfDay anchor 9 30). split; [|split; reflexivity].
  apply (parseTimeToday_accepts_clock_texts trimCodeUnits scenarioNow atClockOfDay).
  exists 9, 30, anchor. split; [lia|]. split; [lia|]. split.
  - right. split; [lia|]. vm_compute. reflexivity.
  - split; [exact Hnow | reflexivity].
Defined.

Lemma NoDup_bfiCsScenario : NoDup (map room bfiCsScenario).
Proof. apply (bool_decide_unpack _). vm_compute. exact I. Defined.

Lemma duplicates_avoided_when_possible_witness :
  exists res,
    runAssignRooms bfiCsScenario 3 = Ok res /\
    Forall (fun row => labelCount k_bfi row = 1 /\ labelCount k_cs row = 1) (perNurse res).
Proof.
  destruct (@duplicates_avoided_when_possible QNumber compareCodeUnits formatClockOwnZone
              bfiCsScenario 3 TZ NoDup_bfiCsScenario ltac:(lia))
    as (_ & _ & Hspread).
  apply Hspread.
  - intros row Hrow.
    assert (Hall : forallb (fun row =>
                              (isY (discharge (labels row)) || isY (under_24 (labels row))
                               || isY (over_24 (labels row)))
                              && oneOfBfiCs (labels row)) bfiCsScenario = true)
      by (vm_compute; reflexivity).
    rewrite forallb_forall in Hall. now apply andb_true_iff, Hall.
  - vm_compute. reflexivity.
  - vm_compute. reflexivity.
Defined.

Lemma discharge_rooms_are_spread_evenly_witness :
  exists res,
    runAssignRooms dischargeScenario 3 = Ok res /\
    map (labelCount k_discharge) (perNurse res) = [2; 2; 2].
Proof.
  destruct (@discharge_rooms_are_spread_evenly QNumber compareCodeUnits formatClockOwnZone
              (timeParsed (makeRow "1" 8 0 dischargeOnly))
              (timeParsed (makeRow "3" 8 30 dischargeOnly))
              (timeParsed (makeRow "5" 9 0 dischargeOnly))
              (timeParsed (makeRow "7" 9 30 dischargeOnly))
              (timeParsed (makeRow "9" 10 0 dischargeOnly))
              (timeParsed (makeRow "11" 10 30 dischargeOnly))
              (makeRow "14-1" 11 0 noLabels) (makeRow "14-2" 11 30 noLabels)
              dischargeScenario TZ)
    as (es & res & _ & Hres & _ & _ & Hcount).
  - vm_compute. reflexivity.
  - vm_compute. reflexivity.
  - vm_compute. reflexivity.
  - vm_compute. reflexivity.
  - vm_compute. reflexivity.
  - reflexivity.
  - reflexivity.
  - apply Permutation_refl.
  - exact NoDup_dischargeScenario.
  - exists res. split; [exact Hres | exact Hcount].
Defined.
